(** * Knowledge-graph pipeline: a shallow embedding of the TypeScript sources

    The development follows the source files one by one:
    utils/helpers.ts, database/schema.sql with database/queries.ts,
    ingestion/semantic-scholar.ts, and the four agents with their
    coordinator.  JavaScript strings are modelled by [string], exceptions by
    sums, tables by lists of rows, JavaScript [Set]s by [gset] and [Map]s by
    insertion-ordered association lists. *)

From Stdlib Require Import QArith Ascii String Sorting.Sorted.
From stdpp Require Import gmap strings list sets pretty.

Close Scope Q_scope.
Set Warnings "-clear-no-such-hyp,-register-all".

(* ===================================================================== *)
(** * utils/helpers.ts                                                    *)
(* ===================================================================== *)

(** ** Characters *)

Definition code (c : ascii) : nat := nat_of_ascii c.

Definition hyphen : ascii := "-"%char.

(** The character class [[a-z0-9]] of the first regular expression. *)
Definition is_key_char (c : ascii) : bool :=
  ((97 <=? code c) && (code c <=? 122)) || ((48 <=? code c) && (code c <=? 57)).

Definition is_hyphen (c : ascii) : bool := Ascii.eqb c hyphen.

(** [String.prototype.toLowerCase] on one code unit of the Latin-1 range:
    A-Z and the accented capitals U+00C0..U+00DE (but not the
    multiplication sign U+00D7) move up by 32.  Strings are sequences of
    these 8-bit code units; the code units above U+00FF, two of which
    (U+0130 and U+212A) have a lower-case form that is or begins with an
    ASCII letter, are outside the model, and what is stated about a name
    beyond its lower-cased form is stated for the strings of the model. *)
Definition lower_char (c : ascii) : ascii :=
  let n := code c in
  if ((65 <=? n) && (n <=? 90)) || ((192 <=? n) && (n <=? 222) && negb (n =? 215))
  then ascii_of_nat (n + 32) else c.

(** White space and line terminators removed by [String.prototype.trim]
    (tab, LF, VT, FF, CR, space, no-break space). *)
Definition is_space (c : ascii) : bool :=
  let n := code c in
  ((9 <=? n) && (n <=? 13)) || (n =? 32) || (n =? 160).

(** ** String primitives *)

Fixpoint toLowerCase (s : string) : string :=
  match s with
  | EmptyString => EmptyString
  | String c r => String (lower_char c) (toLowerCase r)
  end.

Fixpoint drop_leading (p : ascii -> bool) (s : string) : string :=
  match s with
  | EmptyString => EmptyString
  | String c r => if p c then drop_leading p r else s
  end.

Definition is_empty (s : string) : bool :=
  match s with EmptyString => true | String _ _ => false end.

Fixpoint drop_trailing (p : ascii -> bool) (s : string) : string :=
  match s with
  | EmptyString => EmptyString
  | String c r =>
      let r' := drop_trailing p r in
      if p c && is_empty r' then EmptyString else String c r'
  end.

Definition trim (s : string) : string :=
  drop_trailing is_space (drop_leading is_space s).

(** [.replace(/[^a-z0-9]+/g, '-')]: every maximal run of characters outside
    the class becomes one hyphen.  [in_run] tells that the run the current
    character belongs to has already produced its hyphen. *)
Fixpoint replace_runs (in_run : bool) (s : string) : string :=
  match s with
  | EmptyString => EmptyString
  | String c r =>
      if is_key_char c then String c (replace_runs false r)
      else if in_run then replace_runs true r
      else String hyphen (replace_runs true r)
  end.

(** [.replace(/^-+|-+$/g, '')]: the leading and the trailing run of hyphens
    are deleted. *)
Definition strip_hyphens (s : string) : string :=
  drop_trailing is_hyphen (drop_leading is_hyphen s).

(** ** normalizeEntityName *)

Definition normalizeEntityName (name : string) : string :=
  strip_hyphens (replace_runs false (trim (toLowerCase name))).

(** Shape of a normalized key: only [[a-z0-9-]], never two hyphens in a row;
    [after_hyphen] tells that the previous character was a hyphen. *)
Fixpoint key_shaped (after_hyphen : bool) (s : string) : bool :=
  match s with
  | EmptyString => true
  | String c r =>
      if is_key_char c then key_shaped false r
      else is_hyphen c && negb after_hyphen && key_shaped true r
  end.

Definition starts_with_hyphen (s : string) : bool :=
  match s with EmptyString => false | String c _ => is_hyphen c end.

Fixpoint ends_with_hyphen (s : string) : bool :=
  match s with
  | EmptyString => false
  | String c r => if is_empty r then is_hyphen c else ends_with_hyphen r
  end.

Fixpoint all_chars (p : ascii -> bool) (s : string) : bool :=
  match s with
  | EmptyString => true
  | String c r => p c && all_chars p r
  end.

(** Only lowercase ASCII letters, digits and hyphens; hyphens interior. *)
Definition is_normal_key (s : string) : bool :=
  all_chars (fun c => is_key_char c || is_hyphen c) s
  && negb (starts_with_hyphen s) && negb (ends_with_hyphen s).

(** ** JavaScript numbers

    The finite values are idealised by rationals; the three IEEE special
    values that a division can produce are kept apart.  A quotient of two
    lengths and its double differ by rounding only, which decides a
    comparison only when the two sides are closer than that. *)
Inductive number : Type :=
| Fin (q : Q)
| NaN
| PosInf
| NegInf.

(** [a / b] for two array lengths or distances (non-negative integers). *)
Definition js_div (a b : nat) : number :=
  match b with
  | O => match a with O => NaN | S _ => PosInf end
  | S _ => Fin (Z.of_nat a # Pos.of_nat b)%Q
  end.

(** [1 - x]. *)
Definition js_one_minus (x : number) : number :=
  match x with
  | Fin q => Fin (1 - q)%Q
  | NaN => NaN
  | PosInf => NegInf
  | NegInf => PosInf
  end.

(** [x >= y]: false as soon as one side is NaN. *)
Definition js_ge (x y : number) : bool :=
  match x, y with
  | NaN, _ | _, NaN => false
  | Fin a, Fin b => Qle_bool b a
  | PosInf, _ => true
  | _, NegInf => true
  | Fin _, PosInf => false
  | NegInf, (Fin _ | PosInf) => false
  end.

(** ** calculateSimilarity *)

(** [row[j] = v] on a JavaScript array: an index at or past the end
    extends the array. *)
Definition array_set (row : list nat) (j v : nat) : list nat :=
  if j <? length row then <[j := v]> row
  else row ++ replicate (j - length row) 0 ++ [v].

Definition matrix_get (m : list (list nat)) (i j : nat) : nat :=
  default 0 (m !! i ≫= fun row => row !! j).

Definition matrix_set (m : list (list nat)) (i j v : nat) : list (list nat) :=
  match m !! i with
  | Some row => <[i := array_set row j v]> m
  | None => m
  end.

(** [s[i]] *)
Definition char_at (s : string) (i : nat) : option ascii := String.get i s.

Definition levenshtein_cell (s1 s2 : string) (m : list (list nat)) (i j : nat)
  : list (list nat) :=
  if decide (char_at s1 (i - 1) = char_at s2 (j - 1))
  then matrix_set m i j (matrix_get m (i - 1) (j - 1))
  else matrix_set m i j
         (Nat.min (Nat.min (matrix_get m (i - 1) (j - 1) + 1)
                           (matrix_get m i (j - 1) + 1))
                  (matrix_get m (i - 1) j + 1)).

Definition levenshtein_matrix (s1 s2 : string) : list (list nat) :=
  let rows := (fun i => [i]) <$> seq 0 (S (String.length s1)) in
  let m0 := foldl (fun m j => matrix_set m 0 j j) rows (seq 0 (S (String.length s2))) in
  foldl (fun m i =>
           foldl (fun m' j => levenshtein_cell s1 s2 m' i j) m
                 (seq 1 (String.length s2)))
        m0 (seq 1 (String.length s1)).

Definition calculateSimilarity (str1 str2 : string) : number :=
  let s1 := toLowerCase str1 in
  let s2 := toLowerCase str2 in
  let matrix := levenshtein_matrix s1 s2 in
  let maxLen := Nat.max (String.length s1) (String.length s2) in
  js_one_minus
    (js_div (matrix_get matrix (String.length s1) (String.length s2)) maxLen).

Definition default_threshold : number := Fin (17 # 20)%Q.

Definition areSimilarEntities (name1 name2 : string) (threshold : number) : bool :=
  js_ge (calculateSimilarity name1 name2) threshold.

(** ** extractArxivId *)

(** The character class [\d]. *)
Definition is_digit (c : ascii) : bool := (48 <=? code c) && (code c <=? 57).

Definition is_dot (c : ascii) : bool := Ascii.eqb c "."%char.

(** [\d{4}\.\d{4,5}] at the very start of [s]: the text matched.  The
    quantifier is greedy, so a fifth digit is taken when there is one. *)
Definition match_id_here (s : string) : option string :=
  match s with
  | String a (String b (String c (String d (String dot
      (String e (String f (String g (String h r)))))))) =>
      if is_digit a && is_digit b && is_digit c && is_digit d && is_dot dot
         && is_digit e && is_digit f && is_digit g && is_digit h
      then match r with
           | String i _ =>
               if is_digit i then Some (substring 0 10 s) else Some (substring 0 9 s)
           | EmptyString => Some (substring 0 9 s)
           end
      else None
  | _ => None
  end.

(** A literal of a pattern with the [i] flag, at the very start of [s]:
    what is left of [s] after it. *)
Fixpoint skip_literal (literal s : string) : option string :=
  match literal with
  | EmptyString => Some s
  | String l literal' =>
      match s with
      | String c r =>
          if Ascii.eqb (lower_char c) (lower_char l) then skip_literal literal' r else None
      | EmptyString => None
      end
  end.

(** [input.match(pattern)] for a pattern without the [g] flag: the match
    that starts leftmost. *)
Fixpoint first_match (here : string -> option string) (s : string) : option string :=
  match here s with
  | Some m => Some m
  | None =>
      match s with
      | EmptyString => None
      | String _ r => first_match here r
      end
  end.

(** The capture group of [/literal(\d{4}\.\d{4,5})/i] at the start of [s]. *)
Definition match_prefixed_id_here (literal s : string) : option string :=
  skip_literal literal s ≫= match_id_here.

(** The three patterns, in the order of the array; each yields its capture
    group. *)
Definition arxiv_patterns : list (string -> option string) :=
  [first_match match_id_here;
   first_match (match_prefixed_id_here "arxiv:");
   first_match (match_prefixed_id_here "arxiv.org/abs/")].

(** The [for (const pattern of patterns)] loop. *)
Fixpoint first_pattern (patterns : list (string -> option string)) (input : string)
  : option string :=
  match patterns with
  | [] => None
  | pattern :: rest =>
      match pattern input with
      | Some m => Some m
      | None => first_pattern rest input
      end
  end.

Definition extractArxivId (input : string) : option string :=
  first_pattern arxiv_patterns input.

(** An identifier of the new arXiv scheme: four digits, a dot, four or five
    digits. *)
Definition is_arxiv_id (s : string) : bool :=
  match match_id_here s with
  | Some m => bool_decide (m = s)
  | None => false
  end.

Definition starts_with_digit (s : string) : bool :=
  match s with EmptyString => false | String c _ => is_digit c end.


(* ===================================================================== *)
(** * database/schema.sql                                                 *)
(* ===================================================================== *)

(** Rows of the node tables.  Columns that no modelled function reads
    (timestamps, pdf url, authors, section) are left out. *)

Record Paper : Type := {
  paper_id : string;
  paper_title : string;
  paper_arxiv_id : option string;
  paper_semantic_scholar_id : option string;
  paper_abstract : option string;
}.

Record Concept : Type := {
  concept_id : string;
  concept_name : string;
  concept_normalized_name : string;
  concept_description : string;
  concept_category : option string;
  concept_first_introduced_by : option string;
  concept_confidence : Q;
}.

Record Method : Type := {
  method_id : string;
  method_name : string;
  method_normalized_name : string;
  method_description : string;
  method_computational_complexity : option string;
  method_introduced_in : option string;
}.

Record Dataset : Type := {
  dataset_id : string;
  dataset_name : string;
  dataset_description : string;
  dataset_url : option string;
  dataset_introduced_in : option string;
}.

(** Rows of the edge tables. *)

Record PaperConcept : Type := {
  pic_paper_id : string;
  pic_concept_id : string;
  pic_confidence : Q;
}.

Record PaperMethod : Type := {
  pum_paper_id : string;
  pum_method_id : string;
}.

Record PaperDataset : Type := {
  ped_paper_id : string;
  ped_dataset_id : string;
}.

Record ConceptImprovement : Type := {
  imp_new_concept : string;
  imp_old_concept : string;
  imp_improvement_type : string;
  imp_quantitative_gain : option string;
  imp_confidence : Q;
}.

(** The database: one list of rows per table, in insertion order, and the
    supply of fresh primary keys standing for [uuid_generate_v4()], which
    draws them at random: two databases are compared apart from their
    primary keys. *)
Record Store : Type := {
  papers : list Paper;
  concepts : list Concept;
  methods : list Method;
  datasets : list Dataset;
  paper_introduces_concept : list PaperConcept;
  paper_uses_method : list PaperMethod;
  paper_evaluates_on_dataset : list PaperDataset;
  concept_improves_concept : list ConceptImprovement;
  uuid_counter : nat;
}.

Definition empty_store : Store :=
  {| papers := []; concepts := []; methods := []; datasets := [];
     paper_introduces_concept := []; paper_uses_method := [];
     paper_evaluates_on_dataset := []; concept_improves_concept := [];
     uuid_counter := 0 |}.

Definition uuid (n : nat) : string := "uuid-" +:+ pretty n.

Inductive DbError : Type :=
| ValueTooLong (column_type : string)
| CheckViolation (constraint : string)
| UniqueViolation (constraint : string)
| ForeignKeyViolation (constraint : string).

(** The [{ data, error }] pair of the database client. *)
Inductive DbResult (A : Type) : Type :=
| Data (a : A)
| Error (e : DbError).
Arguments Data {A} a.
Arguments Error {A} e.

(** A value that does not fit a nullable [VARCHAR(n)] column. *)
Definition too_long (n : nat) (v : option string) : bool :=
  match v with
  | None => false
  | Some x => n <? String.length x
  end.

(** [CHECK (confidence >= 0 AND confidence <= 1)] *)
Definition check_confidence (q : Q) : bool := Qle_bool 0 q && Qle_bool q 1.

Definition concept_categories : list string :=
  ["technique"; "architecture"; "loss_function"; "representation"; "other"].

Definition improvement_types : list string :=
  ["speed"; "quality"; "generalization"; "simplicity"].

(** [CHECK (col IN (...))] on a nullable column. *)
Definition check_in (allowed : list string) (v : option string) : bool :=
  match v with
  | None => true
  | Some x => bool_decide (x ∈ allowed)
  end.

Definition has_paper (s : Store) (id : string) : bool :=
  bool_decide (id ∈ paper_id <$> papers s).

Definition has_concept (s : Store) (id : string) : bool :=
  bool_decide (id ∈ concept_id <$> concepts s).

Definition has_method (s : Store) (id : string) : bool :=
  bool_decide (id ∈ method_id <$> methods s).

Definition has_dataset (s : Store) (id : string) : bool :=
  bool_decide (id ∈ dataset_id <$> datasets s).

(** [REFERENCES papers(id)] on a nullable column. *)
Definition references_paper (s : Store) (v : option string) : bool :=
  match v with
  | None => true
  | Some id => has_paper s id
  end.

(** A [UNIQUE] column that admits several NULLs. *)
Definition taken {A : Type} (col : A -> option string) (rows : list A)
           (v : option string) : bool :=
  match v with
  | None => false
  | Some x => bool_decide (Some x ∈ col <$> rows)
  end.

Definition next_uuid (s : Store) : string := uuid (uuid_counter s).

(** [INSERT INTO papers ... RETURNING *] *)
Definition sql_insert_paper (title : string) (arxiv_id semantic_scholar_id : option string)
           (abstract : option string) (s : Store) : DbResult Paper * Store :=
  if too_long 50 arxiv_id
  then (Error (ValueTooLong "character varying(50)"), s)
  else if too_long 100 semantic_scholar_id
  then (Error (ValueTooLong "character varying(100)"), s)
  else if taken paper_arxiv_id (papers s) arxiv_id
  then (Error (UniqueViolation "papers_arxiv_id_key"), s)
  else if taken paper_semantic_scholar_id (papers s) semantic_scholar_id
  then (Error (UniqueViolation "papers_semantic_scholar_id_key"), s)
  else
    let row := {| paper_id := next_uuid s; paper_title := title;
                  paper_arxiv_id := arxiv_id;
                  paper_semantic_scholar_id := semantic_scholar_id;
                  paper_abstract := abstract |} in
    (Data row,
     {| papers := papers s ++ [row]; concepts := concepts s; methods := methods s;
        datasets := datasets s;
        paper_introduces_concept := paper_introduces_concept s;
        paper_uses_method := paper_uses_method s;
        paper_evaluates_on_dataset := paper_evaluates_on_dataset s;
        concept_improves_concept := concept_improves_concept s;
        uuid_counter := S (uuid_counter s) |}).

(** [INSERT INTO concepts ... RETURNING *] *)
Definition sql_insert_concept (name normalized_name description : string)
           (category first_introduced_by : option string) (confidence : Q)
           (s : Store) : DbResult Concept * Store :=
  if too_long 50 category
  then (Error (ValueTooLong "character varying(50)"), s)
  else if negb (check_in concept_categories category)
  then (Error (CheckViolation "concepts_category_check"), s)
  else if negb (check_confidence confidence)
  then (Error (CheckViolation "concepts_confidence_check"), s)
  else if bool_decide (normalized_name ∈ concept_normalized_name <$> concepts s)
  then (Error (UniqueViolation "concepts_normalized_name_key"), s)
  else if negb (references_paper s first_introduced_by)
  then (Error (ForeignKeyViolation "concepts_first_introduced_by_fkey"), s)
  else
    let row := {| concept_id := next_uuid s; concept_name := name;
                  concept_normalized_name := normalized_name;
                  concept_description := description;
                  concept_category := category;
                  concept_first_introduced_by := first_introduced_by;
                  concept_confidence := confidence |} in
    (Data row,
     {| papers := papers s; concepts := concepts s ++ [row]; methods := methods s;
        datasets := datasets s;
        paper_introduces_concept := paper_introduces_concept s;
        paper_uses_method := paper_uses_method s;
        paper_evaluates_on_dataset := paper_evaluates_on_dataset s;
        concept_improves_concept := concept_improves_concept s;
        uuid_counter := S (uuid_counter s) |}).

(** [INSERT INTO methods ... RETURNING *] *)
Definition sql_insert_method (name normalized_name description : string)
           (computational_complexity introduced_in : option string)
           (s : Store) : DbResult Method * Store :=
  if bool_decide (normalized_name ∈ method_normalized_name <$> methods s)
  then (Error (UniqueViolation "methods_normalized_name_key"), s)
  else if negb (references_paper s introduced_in)
  then (Error (ForeignKeyViolation "methods_introduced_in_fkey"), s)
  else
    let row := {| method_id := next_uuid s; method_name := name;
                  method_normalized_name := normalized_name;
                  method_description := description;
                  method_computational_complexity := computational_complexity;
                  method_introduced_in := introduced_in |} in
    (Data row,
     {| papers := papers s; concepts := concepts s; methods := methods s ++ [row];
        datasets := datasets s;
        paper_introduces_concept := paper_introduces_concept s;
        paper_uses_method := paper_uses_method s;
        paper_evaluates_on_dataset := paper_evaluates_on_dataset s;
        concept_improves_concept := concept_improves_concept s;
        uuid_counter := S (uuid_counter s) |}).

(** [INSERT INTO datasets ... RETURNING *] *)
Definition sql_insert_dataset (name description : string)
           (url introduced_in : option string)
           (s : Store) : DbResult Dataset * Store :=
  if bool_decide (name ∈ dataset_name <$> datasets s)
  then (Error (UniqueViolation "datasets_name_key"), s)
  else if negb (references_paper s introduced_in)
  then (Error (ForeignKeyViolation "datasets_introduced_in_fkey"), s)
  else
    let row := {| dataset_id := next_uuid s; dataset_name := name;
                  dataset_description := description; dataset_url := url;
                  dataset_introduced_in := introduced_in |} in
    (Data row,
     {| papers := papers s; concepts := concepts s; methods := methods s;
        datasets := datasets s ++ [row];
        paper_introduces_concept := paper_introduces_concept s;
        paper_uses_method := paper_uses_method s;
        paper_evaluates_on_dataset := paper_evaluates_on_dataset s;
        concept_improves_concept := concept_improves_concept s;
        uuid_counter := S (uuid_counter s) |}).

(** [INSERT INTO paper_introduces_concept ... RETURNING *] *)
Definition sql_insert_paper_concept (paper concept : string) (confidence : Q)
           (s : Store) : DbResult PaperConcept * Store :=
  if negb (check_confidence confidence)
  then (Error (CheckViolation "paper_introduces_concept_confidence_check"), s)
  else if bool_decide ((paper, concept) ∈
            (fun l => (pic_paper_id l, pic_concept_id l)) <$> paper_introduces_concept s)
  then (Error (UniqueViolation "paper_introduces_concept_paper_id_concept_id_key"), s)
  else if negb (has_paper s paper)
  then (Error (ForeignKeyViolation "paper_introduces_concept_paper_id_fkey"), s)
  else if negb (has_concept s concept)
  then (Error (ForeignKeyViolation "paper_introduces_concept_concept_id_fkey"), s)
  else
    let row := {| pic_paper_id := paper; pic_concept_id := concept;
                  pic_confidence := confidence |} in
    (Data row,
     {| papers := papers s; concepts := concepts s; methods := methods s;
        datasets := datasets s;
        paper_introduces_concept := paper_introduces_concept s ++ [row];
        paper_uses_method := paper_uses_method s;
        paper_evaluates_on_dataset := paper_evaluates_on_dataset s;
        concept_improves_concept := concept_improves_concept s;
        uuid_counter := S (uuid_counter s) |}).

(** [INSERT INTO paper_uses_method ... RETURNING *] *)
Definition sql_insert_paper_method (paper method : string)
           (s : Store) : DbResult PaperMethod * Store :=
  if bool_decide ((paper, method) ∈
       (fun l => (pum_paper_id l, pum_method_id l)) <$> paper_uses_method s)
  then (Error (UniqueViolation "paper_uses_method_paper_id_method_id_key"), s)
  else if negb (has_paper s paper)
  then (Error (ForeignKeyViolation "paper_uses_method_paper_id_fkey"), s)
  else if negb (has_method s method)
  then (Error (ForeignKeyViolation "paper_uses_method_method_id_fkey"), s)
  else
    let row := {| pum_paper_id := paper; pum_method_id := method |} in
    (Data row,
     {| papers := papers s; concepts := concepts s; methods := methods s;
        datasets := datasets s;
        paper_introduces_concept := paper_introduces_concept s;
        paper_uses_method := paper_uses_method s ++ [row];
        paper_evaluates_on_dataset := paper_evaluates_on_dataset s;
        concept_improves_concept := concept_improves_concept s;
        uuid_counter := S (uuid_counter s) |}).

(** [INSERT INTO paper_evaluates_on_dataset ... RETURNING *] *)
Definition sql_insert_paper_dataset (paper dataset : string)
           (s : Store) : DbResult PaperDataset * Store :=
  if bool_decide ((paper, dataset) ∈
       (fun l => (ped_paper_id l, ped_dataset_id l)) <$> paper_evaluates_on_dataset s)
  then (Error (UniqueViolation "paper_evaluates_on_dataset_paper_id_dataset_id_key"), s)
  else if negb (has_paper s paper)
  then (Error (ForeignKeyViolation "paper_evaluates_on_dataset_paper_id_fkey"), s)
  else if negb (has_dataset s dataset)
  then (Error (ForeignKeyViolation "paper_evaluates_on_dataset_dataset_id_fkey"), s)
  else
    let row := {| ped_paper_id := paper; ped_dataset_id := dataset |} in
    (Data row,
     {| papers := papers s; concepts := concepts s; methods := methods s;
        datasets := datasets s;
        paper_introduces_concept := paper_introduces_concept s;
        paper_uses_method := paper_uses_method s;
        paper_evaluates_on_dataset := paper_evaluates_on_dataset s ++ [row];
        concept_improves_concept := concept_improves_concept s;
        uuid_counter := S (uuid_counter s) |}).

(** [INSERT INTO concept_improves_concept ... RETURNING *].  The table has
    two check constraints, tested in the order of their names, a uniqueness
    constraint on the endpoint pair and two foreign keys; it has no
    constraint relating [new_concept] to [old_concept]. *)
Definition sql_insert_improvement (new_concept old_concept improvement_type : string)
           (quantitative_gain : option string) (confidence : Q)
           (s : Store) : DbResult ConceptImprovement * Store :=
  if too_long 50 (Some improvement_type)
  then (Error (ValueTooLong "character varying(50)"), s)
  else if negb (check_confidence confidence)
  then (Error (CheckViolation "concept_improves_concept_confidence_check"), s)
  else if negb (bool_decide (improvement_type ∈ improvement_types))
  then (Error (CheckViolation "concept_improves_concept_improvement_type_check"), s)
  else if bool_decide ((new_concept, old_concept) ∈
       (fun r => (imp_new_concept r, imp_old_concept r)) <$> concept_improves_concept s)
  then (Error (UniqueViolation "concept_improves_concept_new_concept_old_concept_key"), s)
  else if negb (has_concept s new_concept)
  then (Error (ForeignKeyViolation "concept_improves_concept_new_concept_fkey"), s)
  else if negb (has_concept s old_concept)
  then (Error (ForeignKeyViolation "concept_improves_concept_old_concept_fkey"), s)
  else
    let row := {| imp_new_concept := new_concept; imp_old_concept := old_concept;
                  imp_improvement_type := improvement_type;
                  imp_quantitative_gain := quantitative_gain;
                  imp_confidence := confidence |} in
    (Data row,
     {| papers := papers s; concepts := concepts s; methods := methods s;
        datasets := datasets s;
        paper_introduces_concept := paper_introduces_concept s;
        paper_uses_method := paper_uses_method s;
        paper_evaluates_on_dataset := paper_evaluates_on_dataset s;
        concept_improves_concept := concept_improves_concept s ++ [row];
        uuid_counter := S (uuid_counter s) |}).

(** [.single()]: the rows selected must be exactly one. *)
Definition single {A : Type} (rows : list A) : option A :=
  match rows with
  | [r] => Some r
  | _ => None
  end.

Definition select_eq {A : Type} (col : A -> string) (v : string) (rows : list A) : list A :=
  filter (fun r => col r = v) rows.

Definition select_opt_eq {A : Type} (col : A -> option string) (v : string)
           (rows : list A) : list A :=
  filter (fun r => col r = Some v) rows.

(* ===================================================================== *)
(** * Effects: exceptions, the shared store, the log, the outside world  *)
(* ===================================================================== *)

Inductive HttpResponse (A : Type) : Type :=
| Http200 (body : A)
| HttpStatus (status : nat)
| NetworkError.
Arguments Http200 {A} body.
Arguments HttpStatus {A} status.
Arguments NetworkError {A}.

Inductive Exn : Type :=
| DbExn (e : DbError)
| HttpExn (status : option nat)
| LlmExn
| TimeoutExn
| JsError (message : string).

Inductive Level : Type := info | warn | error | debug.

Record LogEntry : Type := { log_level : Level; log_message : string }.

Global Instance Level_eq_dec : EqDecision Level.
Proof. solve_decision. Defined.

Global Instance LogEntry_eq_dec : EqDecision LogEntry.
Proof. solve_decision. Defined.

(** types/index.ts: what the extraction pipeline passes around. *)

Record ExtractedConcept : Type := {
  ec_name : string;
  ec_normalized_name : option string;
  ec_description : string;
  ec_category : option string;
  ec_confidence : Q;
}.

Record ExtractedMethod : Type := {
  em_name : string;
  em_normalized_name : option string;
  em_description : string;
  em_computational_complexity : option string;
  em_confidence : Q;
}.

Record ExtractedDataset : Type := {
  ed_name : string;
  ed_description : string;
  ed_url : option string;
}.

Record ExtractedEntities : Type := {
  ee_concepts : list ExtractedConcept;
  ee_methods : list ExtractedMethod;
  ee_datasets : list ExtractedDataset;
  ee_metrics : list string;
}.

(** The structured answer of the language model to the extraction prompt;
    any of the four arrays may be missing. *)
Record RawEntities : Type := {
  raw_concepts : option (list ExtractedConcept);
  raw_methods : option (list ExtractedMethod);
  raw_datasets : option (list ExtractedDataset);
  raw_metrics : option (list string);
}.

Record ExtractInput : Type := {
  in_paperId : string;
  in_title : string;
  in_abstract : string;
  in_fullText : option string;
}.

(** Argument of [PromptTemplates.classifyRelationship]. *)
Record ClassifyPrompt : Type := {
  cp_new_name : string;
  cp_new_description : string;
  cp_old_name : string;
  cp_old_description : string;
}.

Record Classification : Type := {
  has_relationship : bool;
  relationship_type : string;
  improvement_category : option string;
  quantitative_gain : option string;
  cl_confidence : option Q;
}.

(** types/index.ts: [SemanticScholarPaper]. *)
Record SemanticScholarPaper : Type := {
  paperId : string;
  externalIds_ArXiv : option string;
  ss_title : string;
  ss_abstract : option string;
  citationCount : option nat;
  openAccessPdf_url : option string;
}.

(** Everything outside the process, indexed by the number of external
    calls made so far: what concurrent workers did to the store since the
    previous database call, what the language model answers ([None] when
    the client throws), what the citation service answers, and whether a
    unit of work started at that moment outlives the queue's timeout. *)
Record World : Type := {
  concurrent : nat -> Store -> Store;
  llm_extract : nat -> ExtractInput -> option RawEntities;
  llm_classify : nat -> ClassifyPrompt -> option Classification;
  http_paper : nat -> string -> HttpResponse SemanticScholarPaper;
  http_references : nat -> string -> nat -> HttpResponse (list SemanticScholarPaper);
  http_citations : nat -> string -> nat -> HttpResponse (list SemanticScholarPaper);
  deadline_missed : nat -> bool;
}.

Record State : Type := {
  st_store : Store;
  st_tick : nat;
  st_log : list LogEntry;
}.

(** How a computation ends: with a value, with a thrown exception, or not
    within the fuel given to its loops. *)
Inductive Outcome (A : Type) : Type :=
| Ok (a : A)
| Throw (e : Exn)
| OutOfFuel.
Arguments Ok {A} a.
Arguments Throw {A} e.
Arguments OutOfFuel {A}.

Definition M (A : Type) : Type := State -> Outcome A * State.

Definition ret {A : Type} (a : A) : M A := fun st => (Ok a, st).

Definition bind {A B : Type} (m : M A) (k : A -> M B) : M B :=
  fun st =>
    match m st with
    | (Ok a, st') => k a st'
    | (Throw e, st') => (Throw e, st')
    | (OutOfFuel, st') => (OutOfFuel, st')
    end.

Definition throw {A : Type} (e : Exn) : M A := fun st => (Throw e, st).

Definition out_of_fuel {A : Type} : M A := fun st => (OutOfFuel, st).

(** [try { m } catch (error) { handler error }] *)
Definition try_catch {A : Type} (m : M A) (handler : Exn -> M A) : M A :=
  fun st =>
    match m st with
    | (Throw e, st') => handler e st'
    | r => r
    end.

Notation "x <- m ;; k" := (bind m (fun x => k))
  (at level 100, m at next level, right associativity).
Notation "m ;;; k" := (bind m (fun _ => k))
  (at level 100, right associativity).

Fixpoint for_each {A : Type} (l : list A) (body : A -> M unit) : M unit :=
  match l with
  | [] => ret tt
  | x :: r => body x ;;; for_each r body
  end.

Definition write_log (lvl : Level) (msg : string) : M unit :=
  fun st =>
    (Ok tt, {| st_store := st_store st; st_tick := st_tick st;
               st_log := st_log st ++ [{| log_level := lvl; log_message := msg |}] |}).

(** agents/base/Agent.ts: [log] hands every message to [log.agent], which
    logs at level info whatever level was asked for; [logError] logs at
    level error with the agent's name in front. *)
Definition agent_log (message : string) : M unit := write_log info message.

Definition agent_logError (name message : string) : M unit :=
  write_log error ("[" +:+ name +:+ "] " +:+ message).

(** utils/logger.ts *)
Definition log_warn (message : string) : M unit := write_log warn message.
Definition log_error (message : string) : M unit := write_log error message.
Definition log_info (message : string) : M unit := write_log info message.

(** JavaScript's [a || b] on an optional string: the empty string and
    [undefined] are both falsy. *)
Definition or_else (a : option string) (b : string) : string :=
  match a with
  | Some s => if is_empty s then b else s
  | None => b
  end.

Definition truthy (s : string) : bool := negb (is_empty s).

(* ===================================================================== *)
(** * ingestion/arxiv.ts                                                  *)
(* ===================================================================== *)

Definition pdfBaseUrl : string := "https://arxiv.org/pdf".

(** [ArxivClient.getPDFUrl]; the error is [Invalid arXiv ID]. *)
Definition getPDFUrl (arxivId : string) : Exn + string :=
  match extractArxivId arxivId with
  | Some cleanId =>
      if truthy cleanId then inr (pdfBaseUrl +:+ "/" +:+ cleanId +:+ ".pdf")
      else inl (JsError ("Invalid arXiv ID: " +:+ arxivId))
  | None => inl (JsError ("Invalid arXiv ID: " +:+ arxivId))
  end.

Section Pipeline.

Variable w : World.

(** One awaited round trip to the database: the other workers' writes
    since the last round trip land first. *)
Definition db_call {A : Type} (q : Store -> A * Store) : M A :=
  fun st =>
    let '(a, s') := q (concurrent w (st_tick st) (st_store st)) in
    (Ok a, {| st_store := s'; st_tick := S (st_tick st); st_log := st_log st |}).

Definition db_read {A : Type} (q : Store -> A) : M A :=
  db_call (fun s => (q s, s)).

(** [if (error) throw error; return data;] *)
Definition data_or_throw {A : Type} (r : DbResult A) : M A :=
  match r with
  | Data d => ret d
  | Error e => throw (DbExn e)
  end.

(* --------------------------------------------------------------------- *)
(** ** database/queries.ts                                                *)
(* --------------------------------------------------------------------- *)

Definition insertPaper (title : string) (arxiv_id semantic_scholar_id abstract : option string)
  : M Paper :=
  r <- db_call (sql_insert_paper title arxiv_id semantic_scholar_id abstract) ;;
  data_or_throw r.

Definition getPaperByArxivId (arxivId : string) : M (option Paper) :=
  db_read (fun s => single (select_opt_eq paper_arxiv_id arxivId (papers s))).

Definition getPaperBySemanticScholarId (ssId : string) : M (option Paper) :=
  db_read (fun s => single (select_opt_eq paper_semantic_scholar_id ssId (papers s))).

Definition insertConcept (name normalized_name description : string)
           (category first_introduced_by : option string) (confidence : Q) : M Concept :=
  r <- db_call (sql_insert_concept name normalized_name description category
                                   first_introduced_by confidence) ;;
  data_or_throw r.

Definition getConceptByName (normalizedName : string) : M (option Concept) :=
  db_read (fun s => single (select_eq concept_normalized_name normalizedName (concepts s))).

Definition insertMethod (name normalized_name description : string)
           (computational_complexity introduced_in : option string) : M Method :=
  r <- db_call (sql_insert_method name normalized_name description
                                  computational_complexity introduced_in) ;;
  data_or_throw r.

Definition getMethodByName (normalizedName : string) : M (option Method) :=
  db_read (fun s => single (select_eq method_normalized_name normalizedName (methods s))).

Definition insertDataset (name description : string) (url introduced_in : option string)
  : M Dataset :=
  r <- db_call (sql_insert_dataset name description url introduced_in) ;;
  data_or_throw r.

Definition getDatasetByName (name : string) : M (option Dataset) :=
  db_read (fun s => single (select_eq dataset_name name (datasets s))).

Definition linkPaperToConcept (paperId conceptId : string) (confidence : Q)
  : M PaperConcept :=
  r <- db_call (sql_insert_paper_concept paperId conceptId confidence) ;;
  data_or_throw r.

Definition createConceptImprovement (newConceptId oldConceptId improvementType : string)
           (quantitativeGain : option string) (confidence : Q) : M ConceptImprovement :=
  r <- db_call (sql_insert_improvement newConceptId oldConceptId improvementType
                                       quantitativeGain confidence) ;;
  data_or_throw r.

Definition linkPaperToMethod (paperId methodId : string) : M PaperMethod :=
  r <- db_call (sql_insert_paper_method paperId methodId) ;;
  data_or_throw r.

Definition linkPaperToDataset (paperId datasetId : string) : M PaperDataset :=
  r <- db_call (sql_insert_paper_dataset paperId datasetId) ;;
  data_or_throw r.

(** The join [concept_id, confidence, concepts (star)] filtered on the paper. *)
Definition getConceptsByPaper (paperId : string)
  : M (list (PaperConcept * option Concept)) :=
  db_read (fun s =>
    (fun l => (l, head (select_eq concept_id (pic_concept_id l) (concepts s))))
      <$> select_eq pic_paper_id paperId (paper_introduces_concept s)).

(* --------------------------------------------------------------------- *)
(** ** agents/EntityExtractorAgent.ts                                     *)
(* --------------------------------------------------------------------- *)

Definition extractor_name : string := "EntityExtractorAgent".

(** Pass 1 *)
Definition extractPass1 (input : ExtractInput) : M ExtractedEntities :=
  agent_log "Pass 1: Extracting entities with LLM" ;;;
  fun st =>
    match llm_extract w (st_tick st) input with
    | Some result =>
        (Ok {| ee_concepts := default [] (raw_concepts result);
               ee_methods := default [] (raw_methods result);
               ee_datasets := default [] (raw_datasets result);
               ee_metrics := default [] (raw_metrics result) |},
         {| st_store := st_store st; st_tick := S (st_tick st); st_log := st_log st |})
    | None =>
        (agent_logError extractor_name "LLM extraction failed" ;;;
         ret {| ee_concepts := []; ee_methods := []; ee_datasets := []; ee_metrics := [] |})
          {| st_store := st_store st; st_tick := S (st_tick st); st_log := st_log st |}
    end.

Fixpoint disambiguate_concepts (l : list ExtractedConcept) : M (list ExtractedConcept) :=
  match l with
  | [] => ret []
  | concept :: rest =>
      let normalized := normalizeEntityName (ec_name concept) in
      existing <- getConceptByName normalized ;;
      let item :=
        match existing with
        | Some e =>
            {| ec_name := concept_name e;
               ec_normalized_name := Some (concept_normalized_name e);
               ec_description := ec_description concept;
               ec_category := ec_category concept;
               ec_confidence := ec_confidence concept |}
        | None =>
            {| ec_name := ec_name concept;
               ec_normalized_name := Some normalized;
               ec_description := ec_description concept;
               ec_category := ec_category concept;
               ec_confidence := ec_confidence concept |}
        end in
      others <- disambiguate_concepts rest ;;
      ret (item :: others)
  end.

Fixpoint disambiguate_methods (l : list ExtractedMethod) : M (list ExtractedMethod) :=
  match l with
  | [] => ret []
  | method :: rest =>
      let normalized := normalizeEntityName (em_name method) in
      existing <- getMethodByName normalized ;;
      let item :=
        match existing with
        | Some e =>
            {| em_name := method_name e;
               em_normalized_name := Some (method_normalized_name e);
               em_description := em_description method;
               em_computational_complexity := em_computational_complexity method;
               em_confidence := em_confidence method |}
        | None =>
            {| em_name := em_name method;
               em_normalized_name := Some normalized;
               em_description := em_description method;
               em_computational_complexity := em_computational_complexity method;
               em_confidence := em_confidence method |}
        end in
      others <- disambiguate_methods rest ;;
      ret (item :: others)
  end.

Fixpoint disambiguate_datasets (l : list ExtractedDataset) : M (list ExtractedDataset) :=
  match l with
  | [] => ret []
  | dataset :: rest =>
      existing <- getDatasetByName (ed_name dataset) ;;
      let item :=
        match existing with
        | Some e =>
            {| ed_name := dataset_name e; ed_description := ed_description dataset;
               ed_url := ed_url dataset |}
        | None => dataset
        end in
      others <- disambiguate_datasets rest ;;
      ret (item :: others)
  end.

(** Pass 2 *)
Definition disambiguateEntities (entities : ExtractedEntities) : M ExtractedEntities :=
  agent_log "Pass 2: Disambiguating entities" ;;;
  try_catch
    (uniqueConcepts <- disambiguate_concepts (ee_concepts entities) ;;
     uniqueMethods <- disambiguate_methods (ee_methods entities) ;;
     uniqueDatasets <- disambiguate_datasets (ee_datasets entities) ;;
     ret {| ee_concepts := uniqueConcepts; ee_methods := uniqueMethods;
            ee_datasets := uniqueDatasets; ee_metrics := ee_metrics entities |})
    (fun _ => agent_logError extractor_name "Disambiguation failed" ;;; ret entities).

(** [c.confidence *= 0.8] *)
Definition penalize (c : ExtractedConcept) : ExtractedConcept :=
  {| ec_name := ec_name c; ec_normalized_name := ec_normalized_name c;
     ec_description := ec_description c; ec_category := ec_category c;
     ec_confidence := (ec_confidence c * (8 # 10))%Q |}.

(** [x < 0.5] *)
Definition below_half (x : Q) : bool := negb (Qle_bool (1 # 2) x).

(** The callback given to [entities.concepts.filter]: [None] when it
    answers false, otherwise the object as the callback leaves it (the
    callback lowers the confidence of the object it keeps). *)
Definition keep_concept (c : ExtractedConcept) : option ExtractedConcept :=
  if negb (truthy (ec_name c)) || negb (truthy (ec_description c)) then None
  else if below_half (ec_confidence c) then None
  else if String.length (ec_description c) <? 20 then Some (penalize c)
  else Some c.

Definition keep_method (m : ExtractedMethod) : bool :=
  truthy (em_name m) && truthy (em_description m)
  && (10 <? String.length (em_description m)).

Definition keep_dataset (d : ExtractedDataset) : bool :=
  truthy (ed_name d) && truthy (ed_description d).

(** Pass 3 *)
Definition validateAndScore (entities : ExtractedEntities) : M ExtractedEntities :=
  agent_log "Pass 3: Validating and scoring" ;;;
  try_catch
    (let validConcepts := omap keep_concept (ee_concepts entities) in
     let validMethods := filter (fun m => keep_method m = true) (ee_methods entities) in
     let validDatasets := filter (fun d => keep_dataset d = true) (ee_datasets entities) in
     agent_log "Validated" ;;;
     ret {| ee_concepts := validConcepts; ee_methods := validMethods;
            ee_datasets := validDatasets; ee_metrics := ee_metrics entities |})
    (fun _ => agent_logError extractor_name "Validation failed" ;;; ret entities).

Definition store_concept (paperId : string) (concept : ExtractedConcept) : M unit :=
  try_catch
    (let key := or_else (ec_normalized_name concept) (normalizeEntityName (ec_name concept)) in
     existing <- getConceptByName key ;;
     conceptId <-
       match existing with
       | Some e =>
           agent_log ("Using existing concept: " +:+ concept_name e) ;;;
           ret (concept_id e)
       | None =>
           inserted <- insertConcept (ec_name concept) key (ec_description concept)
                                     (ec_category concept) (Some paperId)
                                     (ec_confidence concept) ;;
           agent_log ("Inserted new concept: " +:+ ec_name concept) ;;;
           ret (concept_id inserted)
       end ;;
     linkPaperToConcept paperId conceptId (ec_confidence concept) ;;;
     ret tt)
    (fun _ =>
       agent_logError extractor_name ("Failed to store concept: " +:+ ec_name concept)).

Definition store_method (paperId : string) (method : ExtractedMethod) : M unit :=
  try_catch
    (let key := or_else (em_normalized_name method) (normalizeEntityName (em_name method)) in
     existing <- getMethodByName key ;;
     methodId <-
       match existing with
       | Some e => ret (method_id e)
       | None =>
           inserted <- insertMethod (em_name method) key (em_description method)
                                    (em_computational_complexity method) (Some paperId) ;;
           agent_log ("Inserted new method: " +:+ em_name method) ;;;
           ret (method_id inserted)
       end ;;
     linkPaperToMethod paperId methodId ;;;
     ret tt)
    (fun _ =>
       agent_logError extractor_name ("Failed to store method: " +:+ em_name method)).

Definition store_dataset (paperId : string) (dataset : ExtractedDataset) : M unit :=
  try_catch
    (existing <- getDatasetByName (ed_name dataset) ;;
     datasetId <-
       match existing with
       | Some e => ret (dataset_id e)
       | None =>
           inserted <- insertDataset (ed_name dataset) (ed_description dataset)
                                     (ed_url dataset) (Some paperId) ;;
           agent_log ("Inserted new dataset: " +:+ ed_name dataset) ;;;
           ret (dataset_id inserted)
       end ;;
     linkPaperToDataset paperId datasetId ;;;
     ret tt)
    (fun _ =>
       agent_logError extractor_name ("Failed to store dataset: " +:+ ed_name dataset)).

Definition storeEntities (paperId : string) (entities : ExtractedEntities) : M unit :=
  agent_log "Storing entities in database" ;;;
  try_catch
    (for_each (ee_concepts entities) (store_concept paperId) ;;;
     for_each (ee_methods entities) (store_method paperId) ;;;
     for_each (ee_datasets entities) (store_dataset paperId) ;;;
     agent_log "All entities stored successfully")
    (fun e => agent_logError extractor_name "Failed to store entities" ;;; throw e).

(** [EntityExtractorAgent.execute] *)
Definition extract (input : ExtractInput) : M ExtractedEntities :=
  agent_log "Starting entity extraction" ;;;
  try_catch
    (entities <- extractPass1 input ;;
     disambiguated <- disambiguateEntities entities ;;
     validated <- validateAndScore disambiguated ;;
     storeEntities (in_paperId input) validated ;;;
     agent_log "Extracted" ;;;
     ret validated)
    (fun e => agent_logError extractor_name "Failed to extract entities" ;;; throw e).

(* --------------------------------------------------------------------- *)
(** ** agents/RelationshipMapperAgent.ts                                  *)
(* --------------------------------------------------------------------- *)

Definition mapper_name : string := "RelationshipMapperAgent".

(** [llmClient.extractStructuredData(prompt)] for a classification prompt. *)
Definition classify (prompt : ClassifyPrompt) : M Classification :=
  fun st =>
    let st' := {| st_store := st_store st; st_tick := S (st_tick st);
                  st_log := st_log st |} in
    match llm_classify w (st_tick st) prompt with
    | Some result => (Ok result, st')
    | None => (Throw LlmExn, st')
    end.

(** [result.confidence || 0.7]: a missing or zero confidence is falsy. *)
Definition confidence_or_default (c : option Q) : Q :=
  match c with
  | Some q => if Qeq_bool q 0 then (7 # 10)%Q else q
  | None => (7 # 10)%Q
  end.

(** Body of the inner loop: the rows it pushes on [improvements]. *)
Definition classify_pair (concept oldConcept : Concept) : M (list ConceptImprovement) :=
  try_catch
    (result <- classify {| cp_new_name := concept_name concept;
                           cp_new_description := concept_description concept;
                           cp_old_name := concept_name oldConcept;
                           cp_old_description := concept_description oldConcept |} ;;
     if has_relationship result && bool_decide (relationship_type result = "improves_on")
     then
       improvement <- createConceptImprovement
                        (concept_id concept) (concept_id oldConcept)
                        (or_else (improvement_category result) "quality")
                        (quantitative_gain result)
                        (confidence_or_default (cl_confidence result)) ;;
       agent_log ("Found improvement: " +:+ concept_name concept +:+ " improves "
                  +:+ concept_name oldConcept) ;;;
       ret [improvement]
     else ret [])
    (fun _ =>
       agent_logError mapper_name
         ("Failed to classify relationship for " +:+ concept_name concept) ;;;
       ret []).

Fixpoint classify_all (concept : Concept) (relatedConcepts : list Concept)
  : M (list ConceptImprovement) :=
  match relatedConcepts with
  | [] => ret []
  | oldConcept :: rest =>
      found <- classify_pair concept oldConcept ;;
      more <- classify_all concept rest ;;
      ret (found ++ more)
  end.

(** [from('concepts').select('*').neq('id', id).limit(10)] *)
Definition related_concepts (id : string) : M (list Concept) :=
  db_read (fun s => take 10 (filter (fun c => concept_id c <> id) (concepts s))).

(** Body of the outer loop, for one row of [getConceptsByPaper]. *)
Definition map_concept (paperConcept : PaperConcept * option Concept)
  : M (list ConceptImprovement) :=
  match snd paperConcept with
  | None => ret []
  | Some concept =>
      try_catch
        (relatedConcepts <- related_concepts (concept_id concept) ;;
         classify_all concept relatedConcepts)
        (fun _ =>
           agent_logError mapper_name ("Failed to process concept " +:+ concept_name concept) ;;;
           ret [])
  end.

Fixpoint map_concepts (paperConcepts : list (PaperConcept * option Concept))
  : M (list ConceptImprovement) :=
  match paperConcepts with
  | [] => ret []
  | pc :: rest =>
      found <- map_concept pc ;;
      more <- map_concepts rest ;;
      ret (found ++ more)
  end.

Definition mapImprovements (paperId : string) (entities : ExtractedEntities)
  : M (list ConceptImprovement) :=
  agent_log "Mapping concept improvements" ;;;
  try_catch
    (paperConcepts <- getConceptsByPaper paperId ;;
     match paperConcepts with
     | [] => agent_log "No concepts found for paper" ;;; ret []
     | _ => map_concepts paperConcepts
     end)
    (fun _ => agent_logError mapper_name "Failed to map improvements" ;;; ret []).

(* --------------------------------------------------------------------- *)
(** ** ingestion/semantic-scholar.ts                                      *)
(* --------------------------------------------------------------------- *)

Definition tick_state (st : State) : State :=
  {| st_store := st_store st; st_tick := S (st_tick st); st_log := st_log st |}.

Definition getPaper (id : string) : M (option SemanticScholarPaper) :=
  fun st =>
    match http_paper w (st_tick st) id with
    | Http200 data => (Ok (Some data), tick_state st)
    | HttpStatus status =>
        if status =? 404
        then (log_warn ("Paper not found: " +:+ id) ;;; ret None) (tick_state st)
        else (log_error ("Failed to fetch paper " +:+ id) ;;;
              throw (HttpExn (Some status))) (tick_state st)
    | NetworkError =>
        (log_error ("Failed to fetch paper " +:+ id) ;;; throw (HttpExn None)) (tick_state st)
    end.

Definition getReferences (id : string) (limit : nat) : M (list SemanticScholarPaper) :=
  fun st =>
    match http_references w (st_tick st) id limit with
    | Http200 references => (Ok references, tick_state st)
    | _ => (log_error ("Failed to fetch references for " +:+ id) ;;; ret []) (tick_state st)
    end.

Definition getCitations (id : string) (limit : nat) : M (list SemanticScholarPaper) :=
  fun st =>
    match http_citations w (st_tick st) id limit with
    | Http200 citations => (Ok citations, tick_state st)
    | _ => (log_error ("Failed to fetch citations for " +:+ id) ;;; ret []) (tick_state st)
    end.

(* --------------------------------------------------------------------- *)
(** ** agents/PaperReaderAgent.ts                                         *)
(* --------------------------------------------------------------------- *)

Definition reader_name : string := "PaperReaderAgent".

(** [paperData.openAccessPdf?.url || (arxivId ? arxiv.getPDFUrl(arxivId) :
    undefined)]: the URL of the service when it gives one, otherwise the one
    made from the arXiv identifier, which throws when the identifier has no
    part of the form the patterns of [extractArxivId] look for. *)
Definition pdf_url_of (paperData : SemanticScholarPaper) : Exn + option string :=
  let from_arxiv :=
    match externalIds_ArXiv paperData with
    | Some a =>
        if truthy a
        then match getPDFUrl a with
             | inr url => inr (Some url)
             | inl e => inl e
             end
        else inr None
    | None => inr None
    end in
  match openAccessPdf_url paperData with
  | Some url => if truthy url then inr (Some url) else from_arxiv
  | None => from_arxiv
  end.

(** A synchronous step that returns or throws. *)
Definition value_or_throw {A : Type} (r : Exn + A) : M A :=
  match r with
  | inr a => ret a
  | inl e => throw e
  end.

Definition storePaper (paperData : SemanticScholarPaper) : M (option Paper) :=
  try_catch
    (let arxivId := externalIds_ArXiv paperData in
     let ssId := paperId paperData in
     byArxiv <-
       match arxivId with
       | Some a => if truthy a then getPaperByArxivId a else ret None
       | None => ret None
       end ;;
     match byArxiv with
     | Some existing =>
         agent_log ("Paper already exists: " +:+ default "" arxivId) ;;;
         ret (Some existing)
     | None =>
         bySs <- (if truthy ssId then getPaperBySemanticScholarId ssId else ret None) ;;
         match bySs with
         | Some existing =>
             agent_log ("Paper already exists: " +:+ ssId) ;;;
             ret (Some existing)
         | None =>
             value_or_throw (pdf_url_of paperData) ;;;
             inserted <- insertPaper (ss_title paperData) arxivId (Some ssId)
                                     (ss_abstract paperData) ;;
             agent_log ("Inserted paper: " +:+ paper_title inserted) ;;;
             ret (Some inserted)
         end
     end)
    (fun _ => agent_logError reader_name "Failed to store paper" ;;; ret None).

(** [(b.citationCount || 0) - (a.citationCount || 0)] is negative, that is
    [a] sorts before [b], exactly when [a] has strictly more citations. *)
Definition citations (p : SemanticScholarPaper) : nat := default 0 (citationCount p).

(** [Array.prototype.sort] is stable: elements that compare equal keep
    their order.  Insertion from the right realises that. *)
Fixpoint insert_by_citations (x : SemanticScholarPaper) (l : list SemanticScholarPaper)
  : list SemanticScholarPaper :=
  match l with
  | [] => [x]
  | y :: r => if citations x <? citations y then y :: insert_by_citations x r
              else x :: y :: r
  end.

Definition sort_by_citations (l : list SemanticScholarPaper) : list SemanticScholarPaper :=
  foldr insert_by_citations [] l.

(** The candidates pushed on the queue after one paper. *)
Definition relatedPapers (visited : gset string)
           (references cited_by : list SemanticScholarPaper) : list string :=
  paperId <$>
    take 5 (sort_by_citations
              (filter (fun p => truthy (paperId p) = true /\ paperId p ∉ visited)
                      (references ++ cited_by))).

(** The [while] loop of [fetchRelatedPapers]; one unit of fuel per turn. *)
Fixpoint fetch_loop (fuel limit : nat) (found : list Paper) (visited : gset string)
         (queue : list string) : M (list Paper) :=
  match fuel with
  | O => out_of_fuel
  | S fuel' =>
      match queue with
      | [] => ret found
      | currentPaperId :: queue' =>
          if negb (length found <? limit) then ret found
          else if bool_decide (currentPaperId ∈ visited)
          then fetch_loop fuel' limit found visited queue'
          else
            let visited' := {[currentPaperId]} ∪ visited in
            paperData <- getPaper currentPaperId ;;
            match paperData with
            | None =>
                agent_log ("Paper not found: " +:+ currentPaperId) ;;;
                fetch_loop fuel' limit found visited' queue'
            | Some data =>
                storedPaper <- storePaper data ;;
                let found' :=
                  match storedPaper with
                  | Some p => found ++ [p]
                  | None => found
                  end in
                if length found' <? limit
                then
                  references <- getReferences currentPaperId 10 ;;
                  cited_by <- getCitations currentPaperId 10 ;;
                  fetch_loop fuel' limit found' visited'
                             (queue' ++ relatedPapers visited' references cited_by)
                else fetch_loop fuel' limit found' visited' queue'
            end
      end
  end.

Definition fetchRelatedPapers (fuel : nat) (seedPaper : string) (limit : nat)
  : M (list Paper) :=
  agent_log ("Fetching papers related to " +:+ seedPaper) ;;;
  try_catch
    (found <- fetch_loop fuel limit [] ∅ [seedPaper] ;;
     agent_log "Fetched papers" ;;;
     ret found)
    (fun e => agent_logError reader_name "Failed to fetch related papers" ;;; throw e).

End Pipeline.

(* ===================================================================== *)
(** * agents/ValidatorAgent.ts: circular improvement chains               *)
(* ===================================================================== *)

(** A JavaScript [Map<string, string[]>]: entries in insertion order. *)
Definition Graph : Type := list (string * list string).

Definition graph_has (g : Graph) (k : string) : bool := bool_decide (k ∈ g.*1).

Fixpoint graph_get (g : Graph) (k : string) : option (list string) :=
  match g with
  | [] => None
  | (k', vs) :: r => if decide (k' = k) then Some vs else graph_get r k
  end.

(** [graph.set(k, vs)]: a new key goes last, a known key keeps its place. *)
Fixpoint graph_set (g : Graph) (k : string) (vs : list string) : Graph :=
  match g with
  | [] => [(k, vs)]
  | (k', vs') :: r =>
      if decide (k' = k) then (k, vs) :: r else (k', vs') :: graph_set r k vs
  end.

(** [graph.get(k)!.push(v)]: the array held by the map is extended in
    place. *)
Definition graph_push (g : Graph) (k v : string) : Graph :=
  match graph_get g k with
  | Some vs => graph_set g k (vs ++ [v])
  | None => g
  end.

Definition graph_keys (g : Graph) : list string := g.*1.

(** The adjacency list, new concept to old concepts. *)
Definition build_graph (improvements : list (string * string)) : Graph :=
  foldl (fun graph imp =>
           let graph' := if graph_has graph (fst imp) then graph
                         else graph_set graph (fst imp) [] in
           graph_push graph' (fst imp) (snd imp))
        [] improvements.

(** The two sets the closure [hasCycle] updates: [visited] and
    [recursionStack]. *)
Record Marks : Type := {
  visited : gset string;
  recursionStack : gset string;
}.

(** The [for (const neighbor of neighbors)] loop of [hasCycle node], with
    the tail of the function after it; [recurse] is [hasCycle] itself. *)
Fixpoint visit_neighbors (recurse : string -> Marks -> option (bool * Marks))
         (node : string) (neighbors : list string) (m : Marks)
  : option (bool * Marks) :=
  match neighbors with
  | [] => Some (false, {| visited := visited m;
                          recursionStack := recursionStack m ∖ {[node]} |})
  | neighbor :: rest =>
      if bool_decide (neighbor ∉ visited m)
      then match recurse neighbor m with
           | Some (true, m') => Some (true, m')
           | Some (false, m') => visit_neighbors recurse node rest m'
           | None => None
           end
      else if bool_decide (neighbor ∈ recursionStack m)
      then Some (true, m)
      else visit_neighbors recurse node rest m
  end.

(** [hasCycle]; [None] when the recursion is deeper than [fuel]. *)
Fixpoint hasCycle (fuel : nat) (graph : Graph) (node : string) (m : Marks)
  : option (bool * Marks) :=
  match fuel with
  | O => None
  | S fuel' =>
      visit_neighbors (hasCycle fuel' graph) node
        (default [] (graph_get graph node))
        {| visited := {[node]} ∪ visited m;
           recursionStack := {[node]} ∪ recursionStack m |}
  end.

Inductive Conflict : Type :=
| duplicate_link (conceptId : string) (count : nat)
| circular_improvement.

(** The [for (const node of graph.keys())] loop. *)
Fixpoint scan_nodes (fuel : nat) (graph : Graph) (nodes : list string) (m : Marks)
         (conflicts : list Conflict) : option (list Conflict) :=
  match nodes with
  | [] => Some conflicts
  | node :: rest =>
      if bool_decide (node ∉ visited m)
      then match hasCycle fuel graph node m with
           | Some (true, m') =>
               scan_nodes fuel graph rest m' (conflicts ++ [circular_improvement])
           | Some (false, m') => scan_nodes fuel graph rest m' conflicts
           | None => None
           end
      else scan_nodes fuel graph rest m conflicts
  end.

(** Every concept that occurs in an edge. *)
Definition graph_nodes (improvements : list (string * string)) : gset string :=
  list_to_set (improvements.*1) ∪ list_to_set (improvements.*2).

(** The recursion of [hasCycle] marks a fresh node at each call, so it is
    never deeper than the number of concepts. *)
Definition recursion_bound (improvements : list (string * string)) : nat :=
  S (size (graph_nodes improvements)).

(** The part of [checkCircularImprovements] after the query. *)
Definition detect_cycles (improvements : list (string * string))
           (conflicts : list Conflict) : option (list Conflict) :=
  let graph := build_graph improvements in
  scan_nodes (recursion_bound improvements) graph (graph_keys graph)
             {| visited := ∅; recursionStack := ∅ |} conflicts.

Definition validator_name : string := "ValidatorAgent".

Section Validator.

Variable w : World.

Definition checkCircularImprovements (conflicts : list Conflict) : M (list Conflict) :=
  try_catch
    (improvements <-
       db_read w (fun s => (fun r => (imp_new_concept r, imp_old_concept r))
                             <$> concept_improves_concept s) ;;
     match detect_cycles improvements conflicts with
     | Some conflicts' => ret conflicts'
     | None => out_of_fuel
     end)
    (fun _ =>
       agent_logError validator_name "Failed to check circular improvements" ;;;
       ret conflicts).

End Validator.

(** A directed path of at least one edge, and a cycle. *)
Definition improves (improvements : list (string * string)) (a b : string) : Prop :=
  (a, b) ∈ improvements.

Definition has_cycle (improvements : list (string * string)) : Prop :=
  exists a, tc (improves improvements) a a.

Definition has_self_loop (improvements : list (string * string)) : Prop :=
  exists a, (a, a) ∈ improvements.

Definition improvement_edges (s : Store) : list (string * string) :=
  (fun r => (imp_new_concept r, imp_old_concept r)) <$> concept_improves_concept s.

(* ===================================================================== *)
(** * agents/base/Agent.ts and agents/base/Coordinator.ts                 *)
(* ===================================================================== *)

Inductive AgentType : Type := reader | extractor | mapper | validator.

Global Instance AgentType_eq_dec : EqDecision AgentType.
Proof. solve_decision. Defined.

Definition agent_type_name (t : AgentType) : string :=
  match t with
  | reader => "reader"
  | extractor => "extractor"
  | mapper => "mapper"
  | validator => "validator"
  end.

(** The untyped values ([any]) that travel between agents. *)
Inductive Value : Type :=
| VUndefined
| VNull
| VString (s : string)
| VObject (fields : list (string * Value)).

Record Agent : Type := {
  agent_name : string;
  agent_type : AgentType;
  execute : Value -> M Value;
}.

(** [Agent.executeTask] *)
Definition executeTask (a : Agent) (input : Value) : M Value :=
  agent_log "Created task" ;;;
  try_catch
    (agent_log "Starting execution of task" ;;;
     agent_log "Updated task: processing" ;;;
     result <- execute a input ;;
     agent_log "Updated task: completed" ;;;
     agent_log "Completed task" ;;;
     ret result)
    (fun e =>
       agent_logError (agent_name a) "Task failed" ;;;
       agent_log "Updated task: failed" ;;;
       throw e).

(** The [Map<AgentType, Agent>] of the coordinator. *)
Definition Registry : Type := AgentType -> option Agent.

Definition registerAgent (agents : Registry) (a : Agent) : Registry :=
  fun t => if decide (t = agent_type a) then Some a else agents t.

Definition join_names (l : list AgentType) : string :=
  foldr (fun t acc => agent_type_name t +:+ (if is_empty acc then "" else ", " +:+ acc))
        "" l.

Definition validateAgents (agents : Registry) (required : list AgentType) : M unit :=
  let missing := filter (fun t => agents t = None) required in
  match missing with
  | [] => ret tt
  | _ => throw (JsError ("Missing required agents: " +:+ join_names missing))
  end.

(** [this.agents.get(t)!.executeTask(input)] *)
Definition run_agent (agents : Registry) (t : AgentType) (input : Value) : M Value :=
  match agents t with
  | Some a => executeTask a input
  | None => throw (JsError "Cannot read properties of undefined")
  end.

Definition orchestratePaperProcessing (agents : Registry) (paperId : string) : M Value :=
  log_info ("Orchestrating paper processing pipeline for: " +:+ paperId) ;;;
  validateAgents agents [reader; extractor; mapper; validator] ;;;
  try_catch
    (log_info ("Step 1/4: Reading paper " +:+ paperId) ;;;
     paperData <- run_agent agents reader (VObject [("paperId", VString paperId)]) ;;
     log_info ("Step 2/4: Extracting entities from " +:+ paperId) ;;;
     entities <- run_agent agents extractor paperData ;;
     log_info ("Step 3/4: Mapping relationships for " +:+ paperId) ;;;
     relationships <- run_agent agents mapper
                        (VObject [("paperId", VString paperId); ("entities", entities)]) ;;
     log_info ("Step 4/4: Validating results for " +:+ paperId) ;;;
     run_agent agents validator
       (VObject [("paperId", VString paperId); ("entities", entities);
                 ("relationships", relationships)]) ;;;
     log_info ("Successfully processed paper: " +:+ paperId) ;;;
     ret (VObject [("paperId", VString paperId); ("entities", entities);
                   ("relationships", relationships); ("status", VString "completed")]))
    (fun e => log_error ("Failed to process paper: " +:+ paperId) ;;; throw e).

(** What [Promise.allSettled] reports for one promise. *)
Inductive Settled : Type :=
| fulfilled (value : Value)
| rejected (reason : Exn).

Definition is_fulfilled (r : Settled) : bool :=
  match r with fulfilled _ => true | rejected _ => false end.

Definition is_rejected (r : Settled) : bool :=
  match r with fulfilled _ => false | rejected _ => true end.

Section Coordinator.

Variable w : World.

(** The queue's [timeout] option, with its [throwOnTimeout] switch: a unit
    that has not ended when the timeout elapses, because it ends late or
    because it never ends, has its promise settled by the queue, with
    [undefined] or with a timeout error; the work done is not undone. *)
Variable throwOnTimeout : bool.

Definition on_timeout : Outcome Value :=
  if throwOnTimeout then Throw TimeoutExn else Ok VUndefined.

Definition queue_add (task : M Value) : M Value :=
  fun st =>
    let late := deadline_missed w (st_tick st) in
    match task st with
    | (OutOfFuel, st') => (on_timeout, st')
    | (r, st') => if late then (on_timeout, st') else (r, st')
    end.

(** [Promise.allSettled]: one entry per promise, in the order given. *)
Fixpoint allSettled (tasks : list (M Value)) : M (list Settled) :=
  match tasks with
  | [] => ret []
  | task :: rest =>
      fun st =>
        match task st with
        | (Ok v, st') => (results <- allSettled rest ;; ret (fulfilled v :: results)) st'
        | (Throw e, st') => (results <- allSettled rest ;; ret (rejected e :: results)) st'
        | (OutOfFuel, st') => (OutOfFuel, st')
        end
  end.

Definition processPapersBatch (agents : Registry) (paperIds : list string)
  : M (list Settled) :=
  log_info "Processing batch of papers" ;;;
  results <- allSettled
               ((fun paperId => queue_add (orchestratePaperProcessing agents paperId))
                  <$> paperIds) ;;
  let successful := length (filter (fun r => is_fulfilled r = true) results) in
  let failed := length (filter (fun r => is_rejected r = true) results) in
  log_info ("Batch processing complete: " +:+ pretty successful +:+ " successful, "
            +:+ pretty failed +:+ " failed") ;;;
  ret results.

End Coordinator.

(* ===================================================================== *)
(** * Vocabulary of the statements                                        *)
(* ===================================================================== *)

(** A world in which no other worker writes to the store. *)
Definition quiet (w : World) : Prop := forall t s, concurrent w t s = s.

Definition quiet_world : World :=
  {| concurrent := fun _ s => s;
     llm_extract := fun _ _ => None;
     llm_classify := fun _ _ => None;
     http_paper := fun _ _ => NetworkError;
     http_references := fun _ _ _ => NetworkError;
     http_citations := fun _ _ _ => NetworkError;
     deadline_missed := fun _ => false |}.

Definition blank_state : State :=
  {| st_store := empty_store; st_tick := 0; st_log := [] |}.

Definition concept_key (c : ExtractedConcept) : string :=
  or_else (ec_normalized_name c) (normalizeEntityName (ec_name c)).

Definition method_key (m : ExtractedMethod) : string :=
  or_else (em_normalized_name m) (normalizeEntityName (em_name m)).

Definition concept_links (s : Store) : list (string * string) :=
  (fun l => (pic_paper_id l, pic_concept_id l)) <$> paper_introduces_concept s.

Definition method_links (s : Store) : list (string * string) :=
  (fun l => (pum_paper_id l, pum_method_id l)) <$> paper_uses_method s.

Definition dataset_links (s : Store) : list (string * string) :=
  (fun l => (ped_paper_id l, ped_dataset_id l)) <$> paper_evaluates_on_dataset s.

(** The entity is in its table under its key and the paper is linked to it. *)
Definition concept_persisted (paper : string) (s : Store) (c : ExtractedConcept) : bool :=
  match single (select_eq concept_normalized_name (concept_key c) (concepts s)) with
  | Some row => bool_decide ((paper, concept_id row) ∈ concept_links s)
  | None => false
  end.

Definition method_persisted (paper : string) (s : Store) (m : ExtractedMethod) : bool :=
  match single (select_eq method_normalized_name (method_key m) (methods s)) with
  | Some row => bool_decide ((paper, method_id row) ∈ method_links s)
  | None => false
  end.

Definition dataset_persisted (paper : string) (s : Store) (d : ExtractedDataset) : bool :=
  match single (select_eq dataset_name (ed_name d) (datasets s)) with
  | Some row => bool_decide ((paper, dataset_id row) ∈ dataset_links s)
  | None => false
  end.

Definition fully_persisted (paper : string) (entities : ExtractedEntities) (s : Store)
  : bool :=
  forallb (concept_persisted paper s) (ee_concepts entities)
  && forallb (method_persisted paper s) (ee_methods entities)
  && forallb (dataset_persisted paper s) (ee_datasets entities).

Definition failure_entry (what name : string) : LogEntry :=
  {| log_level := error;
     log_message := "[" +:+ extractor_name +:+ "] " +:+ ("Failed to store " +:+ what +:+ ": " +:+ name) |}.

(** The operations of the pipeline that write to the store. *)
Inductive PipelineOp : Type :=
| op_fetchRelatedPapers (fuel : nat) (seedPaper : string) (limit : nat)
| op_extract (input : ExtractInput)
| op_mapImprovements (paperId : string) (entities : ExtractedEntities).

Definition run_op (w : World) (op : PipelineOp) (st : State) : State :=
  match op with
  | op_fetchRelatedPapers fuel seedPaper limit =>
      snd (fetchRelatedPapers w fuel seedPaper limit st)
  | op_extract input => snd (extract w input st)
  | op_mapImprovements paper entities => snd (mapImprovements w paper entities st)
  end.

Inductive reachable (w : World) : State -> Prop :=
| reachable_start : reachable w blank_state
| reachable_step st op : reachable w st -> reachable w (run_op w op st).

Definition no_self_loop (s : Store) : Prop :=
  forall r, r ∈ concept_improves_concept s -> imp_new_concept r <> imp_old_concept r.

(** The database accepts the row of an improvement edge: the category fits
    its column and is one of the four allowed, the confidence lies between
    0 and 1, the pair of concepts has no edge yet, and both concepts
    exist.  Whether the edge closes a cycle plays no part. *)
Definition improvement_accepted (s : Store) (new old category : string) (confidence : Q)
  : bool :=
  negb (too_long 50 (Some category))
  && check_confidence confidence
  && bool_decide (category ∈ improvement_types)
  && negb (bool_decide ((new, old) ∈ improvement_edges s))
  && has_concept s new && has_concept s old.

(** The prompt [mapImprovements] makes for a concept and a candidate. *)
Definition pair_prompt (concept oldConcept : Concept) : ClassifyPrompt :=
  {| cp_new_name := concept_name concept;
     cp_new_description := concept_description concept;
     cp_old_name := concept_name oldConcept;
     cp_old_description := concept_description oldConcept |}.

(** The language model classifies a pair the same at all times. *)
Definition steady_classifier (w : World) (answer : ClassifyPrompt -> option Classification)
  : Prop :=
  forall t prompt, llm_classify w t prompt = answer prompt.

(** An answer of the language model that reports an improvement, with a
    category and a confidence that the checks of the table accept. *)
Definition improvement_found (answer : option Classification) : bool :=
  match answer with
  | Some result =>
      has_relationship result && bool_decide (relationship_type result = "improves_on")
      && bool_decide (or_else (improvement_category result) "quality" ∈ improvement_types)
      && check_confidence (confidence_or_default (cl_confidence result))
  | None => false
  end.

(** The candidates of a concept: the first ten other concepts. *)
Definition candidates_of (s : Store) (concept : Concept) : list Concept :=
  take 10 (filter (fun c => concept_id c <> concept_id concept) (concepts s)).

(** The pairs [mapImprovements] examines for a paper: a concept the paper
    introduces, as the join finds it, and one of its candidates. *)
Definition examined (s : Store) (paper : string) (concept oldConcept : Concept) : Prop :=
  (exists link,
      link ∈ select_eq pic_paper_id paper (paper_introduces_concept s)
      /\ head (select_eq concept_id (pic_concept_id link) (concepts s)) = Some concept)
  /\ oldConcept ∈ candidates_of s concept.

(** The static snapshot: the citation service answers the same at all times. *)
Definition static_graph (w : World) : Prop :=
  forall t t' id,
    http_paper w t id = http_paper w t' id
    /\ (forall n, http_references w t id n = http_references w t' id n)
    /\ (forall n, http_citations w t id n = http_citations w t' id n).

(* ===================================================================== *)
(** * Scenarios                                                           *)
(* ===================================================================== *)

Definition nerf : ExtractedConcept :=
  {| ec_name := "NeRF"; ec_normalized_name := None;
     ec_description := "Neural radiance fields for view synthesis";
     ec_category := Some "representation"; ec_confidence := (9 # 10)%Q |}.

Definition splatting : ExtractedConcept :=
  {| ec_name := "3D Gaussian Splatting"; ec_normalized_name := None;
     ec_description := "Rasterised anisotropic Gaussians";
     ec_category := Some "technique"; ec_confidence := (9 # 10)%Q |}.

Definition ray_marching : ExtractedMethod :=
  {| em_name := "Ray marching"; em_normalized_name := None;
     em_description := "Samples the field along camera rays";
     em_computational_complexity := None; em_confidence := (8 # 10)%Q |}.

Definition blender : ExtractedDataset :=
  {| ed_name := "Blender"; ed_description := "Synthetic objects"; ed_url := None |}.

Definition sample_entities : ExtractedEntities :=
  {| ee_concepts := [nerf]; ee_methods := [ray_marching]; ee_datasets := [blender];
     ee_metrics := [] |}.

(** A database holding two papers, [uuid-0] and [uuid-1]. *)
Definition two_papers : State :=
  {| st_store :=
       snd (sql_insert_paper "Instant NGP" (Some "2201.05989") (Some "ss-ngp") None
              (snd (sql_insert_paper "3D Gaussian Splatting" (Some "2308.04079")
                      (Some "ss-3dgs") None empty_store)));
     st_tick := 0; st_log := [] |}.

(** The state after the entities of paper [uuid-0] were stored once. *)
Definition stored_once : State :=
  snd (storeEntities quiet_world "uuid-0" sample_entities two_papers).

(** A second worker inserts the concept with key [nerf] for paper [uuid-1]
    between this worker's lookup (call 0) and its insert (call 1). *)
Definition racing_world : World :=
  {| concurrent := fun t s =>
       if t =? 1
       then snd (sql_insert_concept "NeRF" "nerf" "Radiance fields" None
                                    (Some "uuid-1") (8 # 10)%Q s)
       else s;
     llm_extract := fun _ _ => None;
     llm_classify := fun _ _ => None;
     http_paper := fun _ _ => NetworkError;
     http_references := fun _ _ _ => NetworkError;
     http_citations := fun _ _ _ => NetworkError;
     deadline_missed := fun _ => false |}.

(** A quiet world whose language model extracts the two concepts from every
    paper and classifies every ordered pair as an improvement. *)
Definition seed_paper : SemanticScholarPaper :=
  {| paperId := "ss-3dgs"; externalIds_ArXiv := Some "2308.04079";
     ss_title := "3D Gaussian Splatting"; ss_abstract := None;
     citationCount := Some 100; openAccessPdf_url := None |}.

Definition eager_world : World :=
  {| concurrent := fun _ s => s;
     llm_extract := fun _ _ =>
       Some {| raw_concepts := Some [nerf; splatting]; raw_methods := None;
               raw_datasets := None; raw_metrics := None |};
     llm_classify := fun _ _ =>
       Some {| has_relationship := true; relationship_type := "improves_on";
               improvement_category := Some "quality"; quantitative_gain := None;
               cl_confidence := Some (9 # 10)%Q |};
     http_paper := fun _ _ => Http200 seed_paper;
     http_references := fun _ _ _ => Http200 [];
     http_citations := fun _ _ _ => Http200 [];
     deadline_missed := fun _ => false |}.

Definition seed_input : ExtractInput :=
  {| in_paperId := "uuid-0"; in_title := "3D Gaussian Splatting";
     in_abstract := "Real-time radiance field rendering"; in_fullText := None |}.

Definition extracted_state : State :=
  run_op eager_world (op_extract seed_input)
    (run_op eager_world (op_fetchRelatedPapers 3 "arXiv:2308.04079" 1) blank_state).

(** The two concepts as the extraction stored them, and the state in the
    middle of the mapping, when the first of the two edges is written. *)
Definition nerf_row : Concept :=
  {| concept_id := "uuid-1"; concept_name := "NeRF"; concept_normalized_name := "nerf";
     concept_description := "Neural radiance fields for view synthesis";
     concept_category := Some "representation";
     concept_first_introduced_by := Some "uuid-0"; concept_confidence := (9 # 10)%Q |}.

Definition splatting_row : Concept :=
  {| concept_id := "uuid-3"; concept_name := "3D Gaussian Splatting";
     concept_normalized_name := "3d-gaussian-splatting";
     concept_description := "Rasterised anisotropic Gaussians";
     concept_category := Some "technique";
     concept_first_introduced_by := Some "uuid-0"; concept_confidence := (9 # 10)%Q |}.

Definition one_edge_state : State :=
  snd (classify_pair eager_world nerf_row splatting_row extracted_state).

Definition seed_entities : ExtractedEntities :=
  {| ee_concepts := [nerf; splatting]; ee_methods := []; ee_datasets := [];
     ee_metrics := [] |}.

Definition mapped_state : State :=
  run_op eager_world (op_mapImprovements "uuid-0" seed_entities) extracted_state.

(** Computations without an exhausted loop: they end, normally or by an
    exception. *)
Definition ends {A : Type} (m : M A) : Prop :=
  forall st, fst (m st) <> OutOfFuel.

(** The entry of a unit that the queue's timeout settled. *)
Definition timed_out (throwOnTimeout : bool) : Settled :=
  if throwOnTimeout then rejected TimeoutExn else fulfilled VUndefined.

(** The entry of one unit of a batch: its own outcome, unless the unit had
    not ended when the timeout of the queue elapsed. *)
Definition settled_as (throwOnTimeout late : bool) (outcome : Outcome Value) : Settled :=
  match outcome with
  | Ok v => if late then timed_out throwOnTimeout else fulfilled v
  | Throw e => if late then timed_out throwOnTimeout else rejected e
  | OutOfFuel => timed_out throwOnTimeout
  end.

(** The papers of a batch are processed one after the other on the shared
    state: [orchestratePaperProcessing] is run for each of them from the
    state its predecessor left, and the entry at its place is the settled
    form of its own outcome, whatever the outcomes of the others. *)
Inductive batch_settles (w : World) (throwOnTimeout : bool) (agents : Registry)
  : State -> list string -> list Settled -> State -> Prop :=
| batch_done st : batch_settles w throwOnTimeout agents st [] [] st
| batch_next st id ids outcome st1 results st2 :
    orchestratePaperProcessing agents id st = (outcome, st1) ->
    batch_settles w throwOnTimeout agents st1 ids results st2 ->
    batch_settles w throwOnTimeout agents st (id :: ids)
      (settled_as throwOnTimeout (deadline_missed w (st_tick st)) outcome :: results) st2.

(** Five papers; the extractor fails on the third. *)
Definition input_paper (input : Value) : string :=
  match input with
  | VObject (("paperId", VString id) :: _) => id
  | _ => ""
  end.

Definition echo_reader : Agent :=
  {| agent_name := "PaperReaderAgent"; agent_type := reader;
     execute := fun input => ret input |}.

Definition failing_extractor : Agent :=
  {| agent_name := "EntityExtractorAgent"; agent_type := extractor;
     execute := fun input =>
       if bool_decide (input_paper input = "p3") then throw LlmExn
       else ret (VString "entities") |}.

Definition idle_mapper : Agent :=
  {| agent_name := "RelationshipMapperAgent"; agent_type := mapper;
     execute := fun _ => ret (VString "relationships") |}.

Definition idle_validator : Agent :=
  {| agent_name := "ValidatorAgent"; agent_type := validator;
     execute := fun _ => ret (VString "valid") |}.

Definition sample_registry : Registry :=
  registerAgent
    (registerAgent
       (registerAgent (registerAgent (fun _ => None) echo_reader) failing_extractor)
       idle_mapper)
    idle_validator.

Definition five_papers : list string := ["p1"; "p2"; "p3"; "p4"; "p5"].

(** An extractor that never answers for the third paper and fails on the
    fourth. *)
Definition stalling_extractor : Agent :=
  {| agent_name := "EntityExtractorAgent"; agent_type := extractor;
     execute := fun input =>
       if bool_decide (input_paper input = "p3") then out_of_fuel
       else if bool_decide (input_paper input = "p4") then throw LlmExn
       else ret (VString "entities") |}.

Definition stalling_registry : Registry :=
  registerAgent
    (registerAgent
       (registerAgent (registerAgent (fun _ => None) echo_reader) stalling_extractor)
       idle_mapper)
    idle_validator.

(** The line the coordinator logs at the end of a batch. *)
Definition batch_summary (results : list Settled) : string :=
  "Batch processing complete: "
  +:+ pretty (length (filter (fun r => is_fulfilled r = true) results))
  +:+ " successful, "
  +:+ pretty (length (filter (fun r => is_rejected r = true) results)) +:+ " failed".

(** A computation that never throws, and the citation service that fails
    on a paper only with 404. *)
Definition never_throws {A : Type} (m : M A) : Prop :=
  forall st e, fst (m st) <> Throw e.

Definition only_not_found (w : World) : Prop :=
  forall t id,
    match http_paper w t id with
    | Http200 _ => True
    | HttpStatus status => status = 404
    | NetworkError => False
    end.

(** A paper row without its primary key, which the database draws at
    random. *)
Definition content (p : Paper) : Paper :=
  {| paper_id := ""; paper_title := paper_title p; paper_arxiv_id := paper_arxiv_id p;
     paper_semantic_scholar_id := paper_semantic_scholar_id p;
     paper_abstract := paper_abstract p |}.

(** Two databases hold the same papers, row by row, whatever their primary
    keys, their other tables and the state of their key supplies. *)
Definition same_papers (s1 s2 : Store) : Prop :=
  content <$> papers s1 = content <$> papers s2.

(** Two runs end the same way: with the same papers in the same order,
    their primary keys apart, or with the same error. *)
Definition same_outcome (o1 o2 : Outcome (list Paper)) : Prop :=
  match o1, o2 with
  | Ok l1, Ok l2 => content <$> l1 = content <$> l2
  | Throw e1, Throw e2 => e1 = e2
  | OutOfFuel, OutOfFuel => True
  | _, _ => False
  end.

(** A seed with two references; the service does not know the first one
    and does not serve citations at all. *)
Definition cited (id : string) (count : nat) : SemanticScholarPaper :=
  {| paperId := id; externalIds_ArXiv := None; ss_title := "Paper " +:+ id;
     ss_abstract := None; citationCount := Some count; openAccessPdf_url := None |}.

Definition patchy_world (r1_answer : HttpResponse SemanticScholarPaper) : World :=
  {| concurrent := fun _ s => s;
     llm_extract := fun _ _ => None;
     llm_classify := fun _ _ => None;
     http_paper := fun _ id =>
       if bool_decide (id = "seed") then Http200 (cited "seed" 50)
       else if bool_decide (id = "r1") then r1_answer
       else if bool_decide (id = "r2") then Http200 (cited "r2" 9)
       else HttpStatus 404;
     http_references := fun _ id _ =>
       if bool_decide (id = "seed") then Http200 [cited "r1" 10; cited "r2" 9]
       else Http200 [];
     http_citations := fun _ _ _ => HttpStatus 500;
     deadline_missed := fun _ => false |}.

(** The traversal scenario: a seed with eight references cited 10 down to
    3 times. *)
Definition eight_references : list SemanticScholarPaper :=
  [cited "ref-10" 10; cited "ref-9" 9; cited "ref-8" 8; cited "ref-7" 7;
   cited "ref-6" 6; cited "ref-5" 5; cited "ref-4" 4; cited "ref-3" 3].

Definition scenario_world : World :=
  {| concurrent := fun _ s => s;
     llm_extract := fun _ _ => None;
     llm_classify := fun _ _ => None;
     http_paper := fun _ id =>
       if bool_decide (id = "seed") then Http200 (cited "seed" 50)
       else match list_find (fun p => paperId p = id) eight_references with
            | Some (_, p) => Http200 p
            | None => HttpStatus 404
            end;
     http_references := fun _ id _ =>
       if bool_decide (id = "seed") then Http200 eight_references else Http200 [];
     http_citations := fun _ _ _ => Http200 [];
     deadline_missed := fun _ => false |}.

(** Two databases that hold the same paper, stored earlier under another
    title, with different primary keys and key supplies; the second one is
    met at a later moment by a process that has logged before. *)
Definition archive (key : string) (supply : nat) : Store :=
  {| papers := [{| paper_id := key; paper_title := "An earlier title";
                   paper_arxiv_id := None; paper_semantic_scholar_id := Some "ref-10";
                   paper_abstract := None |}];
     concepts := []; methods := []; datasets := [];
     paper_introduces_concept := []; paper_uses_method := [];
     paper_evaluates_on_dataset := []; concept_improves_concept := [];
     uuid_counter := supply |}.

Definition first_archive : State :=
  {| st_store := archive "0b2f" 1; st_tick := 0; st_log := [] |}.

Definition second_archive : State :=
  {| st_store := archive "e41a" 40; st_tick := 7;
     st_log := [{| log_level := info; log_message := "an earlier run" |}] |}.

(** The service of the traversal scenario, with another worker that stores
    the paper [ref-10] between the seventh and the eighth external call of
    this process. *)
Definition busy_world : World :=
  {| concurrent := fun t s =>
       if t =? 7
       then snd (sql_insert_paper "Paper ref-10" None (Some "ref-10") None s)
       else s;
     llm_extract := llm_extract scenario_world;
     llm_classify := llm_classify scenario_world;
     http_paper := http_paper scenario_world;
     http_references := http_references scenario_world;
     http_citations := http_citations scenario_world;
     deadline_missed := deadline_missed scenario_world |}.

Definition later_state : State :=
  {| st_store := empty_store; st_tick := 20;
     st_log := [{| log_level := info; log_message := "an earlier run" |}] |}.

(** What [getPaper] throws on an answer of the service, if anything. *)
Definition failure_of {A : Type} (r : HttpResponse A) : option Exn :=
  match r with
  | Http200 _ => None
  | HttpStatus status => if status =? 404 then None else Some (HttpExn (Some status))
  | NetworkError => Some (HttpExn None)
  end.

(** Descending order of citation counts. *)
Definition more_cited (a b : SemanticScholarPaper) : Prop := citations b <= citations a.

(* ===================================================================== *)
(** * Vocabulary of the proofs                                            *)
(* ===================================================================== *)

(** A state after some more calls and log entries, the database untouched. *)
Definition logged (st : State) (tick : nat) (entries : list LogEntry) : State :=
  {| st_store := st_store st; st_tick := tick + st_tick st;
     st_log := st_log st ++ entries |}.

(** The three passes before the persistence step only read the store. *)
Definition reads_only {A : Type} (m : M A) : Prop :=
  forall st, exists a st', m st = (Ok a, st') /\ st_store st' = st_store st.

(** The state a worker is left in when its insert, the second database
    call of the item, is rejected: the store is what the other workers made
    of it, and the log has one more failure. *)
Definition after_rejection (w : World) (st : State) (what name : string) : State :=
  {| st_store := concurrent w (S (st_tick st)) (concurrent w (st_tick st) (st_store st));
     st_tick := S (S (st_tick st));
     st_log := st_log st ++ [failure_entry what name] |}.

(** [m] keeps the invariant of the store, however it ends, and every value
    it returns satisfies [R]. *)
Definition keeps (Inv : Store -> Prop) {A : Type} (m : M A) (R : A -> Prop) : Prop :=
  forall st, Inv (st_store st) ->
             Inv (st_store (snd (m st))) /\ forall a, fst (m st) = Ok a -> R a.

Definition anything {A : Type} : A -> Prop := fun _ => True.

(** The state after a node was reported missing. *)
Definition after_not_found (st : State) (id : string) : State :=
  {| st_store := st_store st; st_tick := S (st_tick st);
     st_log := (st_log st ++ [{| log_level := warn;
                                log_message := "Paper not found: " +:+ id |}])
               ++ [{| log_level := info; log_message := "Paper not found: " +:+ id |}] |}.

(** From [st], [m] returns; it leaves the concepts as they are and adds to
    the improvement edges the pairs that satisfy [added], and no other. *)
Definition adds_edges {A : Type} (m : M A) (st : State) (added : string * string -> Prop)
  : Prop :=
  exists a st',
    m st = (Ok a, st')
    /\ concepts (st_store st') = concepts (st_store st)
    /\ forall e, e ∈ improvement_edges (st_store st')
                 <-> e ∈ improvement_edges (st_store st) \/ added e.

(** The state after one more external call and one more log entry. *)
Definition after_call (st : State) (lvl : Level) (message : string) : State :=
  {| st_store := st_store st; st_tick := S (st_tick st);
     st_log := st_log st ++ [{| log_level := lvl; log_message := message |}] |}.

(** The state with one more error line of an agent in the log. *)
Definition with_error (st : State) (name message : string) : State :=
  {| st_store := st_store st; st_tick := st_tick st;
     st_log := st_log st ++ [{| log_level := error;
                                log_message := "[" +:+ name +:+ "] " +:+ message |}] |}.

(** Two computations end in related ways. *)
Definition ends_alike {A : Type} (R : A -> A -> Prop) (o1 o2 : Outcome A) : Prop :=
  match o1, o2 with
  | Ok a1, Ok a2 => R a1 a2
  | Throw e1, Throw e2 => e1 = e2
  | OutOfFuel, OutOfFuel => True
  | _, _ => False
  end.

(** From two states whose databases hold the same papers, [m1] and [m2]
    end alike and leave databases that hold the same papers. *)
Definition in_step {A : Type} (R : A -> A -> Prop) (m1 m2 : M A) : Prop :=
  forall st1 st2,
    same_papers (st_store st1) (st_store st2) ->
    ends_alike R (fst (m1 st1)) (fst (m2 st2))
    /\ same_papers (st_store (snd (m1 st1))) (st_store (snd (m2 st2))).

(** The state with one more line of the coordinator in the log. *)
Definition batch_logged (st : State) (entry : string) : State :=
  {| st_store := st_store st; st_tick := st_tick st;
     st_log := st_log st ++ [{| log_level := info; log_message := entry |}] |}.

(** Two methods for pass 3. *)
Definition low_confidence_method : ExtractedMethod :=
  {| em_name := "Adaptive density control"; em_normalized_name := None;
     em_description := "Splits and clones Gaussians during optimisation";
     em_computational_complexity := None; em_confidence := (1 # 10)%Q |}.

Definition terse_method : ExtractedMethod :=
  {| em_name := "SfM"; em_normalized_name := None;
     em_description := "Point init";
     em_computational_complexity := None; em_confidence := (9 # 10)%Q |}.

(** The targets of the edges that leave [a]. *)
Definition neighbors_of (g : Graph) (a : string) : list string :=
  default [] (graph_get g a).

(** One turn of the loop that builds the adjacency list. *)
Definition add_edge (graph : Graph) (imp : string * string) : Graph :=
  let graph' := if graph_has graph (fst imp) then graph
                else graph_set graph (fst imp) [] in
  graph_push graph' (fst imp) (snd imp).

Section CycleVocabulary.

Variable g : Graph.

Definition edge (a b : string) : Prop := b ∈ neighbors_of g a.

Definition finished (m : Marks) : gset string := visited m ∖ recursionStack m.

(** What holds of the marks as long as no call has answered true: the stack
    is part of the visited set, and the finished nodes are closed under the
    edges and lie on no cycle. *)
Record settled (m : Marks) : Prop := {
  stack_visited : recursionStack m ⊆ visited m;
  finished_closed : forall u v, u ∈ finished m -> edge u v -> v ∈ finished m;
  finished_acyclic : forall u, u ∈ finished m -> ~ tc edge u u;
}.

(** Every node on the stack reaches the node being explored. *)
Definition chained (m : Marks) (node : string) : Prop :=
  forall s, s ∈ recursionStack m -> rtc edge s node.

Definition cyclic : Prop := exists a, tc edge a a.

(** The contract of one call of [hasCycle]. *)
Definition search_contract (search : string -> Marks -> option (bool * Marks)) : Prop :=
  forall node m r m',
    search node m = Some (r, m') ->
    node ∉ visited m -> settled m -> chained m node ->
    if r then cyclic
    else recursionStack m' = recursionStack m
         /\ visited m ⊆ visited m' /\ node ∈ visited m' /\ settled m'.

End CycleVocabulary.

(** With [fuel] above the number of unvisited nodes a call answers. *)
Definition terminates_at (universe : gset string) (fuel : nat)
           (search : string -> Marks -> option (bool * Marks)) : Prop :=
  forall node m,
    node ∈ universe -> node ∉ visited m ->
    size (universe ∖ visited m) < fuel ->
    exists r m', search node m = Some (r, m') /\ visited m ⊆ visited m'.

Definition only_circular (found : list Conflict) : Prop :=
  Forall (fun c => c = circular_improvement) found.

(** A finite citation graph: every paper the service lists as a reference or
    as a citation has its id in [universe]. *)
Definition listed_inside (universe : gset string)
           (answer : HttpResponse (list SemanticScholarPaper)) : Prop :=
  match answer with
  | Http200 l => forall p, p ∈ l -> paperId p ∈ universe
  | _ => True
  end.

Definition finite_graph (w : World) (universe : gset string) : Prop :=
  forall t id n,
    listed_inside universe (http_references w t id n)
    /\ listed_inside universe (http_citations w t id n).

Definition scenario_ids : gset string :=
  list_to_set ("seed" :: (paperId <$> eight_references)).

(* ===================================================================== *)
(** * utils/helpers.ts: the remaining text utilities                      *)
(* ===================================================================== *)

(** ** Names without a letter or digit *)

(** No character of [s] is a lowercase ASCII letter or a digit. *)
Definition no_key_char (s : string) : bool :=
  all_chars (fun c => negb (is_key_char c)) s.

(** ** The recurrence behind calculateSimilarity

    [edit_distance s1 s2 i j] relates the first [i] characters of [s1] to
    the first [j] characters of [s2]: the value the nested loops are meant
    to leave in [matrix[i][j]]. *)
Fixpoint edit_distance (s1 s2 : string) (i : nat) {struct i} : nat -> nat :=
  match i with
  | O => fun j => j
  | S i' =>
      fix row (j : nat) : nat :=
        match j with
        | O => S i'
        | S j' =>
            if decide (char_at s1 i' = char_at s2 j') then edit_distance s1 s2 i' j'
            else Nat.min (Nat.min (edit_distance s1 s2 i' j' + 1) (row j' + 1))
                         (edit_distance s1 s2 i' j + 1)
        end
  end.

(** Row [i] of the matrix once its first [j] cells are filled. *)
Definition distance_row (s1 s2 : string) (i j : nat) : list nat :=
  edit_distance s1 s2 i <$> seq 0 j.

(** The matrix while row [i] is being filled: the rows above are complete,
    row [i] has [j] cells, the rows below hold their first cell only. *)
Record filled_to (s1 s2 : string) (i j : nat) (m : list (list nat)) : Prop := {
  filled_rows : length m = S (String.length s1);
  filled_above : forall r, r < i ->
    m !! r = Some (distance_row s1 s2 r (S (String.length s2)));
  filled_here : m !! i = Some (distance_row s1 s2 i j);
  filled_below : forall r, i < r -> r <= String.length s1 -> m !! r = Some [r];
}.

(** ** [String.prototype.slice]

    Lengths, bounds and indices are integers; a negative index counts from
    the end of the string. *)
Definition slice_index (len : nat) (i : Z) : nat :=
  if (i <? 0)%Z then Z.to_nat (Z.max (Z.of_nat len + i) 0)
  else Nat.min (Z.to_nat i) len.

(** [s.slice(start, stop)] *)
Definition slice (s : string) (start stop : Z) : string :=
  let from := slice_index (String.length s) start in
  let to := slice_index (String.length s) stop in
  substring from (to - from) s.

(** ** truncate *)

Definition truncate (text : string) (maxLength : Z) : string :=
  if (Z.of_nat (String.length text) <=? maxLength)%Z then text
  else slice text 0 (maxLength - 3) +:+ "...".

(** ** chunkText

    The [while] loop, one unit of fuel per turn; [None] when the fuel does
    not suffice. *)
Fixpoint chunk_loop (fuel : nat) (text : string) (maxChunkSize overlap start : Z)
         (chunks : list string) : option (list string) :=
  match fuel with
  | O => None
  | S fuel' =>
      if (start <? Z.of_nat (String.length text))%Z
      then
        let stop := Z.min (start + maxChunkSize) (Z.of_nat (String.length text)) in
        chunk_loop fuel' text maxChunkSize overlap (stop - overlap)
                   (chunks ++ [slice text start stop])
      else Some chunks
  end.

Definition chunkText (fuel : nat) (text : string) (maxChunkSize overlap : Z)
  : option (list string) :=
  chunk_loop fuel text maxChunkSize overlap 0 [].

(** The default values of the two optional parameters. *)
Definition default_maxChunkSize : Z := 4000.
Definition default_overlap : Z := 200.

(** ** cleanAbstract *)

(** [.replace(/p+/g, ' ')] for a character class [p]: every maximal run of
    characters of the class becomes one space. *)
Fixpoint replace_class_runs (p : ascii -> bool) (in_run : bool) (s : string) : string :=
  match s with
  | EmptyString => EmptyString
  | String c r =>
      if p c
      then if in_run then replace_class_runs p true r
           else String " "%char (replace_class_runs p true r)
      else String c (replace_class_runs p false r)
  end.

Definition is_newline (c : ascii) : bool := code c =? 10.

Definition cleanAbstract (abstract : string) : string :=
  trim (replace_class_runs is_newline false (replace_class_runs is_space false abstract)).

(** Text in which the only white space is single spaces between words:
    every white-space character is a space, no two of them are adjacent
    ([after_space] tells that the previous character was one), and none
    stands first or last. *)
Fixpoint spaces_apart (after_space : bool) (s : string) : bool :=
  match s with
  | EmptyString => true
  | String c r =>
      if is_space c
      then Ascii.eqb c " "%char && negb after_space && spaces_apart true r
      else spaces_apart false r
  end.

Definition starts_with_space (s : string) : bool :=
  match s with EmptyString => false | String c _ => is_space c end.

Fixpoint ends_with_space (s : string) : bool :=
  match s with
  | EmptyString => false
  | String c r => if is_empty r then is_space c else ends_with_space r
  end.

Definition single_spaced (s : string) : bool :=
  spaces_apart false s && negb (starts_with_space s) && negb (ends_with_space s).

(** ** retryWithBackoff

    The delays between the attempts and the line written to the console go
    to no part of the state that is modelled.  [remaining] is
    [maxAttempts - attempt + 1]. *)
Fixpoint retry_from {A : Type} (fn : M A) (remaining : nat) : M A :=
  match remaining with
  | O => throw (JsError "Retry failed")
  | S later =>
      try_catch fn
        (fun e => match later with
                  | O => throw e
                  | S _ => retry_from fn later
                  end)
  end.

Definition retryWithBackoff {A : Type} (fn : M A) (maxAttempts : nat) : M A :=
  retry_from fn maxAttempts.

(** [count] calls of [fn] in a row, the first from [st], all throw; the
    last one throws [e] and leaves [st']. *)
Inductive fails_in_a_row {A : Type} (fn : M A) : nat -> State -> Exn -> State -> Prop :=
| fails_once st e st' :
    fn st = (Throw e, st') -> fails_in_a_row fn 1 st e st'
| fails_again count st e0 st0 e st' :
    fn st = (Throw e0, st0) -> fails_in_a_row fn count st0 e st' ->
    fails_in_a_row fn (S count) st e st'.

(** A service that is down for the first two calls. *)
Definition flaky_call : M nat :=
  fun st =>
    if st_tick st <? 2 then (Throw LlmExn, tick_state st) else (Ok (st_tick st), tick_state st).

(* ===================================================================== *)
(** * ingestion/semantic-scholar.ts: batchGetPapers                       *)
(* ===================================================================== *)

Section Client.

Variable w : World.

(** The body of the [for] loop: the papers it pushes. *)
Definition batch_get_one (paperId : string) : M (list SemanticScholarPaper) :=
  try_catch
    (paper <- getPaper w paperId ;;
     match paper with
     | Some p => ret [p]
     | None => ret []
     end)
    (fun _ => log_warn ("Failed to fetch paper in batch: " +:+ paperId) ;;; ret []).

Fixpoint batchGetPapers (paperIds : list string) : M (list SemanticScholarPaper) :=
  match paperIds with
  | [] => ret []
  | paperId :: rest =>
      found <- batch_get_one paperId ;;
      more <- batchGetPapers rest ;;
      ret (found ++ more)
  end.

End Client.

(** The paper in an answer of the service, if it is one. *)
Definition answered (r : HttpResponse SemanticScholarPaper) : option SemanticScholarPaper :=
  match r with
  | Http200 p => Some p
  | _ => None
  end.

(** The service answers a look-up of a paper the same at all times. *)
Definition static_papers (w : World) : Prop :=
  forall t t' id, http_paper w t id = http_paper w t' id.

(** Every value [m] returns satisfies [R]. *)
Definition yields {A : Type} (m : M A) (R : A -> Prop) : Prop :=
  forall st a, fst (m st) = Ok a -> R a.

(* ===================================================================== *)
(** * Statements about the database as a whole                            *)
(* ===================================================================== *)

(** A property of the store that each [INSERT] of the schema preserves,
    whatever its arguments and whether it is accepted or refused. *)
Record inserts_respect (Inv : Store -> Prop) : Prop := {
  respects_paper : forall title arxiv ss abstract s,
    Inv s -> Inv (snd (sql_insert_paper title arxiv ss abstract s));
  respects_concept : forall name key description category paper confidence s,
    Inv s -> Inv (snd (sql_insert_concept name key description category paper confidence s));
  respects_method : forall name key description complexity paper s,
    Inv s -> Inv (snd (sql_insert_method name key description complexity paper s));
  respects_dataset : forall name description url paper s,
    Inv s -> Inv (snd (sql_insert_dataset name description url paper s));
  respects_paper_concept : forall paper concept confidence s,
    Inv s -> Inv (snd (sql_insert_paper_concept paper concept confidence s));
  respects_paper_method : forall paper method s,
    Inv s -> Inv (snd (sql_insert_paper_method paper method s));
  respects_paper_dataset : forall paper dataset s,
    Inv s -> Inv (snd (sql_insert_paper_dataset paper dataset s));
  respects_improvement : forall new old type gain confidence s,
    Inv s -> Inv (snd (sql_insert_improvement new old type gain confidence s));
}.

(** The other workers preserve it too. *)
Definition workers_respect (Inv : Store -> Prop) (w : World) : Prop :=
  forall t s, Inv s -> Inv (concurrent w t s).

(** The [UNIQUE] constraints on the keys the extractor looks entities up
    by. *)
Definition unique_keys (s : Store) : Prop :=
  NoDup (concept_normalized_name <$> concepts s)
  /\ NoDup (method_normalized_name <$> methods s)
  /\ NoDup (dataset_name <$> datasets s).

(** Every table of [s] starts with the rows of the same table of [s0], in
    the same order and unchanged. *)
Definition grows (s0 s : Store) : Prop :=
  papers s0 `prefix_of` papers s
  /\ concepts s0 `prefix_of` concepts s
  /\ methods s0 `prefix_of` methods s
  /\ datasets s0 `prefix_of` datasets s
  /\ paper_introduces_concept s0 `prefix_of` paper_introduces_concept s
  /\ paper_uses_method s0 `prefix_of` paper_uses_method s
  /\ paper_evaluates_on_dataset s0 `prefix_of` paper_evaluates_on_dataset s
  /\ concept_improves_concept s0 `prefix_of` concept_improves_concept s.

(** A concept that the [CHECK] constraints of the concept table and of the
    link table accept. *)
Definition valid_concept (c : ExtractedConcept) : bool :=
  check_in concept_categories (ec_category c) && check_confidence (ec_confidence c).

(** What the constraints of the schema guarantee about the tables the
    validator reads: unique keys, unique links, confidences in range, and
    links and improvement edges whose concepts exist. *)
Definition schema_ok (s : Store) : Prop :=
  unique_keys s
  /\ NoDup (concept_links s)
  /\ (forall l, l ∈ paper_introduces_concept s ->
                check_confidence (pic_confidence l) = true
                /\ has_concept s (pic_concept_id l) = true)
  /\ (forall r, r ∈ concept_improves_concept s ->
                check_confidence (imp_confidence r) = true
                /\ has_concept s (imp_new_concept r) = true
                /\ has_concept s (imp_old_concept r) = true).

(* ===================================================================== *)
(** * agents/base/Agent.ts: validateInput                                 *)
(* ===================================================================== *)

(** [input[field]] on an object; the first entry with the key counts. *)
Fixpoint get_field (fields : list (string * Value)) (field : string) : option Value :=
  match fields with
  | [] => None
  | (k, v) :: rest => if decide (k = field) then Some v else get_field rest field
  end.

(** [!(field in input) || input[field] === undefined || input[field] ===
    null] for each required field in turn.  The [in] operator is defined on
    objects only. *)
Fixpoint validateInput (input : Value) (required : list string) : M unit :=
  match required with
  | [] => ret tt
  | field :: rest =>
      match input with
      | VObject fields =>
          match get_field fields field with
          | None | Some VUndefined | Some VNull =>
              throw (JsError ("Missing required field: " +:+ field))
          | Some _ => validateInput input rest
          end
      | _ => throw (JsError "Cannot use 'in' operator")
      end
  end.

(** A value that is neither [undefined] nor [null]. *)
Definition is_given (v : Value) : bool :=
  match v with
  | VUndefined | VNull => false
  | _ => true
  end.

(** [input.field] once the input is known to be an object. *)
Definition field_of (input : Value) (field : string) : Value :=
  match input with
  | VObject fields => default VUndefined (get_field fields field)
  | _ => VUndefined
  end.

(** The text a value is sent to the database as. *)
Definition text_of (v : Value) : string :=
  match v with
  | VString s => s
  | VObject _ => "[object Object]"
  | VUndefined => "undefined"
  | VNull => "null"
  end.

(* ===================================================================== *)
(** * agents/ValidatorAgent.ts                                            *)
(* ===================================================================== *)

(** The log messages are given without their pictographs, as for the other
    agents. *)

(** A text between double quotes. *)
Definition quoted (s : string) : string :=
  String (ascii_of_nat 34) s +:+ String (ascii_of_nat 34) EmptyString.

(** An entry of the list [checkDuplicates] returns; entities are given by
    id and name. *)
Inductive Duplicate : Type :=
| duplicate_concept (normalized_name : string) (count : nat)
                    (concepts : list (string * string))
| duplicate_method (normalized_name : string) (count : nat)
                   (methods : list (string * string))
| similar_concept (entity1 entity2 : string * string).

(** [groups.get(k)!.push(v)] after [if (!groups.has(k)) groups.set(k, [])],
    on a [Map] whose entries keep their insertion order. *)
Fixpoint group_push {V : Type} (groups : list (string * list V)) (k : string) (v : V)
  : list (string * list V) :=
  match groups with
  | [] => [(k, [v])]
  | (k', vs) :: rest =>
      if decide (k' = k) then (k', vs ++ [v]) :: rest
      else (k', vs) :: group_push rest k v
  end.

Definition group_rows {V : Type} (key : V -> string) (rows : list V)
  : list (string * list V) :=
  foldl (fun groups row => group_push groups (key row) row) [] rows.

(** [counts.set(k, (counts.get(k) || 0) + 1)] *)
Fixpoint count_push (counts : list (string * nat)) (k : string) : list (string * nat) :=
  match counts with
  | [] => [(k, 1)]
  | (k', n) :: rest =>
      if decide (k' = k) then (k', n + 1) :: rest else (k', n) :: count_push rest k
  end.

Record ValidationResults : Type := {
  vr_duplicates : list Duplicate;
  vr_consistency : bool;
  vr_conflicts : list Conflict;
  vr_isValid : bool;
}.

Section Validation.

Variable w : World.

(** Whether the database accepts the column list [paper_id, concept_id,
    count] of [resolveConflicts]; the link table of the schema has no
    column [count], and a refused select leaves [data] null. *)
Variable count_select_accepted : bool.

(** The text of a number in a template literal. *)
Variable show_number : Q -> string.

(** The loop over the groups of one table. *)
Fixpoint report_groups {V : Type} (what : string)
         (entry : string -> nat -> list V -> Duplicate)
         (groups : list (string * list V)) : M (list Duplicate) :=
  match groups with
  | [] => ret []
  | (normalized, members) :: rest =>
      found <- (if 1 <? length members
                then agent_log ("Found " +:+ pretty (length members) +:+ " duplicate "
                                +:+ what +:+ ": " +:+ normalized) ;;;
                     ret [entry normalized (length members) members]
                else ret []) ;;
      more <- report_groups what entry rest ;;
      ret (found ++ more)
  end.

(** The inner loop of [checkSimilarEntities], for one [entity1]. *)
Fixpoint similar_to (entity1 : Concept) (later : list Concept) : M (list Duplicate) :=
  match later with
  | [] => ret []
  | entity2 :: rest =>
      found <- (if decide (concept_normalized_name entity1 = concept_normalized_name entity2)
                then ret []
                else if areSimilarEntities (concept_name entity1) (concept_name entity2)
                                           default_threshold
                then agent_log ("Found similar concepts: " +:+ quoted (concept_name entity1)
                                +:+ " vs " +:+ quoted (concept_name entity2)) ;;;
                     ret [similar_concept (concept_id entity1, concept_name entity1)
                                          (concept_id entity2, concept_name entity2)]
                else ret []) ;;
      more <- similar_to entity1 rest ;;
      ret (found ++ more)
  end.

Fixpoint similar_pairs (entities : list Concept) : M (list Duplicate) :=
  match entities with
  | [] => ret []
  | entity1 :: later =>
      found <- similar_to entity1 later ;;
      more <- similar_pairs later ;;
      ret (found ++ more)
  end.

(** [checkSimilarEntities]; the value is the list [duplicates] as the call
    leaves it. *)
Definition checkSimilarEntities (entities : list Concept) (duplicates : list Duplicate)
  : M (list Duplicate) :=
  try_catch
    (found <- similar_pairs entities ;; ret (duplicates ++ found))
    (fun _ =>
       agent_logError validator_name "Failed to check similar entities" ;;; ret duplicates).

Definition id_and_name_of_concept (c : Concept) : string * string :=
  (concept_id c, concept_name c).

Definition id_and_name_of_method (m : Method) : string * string :=
  (method_id m, method_name m).

(** [checkDuplicates]; its argument is not used.  No step between [try]
    and [catch] throws here, a refused select leaving [data] null; the
    handler would return the list as filled so far. *)
Definition checkDuplicates (entities : Value) : M (list Duplicate) :=
  agent_log "Checking for duplicates" ;;;
  try_catch
    (allConcepts <- db_read w concepts ;;
     conceptDuplicates <-
       report_groups "concepts"
         (fun normalized count members =>
            duplicate_concept normalized count (id_and_name_of_concept <$> members))
         (group_rows concept_normalized_name allConcepts) ;;
     allMethods <- db_read w methods ;;
     methodDuplicates <-
       report_groups "methods"
         (fun normalized count members =>
            duplicate_method normalized count (id_and_name_of_method <$> members))
         (group_rows method_normalized_name allMethods) ;;
     checkSimilarEntities allConcepts (conceptDuplicates ++ methodDuplicates))
    (fun _ => agent_logError validator_name "Failed to check duplicates" ;;; ret []).

(** The loop over the links of the paper: whether it found a fault. *)
Fixpoint check_links (links : list (PaperConcept * option Concept)) : M bool :=
  match links with
  | [] => ret false
  | (link, concept) :: rest =>
      bad_confidence <-
        (if negb (check_confidence (pic_confidence link))
         then agent_log ("Invalid confidence score: " +:+ show_number (pic_confidence link)) ;;;
              ret true
         else ret false) ;;
      orphaned <-
        (match concept with
         | None => agent_log ("Orphaned concept link: " +:+ pic_concept_id link) ;;; ret true
         | Some _ => ret false
         end) ;;
      later <- check_links rest ;;
      ret (bad_confidence || orphaned || later)
  end.

(** The loop over all improvement edges, each with its two concepts. *)
Fixpoint check_improvements
         (improvements : list (ConceptImprovement * option Concept * option Concept))
  : M bool :=
  match improvements with
  | [] => ret false
  | (improvement, new, old) :: rest =>
      orphaned <-
        (match new, old with
         | Some _, Some _ => ret false
         | _, _ => agent_log "Orphaned improvement relationship" ;;; ret true
         end) ;;
      bad_confidence <-
        (if negb (check_confidence (imp_confidence improvement))
         then agent_log ("Invalid improvement confidence: "
                         +:+ show_number (imp_confidence improvement)) ;;;
              ret true
         else ret false) ;;
      self_improvement <-
        (if decide (imp_new_concept improvement = imp_old_concept improvement)
         then agent_log "Self-improvement detected (concept improving itself)" ;;; ret true
         else ret false) ;;
      later <- check_improvements rest ;;
      ret (orphaned || bad_confidence || self_improvement || later)
  end.

(** The concept a foreign key refers to, as an embedded resource. *)
Definition concept_of (s : Store) (id : string) : option Concept :=
  head (select_eq concept_id id (concepts s)).

Definition checkConsistency (paperId : string) : M bool :=
  agent_log "Checking consistency" ;;;
  try_catch
    (paper <- db_read w (fun s => single (select_eq paper_id paperId (papers s))) ;;
     match paper with
     | None => agent_log "Paper not found in database" ;;; ret false
     | Some _ =>
         conceptLinks <-
           db_read w (fun s =>
             (fun l => (l, concept_of s (pic_concept_id l)))
               <$> select_eq pic_paper_id paperId (paper_introduces_concept s)) ;;
         bad_links <- check_links conceptLinks ;;
         improvements <-
           db_read w (fun s =>
             (fun r => (r, concept_of s (imp_new_concept r), concept_of s (imp_old_concept r)))
               <$> concept_improves_concept s) ;;
         bad_improvements <- check_improvements improvements ;;
         ret (negb (bad_links || bad_improvements))
     end)
    (fun _ => agent_logError validator_name "Failed to check consistency" ;;; ret false).

(** The loop over the counts. *)
Fixpoint report_counts (counts : list (string * nat)) : M (list Conflict) :=
  match counts with
  | [] => ret []
  | (conceptId, count) :: rest =>
      found <- (if 1 <? count
                then agent_log ("Duplicate paper-concept link detected: " +:+ conceptId
                                +:+ " (" +:+ pretty count +:+ " times)") ;;;
                     ret [duplicate_link conceptId count]
                else ret []) ;;
      more <- report_counts rest ;;
      ret (found ++ more)
  end.

Definition resolveConflicts (paperId : string) : M (list Conflict) :=
  agent_log "Resolving conflicts" ;;;
  try_catch
    (conceptLinks <-
       db_read w (fun s =>
         if count_select_accepted
         then Some (select_eq pic_paper_id paperId (paper_introduces_concept s))
         else None) ;;
     duplicates <-
       (match conceptLinks with
        | Some links =>
            report_counts (foldl (fun counts link => count_push counts (pic_concept_id link))
                                 [] links)
        | None => ret []
        end) ;;
     checkCircularImprovements w duplicates)
    (fun _ => agent_logError validator_name "Failed to resolve conflicts" ;;; ret []).

(** [ValidatorAgent.execute] *)
Definition validate (input : Value) : M ValidationResults :=
  agent_log "Starting validation" ;;;
  validateInput input ["paperId"; "entities"; "relationships"] ;;;
  try_catch
    (duplicates <- checkDuplicates (field_of input "entities") ;;
     consistency <- checkConsistency (text_of (field_of input "paperId")) ;;
     conflicts <- resolveConflicts (text_of (field_of input "paperId")) ;;
     if (5 <? length duplicates) || negb consistency
     then agent_log "Validation found critical issues" ;;;
          ret {| vr_duplicates := duplicates; vr_consistency := consistency;
                 vr_conflicts := conflicts; vr_isValid := false |}
     else agent_log "Validation passed" ;;;
          ret {| vr_duplicates := duplicates; vr_consistency := consistency;
                 vr_conflicts := conflicts; vr_isValid := true |})
    (fun e => agent_logError validator_name "Validation failed" ;;; throw e).

End Validation.

(** A well-formed input of the validator. *)
Definition validator_input (paperId : string) (entities relationships : Value) : Value :=
  VObject [("paperId", VString paperId); ("entities", entities);
           ("relationships", relationships)].

(** An entry that reports two concepts of the store with different keys
    and similar names. *)
Definition reports_similar (s : Store) (d : Duplicate) : Prop :=
  match d with
  | similar_concept entity1 entity2 =>
      exists c1 c2,
        c1 ∈ concepts s /\ c2 ∈ concepts s
        /\ entity1 = id_and_name_of_concept c1 /\ entity2 = id_and_name_of_concept c2
        /\ concept_normalized_name c1 <> concept_normalized_name c2
        /\ areSimilarEntities (concept_name c1) (concept_name c2) default_threshold = true
  | _ => False
  end.

(** Some improvement edge joins a concept to itself. *)
Definition self_improving (s : Store) : bool :=
  existsb (fun r => bool_decide (imp_new_concept r = imp_old_concept r))
          (concept_improves_concept s).

(** From a state whose store satisfies [P], [m] returns a value, leaves the
    store as it was, and the value is related to the store by [R]. *)
Definition observes {A : Type} (P : Store -> Prop) (m : M A) (R : Store -> A -> Prop)
  : Prop :=
  forall st, P (st_store st) ->
             exists a st', m st = (Ok a, st') /\ st_store st' = st_store st
                           /\ R (st_store st) a.

(** The primary keys of the papers: all different, and all handed out by
    the key supply of this store. *)
Definition paper_keys (s : Store) : Prop :=
  NoDup (paper_id <$> papers s)
  /\ forall id, id ∈ paper_id <$> papers s -> exists k, k < uuid_counter s /\ id = uuid k.

(* ===================================================================== *)
(** * Examples                                                            *)
(* ===================================================================== *)

Example normalize_example :
  normalizeEntityName "3D Gaussian Splatting" = "3d-gaussian-splatting".
Proof. reflexivity. Qed.

Example normalize_example2 :
  normalizeEntityName "  --NeRF (v2)!! " = "nerf-v2".
Proof. reflexivity. Qed.

Example similarity_example :
  calculateSimilarity "Kitten" "sitting" = Fin (1 - (3 # 7))%Q.
Proof. reflexivity. Qed.

(* ===================================================================== *)
(** * Facts about utils/helpers.ts                                        *)
(* ===================================================================== *)

Ltac by_char c := destruct c as [[] [] [] [] [] [] [] []]; vm_compute; congruence.

Lemma hyphen_not_key c : is_hyphen c = true -> is_key_char c = false.
Proof. by_char c. Qed.

Lemma lower_char_fixes_key c :
  is_key_char c || is_hyphen c = true -> lower_char c = c.
Proof. by_char c. Qed.

Lemma key_char_not_space c :
  is_key_char c || is_hyphen c = true -> is_space c = false.
Proof. by_char c. Qed.

Lemma is_hyphen_eq c : is_hyphen c = true -> c = hyphen.
Proof. unfold is_hyphen. apply Ascii.eqb_eq. Qed.

Lemma replace_runs_shaped s : forall b, key_shaped b (replace_runs b s) = true.
Proof.
  induction s as [|c r IH]; intros b; simpl; [reflexivity|].
  destruct (is_key_char c) eqn:Hc; simpl.
  - rewrite Hc. apply IH.
  - destruct b; [apply IH|]. simpl. apply IH.
Qed.

Lemma key_shaped_weaken s : key_shaped true s = true -> key_shaped false s = true.
Proof.
  destruct s as [|c r]; simpl; [reflexivity|].
  destruct (is_key_char c); [tauto|].
  rewrite andb_false_r. discriminate.
Qed.

Lemma drop_leading_shaped s :
  forall b, key_shaped b s = true -> key_shaped false (drop_leading is_hyphen s) = true.
Proof.
  induction s as [|c r IH]; intros b; simpl; [reflexivity|].
  destruct (is_hyphen c) eqn:Hh.
  - rewrite (hyphen_not_key _ Hh). simpl. intros H.
    apply andb_prop in H as [_ H]. eauto.
  - destruct (is_key_char c) eqn:Hc; simpl; rewrite Hc, ?Hh; [tauto|discriminate].
Qed.

Lemma drop_trailing_shaped s :
  forall b, key_shaped b s = true -> key_shaped b (drop_trailing is_hyphen s) = true.
Proof.
  induction s as [|c r IH]; intros b; simpl; [reflexivity|].
  intros H.
  destruct (is_hyphen c && is_empty (drop_trailing is_hyphen r)); [reflexivity|].
  simpl. destruct (is_key_char c); [eauto|].
  apply andb_prop in H as [H1 H2]. rewrite H1. simpl. eauto.
Qed.

Lemma key_shaped_alphabet s :
  forall b, key_shaped b s = true ->
            all_chars (fun c => is_key_char c || is_hyphen c) s = true.
Proof.
  induction s as [|c r IH]; intros b; simpl; [reflexivity|].
  destruct (is_key_char c); simpl; [eauto|].
  intros H. apply andb_prop in H as [H1 H2]. apply andb_prop in H1 as [H1 _].
  rewrite H1. simpl. eauto.
Qed.

Lemma drop_leading_no_start p s :
  match drop_leading p s with EmptyString => true | String c _ => negb (p c) end = true.
Proof.
  induction s as [|c r IH]; simpl; [reflexivity|].
  destruct (p c) eqn:Hp; [exact IH|]. simpl. rewrite Hp. reflexivity.
Qed.

Lemma drop_trailing_start s :
  starts_with_hyphen s = false ->
  starts_with_hyphen (drop_trailing is_hyphen s) = false.
Proof.
  destruct s as [|c r]; simpl; [reflexivity|]. intros H. rewrite H. simpl. exact H.
Qed.

Lemma drop_trailing_no_end s : ends_with_hyphen (drop_trailing is_hyphen s) = false.
Proof.
  induction s as [|c r IH]; simpl; [reflexivity|].
  destruct (is_hyphen c) eqn:Hh; simpl.
  - destruct (is_empty (drop_trailing is_hyphen r)) eqn:He; simpl; [reflexivity|].
    rewrite He. exact IH.
  - destruct (is_empty (drop_trailing is_hyphen r)) eqn:He; [exact Hh|exact IH].
Qed.

(** The second pass leaves a normalized key alone, step by step. *)

Lemma toLowerCase_fixes s :
  all_chars (fun c => is_key_char c || is_hyphen c) s = true -> toLowerCase s = s.
Proof.
  induction s as [|c r IH]; simpl; [reflexivity|].
  intros H. apply andb_prop in H as [H1 H2].
  rewrite (lower_char_fixes_key _ H1), (IH H2). reflexivity.
Qed.

Lemma drop_trailing_none p s :
  all_chars (fun c => negb (p c)) s = true -> drop_trailing p s = s.
Proof.
  induction s as [|c r IH]; simpl; [reflexivity|].
  intros H. apply andb_prop in H as [H1 H2].
  apply negb_true_iff in H1. rewrite H1, (IH H2). reflexivity.
Qed.

Lemma drop_leading_none p s :
  all_chars (fun c => negb (p c)) s = true -> drop_leading p s = s.
Proof.
  destruct s as [|c r]; simpl; [reflexivity|].
  intros H. apply andb_prop in H as [H1 _].
  apply negb_true_iff in H1. rewrite H1. reflexivity.
Qed.

Lemma all_chars_impl (p q : ascii -> bool) s :
  (forall c, p c = true -> q c = true) -> all_chars p s = true -> all_chars q s = true.
Proof.
  intros Hpq. induction s as [|c r IH]; simpl; [reflexivity|].
  intros H. apply andb_prop in H as [H1 H2]. rewrite (Hpq _ H1), (IH H2). reflexivity.
Qed.

Lemma trim_fixes s :
  all_chars (fun c => is_key_char c || is_hyphen c) s = true -> trim s = s.
Proof.
  intros H. unfold trim.
  assert (Hs : all_chars (fun c => negb (is_space c)) s = true).
  { revert H. apply all_chars_impl. intros c Hc.
    rewrite (key_char_not_space _ Hc). reflexivity. }
  rewrite (drop_leading_none _ _ Hs). apply drop_trailing_none, Hs.
Qed.

Lemma replace_runs_fixes s :
  forall b, key_shaped b s = true -> replace_runs b s = s.
Proof.
  induction s as [|c r IH]; intros b; simpl; [reflexivity|].
  destruct (is_key_char c).
  - intros H. rewrite (IH _ H). reflexivity.
  - intros H. apply andb_prop in H as [H1 H2]. apply andb_prop in H1 as [Hh Hb].
    apply negb_true_iff in Hb. subst b.
    rewrite (IH _ H2), (is_hyphen_eq _ Hh). reflexivity.
Qed.

Lemma drop_leading_hyphen_fixes s :
  starts_with_hyphen s = false -> drop_leading is_hyphen s = s.
Proof. destruct s as [|c r]; simpl; [reflexivity|]. intros ->. reflexivity. Qed.

Lemma drop_trailing_hyphen_fixes s :
  ends_with_hyphen s = false -> drop_trailing is_hyphen s = s.
Proof.
  induction s as [|c r IH]; simpl; [reflexivity|].
  destruct r as [|d r'].
  - simpl. intros ->. reflexivity.
  - intros H. rewrite (IH H). simpl. rewrite andb_false_r. reflexivity.
Qed.

Lemma strip_hyphens_shape s b :
  key_shaped b s = true ->
  key_shaped false (strip_hyphens s) = true
  /\ starts_with_hyphen (strip_hyphens s) = false
  /\ ends_with_hyphen (strip_hyphens s) = false.
Proof.
  intros H. unfold strip_hyphens. split; [|split].
  - apply drop_trailing_shaped. eapply drop_leading_shaped, H.
  - apply drop_trailing_start.
    pose proof (drop_leading_no_start is_hyphen s) as Hs.
    destruct (drop_leading is_hyphen s); simpl in *; [reflexivity|].
    apply negb_true_iff, Hs.
  - apply drop_trailing_no_end.
Qed.

(** Any lower-casing and trimming functions that leave strings over
    [[a-z0-9-]] alone make the normalization idempotent; in particular the
    argument does not depend on how they treat other code units. *)
Lemma normalize_idempotent_generic (lower trimmed : string -> string) :
  (forall s, all_chars (fun c => is_key_char c || is_hyphen c) s = true -> lower s = s) ->
  (forall s, all_chars (fun c => is_key_char c || is_hyphen c) s = true -> trimmed s = s) ->
  forall s,
    let f := fun x => strip_hyphens (replace_runs false (trimmed (lower x))) in
    f (f s) = f s.
Proof.
  intros Hl Ht s f. unfold f.
  destruct (strip_hyphens_shape (replace_runs false (trimmed (lower s))) false
              (replace_runs_shaped _ _)) as (Hk & Hs & He).
  set (o := strip_hyphens (replace_runs false (trimmed (lower s)))) in *.
  pose proof (key_shaped_alphabet _ _ Hk) as Ha.
  rewrite (Hl _ Ha), (Ht _ Ha), (replace_runs_fixes _ _ Hk).
  unfold strip_hyphens.
  rewrite (drop_leading_hyphen_fixes _ Hs). apply drop_trailing_hyphen_fixes, He.
Qed.

(** C9. [normalizeEntityName] is idempotent, and its result consists of
    lowercase ASCII letters, digits and interior hyphens only, with no
    hyphen at either end. *)
Theorem normalizeEntityName_idempotent (s : string) :
  normalizeEntityName (normalizeEntityName s) = normalizeEntityName s
  /\ is_normal_key (normalizeEntityName s) = true.
Proof.
  split.
  - apply (normalize_idempotent_generic toLowerCase trim toLowerCase_fixes trim_fixes).
  - unfold normalizeEntityName, is_normal_key.
    destruct (strip_hyphens_shape (replace_runs false (trim (toLowerCase s))) false
                (replace_runs_shaped _ _)) as (Hk & Hs & He).
    rewrite (key_shaped_alphabet _ _ Hk), Hs, He. reflexivity.
Qed.

(** C10. On two empty strings [calculateSimilarity] divides zero by a
    maximum length of zero and yields NaN, so [areSimilarEntities] answers
    false whatever the threshold. *)
Theorem calculateSimilarity_empty_NaN :
  calculateSimilarity "" "" = NaN
  /\ Nat.max (String.length (toLowerCase "")) (String.length (toLowerCase "")) = 0
  /\ forall threshold : number, areSimilarEntities "" "" threshold = false.
Proof.
  split; [reflexivity|]. split; [reflexivity|].
  intros threshold. unfold areSimilarEntities.
  change (calculateSimilarity "" "") with NaN. reflexivity.
Qed.

(** Away from that corner the similarity is a finite number. *)
Lemma js_div_finite a b : b <> 0 -> exists q, js_div a b = Fin q.
Proof. destruct b; [congruence|]. intros _. eexists. reflexivity. Qed.

(* ===================================================================== *)
(** * Pass 3 of the extractor                                             *)
(* ===================================================================== *)

Lemma truthy_iff s : truthy s = true <-> s <> "".
Proof. unfold truthy. destruct s; simpl; split; congruence. Qed.

Lemma below_half_iff q : below_half q = false <-> (1 # 2 <= q)%Q.
Proof. unfold below_half. rewrite negb_false_iff. apply Qle_bool_iff. Qed.

Lemma keep_concept_Some c c' :
  keep_concept c = Some c' <->
  ec_name c <> "" /\ ec_description c <> "" /\ (1 # 2 <= ec_confidence c)%Q
  /\ c' = (if String.length (ec_description c) <? 20 then penalize c else c).
Proof.
  unfold keep_concept.
  destruct (truthy (ec_name c)) eqn:Hn; simpl.
  2:{ split; [done|]. intros (H & _). apply truthy_iff in H. congruence. }
  destruct (truthy (ec_description c)) eqn:Hd; simpl.
  2:{ split; [done|]. intros (_ & H & _). apply truthy_iff in H. congruence. }
  apply truthy_iff in Hn, Hd.
  destruct (below_half (ec_confidence c)) eqn:Hc.
  { split; [done|]. intros (_ & _ & H & _). apply below_half_iff in H. congruence. }
  apply below_half_iff in Hc.
  destruct (String.length (ec_description c) <? 20); naive_solver.
Qed.

Lemma keep_method_true m :
  keep_method m = true <->
  em_name m <> "" /\ em_description m <> "" /\ 10 < String.length (em_description m).
Proof.
  unfold keep_method. rewrite !andb_true_iff, !truthy_iff, Nat.ltb_lt. tauto.
Qed.

(** Against C6 as stated: a method whose confidence is 0.1 survives the
    pass, and a method with a name, a description and confidence 0.9 is
    dropped because its description has ten characters. *)
Lemma validateAndScore_methods_ignore_confidence :
  exists r st',
    validateAndScore {| ee_concepts := []; ee_methods := [low_confidence_method; terse_method];
                        ee_datasets := []; ee_metrics := [] |} blank_state = (Ok r, st')
    /\ ee_methods r = [low_confidence_method]
    /\ below_half (em_confidence low_confidence_method) = true
    /\ truthy (em_name terse_method) = true
    /\ truthy (em_description terse_method) = true
    /\ below_half (em_confidence terse_method) = false.
Proof. eexists _, _. repeat split. Qed.

(** C6, as the code has it.  Pass 3 never throws.  It keeps a concept
    exactly when its name and description are non-empty and its confidence
    is not below 0.5, and the kept concept has its confidence multiplied by
    0.8 exactly when its description is shorter than 20 characters.  It
    keeps a method exactly when its name and description are non-empty and
    the description is longer than 10 characters; the confidence of a
    method is not looked at. *)
Theorem validateAndScore_keeps (entities : ExtractedEntities) (st : State) :
  exists r st',
    validateAndScore entities st = (Ok r, st')
    /\ (forall c', c' ∈ ee_concepts r <->
          exists c, c ∈ ee_concepts entities
                    /\ ec_name c <> "" /\ ec_description c <> ""
                    /\ (1 # 2 <= ec_confidence c)%Q
                    /\ c' = if String.length (ec_description c) <? 20
                            then penalize c else c)
    /\ (forall c, ec_confidence (penalize c) = (ec_confidence c * (8 # 10))%Q)
    /\ (forall m, m ∈ ee_methods r <->
          m ∈ ee_methods entities
          /\ em_name m <> "" /\ em_description m <> ""
          /\ 10 < String.length (em_description m)).
Proof.
  eexists _, _. split; [reflexivity|]. simpl. split; [|split].
  - intros c'. rewrite list_elem_of_omap.
    split; intros (c & Hin & H); exists c; (split; [done|]); by apply keep_concept_Some.
  - reflexivity.
  - intros m. rewrite list_elem_of_filter, keep_method_true. tauto.
Qed.

(* ===================================================================== *)
(** * Persisting extracted entities                                       *)
(* ===================================================================== *)

Ltac run_monad :=
  unfold try_catch, bind, ret, throw, data_or_throw, agent_log, agent_logError,
    write_log, db_read, db_call; simpl.

(** The three inserts of a link answer with an error as soon as the pair
    is there. *)
Lemma relink_concept_rejected paper concept confidence s :
  (paper, concept) ∈ concept_links s ->
  exists e, sql_insert_paper_concept paper concept confidence s = (Error e, s).
Proof.
  intros Hin. unfold sql_insert_paper_concept.
  destruct (check_confidence confidence); simpl; [|by eexists].
  rewrite bool_decide_eq_true_2 by exact Hin. by eexists.
Qed.

Lemma relink_method_rejected paper method s :
  (paper, method) ∈ method_links s ->
  exists e, sql_insert_paper_method paper method s = (Error e, s).
Proof.
  intros Hin. unfold sql_insert_paper_method.
  rewrite bool_decide_eq_true_2 by exact Hin. by eexists.
Qed.

Lemma relink_dataset_rejected paper dataset s :
  (paper, dataset) ∈ dataset_links s ->
  exists e, sql_insert_paper_dataset paper dataset s = (Error e, s).
Proof.
  intros Hin. unfold sql_insert_paper_dataset.
  rewrite bool_decide_eq_true_2 by exact Hin. by eexists.
Qed.

Lemma store_concept_again w paper c st :
  quiet w -> concept_persisted paper (st_store st) c = true ->
  exists entries,
    store_concept w paper c st = (Ok tt, logged st 2 entries)
    /\ failure_entry "concept" (ec_name c) ∈ entries.
Proof.
  intros Hq Hp. unfold concept_persisted, concept_key in Hp.
  unfold store_concept, getConceptByName, linkPaperToConcept. run_monad.
  rewrite !Hq.
  destruct (single _) as [row|]; [|done].
  apply bool_decide_eq_true in Hp. simpl. rewrite Hq.
  destruct (relink_concept_rejected paper (concept_id row) (ec_confidence c) _ Hp)
    as [e ->].
  simpl. eexists. split.
  - unfold logged. simpl. rewrite <- app_assoc. reflexivity.
  - unfold failure_entry. set_solver.
Qed.

Lemma store_method_again w paper m st :
  quiet w -> method_persisted paper (st_store st) m = true ->
  exists entries,
    store_method w paper m st = (Ok tt, logged st 2 entries)
    /\ failure_entry "method" (em_name m) ∈ entries.
Proof.
  intros Hq Hp. unfold method_persisted, method_key in Hp.
  unfold store_method, getMethodByName, linkPaperToMethod. run_monad.
  rewrite !Hq.
  destruct (single _) as [row|]; [|done].
  apply bool_decide_eq_true in Hp. simpl. rewrite Hq.
  destruct (relink_method_rejected paper (method_id row) _ Hp) as [e ->].
  simpl. eexists. split.
  - unfold logged. simpl. reflexivity.
  - unfold failure_entry. set_solver.
Qed.

Lemma store_dataset_again w paper d st :
  quiet w -> dataset_persisted paper (st_store st) d = true ->
  exists entries,
    store_dataset w paper d st = (Ok tt, logged st 2 entries)
    /\ failure_entry "dataset" (ed_name d) ∈ entries.
Proof.
  intros Hq Hp. unfold dataset_persisted in Hp.
  unfold store_dataset, getDatasetByName, linkPaperToDataset. run_monad.
  rewrite !Hq.
  destruct (single _) as [row|]; [|done].
  apply bool_decide_eq_true in Hp. simpl. rewrite Hq.
  destruct (relink_dataset_rejected paper (dataset_id row) _ Hp) as [e ->].
  simpl. eexists. split.
  - unfold logged. simpl. reflexivity.
  - unfold failure_entry. set_solver.
Qed.

(** A loop whose every turn only writes to the log. *)
Lemma for_each_logged {A : Type} (body : A -> M unit) (entry : A -> LogEntry)
      (ok : Store -> A -> Prop) (l : list A) :
  (forall x st, ok (st_store st) x ->
     exists n entries, body x st = (Ok tt, logged st n entries) /\ entry x ∈ entries) ->
  forall st,
    Forall (ok (st_store st)) l ->
    exists n entries,
      for_each l body st = (Ok tt, logged st n entries)
      /\ forall x, x ∈ l -> entry x ∈ entries.
Proof.
  intros Hbody. induction l as [|x l IH]; intros st Hall.
  - exists 0, []. split; [|set_solver].
    unfold logged. simpl. rewrite app_nil_r. by destruct st.
  - apply Forall_cons in Hall as [Hx Hall].
    destruct (Hbody x st Hx) as (n & e1 & Hrun & Hin).
    destruct (IH (logged st n e1) Hall) as (k & e2 & Hrest & Hall2).
    exists (k + n), (e1 ++ e2). split.
    + simpl. unfold bind. rewrite Hrun, Hrest. unfold logged. simpl.
      rewrite app_assoc, Nat.add_assoc. reflexivity.
    + intros y Hy. apply elem_of_cons in Hy as [->|Hy]; set_solver.
Qed.

Lemma forallb_Forall_store {A : Type} (p : A -> bool) (l : list A) :
  forallb p l = true -> Forall (fun x => p x = true) l.
Proof. intros H. apply Forall_forall. intros x Hx. eapply forallb_forall in H; [done|]. by apply list_elem_of_In. Qed.

(** Against C2 as stated: linking the pair a second time is answered by
    the store with a uniqueness error, which [linkPaperToConcept] throws
    and the persistence step logs as a failure of the item; the first run
    logged none. *)
Lemma relinking_throws_and_is_logged :
  fully_persisted "uuid-0" sample_entities (st_store stored_once) = true
  /\ fst (linkPaperToConcept quiet_world "uuid-0" "uuid-2" (9 # 10)%Q stored_once)
     = Throw (DbExn (UniqueViolation "paper_introduces_concept_paper_id_concept_id_key"))
  /\ (failure_entry "concept" "NeRF" ∉ st_log stored_once)
  /\ failure_entry "concept" "NeRF"
       ∈ st_log (snd (storeEntities quiet_world "uuid-0" sample_entities stored_once)).
Proof.
  split; [vm_compute; reflexivity|]. split; [vm_compute; reflexivity|].
  split.
  - apply (bool_decide_eq_false_1 _). vm_compute. reflexivity.
  - apply (bool_decide_eq_true_1 _). vm_compute. reflexivity.
Qed.

(** With everything persisted, each turn of the three loops only logs. *)
Lemma storeEntities_again
        (w : World) (paper : string) (entities : ExtractedEntities) (st : State) :
  quiet w ->
  fully_persisted paper entities (st_store st) = true ->
  exists st',
    storeEntities w paper entities st = (Ok tt, st')
    /\ st_store st' = st_store st
    /\ (forall c, c ∈ ee_concepts entities ->
                  failure_entry "concept" (ec_name c) ∈ st_log st')
    /\ (forall m, m ∈ ee_methods entities ->
                  failure_entry "method" (em_name m) ∈ st_log st')
    /\ (forall d, d ∈ ee_datasets entities ->
                  failure_entry "dataset" (ed_name d) ∈ st_log st').
Proof.
  intros Hq Hp. unfold fully_persisted in Hp.
  apply andb_prop in Hp as [Hp Hd]. apply andb_prop in Hp as [Hc Hm].
  apply forallb_Forall_store in Hc, Hm, Hd.
  set (st0 := logged st 0 [{| log_level := info;
                              log_message := "Storing entities in database" |}]).
  destruct (for_each_logged (store_concept w paper) (fun c => failure_entry "concept" (ec_name c))
              (fun s c => concept_persisted paper s c = true) (ee_concepts entities))
    with (st := st0) as (n1 & e1 & Hrun1 & Hin1); [|done|].
  { intros c s Hc'. destruct (store_concept_again w paper c s Hq Hc') as (e & ? & ?).
    by exists 2, e. }
  set (st1 := logged st0 n1 e1) in *.
  destruct (for_each_logged (store_method w paper) (fun m => failure_entry "method" (em_name m))
              (fun s m => method_persisted paper s m = true) (ee_methods entities))
    with (st := st1) as (n2 & e2 & Hrun2 & Hin2); [|done|].
  { intros m s Hm'. destruct (store_method_again w paper m s Hq Hm') as (e & ? & ?).
    by exists 2, e. }
  set (st2 := logged st1 n2 e2) in *.
  destruct (for_each_logged (store_dataset w paper) (fun d => failure_entry "dataset" (ed_name d))
              (fun s d => dataset_persisted paper s d = true) (ee_datasets entities))
    with (st := st2) as (n3 & e3 & Hrun3 & Hin3); [|done|].
  { intros d s Hd'. destruct (store_dataset_again w paper d s Hq Hd') as (e & ? & ?).
    by exists 2, e. }
  eexists. split.
  - unfold storeEntities, try_catch, bind, agent_log, write_log.
    change {| st_store := st_store st; st_tick := st_tick st;
              st_log := st_log st ++ [{| log_level := info;
                                         log_message := "Storing entities in database" |}] |}
      with st0.
    rewrite Hrun1, Hrun2, Hrun3. reflexivity.
  - simpl. split; [done|].
    split; [|split]; intros x Hx; rewrite !elem_of_app.
    + left. left. left. right. by apply Hin1.
    + left. left. right. by apply Hin2.
    + left. right. by apply Hin3.
Qed.

Lemma quiet_world_quiet : quiet quiet_world.
Proof. intros t s. reflexivity. Qed.


Lemma reads_only_ret {A : Type} (a : A) : reads_only (ret a).
Proof. intros st. by exists a, st. Qed.

Lemma reads_only_bind {A B : Type} (m : M A) (k : A -> M B) :
  reads_only m -> (forall a, reads_only (k a)) -> reads_only (bind m k).
Proof.
  intros Hm Hk st. destruct (Hm st) as (a & st1 & Hrun & Hs).
  destruct (Hk a st1) as (b & st2 & Hrun2 & Hs2).
  exists b, st2. unfold bind. rewrite Hrun, Hrun2. split; [done|congruence].
Qed.

Lemma reads_only_try {A : Type} (m : M A) (h : Exn -> M A) :
  reads_only m -> reads_only (try_catch m h).
Proof.
  intros Hm st. destruct (Hm st) as (a & st1 & Hrun & Hs).
  exists a, st1. unfold try_catch. by rewrite Hrun.
Qed.

Lemma reads_only_log lvl msg : reads_only (write_log lvl msg).
Proof. intros st. eexists _, _. split; reflexivity. Qed.

Lemma reads_only_db_read {A : Type} w (q : Store -> A) :
  quiet w -> reads_only (db_read w q).
Proof.
  intros Hq st. eexists _, _. unfold db_read, db_call. split; [reflexivity|].
  simpl. apply Hq.
Qed.

Lemma disambiguate_concepts_reads w l : quiet w -> reads_only (disambiguate_concepts w l).
Proof.
  intros Hq. induction l as [|c l IH]; simpl; [apply reads_only_ret|].
  apply reads_only_bind; [by apply reads_only_db_read|]. intros e.
  apply reads_only_bind; [exact IH|]. intros r. apply reads_only_ret.
Qed.

Lemma disambiguate_methods_reads w l : quiet w -> reads_only (disambiguate_methods w l).
Proof.
  intros Hq. induction l as [|c l IH]; simpl; [apply reads_only_ret|].
  apply reads_only_bind; [by apply reads_only_db_read|]. intros e.
  apply reads_only_bind; [exact IH|]. intros r. apply reads_only_ret.
Qed.

Lemma disambiguate_datasets_reads w l : quiet w -> reads_only (disambiguate_datasets w l).
Proof.
  intros Hq. induction l as [|c l IH]; simpl; [apply reads_only_ret|].
  apply reads_only_bind; [by apply reads_only_db_read|]. intros e.
  apply reads_only_bind; [exact IH|]. intros r. apply reads_only_ret.
Qed.

Lemma extractPass1_reads w input : reads_only (extractPass1 w input).
Proof.
  unfold extractPass1. apply reads_only_bind; [apply reads_only_log|]. intros _ st.
  destruct (llm_extract w (st_tick st) input); eexists _, _; split; reflexivity.
Qed.

Lemma disambiguateEntities_reads w e : quiet w -> reads_only (disambiguateEntities w e).
Proof.
  intros Hq. unfold disambiguateEntities.
  apply reads_only_bind; [apply reads_only_log|]. intros _.
  apply reads_only_try.
  apply reads_only_bind; [by apply disambiguate_concepts_reads|]. intros ?.
  apply reads_only_bind; [by apply disambiguate_methods_reads|]. intros ?.
  apply reads_only_bind; [by apply disambiguate_datasets_reads|]. intros ?.
  apply reads_only_ret.
Qed.

Lemma validateAndScore_reads e : reads_only (validateAndScore e).
Proof. intros st. eexists _, _. split; reflexivity. Qed.

(** Computations without a fuelled loop always end, normally or by an
    exception. *)
Lemma ends_ret {A : Type} (a : A) : ends (ret a).
Proof. intros st. done. Qed.

Lemma ends_throw {A : Type} (e : Exn) : ends (@throw A e).
Proof. intros st. done. Qed.

Lemma ends_bind {A B : Type} (m : M A) (k : A -> M B) :
  ends m -> (forall a, ends (k a)) -> ends (bind m k).
Proof.
  intros Hm Hk st. unfold bind. specialize (Hm st).
  destruct (m st) as [[a| |] st1]; simpl in *; [apply Hk|done|done].
Qed.

Lemma ends_try {A : Type} (m : M A) (h : Exn -> M A) :
  ends m -> (forall e, ends (h e)) -> ends (try_catch m h).
Proof.
  intros Hm Hh st. unfold try_catch. specialize (Hm st).
  destruct (m st) as [[a|e|] st1]; simpl in *; [done|apply Hh|done].
Qed.

Lemma ends_log lvl msg : ends (write_log lvl msg).
Proof. intros st. done. Qed.

Lemma ends_db_call {A : Type} w (q : Store -> A * Store) : ends (db_call w q).
Proof. intros st. unfold db_call. by destruct (q _). Qed.

Lemma ends_data_or_throw {A : Type} (r : DbResult A) : ends (data_or_throw r).
Proof. destruct r; [apply ends_ret|apply ends_throw]. Qed.

Ltac ends_step :=
  first [ apply ends_bind; [|intros ?]
        | apply ends_try; [|intros ?]
        | apply ends_ret | apply ends_throw | apply ends_log
        | apply ends_db_call | apply ends_data_or_throw ].

(** A handler that only logs turns every ending computation into one that
    ends normally. *)
Lemma caught_total (m : M unit) (h : Exn -> M unit) :
  ends m -> (forall e st, exists st', h e st = (Ok tt, st')) ->
  forall st, exists st', try_catch m h st = (Ok tt, st').
Proof.
  intros Hm Hh st. unfold try_catch. specialize (Hm st).
  destruct (m st) as [[[]|e|] st1]; simpl in *; [by eexists|apply Hh|done].
Qed.

(** The per-item handlers make the persistence step total: whatever the
    store answers, each item ends normally. *)
Lemma store_concept_total w paper c st :
  exists st', store_concept w paper c st = (Ok tt, st').
Proof.
  apply caught_total; [|intros e s; by eexists].
  unfold getConceptByName, insertConcept, linkPaperToConcept, db_read, agent_log.
  repeat ends_step. destruct a; repeat ends_step.
Qed.

Lemma store_method_total w paper m st :
  exists st', store_method w paper m st = (Ok tt, st').
Proof.
  apply caught_total; [|intros e s; by eexists].
  unfold getMethodByName, insertMethod, linkPaperToMethod, db_read, agent_log.
  repeat ends_step. destruct a; repeat ends_step.
Qed.

Lemma store_dataset_total w paper d st :
  exists st', store_dataset w paper d st = (Ok tt, st').
Proof.
  apply caught_total; [|intros e s; by eexists].
  unfold getDatasetByName, insertDataset, linkPaperToDataset, db_read, agent_log.
  repeat ends_step. destruct a; repeat ends_step.
Qed.

Lemma for_each_total {A : Type} (body : A -> M unit) (l : list A) :
  (forall x st, exists st', body x st = (Ok tt, st')) ->
  forall st, exists st', for_each l body st = (Ok tt, st').
Proof.
  intros Hbody. induction l as [|x l IH]; intros st; simpl.
  - by eexists.
  - unfold bind. destruct (Hbody x st) as [st1 ->]. apply IH.
Qed.

(** Failures of single items are collected in the log, never raised. *)
Lemma storeEntities_total w paper entities st :
  exists st', storeEntities w paper entities st = (Ok tt, st').
Proof.
  unfold storeEntities, try_catch, bind at 1, agent_log at 1, write_log at 1.
  unfold bind at 1.
  destruct (for_each_total (store_concept w paper) (ee_concepts entities)
              (store_concept_total w paper)) with (st := {| st_store := st_store st;
                st_tick := st_tick st;
                st_log := st_log st ++ [{| log_level := info;
                                           log_message := "Storing entities in database" |}] |})
    as [st1 ->].
  unfold bind at 1.
  destruct (for_each_total (store_method w paper) (ee_methods entities)
              (store_method_total w paper) st1) as [st2 ->].
  unfold bind at 1.
  destruct (for_each_total (store_dataset w paper) (ee_datasets entities)
              (store_dataset_total w paper) st2) as [st3 ->].
  by eexists.
Qed.

(** Re-running the whole extraction on a paper whose validated entities
    are all persisted leaves the store as it was. *)
Lemma extract_again (w : World) (input : ExtractInput) (st : State) :
  quiet w ->
  exists validated st',
    extract w input st = (Ok validated, st')
    /\ (fully_persisted (in_paperId input) validated (st_store st) = true ->
        st_store st' = st_store st).
Proof.
  intros Hq. unfold extract, bind at 1, agent_log at 1, write_log at 1.
  set (st0 := {| st_store := st_store st; st_tick := st_tick st;
                 st_log := st_log st ++ [_] |}).
  destruct (extractPass1_reads w input st0) as (e1 & st1 & Hrun1 & Hs1).
  destruct (disambiguateEntities_reads w e1 Hq st1) as (e2 & st2 & Hrun2 & Hs2).
  destruct (validateAndScore_reads e2 st2) as (e3 & st3 & Hrun3 & Hs3).
  assert (Hst : st_store st3 = st_store st) by (rewrite Hs3, Hs2, Hs1; reflexivity).
  destruct (storeEntities_total w (in_paperId input) e3 st3) as [st4 Hrun4].
  eexists e3, _. split.
  - unfold try_catch, bind. rewrite Hrun1, Hrun2, Hrun3, Hrun4. reflexivity.
  - intros Hp. simpl. rewrite <- Hst in Hp.
    destruct (storeEntities_again w (in_paperId input) e3 st3 Hq Hp)
      as (st4' & Hrun4' & Hs4 & _).
    rewrite Hrun4 in Hrun4'. injection Hrun4' as ->. congruence.
Qed.

(** C2, as the code has it.  When no other worker writes and every
    concept, method and dataset of the paper is already in the store and
    linked to the paper, running the persistence step again returns
    normally and leaves every table as it was: each lookup finds the
    existing row, no row and no edge is added, and so it is for a re-run of
    the whole extraction whose validated entities are persisted.  Each
    re-link is rejected by the store; the rejection is thrown by the link
    function, caught by the per-item handler and logged as a failure of
    that item. *)
Theorem rerun_changes_nothing (w : World) (st : State) :
  quiet w ->
  (forall paper entities,
     fully_persisted paper entities (st_store st) = true ->
     exists st',
       storeEntities w paper entities st = (Ok tt, st')
       /\ st_store st' = st_store st
       /\ (forall c, c ∈ ee_concepts entities ->
                     failure_entry "concept" (ec_name c) ∈ st_log st')
       /\ (forall m, m ∈ ee_methods entities ->
                     failure_entry "method" (em_name m) ∈ st_log st')
       /\ (forall d, d ∈ ee_datasets entities ->
                     failure_entry "dataset" (ed_name d) ∈ st_log st'))
  /\ (forall input,
        exists validated st',
          extract w input st = (Ok validated, st')
          /\ (fully_persisted (in_paperId input) validated (st_store st) = true ->
              st_store st' = st_store st)).
Proof.
  intros Hq. split.
  - intros paper entities Hp. by apply storeEntities_again.
  - intros input. by apply extract_again.
Qed.

Lemma rerun_changes_nothing_witness :
  fully_persisted "uuid-0" sample_entities (st_store stored_once) = true
  /\ exists st',
       storeEntities quiet_world "uuid-0" sample_entities stored_once = (Ok tt, st')
       /\ st_store st' = st_store stored_once
       /\ (forall c, c ∈ ee_concepts sample_entities ->
                     failure_entry "concept" (ec_name c) ∈ st_log st')
       /\ (forall m, m ∈ ee_methods sample_entities ->
                     failure_entry "method" (em_name m) ∈ st_log st')
       /\ (forall d, d ∈ ee_datasets sample_entities ->
                     failure_entry "dataset" (ed_name d) ∈ st_log st').
Proof.
  split; [vm_compute; reflexivity|].
  apply (proj1 (rerun_changes_nothing quiet_world stored_once quiet_world_quiet)
           "uuid-0" sample_entities).
  vm_compute. reflexivity.
Defined.

(* --------------------------------------------------------------------- *)
(** ** A rejected insert                                                  *)
(* --------------------------------------------------------------------- *)

Lemma sql_insert_concept_error name key description category paper confidence s e :
  fst (sql_insert_concept name key description category paper confidence s) = Error e ->
  sql_insert_concept name key description category paper confidence s = (Error e, s).
Proof.
  unfold sql_insert_concept.
  repeat (match goal with |- context [if ?b then _ else _] => destruct b end;
          simpl; try congruence).
Qed.

Lemma sql_insert_method_error name key description complexity paper s e :
  fst (sql_insert_method name key description complexity paper s) = Error e ->
  sql_insert_method name key description complexity paper s = (Error e, s).
Proof.
  unfold sql_insert_method.
  repeat (match goal with |- context [if ?b then _ else _] => destruct b end;
          simpl; try congruence).
Qed.

Lemma sql_insert_dataset_error name description url paper s e :
  fst (sql_insert_dataset name description url paper s) = Error e ->
  sql_insert_dataset name description url paper s = (Error e, s).
Proof.
  unfold sql_insert_dataset.
  repeat (match goal with |- context [if ?b then _ else _] => destruct b end;
          simpl; try congruence).
Qed.

(** Against C3 as stated: the concept with key [nerf] is inserted by another
    worker between the lookup and the insert; the insert is rejected, the
    item is logged as failed, the row that now exists is not read again and
    paper [uuid-0] is left without a link to it. *)
Lemma rejected_insert_is_not_reread :
  exists st' row,
    storeEntities racing_world "uuid-0"
      {| ee_concepts := [nerf]; ee_methods := []; ee_datasets := []; ee_metrics := [] |}
      two_papers = (Ok tt, st')
    /\ single (select_eq concept_normalized_name "nerf" (concepts (st_store st'))) = Some row
    /\ concept_links (st_store st') = []
    /\ failure_entry "concept" "NeRF" ∈ st_log st'.
Proof.
  eexists _, _. split; [vm_compute; reflexivity|].
  split; [vm_compute; reflexivity|]. split; [reflexivity|].
  apply (bool_decide_eq_true_1 _). vm_compute. reflexivity.
Qed.

(** C3, as the code has it.  When the lookup of an item finds nothing and
    the insert that follows is rejected with a uniqueness violation, the
    rejection is caught by the handler of that item and logged as a failure
    to store it; nothing is read again and no link is written, so the store
    is exactly what the other workers made of it; the loop goes on with the
    items that follow.  The same holds for concepts, methods and datasets. *)
Theorem rejected_insert_is_logged_and_skipped (w : World) (paper : string) (st : State) :
  let s1 := concurrent w (st_tick st) (st_store st) in
  let s2 := concurrent w (S (st_tick st)) s1 in
  (forall c constraint rest,
     single (select_eq concept_normalized_name (concept_key c) (concepts s1)) = None ->
     fst (sql_insert_concept (ec_name c) (concept_key c) (ec_description c)
            (ec_category c) (Some paper) (ec_confidence c) s2)
       = Error (UniqueViolation constraint) ->
     store_concept w paper c st = (Ok tt, after_rejection w st "concept" (ec_name c))
     /\ for_each (c :: rest) (store_concept w paper) st
        = for_each rest (store_concept w paper) (after_rejection w st "concept" (ec_name c)))
  /\ (forall m constraint rest,
     single (select_eq method_normalized_name (method_key m) (methods s1)) = None ->
     fst (sql_insert_method (em_name m) (method_key m) (em_description m)
            (em_computational_complexity m) (Some paper) s2)
       = Error (UniqueViolation constraint) ->
     store_method w paper m st = (Ok tt, after_rejection w st "method" (em_name m))
     /\ for_each (m :: rest) (store_method w paper) st
        = for_each rest (store_method w paper) (after_rejection w st "method" (em_name m)))
  /\ (forall d constraint rest,
     single (select_eq dataset_name (ed_name d) (datasets s1)) = None ->
     fst (sql_insert_dataset (ed_name d) (ed_description d) (ed_url d) (Some paper) s2)
       = Error (UniqueViolation constraint) ->
     store_dataset w paper d st = (Ok tt, after_rejection w st "dataset" (ed_name d))
     /\ for_each (d :: rest) (store_dataset w paper) st
        = for_each rest (store_dataset w paper) (after_rejection w st "dataset" (ed_name d))).
Proof.
  intros s1 s2. split; [|split].
  - intros c constraint rest Hmiss Hrej.
    apply sql_insert_concept_error in Hrej.
    assert (Hone : store_concept w paper c st
                   = (Ok tt, after_rejection w st "concept" (ec_name c))).
    { unfold store_concept, getConceptByName, insertConcept. run_monad.
      fold s1. unfold concept_key in Hmiss, Hrej. rewrite Hmiss. simpl.
      fold s2. rewrite Hrej. reflexivity. }
    split; [exact Hone|]. simpl. unfold bind. rewrite Hone. reflexivity.
  - intros m constraint rest Hmiss Hrej.
    apply sql_insert_method_error in Hrej.
    assert (Hone : store_method w paper m st
                   = (Ok tt, after_rejection w st "method" (em_name m))).
    { unfold store_method, getMethodByName, insertMethod. run_monad.
      fold s1. unfold method_key in Hmiss, Hrej. rewrite Hmiss. simpl.
      fold s2. rewrite Hrej. reflexivity. }
    split; [exact Hone|]. simpl. unfold bind. rewrite Hone. reflexivity.
  - intros d constraint rest Hmiss Hrej.
    apply sql_insert_dataset_error in Hrej.
    assert (Hone : store_dataset w paper d st
                   = (Ok tt, after_rejection w st "dataset" (ed_name d))).
    { unfold store_dataset, getDatasetByName, insertDataset. run_monad.
      fold s1. rewrite Hmiss. simpl.
      fold s2. rewrite Hrej. reflexivity. }
    split; [exact Hone|]. simpl. unfold bind. rewrite Hone. reflexivity.
Qed.

Lemma rejected_insert_witness :
  store_concept racing_world "uuid-0" nerf two_papers
  = (Ok tt, after_rejection racing_world two_papers "concept" (ec_name nerf))
  /\ for_each [nerf; splatting] (store_concept racing_world "uuid-0") two_papers
     = for_each [splatting] (store_concept racing_world "uuid-0")
         (after_rejection racing_world two_papers "concept" (ec_name nerf)).
Proof.
  apply (proj1 (rejected_insert_is_logged_and_skipped racing_world "uuid-0" two_papers)
           nerf "concepts_normalized_name_key" [splatting]).
  - vm_compute. reflexivity.
  - vm_compute. reflexivity.
Defined.

(* ===================================================================== *)
(** * Improvement edges: what the pipeline maintains                      *)
(* ===================================================================== *)

(** ** A small logic of store invariants *)

Section Invariant.

Variable Inv : Store -> Prop.

Lemma keeps_ret {A : Type} (a : A) (R : A -> Prop) : R a -> keeps Inv (ret a) R.
Proof. intros Ha st HI. split; [done|]. simpl. by intros ? [= <-]. Qed.

Lemma keeps_throw {A : Type} (e : Exn) (R : A -> Prop) : keeps Inv (throw e) R.
Proof. intros st HI. split; done. Qed.

Lemma keeps_out_of_fuel {A : Type} (R : A -> Prop) : keeps Inv out_of_fuel R.
Proof. intros st HI. split; done. Qed.

Lemma keeps_bind {A B : Type} (m : M A) (k : A -> M B) (R : A -> Prop) (R' : B -> Prop) :
  keeps Inv m R -> (forall a, R a -> keeps Inv (k a) R') -> keeps Inv (bind m k) R'.
Proof.
  intros Hm Hk st HI. unfold bind. destruct (Hm st HI) as [HI1 HR].
  destruct (m st) as [[a|e|] st1]; simpl in *; [|done|done].
  apply (Hk a); [by apply HR|done].
Qed.

Lemma keeps_try {A : Type} (m : M A) (h : Exn -> M A) (R : A -> Prop) :
  keeps Inv m R -> (forall e, keeps Inv (h e) R) -> keeps Inv (try_catch m h) R.
Proof.
  intros Hm Hh st HI. unfold try_catch. destruct (Hm st HI) as [HI1 HR].
  destruct (m st) as [[a|e|] st1]; simpl in *; [done| |done].
  by apply Hh.
Qed.

Lemma keeps_weaken {A : Type} (m : M A) (R R' : A -> Prop) :
  keeps Inv m R -> (forall a, R a -> R' a) -> keeps Inv m R'.
Proof. intros Hm Himp st HI. destruct (Hm st HI). split; auto. Qed.

Lemma keeps_value_or_throw {A : Type} (r : Exn + A) : keeps Inv (value_or_throw r) anything.
Proof. destruct r; [apply keeps_throw|by apply keeps_ret]. Qed.

Lemma keeps_log lvl msg : keeps Inv (write_log lvl msg) anything.
Proof. intros st HI. split; done. Qed.

(** A step that does not touch the store. *)
Lemma keeps_pure {A : Type} (m : M A) :
  (forall st, st_store (snd (m st)) = st_store st) -> keeps Inv m anything.
Proof. intros Hm st HI. rewrite Hm. split; done. Qed.

Variable w : World.
Hypothesis others_respect : forall t s, Inv s -> Inv (concurrent w t s).

Lemma keeps_db_call {A : Type} (q : Store -> A * Store) (R : A -> Prop) :
  (forall s, Inv s -> Inv (snd (q s)) /\ R (fst (q s))) -> keeps Inv (db_call w q) R.
Proof using others_respect.
  intros Hq st HI. unfold db_call.
  destruct (Hq (concurrent w (st_tick st) (st_store st))) as [H1 H2]; [by apply others_respect|].
  destruct (q _) as [a s']. simpl in *. split; [done|]. by intros ? [= <-].
Qed.

Lemma keeps_db_read {A : Type} (q : Store -> A) (R : A -> Prop) :
  (forall s, R (q s)) -> keeps Inv (db_read w q) R.
Proof using others_respect.
  intros Hq. apply keeps_db_call. intros s HI. split; [done|apply Hq].
Qed.

Lemma keeps_for_each {A : Type} (body : A -> M unit) (l : list A) :
  (forall x, keeps Inv (body x) anything) -> keeps Inv (for_each l body) anything.
Proof.
  intros Hbody. induction l as [|x l IH]; simpl.
  - by apply keeps_ret.
  - eapply keeps_bind; [apply Hbody|]. intros _ _. exact IH.
Qed.

End Invariant.

Ltac keeps_step :=
  lazymatch goal with
  | |- keeps _ (bind _ _) _ => eapply keeps_bind; [|intros ? ?]
  | |- keeps _ (try_catch _ _) _ => apply keeps_try; [|intros ?]
  | |- keeps _ (ret _) _ => apply keeps_ret; try done
  | |- keeps _ (throw _) _ => apply keeps_throw
  | |- keeps _ out_of_fuel _ => apply keeps_out_of_fuel
  | |- keeps _ (write_log _ _) _ => apply keeps_log
  | |- keeps _ (agent_log _) _ => apply keeps_log
  | |- keeps _ (agent_logError _ _) _ => apply keeps_log
  end.

(** ** Which inserts touch the improvement table *)

Ltac case_ifs :=
  repeat (match goal with |- context [if ?b then _ else _] => destruct b eqn:? end;
          simpl; try done).

Lemma sql_insert_paper_edges t a i b s :
  concept_improves_concept (snd (sql_insert_paper t a i b s)) = concept_improves_concept s.
Proof. unfold sql_insert_paper. case_ifs. Qed.

Lemma sql_insert_concept_edges n k d c p q s :
  concept_improves_concept (snd (sql_insert_concept n k d c p q s)) = concept_improves_concept s.
Proof. unfold sql_insert_concept. case_ifs. Qed.

Lemma sql_insert_method_edges n k d c p s :
  concept_improves_concept (snd (sql_insert_method n k d c p s)) = concept_improves_concept s.
Proof. unfold sql_insert_method. case_ifs. Qed.

Lemma sql_insert_dataset_edges n d u p s :
  concept_improves_concept (snd (sql_insert_dataset n d u p s)) = concept_improves_concept s.
Proof. unfold sql_insert_dataset. case_ifs. Qed.

Lemma sql_insert_paper_concept_edges p c q s :
  concept_improves_concept (snd (sql_insert_paper_concept p c q s)) = concept_improves_concept s.
Proof. unfold sql_insert_paper_concept. case_ifs. Qed.

Lemma sql_insert_paper_method_edges p m s :
  concept_improves_concept (snd (sql_insert_paper_method p m s)) = concept_improves_concept s.
Proof. unfold sql_insert_paper_method. case_ifs. Qed.

Lemma sql_insert_paper_dataset_edges p d s :
  concept_improves_concept (snd (sql_insert_paper_dataset p d s)) = concept_improves_concept s.
Proof. unfold sql_insert_paper_dataset. case_ifs. Qed.

Lemma no_self_loop_same_edges s s' :
  concept_improves_concept s' = concept_improves_concept s ->
  no_self_loop s -> no_self_loop s'.
Proof. unfold no_self_loop. intros ->. done. Qed.

Lemma sql_insert_improvement_no_self_loop new old ty gain q s :
  new <> old -> no_self_loop s ->
  no_self_loop (snd (sql_insert_improvement new old ty gain q s)).
Proof.
  intros Hne Hs. unfold sql_insert_improvement. case_ifs.
  intros r Hr. simpl in Hr. apply elem_of_app in Hr as [Hr|Hr]; [by apply Hs|].
  apply list_elem_of_singleton in Hr as ->. done.
Qed.

(** ** The agents *)

Section Agents.

Variable w : World.
Hypothesis others_respect : forall t s, no_self_loop s -> no_self_loop (concurrent w t s).

Abbreviation keeps_loops := (keeps no_self_loop).

Lemma keeps_insert {A : Type} (q : Store -> DbResult A * Store) :
  (forall s, concept_improves_concept (snd (q s)) = concept_improves_concept s) ->
  keeps_loops (r <- db_call w q ;; data_or_throw r) anything.
Proof using others_respect.
  intros Hq. eapply keeps_bind.
  - apply (keeps_db_call _ w others_respect q anything).
    intros s Hs. split; [|done]. eapply no_self_loop_same_edges; [apply Hq|done].
  - intros [d|e] _; [by apply keeps_ret|apply keeps_throw].
Qed.

Lemma keeps_read {A : Type} (q : Store -> A) : keeps_loops (db_read w q) anything.
Proof using others_respect. by apply keeps_db_read. Qed.

Lemma storePaper_keeps d : keeps_loops (storePaper w d) anything.
Proof using others_respect.
  unfold storePaper, getPaperByArxivId, getPaperBySemanticScholarId, insertPaper, agent_log,
    agent_logError.
  apply keeps_try; [|intros e; repeat keeps_step].
  eapply keeps_bind with (R := anything).
  { destruct (externalIds_ArXiv d) as [a|]; [|by apply keeps_ret].
    destruct (truthy a); [apply keeps_read|by apply keeps_ret]. }
  intros [p|] _; [repeat keeps_step|].
  eapply keeps_bind with (R := anything).
  { destruct (truthy (paperId d)); [apply keeps_read|by apply keeps_ret]. }
  intros [p|] _; [repeat keeps_step|].
  eapply keeps_bind with (R := anything); [apply keeps_value_or_throw|]. intros _ _.
  eapply keeps_bind; [apply keeps_insert; intros s; apply sql_insert_paper_edges|].
  intros p _. repeat keeps_step.
Qed.

Lemma getPaper_keeps id : keeps_loops (getPaper w id) anything.
Proof.
  apply keeps_pure. intros st. unfold getPaper.
  destruct (http_paper w (st_tick st) id) as [b|n|]; simpl; [done| |done].
  destruct (n =? 404); done.
Qed.

Lemma getReferences_keeps id n : keeps_loops (getReferences w id n) anything.
Proof.
  apply keeps_pure. intros st. unfold getReferences.
  by destruct (http_references w (st_tick st) id n).
Qed.

Lemma getCitations_keeps id n : keeps_loops (getCitations w id n) anything.
Proof.
  apply keeps_pure. intros st. unfold getCitations.
  by destruct (http_citations w (st_tick st) id n).
Qed.

Lemma fetch_loop_keeps fuel limit :
  forall found seen queue, keeps_loops (fetch_loop w fuel limit found seen queue) anything.
Proof using others_respect.
  induction fuel as [|fuel IH]; intros found seen queue; simpl.
  - apply keeps_out_of_fuel.
  - destruct queue as [|current queue]; [by apply keeps_ret|].
    destruct (negb (length found <? limit)); [by apply keeps_ret|].
    destruct (bool_decide (current ∈ seen)); [apply IH|].
    eapply keeps_bind; [apply getPaper_keeps|]. intros [data|] _.
    + eapply keeps_bind; [apply storePaper_keeps|]. intros stored _.
      destruct (length _ <? limit); [|apply IH].
      eapply keeps_bind; [apply getReferences_keeps|]. intros refs _.
      eapply keeps_bind; [apply getCitations_keeps|]. intros cits _.
      apply IH.
    + eapply keeps_bind; [apply keeps_log|]. intros _ _. apply IH.
Qed.

Lemma fetchRelatedPapers_keeps fuel seed limit :
  keeps_loops (fetchRelatedPapers w fuel seed limit) anything.
Proof using others_respect.
  unfold fetchRelatedPapers, agent_log, agent_logError.
  keeps_step; [apply keeps_log|].
  apply keeps_try.
  - eapply keeps_bind; [apply fetch_loop_keeps|]. intros; repeat keeps_step.
  - intros e. repeat keeps_step.
Qed.

Lemma store_concept_keeps paper c : keeps_loops (store_concept w paper c) anything.
Proof using others_respect.
  unfold store_concept, getConceptByName, insertConcept, linkPaperToConcept, agent_log,
    agent_logError.
  apply keeps_try; [|intros e; apply keeps_log].
  eapply keeps_bind; [apply keeps_read|]. intros existing _.
  eapply keeps_bind with (R := anything).
  { destruct existing; [repeat keeps_step|].
    eapply keeps_bind; [apply keeps_insert; intros s; apply sql_insert_concept_edges|].
    intros; repeat keeps_step. }
  intros id _.
  eapply keeps_bind; [apply keeps_insert; intros s; apply sql_insert_paper_concept_edges|].
  intros; by apply keeps_ret.
Qed.

Lemma store_method_keeps paper m : keeps_loops (store_method w paper m) anything.
Proof using others_respect.
  unfold store_method, getMethodByName, insertMethod, linkPaperToMethod, agent_log,
    agent_logError.
  apply keeps_try; [|intros e; apply keeps_log].
  eapply keeps_bind; [apply keeps_read|]. intros existing _.
  eapply keeps_bind with (R := anything).
  { destruct existing; [repeat keeps_step|].
    eapply keeps_bind; [apply keeps_insert; intros s; apply sql_insert_method_edges|].
    intros; repeat keeps_step. }
  intros id _.
  eapply keeps_bind; [apply keeps_insert; intros s; apply sql_insert_paper_method_edges|].
  intros; by apply keeps_ret.
Qed.

Lemma store_dataset_keeps paper d : keeps_loops (store_dataset w paper d) anything.
Proof using others_respect.
  unfold store_dataset, getDatasetByName, insertDataset, linkPaperToDataset, agent_log,
    agent_logError.
  apply keeps_try; [|intros e; apply keeps_log].
  eapply keeps_bind; [apply keeps_read|]. intros existing _.
  eapply keeps_bind with (R := anything).
  { destruct existing; [repeat keeps_step|].
    eapply keeps_bind; [apply keeps_insert; intros s; apply sql_insert_dataset_edges|].
    intros; repeat keeps_step. }
  intros id _.
  eapply keeps_bind; [apply keeps_insert; intros s; apply sql_insert_paper_dataset_edges|].
  intros; by apply keeps_ret.
Qed.

Lemma storeEntities_keeps paper entities :
  keeps_loops (storeEntities w paper entities) anything.
Proof using others_respect.
  unfold storeEntities, agent_log, agent_logError.
  keeps_step; [apply keeps_log|].
  apply keeps_try; [|intros e; repeat keeps_step].
  eapply keeps_bind; [apply keeps_for_each, store_concept_keeps|]. intros _ _.
  eapply keeps_bind; [apply keeps_for_each, store_method_keeps|]. intros _ _.
  eapply keeps_bind; [apply keeps_for_each, store_dataset_keeps|]. intros _ _.
  apply keeps_log.
Qed.

Lemma disambiguate_concepts_keeps l : keeps_loops (disambiguate_concepts w l) anything.
Proof using others_respect.
  induction l as [|c l IH]; simpl; [by apply keeps_ret|].
  unfold getConceptByName.
  eapply keeps_bind; [apply keeps_read|]. intros e _.
  eapply keeps_bind; [apply IH|]. intros; by apply keeps_ret.
Qed.

Lemma disambiguate_methods_keeps l : keeps_loops (disambiguate_methods w l) anything.
Proof using others_respect.
  induction l as [|c l IH]; simpl; [by apply keeps_ret|].
  unfold getMethodByName.
  eapply keeps_bind; [apply keeps_read|]. intros e _.
  eapply keeps_bind; [apply IH|]. intros; by apply keeps_ret.
Qed.

Lemma disambiguate_datasets_keeps l : keeps_loops (disambiguate_datasets w l) anything.
Proof using others_respect.
  induction l as [|c l IH]; simpl; [by apply keeps_ret|].
  unfold getDatasetByName.
  eapply keeps_bind; [apply keeps_read|]. intros e _.
  eapply keeps_bind; [apply IH|]. intros; by apply keeps_ret.
Qed.

Lemma extract_keeps input : keeps_loops (extract w input) anything.
Proof using others_respect.
  unfold extract, agent_log, agent_logError.
  keeps_step; [apply keeps_log|].
  apply keeps_try; [|intros e; repeat keeps_step].
  eapply keeps_bind with (R := anything).
  { unfold extractPass1, agent_log, agent_logError.
    keeps_step; [apply keeps_log|]. apply keeps_pure. intros st.
    by destruct (llm_extract w (st_tick st) input). }
  intros e1 _. eapply keeps_bind with (R := anything).
  { unfold disambiguateEntities, agent_log, agent_logError.
    keeps_step; [apply keeps_log|].
    apply keeps_try; [|intros e; repeat keeps_step].
    eapply keeps_bind; [apply disambiguate_concepts_keeps|]. intros ? _.
    eapply keeps_bind; [apply disambiguate_methods_keeps|]. intros ? _.
    eapply keeps_bind; [apply disambiguate_datasets_keeps|]. intros ? _.
    by apply keeps_ret. }
  intros e2 _. eapply keeps_bind with (R := anything).
  { apply keeps_pure. intros st. reflexivity. }
  intros e3 _.
  eapply keeps_bind; [apply storeEntities_keeps|]. intros _ _.
  repeat keeps_step.
Qed.

(** The candidates come from a query that excludes the concept itself, so
    the edge that is written joins two different concepts. *)
Lemma classify_pair_keeps concept old :
  concept_id old <> concept_id concept ->
  keeps_loops (classify_pair w concept old) anything.
Proof using others_respect.
  intros Hne. unfold classify_pair, createConceptImprovement, agent_log, agent_logError.
  apply keeps_try; [|intros e; repeat keeps_step].
  eapply keeps_bind with (R := anything).
  { apply keeps_pure. intros st. unfold classify.
    by destruct (llm_classify w (st_tick st) _). }
  intros result _.
  destruct (has_relationship result && _); [|by apply keeps_ret].
  eapply keeps_bind with (R := anything).
  - eapply keeps_bind.
    + apply (keeps_db_call _ w others_respect _ anything).
      intros s Hs. split; [|done].
      apply sql_insert_improvement_no_self_loop; [congruence|done].
    + intros [d|e] _; [by apply keeps_ret|apply keeps_throw].
  - intros; repeat keeps_step.
Qed.

Lemma classify_all_keeps concept related :
  (forall old, old ∈ related -> concept_id old <> concept_id concept) ->
  keeps_loops (classify_all w concept related) anything.
Proof using others_respect.
  induction related as [|old related IH]; intros Hne; simpl; [by apply keeps_ret|].
  eapply keeps_bind; [apply classify_pair_keeps; set_solver|]. intros ? _.
  eapply keeps_bind; [apply IH; set_solver|]. intros; by apply keeps_ret.
Qed.

Lemma related_concepts_exclude id :
  keeps_loops (related_concepts w id)
              (fun l => forall old, old ∈ l -> concept_id old <> id).
Proof using others_respect.
  unfold related_concepts. apply keeps_db_read; [done|].
  intros s old Hold. apply subseteq_take in Hold.
  by apply list_elem_of_filter in Hold as [? _].
Qed.

Lemma map_concepts_keeps rows : keeps_loops (map_concepts w rows) anything.
Proof using others_respect.
  induction rows as [|[link [concept|]] rows IH]; simpl; [by apply keeps_ret| |].
  - eapply keeps_bind with (R := anything).
    + unfold map_concept, agent_logError. simpl.
      apply keeps_try; [|intros e; repeat keeps_step].
      eapply keeps_bind; [apply related_concepts_exclude|].
      intros related Hrelated. by apply classify_all_keeps.
    + intros ? _. eapply keeps_bind; [apply IH|]. intros; by apply keeps_ret.
  - eapply keeps_bind with (R := anything); [by apply keeps_ret|].
    intros ? _. eapply keeps_bind; [apply IH|]. intros; by apply keeps_ret.
Qed.

Lemma mapImprovements_keeps paper entities :
  keeps_loops (mapImprovements w paper entities) anything.
Proof using others_respect.
  unfold mapImprovements, getConceptsByPaper, agent_log, agent_logError.
  keeps_step; [apply keeps_log|].
  apply keeps_try; [|intros e; repeat keeps_step].
  eapply keeps_bind; [apply keeps_read|]. intros rows _.
  destruct rows as [|row rows]; [repeat keeps_step|apply map_concepts_keeps].
Qed.

Lemma run_op_keeps op st :
  no_self_loop (st_store st) -> no_self_loop (st_store (run_op w op st)).
Proof using others_respect.
  intros Hs. destruct op; simpl.
  - by apply fetchRelatedPapers_keeps.
  - by apply extract_keeps.
  - by apply mapImprovements_keeps.
Qed.

End Agents.

(** ** What stands between the classification and the insert *)

Lemma sql_insert_improvement_accepted s new old category gain confidence :
  improvement_accepted s new old category confidence = true ->
  exists s',
    sql_insert_improvement new old category gain confidence s
    = (Data {| imp_new_concept := new; imp_old_concept := old;
               imp_improvement_type := category; imp_quantitative_gain := gain;
               imp_confidence := confidence |}, s')
    /\ improvement_edges s' = improvement_edges s ++ [(new, old)].
Proof.
  unfold improvement_accepted, sql_insert_improvement, improvement_edges.
  intros H. repeat (apply andb_prop in H as [H ?]).
  repeat match goal with
         | H : negb ?b = true |- _ => apply negb_true_iff in H; rewrite H
         | H : ?b = true |- _ => rewrite H
         end.
  simpl. eexists. split; [reflexivity|]. simpl. by rewrite fmap_app.
Qed.

Lemma sql_insert_improvement_refused s new old category gain confidence :
  improvement_accepted s new old category confidence = false ->
  exists e,
    sql_insert_improvement new old category gain confidence s = (Error e, s).
Proof.
  unfold improvement_accepted, sql_insert_improvement, improvement_edges.
  intros H.
  destruct (too_long 50 (Some category)); [by eexists|].
  destruct (check_confidence confidence); [|by eexists].
  destruct (bool_decide (category ∈ improvement_types)); [|by eexists].
  destruct (bool_decide ((new, old) ∈ _)); [by eexists|].
  destruct (has_concept s new); [|by eexists].
  destruct (has_concept s old); [|by eexists].
  done.
Qed.

Lemma path_with_more_edges (edges more : list (string * string)) (a b : string) :
  tc (improves edges) a b -> tc (improves (edges ++ more)) a b.
Proof.
  induction 1 as [x y Hxy|x y z Hxy _ IH].
  - apply tc_once. unfold improves in *. set_solver.
  - apply tc_l with y; [|exact IH]. unfold improves in *. set_solver.
Qed.

(** A new edge from [new] to [old] closes a cycle when [old] already
    improves [new], directly or through other concepts. *)
Lemma edge_closes_cycle (edges : list (string * string)) (new old : string) :
  tc (improves edges) old new -> has_cycle (edges ++ [(new, old)]).
Proof.
  intros Hpath. exists new. apply tc_l with old.
  - unfold improves. set_solver.
  - by apply path_with_more_edges.
Qed.

Lemma classify_answers w prompt result st :
  llm_classify w (st_tick st) prompt = Some result ->
  classify w prompt st = (Ok result, tick_state st).
Proof. intros H. unfold classify. by rewrite H. Qed.

Lemma createConceptImprovement_runs w new old category gain confidence st :
  quiet w ->
  createConceptImprovement w new old category gain confidence st
  = match sql_insert_improvement new old category gain confidence (st_store st) with
    | (Data row, s') =>
        (Ok row, {| st_store := s'; st_tick := S (st_tick st); st_log := st_log st |})
    | (Error e, s') =>
        (Throw (DbExn e),
         {| st_store := s'; st_tick := S (st_tick st); st_log := st_log st |})
    end.
Proof.
  intros Hq. unfold createConceptImprovement, bind, db_call. rewrite Hq.
  by destruct (sql_insert_improvement _ _ _ _ _ _) as [[row|e] s'].
Qed.

(** The body of the loops of [mapImprovements] for one pair that the
    language model classifies as an improvement. *)
Lemma classify_pair_inserts w concept oldConcept result st :
  quiet w ->
  llm_classify w (st_tick st) (pair_prompt concept oldConcept) = Some result ->
  has_relationship result = true -> relationship_type result = "improves_on" ->
  let category := or_else (improvement_category result) "quality" in
  let confidence := confidence_or_default (cl_confidence result) in
  let row := {| imp_new_concept := concept_id concept;
                imp_old_concept := concept_id oldConcept;
                imp_improvement_type := category;
                imp_quantitative_gain := quantitative_gain result;
                imp_confidence := confidence |} in
  exists st',
    if improvement_accepted (st_store st) (concept_id concept) (concept_id oldConcept)
                            category confidence
    then classify_pair w concept oldConcept st = (Ok [row], st')
         /\ improvement_edges (st_store st')
            = improvement_edges (st_store st) ++ [(concept_id concept, concept_id oldConcept)]
    else classify_pair w concept oldConcept st = (Ok [], st')
         /\ st_store st' = st_store st
         /\ last (st_log st')
            = Some {| log_level := error;
                      log_message := "[RelationshipMapperAgent] "
                        +:+ ("Failed to classify relationship for "
                             +:+ concept_name concept) |}.
Proof.
  intros Hq Hllm Hrel Htype category confidence row.
  assert (Hrun : classify_pair w concept oldConcept st
    = try_catch
        (improvement <-
           (fun st1 =>
              match sql_insert_improvement (concept_id concept) (concept_id oldConcept)
                      category (quantitative_gain result) confidence (st_store st1) with
              | (Data d, s') =>
                  (Ok d, {| st_store := s'; st_tick := S (st_tick st1);
                            st_log := st_log st1 |})
              | (Error e, s') =>
                  (Throw (DbExn e),
                   {| st_store := s'; st_tick := S (st_tick st1); st_log := st_log st1 |})
              end) ;;
         agent_log ("Found improvement: " +:+ concept_name concept +:+ " improves "
                    +:+ concept_name oldConcept) ;;;
         ret [improvement])
        (fun _ =>
           agent_logError mapper_name
             ("Failed to classify relationship for " +:+ concept_name concept) ;;;
           ret [])
        (tick_state st)).
  { unfold classify_pair. fold (pair_prompt concept oldConcept).
    unfold try_catch. unfold bind at 1.
    rewrite (classify_answers w _ result st Hllm), Hrel, Htype.
    rewrite bool_decide_eq_true_2 by done. cbn [andb].
    unfold bind at 1 3. rewrite !(createConceptImprovement_runs w _ _ _ _ _ _ Hq).
    reflexivity. }
  rewrite Hrun.
  destruct (improvement_accepted (st_store st) (concept_id concept) (concept_id oldConcept)
              category confidence) eqn:Hacc;
    unfold try_catch, bind at 1; cbn [st_store tick_state].
  - destruct (sql_insert_improvement_accepted _ _ _ _ (quantitative_gain result) _ Hacc)
      as (s' & Hins & Hedges).
    rewrite Hins. eexists. split; [reflexivity|]. exact Hedges.
  - destruct (sql_insert_improvement_refused _ _ _ _ (quantitative_gain result) _ Hacc)
      as (e & Hins).
    rewrite Hins. eexists. split; [reflexivity|]. split; [reflexivity|].
    cbn. by rewrite last_snoc.
Qed.

(** ** The edges a mapping writes *)

Lemma sql_insert_improvement_concepts new old category gain confidence s :
  concepts (snd (sql_insert_improvement new old category gain confidence s)) = concepts s.
Proof. unfold sql_insert_improvement. case_ifs. Qed.

Lemma listed_type_fits (category : string) :
  category ∈ improvement_types -> too_long 50 (Some category) = false.
Proof.
  unfold improvement_types. intros H.
  repeat (apply elem_of_cons in H as [->|H]; [reflexivity|]).
  by apply elem_of_nil in H.
Qed.

Lemma adds_edges_ret {A : Type} (a : A) st : adds_edges (ret a) st (fun _ => False).
Proof. exists a, st. split; [done|]. split; [done|]. intros e. tauto. Qed.

Lemma adds_edges_log lvl msg st : adds_edges (write_log lvl msg) st (fun _ => False).
Proof. eexists tt, _. split; [reflexivity|]. split; [done|]. intros e. simpl. tauto. Qed.

Lemma adds_edges_bind {A B : Type} (m : M A) (k : A -> M B) st
      (P Q : string * string -> Prop) :
  adds_edges m st P ->
  (forall a st', m st = (Ok a, st') ->
                 concepts (st_store st') = concepts (st_store st) ->
                 adds_edges (k a) st' Q) ->
  adds_edges (bind m k) st (fun e => P e \/ Q e).
Proof.
  intros (a & st1 & Hm & Hc1 & He1) Hk.
  destruct (Hk a st1 Hm Hc1) as (b & st2 & Hrun & Hc2 & He2).
  exists b, st2. unfold bind. rewrite Hm. split; [exact Hrun|].
  split; [by rewrite Hc2|]. intros e. rewrite He2, He1. tauto.
Qed.

Lemma adds_edges_try {A : Type} (m : M A) (h : Exn -> M A) st P :
  adds_edges m st P -> adds_edges (try_catch m h) st P.
Proof.
  intros (a & st1 & Hm & Hrest). exists a, st1. unfold try_catch. by rewrite Hm.
Qed.

Lemma adds_edges_same {A : Type} (m : M A) st (P Q : string * string -> Prop) :
  adds_edges m st P -> (forall e, P e <-> Q e) -> adds_edges m st Q.
Proof.
  intros (a & st1 & Hm & Hc & He) HPQ. exists a, st1. split; [done|]. split; [done|].
  intros e. rewrite He, HPQ. tauto.
Qed.

Lemma head_filter_member {A : Type} (P : A -> Prop) `{forall x, Decision (P x)}
      (l : list A) (x : A) :
  head (filter P l) = Some x -> x ∈ l.
Proof.
  intros Hh. assert (Hx : x ∈ filter P l).
  { destruct (filter P l) as [|y r]; [done|]. injection Hh as ->. set_solver. }
  by apply list_elem_of_filter in Hx as [_ Hx].
Qed.

Section Edges.

Variable w : World.
Variable answer : ClassifyPrompt -> option Classification.
Hypothesis no_traffic : quiet w.
Hypothesis steady : steady_classifier w answer.

Lemma db_read_runs {A : Type} (q : Store -> A) st :
  db_read w q st = (Ok (q (st_store st)), tick_state st).
Proof using no_traffic. unfold db_read, db_call. by rewrite no_traffic. Qed.

Lemma classify_pair_adds concept oldConcept st :
  concept ∈ concepts (st_store st) -> oldConcept ∈ concepts (st_store st) ->
  adds_edges (classify_pair w concept oldConcept) st
    (fun e => improvement_found (answer (pair_prompt concept oldConcept)) = true
              /\ e = (concept_id concept, concept_id oldConcept)).
Proof using no_traffic steady.
  intros Hc Ho. unfold improvement_found.
  destruct (answer (pair_prompt concept oldConcept)) as [result|] eqn:Hanswer.
  2:{ eexists [], _. split.
      - unfold classify_pair. fold (pair_prompt concept oldConcept).
        unfold try_catch, bind at 1, classify. rewrite steady, Hanswer. reflexivity.
      - split; [reflexivity|]. intros e. simpl. split; [tauto|]. by intros [?|[? _]]. }
  destruct (has_relationship result) eqn:Hrel.
  2:{ eexists [], _. split.
      - unfold classify_pair. fold (pair_prompt concept oldConcept).
        unfold try_catch, bind at 1, classify. rewrite steady, Hanswer, Hrel. reflexivity.
      - split; [reflexivity|]. intros e. simpl. split; [tauto|]. by intros [?|[? _]]. }
  destruct (bool_decide (relationship_type result = "improves_on")) eqn:Htype.
  2:{ eexists [], _. split.
      - unfold classify_pair. fold (pair_prompt concept oldConcept).
        unfold try_catch, bind at 1, classify. rewrite steady, Hanswer, Hrel, Htype.
        reflexivity.
      - split; [reflexivity|]. intros e. simpl. split; [tauto|]. by intros [?|[? _]]. }
  apply bool_decide_eq_true in Htype. cbn [andb].
  assert (Hllm : llm_classify w (st_tick st) (pair_prompt concept oldConcept) = Some result)
    by (by rewrite steady).
  destruct (classify_pair_inserts w concept oldConcept result st no_traffic Hllm Hrel Htype)
    as (st' & Hrun).
  set (category := or_else (improvement_category result) "quality") in *.
  set (confidence := confidence_or_default (cl_confidence result)) in *.
  assert (Hhas : has_concept (st_store st) (concept_id concept) = true
                 /\ has_concept (st_store st) (concept_id oldConcept) = true).
  { split; apply bool_decide_eq_true, list_elem_of_fmap; eauto. }
  destruct Hhas as [Hhc Hho].
  destruct (improvement_accepted (st_store st) (concept_id concept) (concept_id oldConcept)
              category confidence) eqn:Hacc.
  - destruct Hrun as [Hrun Hedges].
    eexists _, st'. split; [exact Hrun|]. split.
    + revert Hrun. unfold classify_pair. fold (pair_prompt concept oldConcept).
      unfold try_catch, bind at 1. rewrite (classify_answers w _ result st Hllm), Hrel.
      rewrite bool_decide_eq_true_2 by done. cbn [andb]. unfold bind at 1.
      rewrite (createConceptImprovement_runs w _ _ _ _ _ _ no_traffic).
      fold category confidence. cbn [st_store tick_state].
      pose proof (sql_insert_improvement_concepts (concept_id concept)
                    (concept_id oldConcept) category (quantitative_gain result)
                    confidence (st_store st)) as Hsame.
      destruct (sql_insert_improvement _ _ _ _ _ _) as [[row|e] s']; simpl in *.
      all: intros Heq; apply (f_equal snd) in Heq; simpl in Heq; subst st'; exact Hsame.
    + intros e. rewrite Hedges, elem_of_app, list_elem_of_singleton.
      unfold improvement_accepted in Hacc.
      repeat (apply andb_prop in Hacc as [Hacc ?]).
      split; [intros [?| ->]; [by left|right]|intros [?|[_ ->]]; [by left|by right]].
      split; [|done]. apply andb_true_intro. split; [|done]. done.
  - destruct Hrun as (Hrun & Hstore & _).
    eexists _, st'. split; [exact Hrun|]. rewrite Hstore. split; [reflexivity|].
    intros e. split; [tauto|]. intros [?|[Hfound ->]]; [done|].
    apply andb_prop in Hfound as [Hlisted Hconf].
    unfold improvement_accepted in Hacc. fold category in Hlisted. fold confidence in Hconf.
    apply bool_decide_eq_true in Hlisted as Hfits. apply listed_type_fits in Hfits.
    rewrite Hfits in Hacc.
    rewrite Hconf, Hlisted, Hhc, Hho in Hacc. simpl in Hacc.
    rewrite !andb_true_r in Hacc. apply negb_false_iff, bool_decide_eq_true in Hacc.
    exact Hacc.
Qed.

Lemma classify_all_adds concept related st :
  concept ∈ concepts (st_store st) ->
  (forall o, o ∈ related -> o ∈ concepts (st_store st)) ->
  adds_edges (classify_all w concept related) st
    (fun e => exists oldConcept,
                oldConcept ∈ related
                /\ improvement_found (answer (pair_prompt concept oldConcept)) = true
                /\ e = (concept_id concept, concept_id oldConcept)).
Proof using no_traffic steady.
  revert st. induction related as [|o related IH]; intros st Hc Hrelated; simpl.
  - eapply adds_edges_same; [apply adds_edges_ret|]. intros e. split; [done|].
    intros (o & Ho & _). by apply elem_of_nil in Ho.
  - eapply adds_edges_same.
    + eapply adds_edges_bind; [apply classify_pair_adds; [done|apply Hrelated; set_solver]|].
      intros found st1 _ Hsame.
      eapply adds_edges_bind; [apply IH; rewrite Hsame; [done|]|].
      * intros o' Ho'. apply Hrelated. set_solver.
      * intros more st2 _ _. apply adds_edges_ret.
    + intros e. split.
      * intros [[Hf ->]|[(o' & Ho' & Hf & ->)|[]]]; [exists o|exists o']; set_solver.
      * intros (o' & Ho' & Hf & ->). apply elem_of_cons in Ho' as [->|Ho'];
          [by left|right; left; by exists o'].
Qed.

Lemma candidates_known s concept o : o ∈ candidates_of s concept -> o ∈ concepts s.
Proof.
  unfold candidates_of. intros H. apply subseteq_take in H.
  by apply list_elem_of_filter in H as [_ H].
Qed.

Lemma map_concept_adds link (found : option Concept) st :
  (forall concept, found = Some concept -> concept ∈ concepts (st_store st)) ->
  adds_edges (map_concept w (link, found)) st
    (fun e => exists concept oldConcept,
                found = Some concept
                /\ oldConcept ∈ candidates_of (st_store st) concept
                /\ improvement_found (answer (pair_prompt concept oldConcept)) = true
                /\ e = (concept_id concept, concept_id oldConcept)).
Proof using no_traffic steady.
  intros Hknown. unfold map_concept. simpl. destruct found as [concept|].
  - apply adds_edges_try. eapply adds_edges_same.
    + eapply adds_edges_bind.
      * exists (candidates_of (st_store st) concept), (tick_state st).
        split; [apply db_read_runs|]. split; [reflexivity|]. intros e.
        instantiate (1 := fun _ => False). simpl. tauto.
      * intros related st1 Hrun Hsame. unfold related_concepts in Hrun.
        rewrite db_read_runs in Hrun.
        injection Hrun as <- <-.
        apply classify_all_adds; [by apply Hknown|].
        intros o Ho. by eapply candidates_known.
    + intros e. split.
      * intros [[]|(o & Ho & Hf & ->)]. by exists concept, o.
      * intros (c & o & [= <-] & Ho & Hf & ->). right. by exists o.
  - eapply adds_edges_same; [apply adds_edges_ret|]. intros e. split; [done|].
    by intros (c & o & Hc & _).
Qed.

Lemma map_concepts_adds rows st :
  (forall link concept, (link, Some concept) ∈ rows -> concept ∈ concepts (st_store st)) ->
  adds_edges (map_concepts w rows) st
    (fun e => exists link concept oldConcept,
                (link, Some concept) ∈ rows
                /\ oldConcept ∈ candidates_of (st_store st) concept
                /\ improvement_found (answer (pair_prompt concept oldConcept)) = true
                /\ e = (concept_id concept, concept_id oldConcept)).
Proof using no_traffic steady.
  revert st. induction rows as [|[link found] rows IH]; intros st Hknown; simpl.
  - eapply adds_edges_same; [apply adds_edges_ret|]. intros e. split; [done|].
    intros (l & c & o & Hin & _). by apply elem_of_nil in Hin.
  - assert (Hcand : forall st1 c,
              concepts (st_store st1) = concepts (st_store st) ->
              candidates_of (st_store st1) c = candidates_of (st_store st) c)
      by (intros st1 c Hsame; unfold candidates_of; by rewrite Hsame).
    eapply adds_edges_same.
    + eapply adds_edges_bind.
      * apply map_concept_adds. intros c ->. apply (Hknown link). set_solver.
      * intros found1 st1 _ Hsame.
        eapply (adds_edges_bind _ _ _
                  (fun e => exists l c o,
                              (l, Some c) ∈ rows
                              /\ o ∈ candidates_of (st_store st) c
                              /\ improvement_found (answer (pair_prompt c o)) = true
                              /\ e = (concept_id c, concept_id o))
                  (fun _ => False)).
        -- eapply adds_edges_same; [apply IH|].
           ++ intros l c Hin. rewrite Hsame. apply (Hknown l). set_solver.
           ++ intros e. split; intros (l & c & o & Hin & Ho & Hrest); exists l, c, o;
                (split; [done|]); (split; [|done]).
              ** by rewrite <- (Hcand st1).
              ** by rewrite (Hcand st1).
        -- intros more st2 _ _. apply adds_edges_ret.
    + intros e. split.
      * intros [(c & o & -> & Ho & Hf & ->)|[(l & c & o & Hin & Ho & Hf & ->)|[]]].
        -- exists link, c, o. set_solver.
        -- exists l, c, o. set_solver.
      * intros (l & c & o & Hin & Ho & Hf & ->).
        apply elem_of_cons in Hin as [[= <- <-]|Hin].
        -- left. by exists c, o.
        -- right. left. by exists l, c, o.
Qed.

Lemma mapImprovements_adds paperId entities st :
  adds_edges (mapImprovements w paperId entities) st
    (fun e => exists concept oldConcept,
                examined (st_store st) paperId concept oldConcept
                /\ improvement_found (answer (pair_prompt concept oldConcept)) = true
                /\ e = (concept_id concept, concept_id oldConcept)).
Proof using no_traffic steady.
  unfold mapImprovements, agent_log.
  set (joined := fun s : Store =>
         (fun l => (l, head (select_eq concept_id (pic_concept_id l) (concepts s))))
           <$> select_eq pic_paper_id paperId (paper_introduces_concept s)).
  eapply adds_edges_same.
  - eapply adds_edges_bind; [apply adds_edges_log|]. intros [] st1 Hlog _.
    apply adds_edges_try.
    eapply (adds_edges_bind _ _ _ (fun _ => False)
              (fun e => exists l c o,
                          (l, Some c) ∈ joined (st_store st)
                          /\ o ∈ candidates_of (st_store st) c
                          /\ improvement_found (answer (pair_prompt c o)) = true
                          /\ e = (concept_id c, concept_id o))).
    + exists (joined (st_store st1)), (tick_state st1).
      split; [apply db_read_runs|]. split; [reflexivity|]. intros e. simpl. tauto.
    + intros rows st2 Hrun _. unfold getConceptsByPaper in Hrun.
      rewrite db_read_runs in Hrun. injection Hrun as <- <-.
      injection Hlog as <-. cbn [st_store tick_state]. fold (joined (st_store st)).
      destruct (joined (st_store st)) as [|row rows] eqn:Hrows.
      * eapply adds_edges_same.
        -- eapply adds_edges_bind; [apply adds_edges_log|]. intros. apply adds_edges_ret.
        -- intros e. split; [tauto|]. intros (l & c & o & Hin & _).
           by apply elem_of_nil in Hin.
      * eapply adds_edges_same; [apply map_concepts_adds|].
        -- intros l c Hin. cbn [st_store]. rewrite <- Hrows in Hin.
           apply list_elem_of_fmap in Hin as (l' & [= <- Hhead] & _).
           symmetry in Hhead. by apply head_filter_member in Hhead.
        -- intros e. reflexivity.
  - intros e. split.
    + intros [[]|[[]|(l & c & o & Hin & Ho & Hf & ->)]].
      exists c, o. split; [|done]. split; [|done].
      apply list_elem_of_fmap in Hin as (l' & [= <- Hhead] & Hl). by exists l.
    + intros (c & o & [(l & Hl & Hhead) Ho] & Hf & ->). right. right.
      exists l, c, o. split; [|done].
      apply list_elem_of_fmap. exists l. by rewrite Hhead.
Qed.

End Edges.

(** Against C1 as stated: after one paper was fetched, its two concepts
    extracted and its relationships mapped, the improvement table holds a
    directed cycle of length two; [mapImprovements] wrote both edges, the
    second one closing the cycle, and the validator's check finds it. *)
Lemma mapImprovements_closes_a_cycle :
  reachable eager_world mapped_state
  /\ improvement_edges (st_store extracted_state) = []
  /\ improvement_edges (st_store mapped_state)
     = [("uuid-1", "uuid-3"); ("uuid-3", "uuid-1")]
  /\ has_cycle (improvement_edges (st_store mapped_state))
  /\ detect_cycles (improvement_edges (st_store mapped_state)) []
     = Some [circular_improvement].
Proof.
  assert (Hedges : improvement_edges (st_store mapped_state)
                   = [("uuid-1", "uuid-3"); ("uuid-3", "uuid-1")]).
  { vm_compute. reflexivity. }
  split.
  { unfold mapped_state, extracted_state. repeat apply reachable_step.
    apply reachable_start. }
  split; [vm_compute; reflexivity|]. split; [exact Hedges|]. split.
  - rewrite Hedges. exists "uuid-1".
    apply tc_l with "uuid-3"; [|apply tc_once]; unfold improves;
      rewrite !elem_of_cons; auto.
  - rewrite Hedges. vm_compute. reflexivity.
Qed.

(** C1, as the code has it.  In every state reached from the empty
    database by fetching, extracting and mapping, in a world whose other
    workers do not write self-loops either, no improvement edge joins a
    concept to itself: the candidates of a concept are queried with its own
    id excluded.  Longer cycles are not prevented: for a pair that the
    language model classifies as an improvement, nothing stands between the
    classification and the insert, and the edge is written whenever the
    database accepts the row, also when the older concept already improves
    the newer one, so that the edge closes a cycle; when the database
    refuses the row, the failure is logged and no edge is written.  For
    [mapImprovements] as a whole, with no other writer and a language model
    whose answer depends on the pair alone: it returns, and the edges
    afterwards are the edges before together with one edge from [concept]
    to [oldConcept] for every pair it examines (a concept of the paper and
    one of its at most ten candidates) that is classified as an improvement
    with a listed category and a confidence between 0 and 1. *)
Theorem reachable_no_self_loop (w : World) (st : State) :
  (forall t s, no_self_loop s -> no_self_loop (concurrent w t s)) ->
  reachable w st ->
  no_self_loop (st_store st)
  /\ ~ has_self_loop (improvement_edges (st_store st))
  /\ (quiet w ->
      forall concept oldConcept result st0,
        llm_classify w (st_tick st0) (pair_prompt concept oldConcept) = Some result ->
        has_relationship result = true -> relationship_type result = "improves_on" ->
        let category := or_else (improvement_category result) "quality" in
        let confidence := confidence_or_default (cl_confidence result) in
        exists st',
          if improvement_accepted (st_store st0) (concept_id concept)
                                  (concept_id oldConcept) category confidence
          then classify_pair w concept oldConcept st0
               = (Ok [{| imp_new_concept := concept_id concept;
                         imp_old_concept := concept_id oldConcept;
                         imp_improvement_type := category;
                         imp_quantitative_gain := quantitative_gain result;
                         imp_confidence := confidence |}], st')
               /\ improvement_edges (st_store st')
                  = improvement_edges (st_store st0)
                    ++ [(concept_id concept, concept_id oldConcept)]
               /\ (tc (improves (improvement_edges (st_store st0)))
                      (concept_id oldConcept) (concept_id concept) ->
                   has_cycle (improvement_edges (st_store st')))
          else classify_pair w concept oldConcept st0 = (Ok [], st')
               /\ st_store st' = st_store st0
               /\ last (st_log st')
                  = Some {| log_level := error;
                            log_message := "[RelationshipMapperAgent] "
                              +:+ ("Failed to classify relationship for "
                                   +:+ concept_name concept) |})
  /\ (quiet w ->
      forall answer, steady_classifier w answer ->
      forall paperId entities st0,
      exists improvements st',
        mapImprovements w paperId entities st0 = (Ok improvements, st')
        /\ concepts (st_store st') = concepts (st_store st0)
        /\ forall new old,
             (new, old) ∈ improvement_edges (st_store st')
             <-> (new, old) ∈ improvement_edges (st_store st0)
                 \/ exists concept oldConcept,
                      examined (st_store st0) paperId concept oldConcept
                      /\ improvement_found (answer (pair_prompt concept oldConcept)) = true
                      /\ new = concept_id concept /\ old = concept_id oldConcept).
Proof.
  intros Hw Hreach.
  assert (Hloop : no_self_loop (st_store st)).
  { induction Hreach as [|st op _ IH].
    - intros r Hr. simpl in Hr. set_solver.
    - by apply run_op_keeps. }
  split; [exact Hloop|]. split; [|split].
  - intros [a Ha]. unfold improvement_edges in Ha.
    apply list_elem_of_fmap in Ha as (r & Heq & Hr).
    injection Heq as H1 H2. apply (Hloop r Hr). congruence.
  - intros Hq concept oldConcept result st0 Hllm Hrel Htype category confidence.
    destruct (classify_pair_inserts w concept oldConcept result st0 Hq Hllm Hrel Htype)
      as (st' & Hrun).
    exists st'. fold category confidence in Hrun.
    destruct (improvement_accepted _ _ _ _ _); [|exact Hrun].
    destruct Hrun as [Hrun Hedges]. split; [exact Hrun|]. split; [exact Hedges|].
    intros Hpath. rewrite Hedges. by apply edge_closes_cycle.
  - intros Hq answer Hanswer paperId entities st0.
    destruct (mapImprovements_adds w answer Hq Hanswer paperId entities st0)
      as (improvements & st' & Hrun & Hsame & Hedges).
    exists improvements, st'. split; [exact Hrun|]. split; [exact Hsame|].
    intros new old. rewrite Hedges. split.
    + intros [?|(c & o & Hex & Hf & [= -> ->])]; [by left|right]. by exists c, o.
    + intros [?|(c & o & Hex & Hf & -> & ->)]; [by left|right]. by exists c, o.
Qed.

Example scenario_concepts :
  concepts (st_store extracted_state) = [nerf_row; splatting_row]
  /\ improvement_edges (st_store one_edge_state) = [("uuid-1", "uuid-3")].
Proof. vm_compute. split; reflexivity. Qed.

(** The state after the mapping has no self-loop; in the middle of the
    mapping, when NeRF is recorded as improving on Gaussian splatting, the
    converse pair is classified as an improvement too, accepted by the
    database and written, which closes a cycle; and the mapping of the
    paper, which examines that pair, ends with the edge in the table. *)
Lemma reachable_no_self_loop_witness :
  no_self_loop (st_store mapped_state)
  /\ ~ has_self_loop (improvement_edges (st_store mapped_state))
  /\ (exists row st',
       classify_pair eager_world splatting_row nerf_row one_edge_state = (Ok [row], st')
       /\ imp_new_concept row = "uuid-3" /\ imp_old_concept row = "uuid-1"
       /\ has_cycle (improvement_edges (st_store st')))
  /\ ("uuid-3", "uuid-1")
     ∈ improvement_edges
         (st_store (snd (mapImprovements eager_world "uuid-0" seed_entities extracted_state))).
Proof.
  assert (Hq : quiet eager_world) by (intros t s; reflexivity).
  destruct (reachable_no_self_loop eager_world mapped_state)
    as (Hloop & Hself & Hpair & Hmap).
  { intros t s Hs. exact Hs. }
  { unfold mapped_state, extracted_state. repeat apply reachable_step.
    apply reachable_start. }
  split; [exact Hloop|]. split; [exact Hself|]. split; cycle 1.
  { destruct (Hmap Hq (llm_classify eager_world 0) (fun t prompt => eq_refl)
                "uuid-0" seed_entities extracted_state)
      as (improvements & st' & Hrun & _ & Hedges).
    rewrite Hrun. apply Hedges. right. exists splatting_row, nerf_row.
    split; [|split; [vm_compute; reflexivity|split; reflexivity]].
    split.
    - eexists. split.
      + apply (list_elem_of_lookup_2 _ 1). vm_compute. reflexivity.
      + vm_compute. reflexivity.
    - apply (list_elem_of_lookup_2 _ 0). vm_compute. reflexivity. }
  destruct (Hpair Hq splatting_row nerf_row
              {| has_relationship := true; relationship_type := "improves_on";
                 improvement_category := Some "quality"; quantitative_gain := None;
                 cl_confidence := Some (9 # 10)%Q |}
              one_edge_state eq_refl eq_refl eq_refl) as (st' & Hrun).
  match type of Hrun with
  | if ?accepted then _ else _ =>
      destruct accepted eqn:Hacc; [|vm_compute in Hacc; discriminate]
  end.
  destruct Hrun as (Hrun & Hedges & Hcycle).
  eexists _, st'. split; [exact Hrun|]. split; [reflexivity|]. split; [reflexivity|].
  apply Hcycle. apply tc_once. unfold improves.
  apply (bool_decide_eq_true_1 _). vm_compute. reflexivity.
Defined.

(* ===================================================================== *)
(** * The traversal                                                       *)
(* ===================================================================== *)

Example traversal_scenario :
  (fun r => match r with Ok l => paper_title <$> l | _ => [] end)
    (fst (fetchRelatedPapers scenario_world 10 "seed" 3 blank_state))
  = ["Paper seed"; "Paper ref-10"; "Paper ref-9"].
Proof. vm_compute. reflexivity. Qed.

(** ** Exceptions *)

Lemma never_throws_ret {A : Type} (a : A) : never_throws (ret a).
Proof. intros st e. done. Qed.

Lemma never_throws_out_of_fuel {A : Type} : never_throws (@out_of_fuel A).
Proof. intros st e. done. Qed.

Lemma never_throws_bind {A B : Type} (m : M A) (k : A -> M B) :
  never_throws m -> (forall a, never_throws (k a)) -> never_throws (bind m k).
Proof.
  intros Hm Hk st e. unfold bind. specialize (Hm st).
  destruct (m st) as [[a|e'|] st1]; simpl in *; [apply Hk|by destruct (Hm e')|done].
Qed.

Lemma never_throws_try {A : Type} (m : M A) (h : Exn -> M A) :
  (forall e, never_throws (h e)) -> never_throws (try_catch m h).
Proof.
  intros Hh st e. unfold try_catch.
  destruct (m st) as [[a|e'|] st1]; simpl; [done|apply Hh|done].
Qed.

Lemma never_throws_guarded {A : Type} (m : M A) (h : Exn -> M A) :
  never_throws m -> never_throws (try_catch m h).
Proof.
  intros Hm st e. unfold try_catch. specialize (Hm st).
  destruct (m st) as [[a|e'|] st1]; simpl in *; [done|by destruct (Hm e')|done].
Qed.

Lemma never_throws_log lvl msg : never_throws (write_log lvl msg).
Proof. intros st e. done. Qed.

Lemma storePaper_never_throws w d : never_throws (storePaper w d).
Proof.
  unfold storePaper. apply never_throws_try. intros e.
  apply never_throws_bind; [apply never_throws_log|]. intros _. apply never_throws_ret.
Qed.

Lemma getReferences_never_throws w id n : never_throws (getReferences w id n).
Proof. intros st e. unfold getReferences. by destruct (http_references w _ id n). Qed.

Lemma getCitations_never_throws w id n : never_throws (getCitations w id n).
Proof. intros st e. unfold getCitations. by destruct (http_citations w _ id n). Qed.

Lemma getPaper_never_throws w id : only_not_found w -> never_throws (getPaper w id).
Proof.
  intros Hw st e. unfold getPaper. specialize (Hw (st_tick st) id).
  destruct (http_paper w (st_tick st) id) as [b|n|]; [done| |done].
  subst n. done.
Qed.

Lemma fetch_loop_never_throws w fuel limit :
  only_not_found w ->
  forall found seen queue, never_throws (fetch_loop w fuel limit found seen queue).
Proof.
  intros Hw. induction fuel as [|fuel IH]; intros found seen queue; simpl.
  - apply never_throws_out_of_fuel.
  - destruct queue as [|current queue]; [apply never_throws_ret|].
    destruct (negb (length found <? limit)); [apply never_throws_ret|].
    destruct (bool_decide (current ∈ seen)); [apply IH|].
    apply never_throws_bind; [by apply getPaper_never_throws|]. intros [data|].
    + apply never_throws_bind; [apply storePaper_never_throws|]. intros stored.
      destruct (length _ <? limit); [|apply IH].
      apply never_throws_bind; [apply getReferences_never_throws|]. intros refs.
      apply never_throws_bind; [apply getCitations_never_throws|]. intros cits.
      apply IH.
    + apply never_throws_bind; [apply never_throws_log|]. intros _. apply IH.
Qed.

Lemma fetch_loop_skips_not_found w fuel limit found seen id queue st :
  http_paper w (st_tick st) id = HttpStatus 404 ->
  id ∉ seen -> length found < limit ->
  fetch_loop w (S fuel) limit found seen (id :: queue) st
  = fetch_loop w fuel limit found ({[id]} ∪ seen) queue (after_not_found st id).
Proof.
  intros Hhttp Hseen Hlim. simpl.
  apply Nat.ltb_lt in Hlim. rewrite Hlim. simpl.
  rewrite bool_decide_eq_false_2 by done.
  unfold bind at 1. unfold getPaper. rewrite Hhttp. simpl.
  reflexivity.
Qed.

(** ** The order of the candidates *)

Lemma insert_by_citations_perm x l : insert_by_citations x l ≡ₚ x :: l.
Proof.
  induction l as [|y r IH]; simpl; [done|].
  destruct (citations x <? citations y); [|done].
  rewrite IH. apply Permutation_swap.
Qed.

Lemma sort_by_citations_perm l : sort_by_citations l ≡ₚ l.
Proof.
  induction l as [|x l IH]; simpl; [done|].
  rewrite insert_by_citations_perm. by rewrite IH.
Qed.

Lemma insert_by_citations_sorted x l :
  StronglySorted more_cited l -> StronglySorted more_cited (insert_by_citations x l).
Proof.
  induction l as [|y r IH]; intros Hs; simpl.
  - repeat constructor.
  - apply StronglySorted_inv in Hs as [Hr Hy].
    destruct (citations x <? citations y) eqn:Hlt.
    + apply Nat.ltb_lt in Hlt. constructor; [by apply IH|].
      rewrite insert_by_citations_perm. constructor; [unfold more_cited; lia|done].
    + apply Nat.ltb_ge in Hlt. constructor; [by constructor|].
      constructor; [done|].
      eapply Forall_impl; [exact Hy|]. unfold more_cited. intros z Hz. lia.
Qed.

Lemma sort_by_citations_sorted l : StronglySorted more_cited (sort_by_citations l).
Proof.
  induction l as [|x l IH]; simpl; [constructor|]. by apply insert_by_citations_sorted.
Qed.

(** Stability: the papers with a given citation count come out in the order
    they went in. *)
Lemma insert_by_citations_stable k x l :
  filter (fun p => citations p = k) (insert_by_citations x l)
  = filter (fun p => citations p = k) (x :: l).
Proof.
  induction l as [|y r IH]; simpl; [done|].
  destruct (citations x <? citations y) eqn:Hlt; [|done].
  apply Nat.ltb_lt in Hlt.
  destruct (decide (citations y = k)) as [Hy|Hy].
  - rewrite (filter_cons_True _ y) by done. rewrite IH.
    rewrite (filter_cons_False _ x) by lia.
    rewrite (filter_cons_False _ x) by lia.
    by rewrite (filter_cons_True _ y) by done.
  - rewrite (filter_cons_False _ y) by done. rewrite IH.
    destruct (decide (citations x = k)) as [Hx|Hx].
    + rewrite !(filter_cons_True _ x) by done. by rewrite (filter_cons_False _ y) by done.
    + rewrite !(filter_cons_False _ x) by done. by rewrite (filter_cons_False _ y) by done.
Qed.

Lemma sort_by_citations_stable k l :
  filter (fun p => citations p = k) (sort_by_citations l)
  = filter (fun p => citations p = k) l.
Proof.
  induction l as [|x l IH]; simpl; [done|].
  rewrite insert_by_citations_stable.
  destruct (decide (citations x = k)).
  - rewrite !(filter_cons_True _ x) by done. by rewrite IH.
  - rewrite !(filter_cons_False _ x) by done. by rewrite IH.
Qed.

Example ties_keep_discovery_order :
  relatedPapers ∅ [cited "a" 5; cited "b" 7] [cited "c" 7; cited "d" 5]
  = ["b"; "c"; "a"; "d"].
Proof. vm_compute. reflexivity. Qed.

(** ** Two runs *)

Lemma content_column {B : Type} (col : Paper -> B) (l1 l2 : list Paper) :
  (forall p, col (content p) = col p) ->
  content <$> l1 = content <$> l2 -> col <$> l1 = col <$> l2.
Proof.
  intros Hcol H.
  assert (Hl : forall l : list Paper, col <$> l = col <$> (content <$> l)).
  { intros l. rewrite <- list_fmap_compose. apply list_fmap_ext. intros ? p _. simpl.
    by rewrite Hcol. }
  by rewrite (Hl l1), (Hl l2), H.
Qed.

Lemma select_opt_eq_content (col : Paper -> option string) (v : string) (l1 l2 : list Paper) :
  (forall p, col (content p) = col p) ->
  content <$> l1 = content <$> l2 ->
  content <$> select_opt_eq col v l1 = content <$> select_opt_eq col v l2.
Proof.
  intros Hcol. unfold select_opt_eq.
  revert l2. induction l1 as [|p1 l1 IH]; intros [|p2 l2] H; try done.
  rewrite !fmap_cons in H.
  assert (Hp : content p1 = content p2) by congruence.
  assert (Hl : content <$> l1 = content <$> l2) by congruence.
  assert (Hsame : col p1 = col p2) by (by rewrite <- (Hcol p1), Hp, Hcol).
  rewrite !filter_cons. rewrite Hsame.
  destruct (decide (col p2 = Some v)); [rewrite !fmap_cons, Hp; f_equal|]; by apply IH.
Qed.

Lemma single_content (l1 l2 : list Paper) :
  content <$> l1 = content <$> l2 -> content <$> single l1 = content <$> single l2.
Proof.
  destruct l1 as [|p1 [|q1 l1]], l2 as [|p2 [|q2 l2]]; simpl; try done.
  intros H. f_equal. congruence.
Qed.

Lemma taken_content (col : Paper -> option string) (v : option string) (l1 l2 : list Paper) :
  (forall p, col (content p) = col p) ->
  content <$> l1 = content <$> l2 -> taken col l1 v = taken col l2 v.
Proof.
  intros Hcol H. unfold taken. destruct v as [x|]; [|done].
  by rewrite (content_column col l1 l2 Hcol H).
Qed.

Lemma sql_insert_paper_content title arxiv ss abstract (s1 s2 : Store) :
  same_papers s1 s2 ->
  match fst (sql_insert_paper title arxiv ss abstract s1),
        fst (sql_insert_paper title arxiv ss abstract s2) with
  | Data p1, Data p2 => content p1 = content p2
  | Error e1, Error e2 => e1 = e2
  | _, _ => False
  end
  /\ same_papers (snd (sql_insert_paper title arxiv ss abstract s1))
                 (snd (sql_insert_paper title arxiv ss abstract s2)).
Proof.
  intros H. unfold sql_insert_paper.
  destruct (too_long 50 arxiv); [done|]. destruct (too_long 100 ss); [done|].
  rewrite (taken_content paper_arxiv_id arxiv _ _ (fun _ => eq_refl) H).
  destruct (taken paper_arxiv_id (papers s2) arxiv); [done|].
  rewrite (taken_content paper_semantic_scholar_id ss _ _ (fun _ => eq_refl) H).
  destruct (taken paper_semantic_scholar_id (papers s2) ss); [done|].
  simpl. split; [done|]. unfold same_papers in *. simpl. by rewrite !fmap_app, H.
Qed.

Lemma in_step_ret {A : Type} (R : A -> A -> Prop) (a1 a2 : A) :
  R a1 a2 -> in_step R (ret a1) (ret a2).
Proof. intros Ha st1 st2 H. done. Qed.

Lemma in_step_throw {A : Type} (R : A -> A -> Prop) (e : Exn) :
  in_step R (throw e) (throw e).
Proof. intros st1 st2 H. done. Qed.

Lemma in_step_out_of_fuel {A : Type} (R : A -> A -> Prop) :
  in_step R out_of_fuel out_of_fuel.
Proof. intros st1 st2 H. done. Qed.

Lemma in_step_bind {A B : Type} (R : A -> A -> Prop) (R' : B -> B -> Prop)
      (m1 m2 : M A) (k1 k2 : A -> M B) :
  in_step R m1 m2 -> (forall a1 a2, R a1 a2 -> in_step R' (k1 a1) (k2 a2)) ->
  in_step R' (bind m1 k1) (bind m2 k2).
Proof.
  intros Hm Hk st1 st2 H. unfold bind. destruct (Hm st1 st2 H) as [Ho Hs].
  destruct (m1 st1) as [[a1|e1|] s1], (m2 st2) as [[a2|e2|] s2]; simpl in *; try done.
  by apply Hk.
Qed.

Lemma in_step_try {A : Type} (R : A -> A -> Prop) (m1 m2 : M A) (h1 h2 : Exn -> M A) :
  in_step R m1 m2 -> (forall e, in_step R (h1 e) (h2 e)) ->
  in_step R (try_catch m1 h1) (try_catch m2 h2).
Proof.
  intros Hm Hh st1 st2 H. unfold try_catch. destruct (Hm st1 st2 H) as [Ho Hs].
  destruct (m1 st1) as [[a1|e1|] s1], (m2 st2) as [[a2|e2|] s2]; simpl in *; try done.
  subst e2. by apply Hh.
Qed.

Lemma in_step_log lvl msg : in_step eq (write_log lvl msg) (write_log lvl msg).
Proof. intros st1 st2 H. done. Qed.

Lemma in_step_value_or_throw {A : Type} (r : Exn + A) :
  in_step eq (value_or_throw r) (value_or_throw r).
Proof. destruct r; [apply in_step_throw|by apply in_step_ret]. Qed.

(** The papers of two lists agree apart from their primary keys. *)
Local Abbreviation same_rows :=
  (fun l1 l2 : list Paper => content <$> l1 = content <$> l2).

Local Abbreviation same_row :=
  (fun o1 o2 : option Paper => content <$> o1 = content <$> o2).

Section Static.

Variable w : World.
Hypothesis no_traffic : quiet w.
Hypothesis snapshot : static_graph w.

Lemma in_step_db_call {A : Type} (R : A -> A -> Prop) (q : Store -> A * Store) :
  (forall s1 s2, same_papers s1 s2 ->
                 R (fst (q s1)) (fst (q s2)) /\ same_papers (snd (q s1)) (snd (q s2))) ->
  in_step R (db_call w q) (db_call w q).
Proof using no_traffic.
  intros Hq st1 st2 H. unfold db_call. rewrite !no_traffic.
  destruct (Hq _ _ H) as [Ha Hs].
  destruct (q (st_store st1)) as [a1 s1], (q (st_store st2)) as [a2 s2]. done.
Qed.

Lemma in_step_lookup (col : Paper -> option string) (v : string) :
  (forall p, col (content p) = col p) ->
  in_step same_row (db_read w (fun s => single (select_opt_eq col v (papers s))))
                   (db_read w (fun s => single (select_opt_eq col v (papers s)))).
Proof using no_traffic.
  intros Hcol. apply in_step_db_call. intros s1 s2 H. simpl. split; [|done].
  by apply single_content, select_opt_eq_content.
Qed.

Lemma in_step_insertPaper title arxiv ss abstract :
  in_step (fun p1 p2 => content p1 = content p2)
          (insertPaper w title arxiv ss abstract) (insertPaper w title arxiv ss abstract).
Proof using no_traffic.
  unfold insertPaper.
  apply in_step_bind with (R := fun r1 r2 =>
    match r1, r2 with
    | Data p1, Data p2 => content p1 = content p2
    | Error e1, Error e2 => e1 = e2
    | _, _ => False
    end).
  - apply in_step_db_call. intros s1 s2 H. by apply sql_insert_paper_content.
  - intros [p1|e1] [p2|e2] Hr; try done. subst e2. apply in_step_throw.
Qed.

Lemma in_step_getPaper id : in_step eq (getPaper w id) (getPaper w id).
Proof using snapshot.
  intros st1 st2 H. unfold getPaper.
  destruct (snapshot (st_tick st1) (st_tick st2) id) as (-> & _).
  destruct (http_paper w (st_tick st2) id) as [b|n|]; simpl; [done| |done].
  by destruct (n =? 404).
Qed.

Lemma in_step_getReferences id n : in_step eq (getReferences w id n) (getReferences w id n).
Proof using snapshot.
  intros st1 st2 H. unfold getReferences.
  destruct (snapshot (st_tick st1) (st_tick st2) id) as (_ & -> & _).
  by destruct (http_references w (st_tick st2) id n).
Qed.

Lemma in_step_getCitations id n : in_step eq (getCitations w id n) (getCitations w id n).
Proof using snapshot.
  intros st1 st2 H. unfold getCitations.
  destruct (snapshot (st_tick st1) (st_tick st2) id) as (_ & _ & ->).
  by destruct (http_citations w (st_tick st2) id n).
Qed.

Lemma in_step_storePaper d : in_step same_row (storePaper w d) (storePaper w d).
Proof using no_traffic.
  unfold storePaper, getPaperByArxivId, getPaperBySemanticScholarId, agent_log, agent_logError.
  apply in_step_try;
    [|intros e; eapply in_step_bind; [apply in_step_log|]; intros _ _ _;
      by apply in_step_ret].
  apply in_step_bind with (R := same_row).
  { destruct (externalIds_ArXiv d) as [a|]; [|by apply in_step_ret].
    destruct (truthy a); [by apply in_step_lookup|by apply in_step_ret]. }
  intros [p1|] [p2|] Hp; try done.
  apply in_step_bind with (R := same_row).
  { destruct (truthy (paperId d)); [by apply in_step_lookup|by apply in_step_ret]. }
  intros [q1|] [q2|] Hq; try done.
  eapply in_step_bind; [apply in_step_value_or_throw|]. intros _ _ _.
  eapply in_step_bind; [apply in_step_insertPaper|]. intros r1 r2 Hr.
  assert (Htitle : paper_title r1 = paper_title r2)
    by exact (f_equal paper_title Hr).
  rewrite Htitle.
  eapply in_step_bind; [apply in_step_log|]. intros _ _ _.
  apply in_step_ret. simpl. by rewrite Hr.
Qed.

Lemma in_step_fetch_loop fuel limit :
  forall found1 found2 seen queue,
    content <$> found1 = content <$> found2 ->
    in_step same_rows (fetch_loop w fuel limit found1 seen queue)
                      (fetch_loop w fuel limit found2 seen queue).
Proof using no_traffic snapshot.
  induction fuel as [|fuel IH]; intros found1 found2 seen queue Hfound; simpl.
  - apply in_step_out_of_fuel.
  - assert (Hlen : length found1 = length found2)
      by (by rewrite <- (length_fmap content found1), Hfound, length_fmap).
    destruct queue as [|current queue]; [by apply in_step_ret|].
    rewrite Hlen.
    destruct (negb (length found2 <? limit)); [by apply in_step_ret|].
    destruct (bool_decide (current ∈ seen)); [by apply IH|].
    eapply in_step_bind; [apply in_step_getPaper|]. intros data ? <-.
    destruct data as [data|].
    + eapply in_step_bind; [apply in_step_storePaper|]. intros stored1 stored2 Hstored.
      assert (Hfound' :
        content <$> match stored1 with Some p => found1 ++ [p] | None => found1 end
        = content <$> match stored2 with Some p => found2 ++ [p] | None => found2 end).
      { destruct stored1 as [p1|], stored2 as [p2|]; try done.
        assert (Hp : content p1 = content p2) by (simpl in Hstored; congruence).
        by rewrite !fmap_app, Hfound, !fmap_cons, Hp. }
      assert (Hlen' :
        length match stored1 with Some p => found1 ++ [p] | None => found1 end
        = length match stored2 with Some p => found2 ++ [p] | None => found2 end)
        by (by rewrite <- (length_fmap content), Hfound', length_fmap).
      rewrite Hlen'.
      destruct (length _ <? limit); [|by apply IH].
      eapply in_step_bind; [apply in_step_getReferences|]. intros refs ? <-.
      eapply in_step_bind; [apply in_step_getCitations|]. intros cits ? <-.
      by apply IH.
    + eapply in_step_bind; [apply in_step_log|]. intros _ _ _. by apply IH.
Qed.

Lemma in_step_fetchRelatedPapers fuel seed limit :
  in_step same_rows (fetchRelatedPapers w fuel seed limit)
                    (fetchRelatedPapers w fuel seed limit).
Proof using no_traffic snapshot.
  unfold fetchRelatedPapers, agent_log, agent_logError.
  eapply in_step_bind; [apply in_step_log|]. intros _ _ _.
  apply in_step_try.
  - eapply in_step_bind; [by apply in_step_fetch_loop|]. intros found1 found2 Hfound.
    eapply in_step_bind; [apply in_step_log|]. intros _ _ _. by apply in_step_ret.
  - intros e. eapply in_step_bind; [apply in_step_log|]. intros _ _ _. apply in_step_throw.
Qed.

End Static.

(** ** Enough fuel for a finite graph *)

Lemma storePaper_ends w d : ends (storePaper w d).
Proof.
  unfold storePaper, getPaperByArxivId, getPaperBySemanticScholarId, insertPaper, db_read,
    agent_log, agent_logError.
  apply ends_try; [|intros e; repeat ends_step].
  apply ends_bind.
  { destruct (externalIds_ArXiv d) as [a|]; [|apply ends_ret].
    destruct (truthy a); [apply ends_db_call|apply ends_ret]. }
  intros [p|]; [repeat ends_step|].
  apply ends_bind.
  { destruct (truthy (paperId d)); [apply ends_db_call|apply ends_ret]. }
  intros [p|]; [repeat ends_step|].
  apply ends_bind; [destruct (pdf_url_of d); [apply ends_throw|apply ends_ret]|].
  intros _. repeat ends_step.
Qed.

Lemma getPaper_ends w id : ends (getPaper w id).
Proof.
  intros st. unfold getPaper.
  destruct (http_paper w (st_tick st) id) as [b|n|]; [done| |done].
  by destruct (n =? 404).
Qed.

Lemma relatedPapers_bounded (universe : gset string) seen references cited_by :
  (forall p, p ∈ references -> paperId p ∈ universe) ->
  (forall p, p ∈ cited_by -> paperId p ∈ universe) ->
  length (relatedPapers seen references cited_by) <= 5
  /\ forall x, x ∈ relatedPapers seen references cited_by -> x ∈ universe.
Proof.
  intros Hr Hc. unfold relatedPapers. split.
  - rewrite length_fmap, length_take. lia.
  - intros x Hx. apply list_elem_of_fmap in Hx as (p & -> & Hp).
    apply subseteq_take in Hp. rewrite sort_by_citations_perm in Hp.
    apply list_elem_of_filter in Hp as [_ Hp].
    apply elem_of_app in Hp as [Hp|Hp]; auto.
Qed.

Lemma ends_bind_post {A B : Type} (m : M A) (k : A -> M B) (R : A -> Prop) :
  ends m -> (forall st a, fst (m st) = Ok a -> R a) ->
  (forall a, R a -> ends (k a)) -> ends (bind m k).
Proof.
  intros Hm HR Hk st. unfold bind. specialize (Hm st). specialize (HR st).
  destruct (m st) as [[a| |] st1]; simpl in *; [by apply Hk, HR|done|done].
Qed.

Lemma getReferences_listed w universe id n :
  finite_graph w universe ->
  forall st l, fst (getReferences w id n st) = Ok l ->
               forall p, p ∈ l -> paperId p ∈ universe.
Proof.
  intros Hfin st l. unfold getReferences.
  destruct (Hfin (st_tick st) id n) as [Hr _].
  destruct (http_references w (st_tick st) id n); simpl in *; intros [= <-]; set_solver.
Qed.

Lemma getCitations_listed w universe id n :
  finite_graph w universe ->
  forall st l, fst (getCitations w id n st) = Ok l ->
               forall p, p ∈ l -> paperId p ∈ universe.
Proof.
  intros Hfin st l. unfold getCitations.
  destruct (Hfin (st_tick st) id n) as [_ Hc].
  destruct (http_citations w (st_tick st) id n); simpl in *; intros [= <-]; set_solver.
Qed.

(** Each turn of the loop takes one id off the queue and, when the id is
    new, puts at most five back while one more node of the graph is
    visited: the queue length plus five times the number of unvisited
    nodes goes down. *)
Lemma fetch_loop_ends w universe limit :
  finite_graph w universe ->
  forall fuel found seen queue,
    (forall x, x ∈ queue -> x ∈ universe) ->
    length queue + 5 * size (universe ∖ seen) < fuel ->
    ends (fetch_loop w fuel limit found seen queue).
Proof.
  intros Hfin. induction fuel as [|fuel IH]; intros found seen queue Hin Hfuel; [lia|].
  simpl. destruct queue as [|current queue]; [apply ends_ret|].
  destruct (negb (length found <? limit)); [apply ends_ret|].
  cbn [length] in Hfuel.
  assert (Hq : forall x, x ∈ queue -> x ∈ universe) by set_solver.
  destruct (bool_decide (current ∈ seen)) eqn:Hseen.
  { apply IH; [done|lia]. }
  apply bool_decide_eq_false in Hseen.
  assert (Hless : size (universe ∖ ({[current]} ∪ seen)) < size (universe ∖ seen)).
  { apply subset_size. apply strict_spec_alt. split; [set_solver|].
    intros Heq. assert (current ∈ universe ∖ seen) as Hx by set_solver.
    rewrite <- Heq in Hx. set_solver. }
  apply ends_bind; [apply getPaper_ends|]. intros [data|].
  - apply ends_bind; [apply storePaper_ends|]. intros stored.
    destruct (length _ <? limit); [|apply IH; [done|lia]].
    apply (ends_bind_post _ _ (fun l => forall p, p ∈ l -> paperId p ∈ universe)).
    { intros st. unfold getReferences. by destruct (http_references w _ current 10). }
    { exact (getReferences_listed w universe current 10 Hfin). }
    intros references Hr.
    apply (ends_bind_post _ _ (fun l => forall p, p ∈ l -> paperId p ∈ universe)).
    { intros st. unfold getCitations. by destruct (http_citations w _ current 10). }
    { exact (getCitations_listed w universe current 10 Hfin). }
    intros cited_by Hc.
    destruct (relatedPapers_bounded universe ({[current]} ∪ seen) references cited_by Hr Hc)
      as [Hlen Hsub].
    apply IH.
    + intros x Hx. apply elem_of_app in Hx as [Hx|Hx]; auto.
    + rewrite length_app. lia.
  - apply ends_bind; [apply ends_log|]. intros _. apply IH; [done|lia].
Qed.

(** On a finite graph the walk ends: five units of fuel per node and two
    more are enough. *)
Lemma fetchRelatedPapers_ends w universe fuel seedPaper limit :
  finite_graph w universe -> seedPaper ∈ universe ->
  5 * size universe + 1 < fuel ->
  ends (fetchRelatedPapers w fuel seedPaper limit).
Proof.
  intros Hfin Hseed Hfuel. unfold fetchRelatedPapers, agent_log, agent_logError.
  apply ends_bind; [apply ends_log|]. intros _.
  apply ends_try; [|intros e; repeat ends_step].
  apply ends_bind; [|intros found; repeat ends_step].
  apply (fetch_loop_ends w universe limit Hfin).
  - intros x Hx. apply list_elem_of_singleton in Hx as ->. done.
  - simpl. assert (size (universe ∖ ∅) <= size universe) by (apply subseteq_size; set_solver).
    lia.
Qed.

Lemma scenario_world_finite : finite_graph scenario_world scenario_ids.
Proof.
  intros t id n. split; simpl; [|set_solver].
  destruct (bool_decide (id = "seed")); simpl; [|set_solver].
  intros p Hp. unfold scenario_ids. apply elem_of_list_to_set.
  apply elem_of_cons. right. apply list_elem_of_fmap. by exists p.
Qed.

(** ** A look-up that fails *)

Lemma getPaper_failure w id st e :
  failure_of (http_paper w (st_tick st) id) = Some e ->
  getPaper w id st = (Throw e, after_call st error ("Failed to fetch paper " +:+ id)).
Proof.
  unfold getPaper, failure_of.
  destruct (http_paper w (st_tick st) id) as [b|n|]; [done| |].
  - destruct (n =? 404); [done|]. by intros [= <-].
  - by intros [= <-].
Qed.

Lemma getPaper_throws w id st e st1 :
  getPaper w id st = (Throw e, st1) ->
  failure_of (http_paper w (st_tick st) id) = Some e
  /\ st1 = after_call st error ("Failed to fetch paper " +:+ id).
Proof.
  unfold getPaper, failure_of.
  destruct (http_paper w (st_tick st) id) as [b|n|]; [done| |].
  - destruct (n =? 404); [done|]. by intros [= <- <-].
  - by intros [= <- <-].
Qed.

Lemma getReferences_failure w id n st :
  (forall l, http_references w (st_tick st) id n <> Http200 l) ->
  getReferences w id n st
  = (Ok [], after_call st error ("Failed to fetch references for " +:+ id)).
Proof.
  intros H. unfold getReferences.
  destruct (http_references w (st_tick st) id n) as [l| |]; [by destruct (H l)|done|done].
Qed.

Lemma getCitations_failure w id n st :
  (forall l, http_citations w (st_tick st) id n <> Http200 l) ->
  getCitations w id n st
  = (Ok [], after_call st error ("Failed to fetch citations for " +:+ id)).
Proof.
  intros H. unfold getCitations.
  destruct (http_citations w (st_tick st) id n) as [l| |]; [by destruct (H l)|done|done].
Qed.

Lemma fetch_loop_stops_on_failure w fuel limit found seen id queue st e :
  failure_of (http_paper w (st_tick st) id) = Some e ->
  id ∉ seen -> length found < limit ->
  fetch_loop w (S fuel) limit found seen (id :: queue) st
  = (Throw e, after_call st error ("Failed to fetch paper " +:+ id)).
Proof.
  intros Hhttp Hseen Hlim. simpl.
  apply Nat.ltb_lt in Hlim. rewrite Hlim. simpl.
  rewrite bool_decide_eq_false_2 by done.
  unfold bind at 1. by rewrite (getPaper_failure w id st e Hhttp).
Qed.

Lemma bind_throws {A B : Type} (m : M A) (k : A -> M B) st e st1 :
  bind m k st = (Throw e, st1) ->
  m st = (Throw e, st1) \/ exists a st', m st = (Ok a, st') /\ k a st' = (Throw e, st1).
Proof.
  unfold bind. destruct (m st) as [[a|e'|] st'].
  - intros H. right. by exists a, st'.
  - intros [= <- <-]. by left.
  - done.
Qed.

Lemma no_throw {A : Type} (m : M A) st e st1 :
  never_throws m -> m st <> (Throw e, st1).
Proof. intros Hm H. apply (Hm st e). by rewrite H. Qed.

Lemma fetch_loop_throws w fuel limit :
  forall found seen queue st e st1,
    fetch_loop w fuel limit found seen queue st = (Throw e, st1) ->
    exists id st0,
      failure_of (http_paper w (st_tick st0) id) = Some e
      /\ st1 = after_call st0 error ("Failed to fetch paper " +:+ id).
Proof.
  induction fuel as [|fuel IH]; intros found seen queue st e st1; simpl; [done|].
  destruct queue as [|current queue]; [done|].
  destruct (negb (length found <? limit)); [done|].
  destruct (bool_decide (current ∈ seen)); [apply IH|].
  intros H. apply bind_throws in H as [H|(data & st' & _ & H)].
  { exists current, st. by apply getPaper_throws. }
  destruct data as [data|].
  - apply bind_throws in H as [H|(stored & st2 & _ & H)].
    { by destruct (no_throw _ _ _ _ (storePaper_never_throws w data) H). }
    destruct (length _ <? limit); [|by eapply IH].
    apply bind_throws in H as [H|(refs & st3 & _ & H)].
    { by destruct (no_throw _ _ _ _ (getReferences_never_throws w current 10) H). }
    apply bind_throws in H as [H|(cits & st4 & _ & H)].
    { by destruct (no_throw _ _ _ _ (getCitations_never_throws w current 10) H). }
    by eapply IH.
  - apply bind_throws in H as [H|([] & st2 & _ & H)]; [done|]. by eapply IH.
Qed.

(** The [catch] of [fetchRelatedPapers] logs and throws on. *)
Lemma fetchRelatedPapers_rethrows w fuel seedPaper limit st e st1 :
  fetch_loop w fuel limit [] ∅ [seedPaper]
             (batch_logged st ("Fetching papers related to " +:+ seedPaper))
  = (Throw e, st1) ->
  fetchRelatedPapers w fuel seedPaper limit st
  = (Throw e, with_error st1 reader_name "Failed to fetch related papers").
Proof.
  intros H. unfold fetchRelatedPapers, agent_log, bind at 1, write_log at 1.
  fold (batch_logged st ("Fetching papers related to " +:+ seedPaper)).
  unfold try_catch, bind at 1. by rewrite H.
Qed.

Lemma fetchRelatedPapers_throws w fuel seedPaper limit st e st1 :
  fetchRelatedPapers w fuel seedPaper limit st = (Throw e, st1) ->
  exists id st0,
    failure_of (http_paper w (st_tick st0) id) = Some e
    /\ st1 = with_error (after_call st0 error ("Failed to fetch paper " +:+ id))
                        reader_name "Failed to fetch related papers".
Proof.
  unfold fetchRelatedPapers, agent_log, bind at 1, write_log at 1.
  set (st' := {| st_store := st_store st; st_tick := st_tick st; st_log := _ |}).
  unfold try_catch, bind at 1.
  destruct (fetch_loop w fuel limit [] ∅ [seedPaper] st') as [[found|e'|] st2] eqn:Hloop;
    [done| |done].
  intros [= <- <-].
  destruct (fetch_loop_throws w fuel limit _ _ _ _ _ _ Hloop) as (id & st0 & Hfail & ->).
  by exists id, st0.
Qed.

(** ** The walk as a whole *)

(** Against C4 as stated: the seed has two references; fetching the first
    one fails with status 500, the second one could be fetched; the walk
    logs the failure and throws instead of going on with the second. *)
Lemma fetchRelatedPapers_aborts_on_failed_fetch :
  fst (fetchRelatedPapers (patchy_world (HttpStatus 500)) 10 "seed" 3 blank_state)
  = Throw (HttpExn (Some 500))
  /\ http_paper (patchy_world (HttpStatus 500)) 0 "r2" = Http200 (cited "r2" 9)
  /\ {| log_level := error;
        log_message := "[PaperReaderAgent] Failed to fetch related papers" |}
     ∈ st_log (snd (fetchRelatedPapers (patchy_world (HttpStatus 500)) 10 "seed" 3
                      blank_state)).
Proof.
  split; [vm_compute; reflexivity|]. split; [vm_compute; reflexivity|].
  apply (bool_decide_eq_true_1 _). vm_compute. reflexivity.
Qed.

(** C4, as the code has it.  A paper that the citation service reports
    missing (404) is logged, marked visited, left out of the result and of
    the expansion, and the loop goes on with the rest of the queue; a
    failed look-up of references or of citations is logged and counts as an
    empty list.  When paper look-ups fail in this way only,
    [fetchRelatedPapers] never throws, whatever the seed, the limit and the
    frontier, and on a finite graph it returns its list of papers.  Any
    other failure of a paper look-up is logged and thrown by [getPaper];
    the loop ends there, with the papers left in the queue not visited, and
    [fetchRelatedPapers] logs the error and throws it on.  Nothing else
    makes [fetchRelatedPapers] throw. *)
Theorem fetchRelatedPapers_survives_not_found (w : World) :
  (only_not_found w ->
   forall fuel seedPaper limit st e,
     fst (fetchRelatedPapers w fuel seedPaper limit st) <> Throw e)
  /\ (forall fuel limit found seen id queue st,
        http_paper w (st_tick st) id = HttpStatus 404 ->
        id ∉ seen -> length found < limit ->
        fetch_loop w (S fuel) limit found seen (id :: queue) st
        = fetch_loop w fuel limit found ({[id]} ∪ seen) queue (after_not_found st id))
  /\ (forall id n st,
        (forall l, http_references w (st_tick st) id n <> Http200 l) ->
        getReferences w id n st
        = (Ok [], after_call st error ("Failed to fetch references for " +:+ id)))
  /\ (forall id n st,
        (forall l, http_citations w (st_tick st) id n <> Http200 l) ->
        getCitations w id n st
        = (Ok [], after_call st error ("Failed to fetch citations for " +:+ id)))
  /\ (only_not_found w ->
      forall universe fuel seedPaper limit st,
        finite_graph w universe -> seedPaper ∈ universe ->
        5 * size universe + 1 < fuel ->
        exists found, fst (fetchRelatedPapers w fuel seedPaper limit st) = Ok found)
  /\ (forall fuel limit found seen id queue st e,
        failure_of (http_paper w (st_tick st) id) = Some e ->
        id ∉ seen -> length found < limit ->
        fetch_loop w (S fuel) limit found seen (id :: queue) st
        = (Throw e, after_call st error ("Failed to fetch paper " +:+ id)))
  /\ (forall fuel seedPaper limit st e st1,
        fetch_loop w fuel limit [] ∅ [seedPaper]
                   (batch_logged st ("Fetching papers related to " +:+ seedPaper))
        = (Throw e, st1) ->
        fetchRelatedPapers w fuel seedPaper limit st
        = (Throw e, with_error st1 reader_name "Failed to fetch related papers"))
  /\ (forall fuel seedPaper limit st e st1,
        fetchRelatedPapers w fuel seedPaper limit st = (Throw e, st1) ->
        exists id st0,
          failure_of (http_paper w (st_tick st0) id) = Some e
          /\ st1 = with_error (after_call st0 error ("Failed to fetch paper " +:+ id))
                              reader_name "Failed to fetch related papers").
Proof.
  assert (Hnever : only_not_found w -> forall fuel seedPaper limit,
             never_throws (fetchRelatedPapers w fuel seedPaper limit)).
  { intros Hw fuel seed limit. unfold fetchRelatedPapers.
    apply never_throws_bind; [apply never_throws_log|]. intros _.
    apply never_throws_guarded.
    apply never_throws_bind; [by apply fetch_loop_never_throws|]. intros found.
    apply never_throws_bind; [apply never_throws_log|]. intros _. apply never_throws_ret. }
  repeat split.
  - intros Hw fuel seed limit. by apply Hnever.
  - intros. by apply fetch_loop_skips_not_found.
  - intros. by apply getReferences_failure.
  - intros. by apply getCitations_failure.
  - intros Hw universe fuel seed limit st Hfin Hseed Hfuel.
    pose proof (fetchRelatedPapers_ends w universe fuel seed limit Hfin Hseed Hfuel st) as Hend.
    pose proof (Hnever Hw fuel seed limit st) as Hthrow.
    destruct (fst (fetchRelatedPapers w fuel seed limit st)) as [found|e|];
      [by exists found|by destruct (Hthrow e)|done].
  - intros. by apply fetch_loop_stops_on_failure.
  - intros. by apply fetchRelatedPapers_rethrows.
  - intros. by eapply fetchRelatedPapers_throws.
Qed.

Lemma patchy_world_only_not_found : only_not_found (patchy_world (HttpStatus 404)).
Proof.
  intros t id. simpl.
  repeat (destruct (bool_decide _); [done|]). done.
Qed.

(** With the first reference missing the walk goes on; with the first
    reference failing otherwise it ends at that look-up. *)
Lemma fetchRelatedPapers_survives_witness :
  (forall fuel seedPaper limit st e,
     fst (fetchRelatedPapers (patchy_world (HttpStatus 404)) fuel seedPaper limit st)
     <> Throw e)
  /\ (forall fuel queue,
        fetch_loop (patchy_world (HttpStatus 500)) (S fuel) 3 [] ∅ ("r1" :: queue) blank_state
        = (Throw (HttpExn (Some 500)),
           after_call blank_state error "Failed to fetch paper r1")).
Proof.
  split.
  - apply (fetchRelatedPapers_survives_not_found (patchy_world (HttpStatus 404))).
    exact patchy_world_only_not_found.
  - intros fuel queue.
    apply (fetchRelatedPapers_survives_not_found (patchy_world (HttpStatus 500)));
      [reflexivity|set_solver|simpl; lia].
Defined.

Example missing_reference_is_skipped :
  (fun r => match r with Ok l => paper_title <$> l | _ => [] end)
    (fst (fetchRelatedPapers (patchy_world (HttpStatus 404)) 10 "seed" 3 blank_state))
  = ["Paper seed"; "Paper r2"].
Proof. vm_compute. reflexivity. Qed.

Example failed_reference_ends_the_walk :
  fetchRelatedPapers (patchy_world NetworkError) 10 "seed" 3 blank_state
  = (Throw (HttpExn None),
     snd (fetchRelatedPapers (patchy_world NetworkError) 10 "seed" 3 blank_state))
  /\ (fun l => (log_level l, log_message l))
       <$> drop 2 (st_log (snd (fetchRelatedPapers (patchy_world NetworkError) 10 "seed" 3
                                  blank_state)))
     = [(error, "Failed to fetch citations for seed");
        (error, "Failed to fetch paper r1");
        (error, "[PaperReaderAgent] Failed to fetch related papers")].
Proof. vm_compute. split; reflexivity. Qed.



Lemma scenario_world_static : static_graph scenario_world.
Proof. intros t t' id. repeat split. Qed.


Example archives_differ_in_keys :
  (fun r => match r with Ok l => paper_id <$> l | _ => [] end)
    (fst (fetchRelatedPapers scenario_world 50 "seed" 3 first_archive))
  = ["uuid-1"; "0b2f"; "uuid-2"]
  /\ (fun r => match r with Ok l => paper_id <$> l | _ => [] end)
       (fst (fetchRelatedPapers scenario_world 50 "seed" 3 second_archive))
     = ["uuid-40"; "e41a"; "uuid-41"].
Proof. vm_compute. split; reflexivity. Qed.

(* ===================================================================== *)
(** * The coordinator                                                     *)
(* ===================================================================== *)

(** What the queue hands to [Promise.allSettled] for one unit: never a
    unit that is still running. *)
Lemma queue_add_settles w throwOnTimeout (task : M Value) (st : State) :
  match fst (queue_add w throwOnTimeout task st) with
  | Ok v => settled_as throwOnTimeout (deadline_missed w (st_tick st)) (fst (task st))
            = fulfilled v
  | Throw e => settled_as throwOnTimeout (deadline_missed w (st_tick st)) (fst (task st))
               = rejected e
  | OutOfFuel => False
  end
  /\ snd (queue_add w throwOnTimeout task st) = snd (task st).
Proof.
  unfold queue_add, settled_as, on_timeout, timed_out.
  destruct (task st) as [[v|e|] st1]; simpl;
    destruct (deadline_missed w (st_tick st)), throwOnTimeout; done.
Qed.

Lemma allSettled_cons (task : M Value) (rest : list (M Value)) (st : State) :
  allSettled (task :: rest) st =
  match task st with
  | (Ok v, st') => (results <- allSettled rest ;; ret (fulfilled v :: results)) st'
  | (Throw e, st') => (results <- allSettled rest ;; ret (rejected e :: results)) st'
  | (OutOfFuel, st') => (OutOfFuel, st')
  end.
Proof. reflexivity. Qed.

(** [Promise.allSettled] over the promises of the queue never rejects: it
    turns the outcome of each unit into the entry at its place. *)
Lemma allSettled_settles w throwOnTimeout agents (paperIds : list string) :
  forall st,
    exists results st',
      allSettled ((fun paperId =>
                     queue_add w throwOnTimeout (orchestratePaperProcessing agents paperId))
                    <$> paperIds) st
      = (Ok results, st')
      /\ batch_settles w throwOnTimeout agents st paperIds results st'
      /\ length results = length paperIds.
Proof.
  induction paperIds as [|id ids IH]; intros st.
  - exists [], st. split; [done|]. split; [constructor|done].
  - rewrite fmap_cons, allSettled_cons.
    destruct (queue_add_settles w throwOnTimeout (orchestratePaperProcessing agents id) st)
      as [Hentry Hstate].
    destruct (orchestratePaperProcessing agents id st) as [outcome st1] eqn:Hunit.
    destruct (queue_add w throwOnTimeout (orchestratePaperProcessing agents id) st)
      as [[v|e|] st1'] eqn:Hqueue; simpl in Hentry, Hstate; [| |done]; subst st1';
      destruct (IH st1) as (results & st2 & Hrest & Hbatch & Hlen);
      unfold bind; rewrite Hrest; eexists _, st2;
      (split; [reflexivity|]); rewrite <- Hentry;
      (split; [by eapply batch_next|]); simpl; by rewrite Hlen.
Qed.

Lemma settled_count (results : list Settled) :
  length (filter (fun r => is_fulfilled r = true) results)
  + length (filter (fun r => is_rejected r = true) results) = length results.
Proof.
  induction results as [|[v|e] results IH]; [done| |].
  - rewrite filter_cons_True by done. rewrite (filter_cons_False (fun r => is_rejected r = true)) by done.
    simpl. lia.
  - rewrite filter_cons_False by done. rewrite (filter_cons_True (fun r => is_rejected r = true)) by done.
    simpl. lia.
Qed.



Example failure_isolation_scenario :
  is_fulfilled <$> default []
    (match fst (processPapersBatch quiet_world false sample_registry five_papers blank_state)
     with Ok results => Some results | _ => None end)
  = [true; true; false; true; true].
Proof. vm_compute. reflexivity. Qed.

(** With [throwOnTimeout] off, a unit that does not end is reported as
    fulfilled with [undefined]. *)
Example stalled_unit_scenario :
  (fun r => match r with
            | Ok results => (fun s => match s with
                                      | fulfilled VUndefined => "timed out"
                                      | fulfilled _ => "fulfilled"
                                      | rejected _ => "rejected"
                                      end) <$> results
            | _ => []
            end)
    (fst (processPapersBatch quiet_world false stalling_registry five_papers blank_state))
  = ["fulfilled"; "fulfilled"; "timed out"; "rejected"; "fulfilled"].
Proof. vm_compute. reflexivity. Qed.

(* ===================================================================== *)
(** * The validator's cycle check                                         *)
(* ===================================================================== *)

(** ** The adjacency map *)

Lemma graph_get_set_eq g k vs : graph_get (graph_set g k vs) k = Some vs.
Proof.
  induction g as [|[k' vs'] r IH]; simpl.
  - by rewrite decide_True.
  - destruct (decide (k' = k)); simpl.
    + by rewrite decide_True.
    + by rewrite decide_False.
Qed.

Lemma graph_get_set_ne g k k' vs :
  k <> k' -> graph_get (graph_set g k vs) k' = graph_get g k'.
Proof.
  intros Hne. induction g as [|[k0 vs0] r IH]; simpl.
  - by rewrite decide_False.
  - destruct (decide (k0 = k)) as [->|]; simpl.
    + by rewrite !decide_False.
    + destruct (decide (k0 = k')); [done|]. exact IH.
Qed.

Lemma graph_keys_set g k vs a :
  a ∈ graph_keys (graph_set g k vs) <-> a = k \/ a ∈ graph_keys g.
Proof.
  unfold graph_keys. induction g as [|[k0 vs0] r IH]; simpl.
  - set_solver.
  - destruct (decide (k0 = k)) as [->|]; simpl; set_solver.
Qed.

Lemma graph_get_None g k : graph_get g k = None <-> k ∉ graph_keys g.
Proof.
  unfold graph_keys. induction g as [|[k0 vs0] r IH]; simpl.
  - set_solver.
  - destruct (decide (k0 = k)) as [->|]; [set_solver|].
    rewrite IH. set_solver.
Qed.

Lemma build_graph_snoc l imp :
  build_graph (l ++ [imp]) = add_edge (build_graph l) imp.
Proof. unfold build_graph. by rewrite foldl_app. Qed.

Lemma add_edge_neighbors g n o a :
  neighbors_of (add_edge g (n, o)) a =
  if decide (a = n) then neighbors_of g n ++ [o] else neighbors_of g a.
Proof.
  unfold add_edge, neighbors_of, graph_push, graph_has. simpl.
  destruct (bool_decide (n ∈ g.*1)) eqn:Hin.
  - apply bool_decide_eq_true in Hin.
    destruct (graph_get g n) as [vs|] eqn:Hg.
    + destruct (decide (a = n)) as [->|Hne].
      * by rewrite graph_get_set_eq.
      * by rewrite graph_get_set_ne.
    + apply graph_get_None in Hg. done.
  - apply bool_decide_eq_false in Hin.
    rewrite graph_get_set_eq.
    assert (graph_get g n = None) as Hn by by apply graph_get_None.
    destruct (decide (a = n)) as [->|Hne].
    + rewrite graph_get_set_eq, Hn. done.
    + rewrite graph_get_set_ne by done. by rewrite graph_get_set_ne.
Qed.

Lemma add_edge_keys g n o a :
  a ∈ graph_keys (add_edge g (n, o)) <-> a = n \/ a ∈ graph_keys g.
Proof.
  unfold add_edge, graph_push, graph_has. simpl.
  destruct (bool_decide (n ∈ g.*1)) eqn:Hin.
  - apply bool_decide_eq_true in Hin.
    destruct (graph_get g n) as [vs|] eqn:Hg.
    + rewrite graph_keys_set. unfold graph_keys. naive_solver.
    + apply graph_get_None in Hg. done.
  - rewrite graph_get_set_eq. rewrite !graph_keys_set. naive_solver.
Qed.

Lemma build_graph_neighbors l a b :
  b ∈ neighbors_of (build_graph l) a <-> (a, b) ∈ l.
Proof.
  induction l as [|[n o] l IH] using rev_ind.
  - unfold neighbors_of. simpl. set_solver.
  - rewrite build_graph_snoc, add_edge_neighbors.
    destruct (decide (a = n)) as [->|Hne].
    + rewrite !elem_of_app, IH. set_solver.
    + rewrite IH. set_solver.
Qed.

Lemma build_graph_keys l a :
  a ∈ graph_keys (build_graph l) <-> a ∈ l.*1.
Proof.
  induction l as [|[n o] l IH] using rev_ind.
  - unfold graph_keys. simpl. set_solver.
  - rewrite build_graph_snoc, add_edge_keys, IH, fmap_app. set_solver.
Qed.

(** ** The depth-first search *)

Section Search.

Variable g : Graph.

Lemma finished_closed_rtc m u v :
  settled g m -> u ∈ finished m -> rtc (edge g) u v -> v ∈ finished m.
Proof.
  intros Hm Hu Hr. induction Hr as [|x y z Hxy _ IH]; [done|].
  apply IH. eapply finished_closed; eauto.
Qed.

Lemma settled_pop m node :
  settled g m -> node ∈ recursionStack m ->
  (forall x, (edge g) node x -> x ∈ finished m) ->
  settled g {| visited := visited m; recursionStack := recursionStack m ∖ {[node]} |}.
Proof.
  intros Hm Hn Hall.
  pose proof (stack_visited _ _ Hm) as Hsub.
  assert (Hfin : forall u,
             u ∈ finished {| visited := visited m;
                             recursionStack := recursionStack m ∖ {[node]} |}
             <-> u = node \/ u ∈ finished m).
  { intros u. unfold finished. simpl.
    destruct (decide (u = node)) as [->|]; set_solver. }
  split.
  - simpl. set_solver.
  - intros u v Hu Huv. apply Hfin. right. apply Hfin in Hu as [->|Hu].
    + by apply Hall.
    + eapply finished_closed; eauto.
  - intros u Hu Hcyc. apply Hfin in Hu as [->|Hu].
    + assert (exists x, (edge g) node x /\ rtc (edge g) x node) as (x & Hx & Hback).
      { inversion Hcyc as [? ? H1|? y ? H1 H2]; subst.
        - exists node. split; [done|apply rtc_refl].
        - exists y. split; [done|]. by apply tc_rtc. }
      pose proof (finished_closed_rtc m x node Hm (Hall x Hx) Hback) as Hin.
      unfold finished in Hin. set_solver.
    + by eapply finished_acyclic.
Qed.

Lemma visit_neighbors_contract search node :
  search_contract g search ->
  forall rest done m r m',
    neighbors_of g node = done ++ rest ->
    visit_neighbors search node rest m = Some (r, m') ->
    node ∈ recursionStack m -> settled g m -> chained g m node ->
    (forall x, x ∈ done -> x ∈ finished m) ->
    if r then cyclic g
    else recursionStack m' = recursionStack m ∖ {[node]}
         /\ visited m ⊆ visited m' /\ settled g m'.
Proof.
  intros Hsearch. induction rest as [|x rest IH]; intros done m r m' Hsplit Hrun Hn Hm Hch Hdone.
  - simpl in Hrun. injection Hrun as <- <-. simpl.
    split; [done|]. split; [done|].
    apply settled_pop; [done..|].
    intros x Hx. apply Hdone. unfold edge in Hx. rewrite Hsplit, app_nil_r in Hx. done.
  - assert (Hedge : (edge g) node x).
    { unfold edge. rewrite Hsplit. set_solver. }
    assert (Hsplit' : neighbors_of g node = (done ++ [x]) ++ rest).
    { by rewrite <- app_assoc. }
    simpl in Hrun. destruct (bool_decide (x ∉ visited m)) eqn:Hvis.
    + apply bool_decide_eq_true in Hvis.
      destruct (search x m) as [[[] m1]|] eqn:Hcall; [| |done].
      * injection Hrun as <- <-.
        apply (Hsearch x m true m1 Hcall Hvis Hm).
        intros s Hs. eapply rtc_r; [by apply Hch|done].
      * assert (Hchx : chained g m x).
        { intros s Hs. eapply rtc_r; [by apply Hch|done]. }
        destruct (Hsearch x m false m1 Hcall Hvis Hm Hchx) as (Hst & Hsub & Hx1 & Hm1).
        pose proof (stack_visited _ _ Hm) as Hsv.
        specialize (IH (done ++ [x]) m1 r m' Hsplit' Hrun).
        rewrite Hst in IH.
        assert (Hgoal : if r then cyclic g
                        else recursionStack m' = recursionStack m ∖ {[node]}
                             /\ visited m1 ⊆ visited m' /\ settled g m').
        { apply IH; [done|done| |].
          - intros s Hs. apply Hch. by rewrite <- Hst.
          - intros y Hy. unfold finished in *. rewrite Hst.
            apply elem_of_app in Hy as [Hy|Hy].
            + specialize (Hdone y Hy). set_solver.
            + set_solver. }
        destruct r; [done|]. destruct Hgoal as (? & ? & ?).
        split; [done|]. split; [set_solver|done].
    + apply bool_decide_eq_false in Hvis.
      destruct (bool_decide (x ∈ recursionStack m)) eqn:Hstk.
      * apply bool_decide_eq_true in Hstk. injection Hrun as <- <-.
        exists x. eapply tc_rtc_l; [by apply Hch|]. apply tc_once.
        (* node -> x closes the walk x ->* node *)
        done.
      * apply bool_decide_eq_false in Hstk.
        apply (IH (done ++ [x]) m r m' Hsplit' Hrun Hn Hm Hch).
        intros y Hy. apply elem_of_app in Hy as [Hy|Hy]; [by apply Hdone|].
        unfold finished. apply dec_stable in Hvis. set_solver.
Qed.

Lemma hasCycle_contract fuel : search_contract g (hasCycle fuel g).
Proof.
  induction fuel as [|fuel IH]; intros node m r m' Hrun Hfresh Hm Hch; [done|].
  simpl in Hrun.
  pose proof (stack_visited _ _ Hm) as Hsv.
  set (m0 := {| visited := {[node]} ∪ visited m;
                recursionStack := {[node]} ∪ recursionStack m |}) in *.
  assert (Hfin : finished m0 = finished m).
  { unfold finished, m0. simpl. set_solver. }
  assert (Hm0 : settled g m0).
  { split.
    - simpl. set_solver.
    - intros u v. rewrite Hfin. apply (finished_closed _ _ Hm).
    - intros u. rewrite Hfin. apply (finished_acyclic _ _ Hm). }
  assert (Hch0 : chained g m0 node).
  { intros s Hs. simpl in Hs. apply elem_of_union in Hs as [Hs|Hs].
    - apply elem_of_singleton in Hs as ->. apply rtc_refl.
    - by apply Hch. }
  pose proof (visit_neighbors_contract (hasCycle fuel g) node IH
                (neighbors_of g node) [] m0 r m' eq_refl Hrun) as Hloop.
  assert (Hres : if r then cyclic g
                 else recursionStack m' = recursionStack m0 ∖ {[node]}
                      /\ visited m0 ⊆ visited m' /\ settled g m').
  { apply Hloop; [simpl; set_solver|done|done|]. intros x Hx. set_solver. }
  destruct r; [done|]. destruct Hres as (Hst & Hsub & Hm').
  simpl in Hst, Hsub.
  split; [rewrite Hst; set_solver|]. split; [set_solver|]. split; [set_solver|done].
Qed.

(** ** Enough fuel *)

Section Fuel.

Variable universe : gset string.
Hypothesis edges_inside : forall a b, (edge g) a b -> b ∈ universe.

Lemma visit_neighbors_terminates fuel search node :
  terminates_at universe fuel search ->
  forall rest m,
    (forall x, x ∈ rest -> x ∈ universe) ->
    size (universe ∖ visited m) < fuel ->
    exists r m', visit_neighbors search node rest m = Some (r, m')
                 /\ visited m ⊆ visited m'.
Proof.
  intros Hsearch. induction rest as [|x rest IH]; intros m Hin Hsize; simpl.
  - eexists _, _. split; [done|]. simpl. done.
  - destruct (bool_decide (x ∉ visited m)) eqn:Hvis.
    + apply bool_decide_eq_true in Hvis.
      destruct (Hsearch x m) as (r & m1 & -> & Hsub); [set_solver|done|done|].
      destruct r.
      * eexists _, _. split; done.
      * destruct (IH m1) as (r & m2 & -> & Hsub2).
        { set_solver. }
        { eapply Nat.le_lt_trans; [|exact Hsize].
          apply subseteq_size. set_solver. }
        eexists _, _. split; [done|]. set_solver.
    + destruct (bool_decide (x ∈ recursionStack m)).
      * eexists _, _. split; done.
      * apply IH; [set_solver|done].
Qed.

Lemma hasCycle_terminates fuel : terminates_at universe fuel (hasCycle fuel g).
Proof using edges_inside.
  induction fuel as [|fuel IH]; intros node m Hn Hfresh Hsize; [lia|].
  simpl.
  set (m0 := {| visited := {[node]} ∪ visited m;
                recursionStack := {[node]} ∪ recursionStack m |}).
  assert (Hlt : size (universe ∖ visited m0) < fuel).
  { assert (universe ∖ visited m0 ⊂ universe ∖ visited m) as Hsub.
    { simpl. apply strict_spec_alt. split; [set_solver|].
      intros Heq. assert (node ∈ universe ∖ visited m) as Hx by set_solver.
      rewrite <- Heq in Hx. set_solver. }
    apply subset_size in Hsub. lia. }
  destruct (visit_neighbors_terminates fuel (hasCycle fuel g) node IH
              (neighbors_of g node) m0) as (r & m' & Hrun & Hsub); [|done|].
  { intros x Hx. by apply (edges_inside node). }
  exists r, m'. split; [done|]. simpl in Hsub. set_solver.
Qed.

End Fuel.

(** ** The loop over the keys *)

Lemma scan_nodes_appends fuel nodes :
  forall m conflicts result,
    scan_nodes fuel g nodes m conflicts = Some result ->
    exists found, result = conflicts ++ found /\ only_circular found.
Proof.
  induction nodes as [|node rest IH]; intros m conflicts result Hrun; simpl in Hrun.
  - injection Hrun as <-. exists []. split; [by rewrite app_nil_r|constructor].
  - destruct (bool_decide (node ∉ visited m)); [|by eapply IH].
    destruct (hasCycle fuel g node m) as [[[] m1]|]; [| |done].
    + apply IH in Hrun as (found & -> & Hall).
      exists (circular_improvement :: found).
      split; [by rewrite <- app_assoc|by constructor].
    + by eapply IH.
Qed.

Lemma scan_nodes_sound fuel nodes :
  forall m conflicts result,
    scan_nodes fuel g nodes m conflicts = Some result ->
    settled g m -> recursionStack m = ∅ ->
    exists found,
      result = conflicts ++ found /\ only_circular found
      /\ (found <> [] -> cyclic g)
      /\ (found = [] ->
          exists m', settled g m' /\ recursionStack m' = ∅
                     /\ visited m ⊆ visited m'
                     /\ forall n, n ∈ nodes -> n ∈ visited m').
Proof.
  induction nodes as [|node rest IH]; intros m conflicts result Hrun Hm Hst; simpl in Hrun.
  - injection Hrun as <-. exists []. rewrite app_nil_r.
    split; [done|]. split; [constructor|]. split; [done|].
    intros _. exists m. set_solver.
  - destruct (bool_decide (node ∉ visited m)) eqn:Hvis.
    + apply bool_decide_eq_true in Hvis.
      destruct (hasCycle fuel g node m) as [[[] m1]|] eqn:Hcall; [| |done].
      * pose proof (hasCycle_contract fuel node m true m1 Hcall Hvis Hm) as Hcyc.
        simpl in Hcyc.
        apply scan_nodes_appends in Hrun as (found & -> & Hall).
        exists (circular_improvement :: found).
        split; [by rewrite <- app_assoc|]. split; [by constructor|].
        split; [|done]. intros _. apply Hcyc. intros s Hs. set_solver.
      * destruct (hasCycle_contract fuel node m false m1 Hcall Hvis Hm)
          as (Hst1 & Hsub & Hn & Hm1).
        { intros s Hs. set_solver. }
        destruct (IH m1 conflicts result Hrun Hm1) as (found & Hres & Hall & Hcyc & Hnone).
        { by rewrite Hst1. }
        exists found. split; [done|]. split; [done|]. split; [done|].
        intros Hnil. destruct (Hnone Hnil) as (m' & ? & ? & ? & Hcov).
        exists m'. split; [done|]. split; [done|]. split; [set_solver|].
        intros n Hin. apply elem_of_cons in Hin as [->|Hin]; [set_solver|by apply Hcov].
    + apply bool_decide_eq_false in Hvis. apply dec_stable in Hvis.
      destruct (IH m conflicts result Hrun Hm Hst) as (found & Hres & Hall & Hcyc & Hnone).
      exists found. split; [done|]. split; [done|]. split; [done|].
      intros Hnil. destruct (Hnone Hnil) as (m' & ? & ? & ? & Hcov).
      exists m'. split; [done|]. split; [done|]. split; [done|].
      intros n Hin. apply elem_of_cons in Hin as [->|Hin]; [set_solver|by apply Hcov].
Qed.

Lemma scan_nodes_terminates (universe : gset string) nodes :
  (forall a b, (edge g) a b -> b ∈ universe) ->
  (forall n, n ∈ nodes -> n ∈ universe) ->
  forall m conflicts,
    exists result, scan_nodes (S (size universe)) g nodes m conflicts = Some result.
Proof.
  intros Hedges. induction nodes as [|node rest IH]; intros Hin m conflicts.
  - by eexists.
  - cbn [scan_nodes]. destruct (bool_decide (node ∉ visited m)) eqn:Hvis.
    + apply bool_decide_eq_true in Hvis.
      destruct (hasCycle_terminates universe Hedges (S (size universe)) node m)
        as (r & m1 & -> & _).
      * set_solver.
      * done.
      * apply Nat.lt_succ_r, subseteq_size. set_solver.
      * destruct r; apply IH; set_solver.
    + apply IH. set_solver.
Qed.

End Search.

(** ** checkCircularImprovements *)

Lemma edge_build_graph l a b : edge (build_graph l) a b <-> improves l a b.
Proof. apply build_graph_neighbors. Qed.

Lemma cyclic_build_graph l : cyclic (build_graph l) <-> has_cycle l.
Proof.
  unfold cyclic, has_cycle.
  assert (forall a b, tc (edge (build_graph l)) a b <-> tc (improves l) a b) as Htc.
  { intros a b. split; intros H.
    - induction H as [x y H|x y z H _ IH].
      + apply tc_once. by apply edge_build_graph.
      + eapply tc_l; [|exact IH]. by apply edge_build_graph.
    - induction H as [x y H|x y z H _ IH].
      + apply tc_once. by apply edge_build_graph.
      + eapply tc_l; [|exact IH]. by apply edge_build_graph. }
  split; intros [a Ha]; exists a; by apply Htc.
Qed.

Lemma settled_start g :
  settled g {| visited := ∅; recursionStack := ∅ |}.
Proof. split; unfold finished; simpl; set_solver. Qed.

Lemma detect_cycles_correct improvements conflicts :
  exists found,
    detect_cycles improvements conflicts = Some (conflicts ++ found)
    /\ only_circular found
    /\ (found <> [] <-> has_cycle improvements).
Proof.
  unfold detect_cycles, recursion_bound.
  set (g := build_graph improvements).
  set (start := {| visited := ∅; recursionStack := ∅ |}).
  destruct (scan_nodes_terminates g (graph_nodes improvements) (graph_keys g))
    with (m := start) (conflicts := conflicts) as (result & Hrun).
  { intros a b Hab. apply edge_build_graph in Hab. unfold improves in Hab.
    unfold graph_nodes. apply elem_of_union_r, elem_of_list_to_set.
    apply list_elem_of_fmap. by exists (a, b). }
  { intros n Hn. apply build_graph_keys in Hn.
    unfold graph_nodes. by apply elem_of_union_l, elem_of_list_to_set. }
  rewrite Hrun.
  destruct (scan_nodes_sound g _ _ _ _ _ Hrun (settled_start g) eq_refl)
    as (found & -> & Hall & Hcyc & Hnone).
  exists found. split; [done|]. split; [done|]. split.
  - intros Hne. apply cyclic_build_graph. by apply Hcyc.
  - intros Hc Hnil. destruct (Hnone Hnil) as (m' & Hm' & Hst & _ & Hcov).
    apply cyclic_build_graph in Hc as [a Ha].
    apply (finished_acyclic g m' Hm' a); [|done].
    unfold finished. rewrite Hst.
    assert (a ∈ graph_keys g) as Hk.
    { assert (exists b, edge g a b) as [b Hb].
      { inversion Ha; subst; eauto. }
      unfold edge, neighbors_of in Hb.
      destruct (graph_get g a) eqn:Hg; [|set_solver].
      destruct (decide (a ∈ graph_keys g)) as [|Hno]; [done|].
      apply graph_get_None in Hno. congruence. }
    specialize (Hcov a Hk). set_solver.
Qed.

Lemma only_circular_elem found :
  only_circular found -> (circular_improvement ∈ found <-> found <> []).
Proof.
  intros Hall. split.
  - intros Hin ->. set_solver.
  - destruct found as [|c found]; [done|]. intros _.
    apply Forall_cons in Hall as [-> _]. set_solver.
Qed.

(** C7. Whatever edges the table holds, [checkCircularImprovements] adds a
    [circular_improvement] conflict if and only if the new-to-old graph of
    all those edges has a directed cycle; with A-improves-B, B-improves-C
    and C-improves-A inserted in that order the conflict appears with the
    third edge and not with the first two. *)
Theorem checkCircularImprovements_detects_cycles :
  (forall (w : World) (conflicts : list Conflict) (st : State),
     exists found st',
       checkCircularImprovements w conflicts st = (Ok (conflicts ++ found), st')
       /\ (circular_improvement ∈ found <->
           has_cycle (improvement_edges (concurrent w (st_tick st) (st_store st)))))
  /\ detect_cycles [("A", "B"); ("B", "C")] [] = Some []
  /\ detect_cycles [("A", "B"); ("B", "C"); ("C", "A")] [] = Some [circular_improvement].
Proof.
  split; [|split; vm_compute; reflexivity].
  intros w conflicts st.
  destruct (detect_cycles_correct
              (improvement_edges (concurrent w (st_tick st) (st_store st))) conflicts)
    as (found & Hrun & Hall & Hiff).
  exists found. eexists. split.
  - unfold checkCircularImprovements, try_catch, bind, db_read, db_call. simpl.
    unfold improvement_edges in Hrun. rewrite Hrun. reflexivity.
  - rewrite <- Hiff. by apply only_circular_elem.
Qed.

(* ===================================================================== *)
(** * utils/helpers.ts: truncate and chunkText                            *)
(* ===================================================================== *)

Lemma append_cons (c : ascii) (a b : string) : String c a +:+ b = String c (a +:+ b).
Proof. reflexivity. Qed.

Lemma append_nil (b : string) : "" +:+ b = b.
Proof. reflexivity. Qed.

Lemma length_append (a b : string) :
  String.length (a +:+ b) = String.length a + String.length b.
Proof.
  induction a as [|c a IH]; [reflexivity|].
  rewrite append_cons. simpl. rewrite IH. reflexivity.
Qed.

Lemma append_empty_r (a : string) : a +:+ "" = a.
Proof. induction a as [|c a IH]; [reflexivity|]. rewrite append_cons, IH. reflexivity. Qed.

Lemma length_substring (s : string) :
  forall n m, String.length (substring n m s) = Nat.min m (String.length s - n).
Proof.
  induction s as [|c s IH]; intros n m.
  - destruct n, m; reflexivity.
  - destruct n as [|n]; simpl.
    + destruct m as [|m]; simpl; [reflexivity|]. rewrite IH, Nat.sub_0_r. reflexivity.
    + apply IH.
Qed.

Lemma substring_all (s : string) : substring 0 (String.length s) s = s.
Proof. induction s as [|c s IH]; simpl; [reflexivity|]. rewrite IH. reflexivity. Qed.

Lemma substring_past (s : string) :
  forall n m, String.length s <= n -> substring n m s = "".
Proof.
  induction s as [|c s IH]; intros n m H.
  - destruct n, m; reflexivity.
  - destruct n as [|n]; simpl in *; [lia|]. apply IH. lia.
Qed.

Lemma substring_none (s : string) : forall n, substring n 0 s = "".
Proof. induction s as [|c s IH]; intros [|n]; simpl; auto. Qed.

(** Two adjacent pieces make one. *)
Lemma substring_split (s : string) :
  forall n m k, substring n m s +:+ substring (n + m) k s = substring n (m + k) s.
Proof.
  induction s as [|c s IH]; intros n m k.
  - destruct n, m, k; reflexivity.
  - destruct n as [|n]; simpl.
    + destruct m as [|m]; simpl.
      * destruct k; reflexivity.
      * rewrite <- (IH 0 m k). reflexivity.
    + apply IH.
Qed.

Lemma slice_prefix (text : string) (stop : Z) :
  slice text 0 stop = substring 0 (slice_index (String.length text) stop) text.
Proof. unfold slice. simpl. rewrite Nat.sub_0_r. reflexivity. Qed.

Lemma truncate_long (text : string) (maxLength : Z) :
  (maxLength < Z.of_nat (String.length text))%Z ->
  String.length (truncate text maxLength)
  = slice_index (String.length text) (maxLength - 3) + 3.
Proof.
  intros H. unfold truncate.
  destruct (Z.leb_spec (Z.of_nat (String.length text)) maxLength); [lia|].
  rewrite length_append, slice_prefix, length_substring. simpl.
  unfold slice_index.
  destruct (Z.ltb_spec (maxLength - 3) 0); lia.
Qed.

(** X1. [truncate] returns a text that fits unchanged.  A longer text is
    cut to its first [maxLength - 3] characters followed by three dots, of
    total length [maxLength], provided [maxLength] is at least 3; below 3
    the result is longer than [maxLength].  So the result respects the
    bound exactly when the text fits or the bound is at least 3. *)
Theorem truncate_respects_bound (text : string) (maxLength : Z) :
  ((Z.of_nat (String.length (truncate text maxLength)) <= maxLength)%Z
   <-> (Z.of_nat (String.length text) <= maxLength)%Z \/ (3 <= maxLength)%Z)
  /\ truncate text maxLength
     = (if (Z.of_nat (String.length text) <=? maxLength)%Z then text
        else if (3 <=? maxLength)%Z
             then substring 0 (Z.to_nat (maxLength - 3)) text +:+ "..."
             else substring 0 (String.length text - Z.to_nat (3 - maxLength)) text
                  +:+ "...").
Proof.
  split.
  - destruct (Z.leb_spec (Z.of_nat (String.length text)) maxLength) as [Hfit|Hlong].
    + unfold truncate. destruct (Z.leb_spec (Z.of_nat (String.length text)) maxLength); [|lia].
      split; [auto|lia].
    + rewrite (truncate_long _ _ Hlong). unfold slice_index.
      destruct (Z.ltb_spec (maxLength - 3) 0); lia.
  - unfold truncate.
    destruct (Z.leb_spec (Z.of_nat (String.length text)) maxLength) as [Hfit|Hlong];
      [reflexivity|].
    rewrite slice_prefix. unfold slice_index.
    destruct (Z.leb_spec 3 maxLength), (Z.ltb_spec (maxLength - 3) 0); try lia.
    + f_equal.
      assert (Z.to_nat (maxLength - 3) <= String.length text) by lia.
      f_equal. lia.
    + do 2 f_equal. lia.
Qed.

(** Once the text is cut, cutting again changes nothing. *)
Lemma truncate_idempotent (text : string) (maxLength : Z) :
  (3 <= maxLength)%Z ->
  truncate (truncate text maxLength) maxLength = truncate text maxLength.
Proof.
  intros H3.
  destruct (truncate_respects_bound text maxLength) as [[_ Hle] _].
  specialize (Hle (or_intror H3)).
  unfold truncate at 1.
  destruct (Z.leb_spec (Z.of_nat (String.length (truncate text maxLength))) maxLength);
    [reflexivity|lia].
Qed.

Example truncate_short_bound : truncate "abcdef" 2 = "abcde...".
Proof. reflexivity. Qed.

(** ** chunkText *)

Lemma chunk_loop_stuck (text : string) (maxChunkSize overlap : Z) :
  (0 < overlap)%Z ->
  forall fuel start chunks,
    (start < Z.of_nat (String.length text))%Z ->
    chunk_loop fuel text maxChunkSize overlap start chunks = None.
Proof.
  intros Hov. induction fuel as [|fuel IH]; intros start chunks Hs; [reflexivity|].
  simpl. destruct (Z.ltb_spec start (Z.of_nat (String.length text))); [|lia].
  apply IH. lia.
Qed.

(** X2. With a positive overlap [chunkText] never returns on a non-empty
    text, whatever the chunk size: after a chunk that ends at [stop] the
    loop goes on from [stop - overlap], which is below the length of the
    text again. *)
Theorem chunkText_overlap_never_returns
        (text : string) (maxChunkSize overlap : Z) (fuel : nat) :
  text <> "" -> (0 < overlap)%Z ->
  chunkText fuel text maxChunkSize overlap = None.
Proof.
  intros Htext Hov. unfold chunkText. apply chunk_loop_stuck; [assumption|].
  destruct text; [congruence|]. simpl. lia.
Qed.

Lemma chunkText_overlap_witness :
  ("Gaussian splatting" <> "" /\ (0 < default_overlap)%Z)
  /\ chunkText 1000 "Gaussian splatting" default_maxChunkSize default_overlap = None.
Proof.
  split; [split; [discriminate|reflexivity]|].
  apply (chunkText_overlap_never_returns "Gaussian splatting"
           default_maxChunkSize default_overlap 1000); [discriminate|reflexivity].
Defined.

Lemma slice_inside (text : string) (a b : nat) :
  a <= b -> b <= String.length text ->
  slice text (Z.of_nat a) (Z.of_nat b) = substring a (b - a) text.
Proof.
  intros Hab Hb. unfold slice, slice_index.
  destruct (Z.ltb_spec (Z.of_nat a) 0), (Z.ltb_spec (Z.of_nat b) 0); try lia.
  rewrite !Nat2Z.id, !Nat.min_l by lia. reflexivity.
Qed.

Lemma chunk_loop_partition (text : string) (maxChunkSize : nat) :
  0 < maxChunkSize ->
  forall fuel start chunks,
    start <= String.length text ->
    String.length text - start < fuel ->
    exists more,
      chunk_loop fuel text (Z.of_nat maxChunkSize) 0 (Z.of_nat start) chunks
      = Some (chunks ++ more)
      /\ String.concat "" more = substring start (String.length text - start) text
      /\ Forall (fun c => 0 < String.length c <= maxChunkSize) more.
Proof.
  intros Hmax. induction fuel as [|fuel IH]; intros start chunks Hs Hf; [lia|].
  simpl. destruct (Z.ltb_spec (Z.of_nat start) (Z.of_nat (String.length text))) as [Hlt|Hge].
  - set (stop := Nat.min (start + maxChunkSize) (String.length text)).
    replace (Z.min (Z.of_nat start + Z.of_nat maxChunkSize) (Z.of_nat (String.length text)) - 0)%Z
      with (Z.of_nat stop) by (unfold stop; lia).
    replace (Z.min (Z.of_nat start + Z.of_nat maxChunkSize) (Z.of_nat (String.length text)))
      with (Z.of_nat stop) by (unfold stop; lia).
    assert (start < stop /\ stop <= String.length text) as [Hss Hsl] by (unfold stop; lia).
    destruct (IH stop (chunks ++ [slice text (Z.of_nat start) (Z.of_nat stop)]))
      as (more & Hrun & Hcat & Hall); [lia|lia|].
    exists (slice text (Z.of_nat start) (Z.of_nat stop) :: more).
    rewrite Hrun, <- app_assoc. split; [reflexivity|].
    rewrite slice_inside by lia. split.
    + transitivity (substring start (stop - start) text +:+ String.concat "" more).
      { destruct more; simpl; [|reflexivity]. symmetry. apply append_empty_r. }
      rewrite Hcat.
      replace stop with (start + (stop - start)) at 2 by lia.
      rewrite substring_split. f_equal. lia.
    + constructor; [|assumption].
      rewrite length_substring. unfold stop. lia.
  - exists []. rewrite app_nil_r. split; [reflexivity|].
    split; [|constructor].
    replace (String.length text - start) with 0 by lia.
    rewrite substring_none. reflexivity.
Qed.

(** X3. Without overlap and with a positive chunk size [chunkText] returns
    after at most one turn of the loop per character; its chunks are
    non-empty, at most [maxChunkSize] long, and concatenate to the text. *)
Theorem chunkText_partitions (text : string) (maxChunkSize fuel : nat) :
  0 < maxChunkSize -> String.length text < fuel ->
  exists chunks,
    chunkText fuel text (Z.of_nat maxChunkSize) 0 = Some chunks
    /\ String.concat "" chunks = text
    /\ Forall (fun c => 0 < String.length c <= maxChunkSize) chunks.
Proof.
  intros Hmax Hfuel. unfold chunkText.
  destruct (chunk_loop_partition text maxChunkSize Hmax fuel 0 []) as (more & Hrun & Hcat & Hall);
    [lia|lia|].
  exists more. change (Z.of_nat 0) with 0%Z in Hrun. rewrite Hrun. split; [reflexivity|].
  split; [|assumption].
  rewrite Hcat, Nat.sub_0_r. apply substring_all.
Qed.

Lemma chunkText_partitions_witness :
  (0 < 4 /\ String.length "radiance" < 9)
  /\ exists chunks,
       chunkText 9 "radiance" 4 0 = Some chunks
       /\ String.concat "" chunks = "radiance"
       /\ Forall (fun c => 0 < String.length c <= 4) chunks.
Proof.
  split; [simpl; lia|].
  apply (chunkText_partitions "radiance" 4 9); simpl; lia.
Defined.

Example chunkText_two_chunks : chunkText 9 "radiance" 4 0 = Some ["radi"; "ance"].
Proof. reflexivity. Qed.

(* ===================================================================== *)
(** * utils/helpers.ts: cleanAbstract                                     *)
(* ===================================================================== *)

Lemma newline_is_space c : is_newline c = true -> is_space c = true.
Proof. by_char c. Qed.

Lemma space_not_newline c : Ascii.eqb c " "%char = true -> is_newline c = false.
Proof. by_char c. Qed.

Lemma space_eq c : Ascii.eqb c " "%char = true -> c = " "%char.
Proof. apply Ascii.eqb_eq. Qed.

Lemma replace_spaces_apart s :
  forall b, spaces_apart b (replace_class_runs is_space b s) = true.
Proof.
  induction s as [|c r IH]; intros b; simpl; [reflexivity|].
  destruct (is_space c) eqn:Hc.
  - destruct b; [apply IH|]. simpl. apply IH.
  - simpl. rewrite Hc. apply IH.
Qed.

Lemma spaces_apart_weaken s : spaces_apart true s = true -> spaces_apart false s = true.
Proof.
  destruct s as [|c r]; simpl; [reflexivity|].
  destruct (is_space c); [|tauto]. rewrite andb_false_r. discriminate.
Qed.

Lemma apart_no_newline s :
  forall b b', spaces_apart b s = true -> replace_class_runs is_newline b' s = s.
Proof.
  induction s as [|c r IH]; intros b b'; simpl; [reflexivity|].
  destruct (is_space c) eqn:Hc.
  - intros H. apply andb_prop in H as [H1 H2]. apply andb_prop in H1 as [H1 _].
    rewrite (space_not_newline _ H1), (IH _ _ H2). reflexivity.
  - intros H. destruct (is_newline c) eqn:Hn.
    + rewrite (newline_is_space _ Hn) in Hc. discriminate.
    + rewrite (IH _ _ H). reflexivity.
Qed.

Lemma drop_leading_apart s :
  forall b, spaces_apart b s = true -> spaces_apart false (drop_leading is_space s) = true.
Proof.
  induction s as [|c r IH]; intros b; simpl; [reflexivity|].
  destruct (is_space c) eqn:Hc.
  - intros H. apply andb_prop in H as [_ H]. eauto.
  - simpl. rewrite Hc. tauto.
Qed.

Lemma drop_trailing_apart s :
  forall b, spaces_apart b s = true -> spaces_apart b (drop_trailing is_space s) = true.
Proof.
  induction s as [|c r IH]; intros b; simpl; [reflexivity|].
  intros H.
  destruct (is_space c && is_empty (drop_trailing is_space r)); [reflexivity|].
  simpl. destruct (is_space c); [|eauto].
  apply andb_prop in H as [H1 H2]. rewrite H1. simpl. eauto.
Qed.

Lemma drop_trailing_keeps_start s :
  starts_with_space s = false -> starts_with_space (drop_trailing is_space s) = false.
Proof.
  destruct s as [|c r]; simpl; [reflexivity|]. intros H. rewrite H. simpl. exact H.
Qed.

Lemma drop_trailing_no_space_end s : ends_with_space (drop_trailing is_space s) = false.
Proof.
  induction s as [|c r IH]; simpl; [reflexivity|].
  destruct (is_space c) eqn:Hc; simpl.
  - destruct (is_empty (drop_trailing is_space r)) eqn:He; simpl; [reflexivity|].
    rewrite He. exact IH.
  - destruct (is_empty (drop_trailing is_space r)) eqn:He; [exact Hc|exact IH].
Qed.

Lemma trim_single_spaced s b : spaces_apart b s = true -> single_spaced (trim s) = true.
Proof.
  intros H. unfold single_spaced, trim.
  rewrite (drop_trailing_apart _ _ (drop_leading_apart _ _ H)).
  rewrite drop_trailing_no_space_end.
  rewrite drop_trailing_keeps_start; [reflexivity|].
  pose proof (drop_leading_no_start is_space s) as Hs.
  destruct (drop_leading is_space s); simpl in *; [reflexivity|].
  apply negb_true_iff, Hs.
Qed.

Lemma apart_replace_fixes s :
  forall b, spaces_apart b s = true -> replace_class_runs is_space b s = s.
Proof.
  induction s as [|c r IH]; intros b; simpl; [reflexivity|].
  destruct (is_space c).
  - intros H. apply andb_prop in H as [H1 H2]. apply andb_prop in H1 as [Hs Hb].
    apply negb_true_iff in Hb. subst b.
    rewrite (IH _ H2), (space_eq _ Hs). reflexivity.
  - intros H. rewrite (IH _ H). reflexivity.
Qed.

Lemma drop_leading_space_fixes s :
  starts_with_space s = false -> drop_leading is_space s = s.
Proof. destruct s as [|c r]; simpl; [reflexivity|]. intros ->. reflexivity. Qed.

Lemma drop_trailing_space_fixes s :
  ends_with_space s = false -> drop_trailing is_space s = s.
Proof.
  induction s as [|c r IH]; simpl; [reflexivity|].
  destruct r as [|d r'].
  - simpl. intros ->. reflexivity.
  - intros H. rewrite (IH H). simpl. rewrite andb_false_r. reflexivity.
Qed.

Lemma single_spaced_fixed s : single_spaced s = true -> cleanAbstract s = s.
Proof.
  unfold single_spaced. intros H.
  apply andb_prop in H as [H He]. apply andb_prop in H as [Ha Hs].
  apply negb_true_iff in He, Hs.
  unfold cleanAbstract.
  rewrite (apart_replace_fixes _ _ Ha), (apart_no_newline _ _ false Ha).
  unfold trim. rewrite (drop_leading_space_fixes _ Hs). apply drop_trailing_space_fixes, He.
Qed.

(** X4. [cleanAbstract] yields text whose only white space is single
    spaces between words, with none at either end; it leaves such text
    unchanged, so it is idempotent; and its second [replace], of runs of
    line feeds, never finds anything to replace. *)
Theorem cleanAbstract_single_spaced (abstract : string) :
  single_spaced (cleanAbstract abstract) = true
  /\ cleanAbstract (cleanAbstract abstract) = cleanAbstract abstract
  /\ replace_class_runs is_newline false (replace_class_runs is_space false abstract)
     = replace_class_runs is_space false abstract.
Proof.
  pose proof (replace_spaces_apart abstract false) as Ha.
  assert (Hs : single_spaced (cleanAbstract abstract) = true).
  { unfold cleanAbstract. rewrite (apart_no_newline _ _ false Ha).
    apply (trim_single_spaced _ _ Ha). }
  split; [exact Hs|]. split.
  - apply single_spaced_fixed, Hs.
  - apply (apart_no_newline _ _ false Ha).
Qed.

Example cleanAbstract_example :
  cleanAbstract ("  Radiance   fields" +:+ String (ascii_of_nat 10) (String (ascii_of_nat 10)
                   "render  fast. "))
  = "Radiance fields render fast.".
Proof. reflexivity. Qed.

(* ===================================================================== *)
(** * utils/helpers.ts and ingestion/arxiv.ts: arXiv identifiers          *)
(* ===================================================================== *)

Lemma first_match_none (here : string -> option string) (s : string) :
  first_match here s = None -> forall p t, s = p +:+ t -> here t = None.
Proof.
  induction s as [|c s IH]; simpl.
  - destruct (here "") eqn:H0; [discriminate|]. intros _ [|d p] t; [|discriminate].
    rewrite append_nil. intros <-. exact H0.
  - destruct (here (String c s)) eqn:H0; [discriminate|]. intros H [|d p] t.
    + rewrite append_nil. intros <-. exact H0.
    + rewrite append_cons. intros [= _ Hs]. eapply IH; eauto.
Qed.

Lemma first_match_some (here : string -> option string) (s m : string) :
  first_match here s = Some m -> exists p t, s = p +:+ t /\ here t = Some m.
Proof.
  induction s as [|c s IH]; simpl.
  - destruct (here "") eqn:H0; [|discriminate]. intros [= <-]. exists "", "". auto.
  - destruct (here (String c s)) eqn:H0.
    + intros [= <-]. exists "", (String c s). auto.
    + intros H. destruct (IH H) as (p & t & -> & Ht).
      exists (String c p), t. auto.
Qed.

Lemma first_match_here (here : string -> option string) (s m : string) :
  here s = Some m -> first_match here s = Some m.
Proof. destruct s; simpl; intros ->; reflexivity. Qed.

Lemma first_match_skip (here : string -> option string) (c : ascii) (r : string) :
  here (String c r) = None -> first_match here (String c r) = first_match here r.
Proof. simpl. intros ->. reflexivity. Qed.

Lemma skip_literal_suffix (literal : string) :
  forall s r, skip_literal literal s = Some r -> exists p, s = p +:+ r.
Proof.
  induction literal as [|l literal IH]; intros s r; simpl.
  - intros [= <-]. exists "". reflexivity.
  - destruct s as [|c s]; [discriminate|].
    destruct (Ascii.eqb (lower_char c) (lower_char l)); [|discriminate].
    intros H. destruct (IH _ _ H) as [p ->]. exists (String c p). reflexivity.
Qed.

Lemma append_assoc (a b c : string) : (a +:+ b) +:+ c = a +:+ (b +:+ c).
Proof.
  induction a as [|x a IH]; [reflexivity|]. rewrite !append_cons, IH. reflexivity.
Qed.

Lemma prefixed_pattern_redundant (literal input : string) :
  first_match match_id_here input = None ->
  first_match (match_prefixed_id_here literal) input = None.
Proof.
  intros H. destruct (first_match (match_prefixed_id_here literal) input) as [m|] eqn:Hm;
    [|reflexivity].
  destruct (first_match_some _ _ _ Hm) as (p & t & -> & Ht).
  unfold match_prefixed_id_here in Ht.
  destruct (skip_literal literal t) as [r|] eqn:Hr; [|discriminate]. simpl in Ht.
  destruct (skip_literal_suffix _ _ _ Hr) as [p' ->].
  rewrite (first_match_none _ _ H (p +:+ p') r) in Ht; [discriminate|].
  symmetry. apply append_assoc.
Qed.

Lemma extractArxivId_plain (input : string) :
  extractArxivId input = first_match match_id_here input.
Proof.
  unfold extractArxivId, arxiv_patterns. simpl.
  destruct (first_match match_id_here input) eqn:H; [reflexivity|].
  rewrite !(prefixed_pattern_redundant _ _ H). reflexivity.
Qed.

Lemma substring_0_0 (s : string) : substring 0 0 s = "".
Proof. destruct s; reflexivity. Qed.

Ltac split_ands :=
  repeat match goal with
         | H : _ && _ = true |- _ => apply andb_prop in H as [? ?]
         end.

(** What the pattern captures is an identifier, and a prefix of the text it
    was matched on. *)
Lemma match_id_here_shape (s m : string) :
  match_id_here s = Some m ->
  match_id_here m = Some m /\ exists q, s = m +:+ q.
Proof.
  destruct s as [|a [|b [|c [|d [|dot [|e [|f [|g [|h r]]]]]]]]]; try discriminate.
  unfold match_id_here.
  destruct (is_digit a && is_digit b && is_digit c && is_digit d && is_dot dot
            && is_digit e && is_digit f && is_digit g && is_digit h) eqn:Hd;
    [|discriminate].
  split_ands.
  destruct r as [|i r].
  - intros [= <-]. simpl. split; [|exists ""; reflexivity].
    repeat match goal with H : _ = true |- _ => rewrite H; clear H end. reflexivity.
  - destruct (is_digit i) eqn:Hi; intros [= <-]; simpl; rewrite ?substring_0_0.
    + split; [|exists r; reflexivity].
      repeat match goal with H : _ = true |- _ => rewrite H; clear H end. reflexivity.
    + split; [|exists (String i r); reflexivity].
      repeat match goal with H : _ = true |- _ => rewrite H; clear H end. reflexivity.
Qed.

Lemma match_id_here_digit (c : ascii) (r m : string) :
  match_id_here (String c r) = Some m -> is_digit c = true.
Proof.
  destruct r as [|b [|c' [|d [|dot [|e [|f [|g [|h r]]]]]]]]; try discriminate.
  unfold match_id_here.
  destruct (is_digit c); [reflexivity|]. simpl. discriminate.
Qed.

Lemma is_arxiv_id_match (id : string) : is_arxiv_id id = true <-> match_id_here id = Some id.
Proof.
  unfold is_arxiv_id. destruct (match_id_here id) as [m|]; [|split; discriminate].
  rewrite bool_decide_eq_true. split; congruence.
Qed.

(** An identifier is found again when text without digits stands before it
    and no digit follows it. *)
Lemma match_id_here_extended (id q : string) :
  match_id_here id = Some id -> starts_with_digit q = false ->
  match_id_here (id +:+ q) = Some id.
Proof.
  destruct id as [|a [|b [|c [|d [|dot [|e [|f [|g [|h r]]]]]]]]]; try discriminate.
  unfold match_id_here. rewrite !append_cons.
  destruct (is_digit a && is_digit b && is_digit c && is_digit d && is_dot dot
            && is_digit e && is_digit f && is_digit g && is_digit h) eqn:Hd;
    [|discriminate].
  destruct r as [|i r].
  - intros _ Hq. rewrite append_nil. destruct q as [|x q]; [reflexivity|].
    simpl in Hq. rewrite Hq. simpl. rewrite ?substring_0_0. reflexivity.
  - rewrite append_cons. destruct (is_digit i); simpl; rewrite ?substring_0_0; intros [= E].
    subst r. reflexivity.
Qed.

Lemma first_match_after_prefix (p id q : string) :
  all_chars (fun c => negb (is_digit c)) p = true ->
  match_id_here id = Some id -> starts_with_digit q = false ->
  first_match match_id_here (p +:+ id +:+ q) = Some id.
Proof.
  intros Hp Hid Hq. induction p as [|c p IH].
  - rewrite append_nil. apply first_match_here, match_id_here_extended; assumption.
  - simpl in Hp. apply andb_prop in Hp as [Hc Hp]. apply negb_true_iff in Hc.
    rewrite append_cons.
    destruct (match_id_here (String c (p +:+ id +:+ q))) eqn:Hm.
    + apply match_id_here_digit in Hm. congruence.
    + rewrite (first_match_skip _ _ _ Hm). apply IH, Hp.
Qed.

(** X5. [extractArxivId] yields what the first pattern finds: a text that
    the second or third pattern matches is matched by the first as well.
    The result is an identifier of the form four digits, dot, four or five
    digits that occurs in the input, and is extracted unchanged from
    itself; there is no result exactly when no position of the input
    starts such an identifier. *)
Theorem extractArxivId_first_pattern (input : string) :
  extractArxivId input = first_match match_id_here input
  /\ match extractArxivId input with
     | Some id =>
         is_arxiv_id id = true /\ extractArxivId id = Some id
         /\ exists p q, input = p +:+ id +:+ q
     | None => forall p t, input = p +:+ t -> match_id_here t = None
     end.
Proof.
  split; [apply extractArxivId_plain|].
  rewrite extractArxivId_plain.
  destruct (first_match match_id_here input) as [id|] eqn:H.
  - destruct (first_match_some _ _ _ H) as (p & t & -> & Ht).
    destruct (match_id_here_shape _ _ Ht) as [Hid [q ->]].
    split; [apply is_arxiv_id_match, Hid|]. split; [|exists p, q; reflexivity].
    rewrite extractArxivId_plain. apply first_match_here, Hid.
  - apply first_match_none, H.
Qed.

Example extractArxivId_examples :
  extractArxivId "2308.04079" = Some "2308.04079"
  /\ extractArxivId "arXiv:2308.04079v2" = Some "2308.04079"
  /\ extractArxivId "https://arxiv.org/abs/2308.04079" = Some "2308.04079"
  /\ extractArxivId "hep-th/9901001" = None.
Proof. repeat split. Qed.

Lemma no_digit_in_base : all_chars (fun c => negb (is_digit c)) (pdfBaseUrl +:+ "/") = true.
Proof. reflexivity. Qed.

(** X6. A URL that [getPDFUrl] returns is accepted by [getPDFUrl] and
    returned unchanged: it is the base URL, the identifier extracted from
    the input and the suffix [.pdf], and the same identifier is extracted
    from it again. *)
Theorem getPDFUrl_round_trip (arxivId url : string) :
  getPDFUrl arxivId = inr url ->
  getPDFUrl url = inr url
  /\ exists id, extractArxivId arxivId = Some id
                /\ extractArxivId url = Some id
                /\ url = pdfBaseUrl +:+ "/" +:+ id +:+ ".pdf".
Proof.
  unfold getPDFUrl at 1.
  destruct (extractArxivId_first_pattern arxivId) as [_ H].
  destruct (extractArxivId arxivId) as [id|] eqn:Hid; [|discriminate].
  destruct H as (Hshape & _ & _).
  destruct (truthy id) eqn:Ht; [|discriminate]. intros [= <-].
  assert (Hurl : extractArxivId (pdfBaseUrl +:+ "/" +:+ id +:+ ".pdf") = Some id).
  { rewrite extractArxivId_plain.
    rewrite <- (append_assoc pdfBaseUrl "/").
    apply first_match_after_prefix;
      [apply no_digit_in_base|apply is_arxiv_id_match, Hshape|reflexivity]. }
  split; [|exists id; auto].
  unfold getPDFUrl. rewrite Hurl, Ht. reflexivity.
Qed.

Lemma getPDFUrl_round_trip_witness :
  getPDFUrl "arXiv:2308.04079" = inr "https://arxiv.org/pdf/2308.04079.pdf"
  /\ getPDFUrl "https://arxiv.org/pdf/2308.04079.pdf"
     = inr "https://arxiv.org/pdf/2308.04079.pdf".
Proof.
  split; [reflexivity|].
  apply (getPDFUrl_round_trip "arXiv:2308.04079" "https://arxiv.org/pdf/2308.04079.pdf").
  reflexivity.
Defined.

Example getPDFUrl_rejects_old_identifiers :
  getPDFUrl "hep-th/9901001" = inl (JsError "Invalid arXiv ID: hep-th/9901001").
Proof. reflexivity. Qed.

(* ===================================================================== *)
(** * utils/helpers.ts: retryWithBackoff                                  *)
(* ===================================================================== *)

Lemma retry_from_success {A : Type} (fn : M A) (later : nat) (st st' : State) (a : A) :
  fn st = (Ok a, st') -> retry_from fn (S later) st = (Ok a, st').
Proof. intros H. simpl. unfold try_catch. rewrite H. reflexivity. Qed.

Lemma retry_from_failure {A : Type} (fn : M A) (later : nat) (st st' : State) (e : Exn) :
  fn st = (Throw e, st') ->
  retry_from fn (S (S later)) st = retry_from fn (S later) st'.
Proof. intros H. cbn [retry_from]. unfold try_catch at 1. rewrite H. reflexivity. Qed.

Lemma retry_from_exhausted {A : Type} (fn : M A) (count : nat) (st st' : State) (e : Exn) :
  fails_in_a_row fn count st e st' -> retry_from fn count st = (Throw e, st').
Proof.
  induction 1 as [st e st' H|count st e0 st0 e st' H Hrest IH].
  - simpl. unfold try_catch. rewrite H. reflexivity.
  - destruct count as [|count]; [inversion Hrest|].
    rewrite (retry_from_failure _ _ _ _ _ H). exact IH.
Qed.

Lemma retry_from_recovers {A : Type} (fn : M A) (count : nat) (st st' st'' : State)
      (e : Exn) (a : A) :
  fails_in_a_row fn count st e st' -> fn st' = (Ok a, st'') ->
  forall spare, retry_from fn (S (count + spare)) st = (Ok a, st'').
Proof.
  intros Hfail Hok spare.
  induction Hfail as [st e st' H|count st e0 st0 e st' H Hrest IH].
  - rewrite (retry_from_failure _ _ _ _ _ H). apply retry_from_success, Hok.
  - change (S (S count + spare)) with (S (S (count + spare))).
    rewrite (retry_from_failure _ _ _ _ _ H). apply IH, Hok.
Qed.

(** X7. [retryWithBackoff] returns the result of the first call of [fn]
    that succeeds, provided it is among the first [maxAttempts] calls, and
    calls [fn] no more after it; when [maxAttempts] calls in a row fail it
    throws the error of the last of them; with [maxAttempts] zero it
    throws [Retry failed] without calling [fn]. *)
Theorem retryWithBackoff_attempts {A : Type} (fn : M A) (maxAttempts : nat) (st : State) :
  (maxAttempts = 0 ->
   retryWithBackoff fn maxAttempts st = (Throw (JsError "Retry failed"), st))
  /\ (forall a st', 0 < maxAttempts -> fn st = (Ok a, st') ->
        retryWithBackoff fn maxAttempts st = (Ok a, st'))
  /\ (forall count e st' a st'',
        fails_in_a_row fn count st e st' -> count < maxAttempts ->
        fn st' = (Ok a, st'') ->
        retryWithBackoff fn maxAttempts st = (Ok a, st''))
  /\ (forall e st',
        fails_in_a_row fn maxAttempts st e st' ->
        retryWithBackoff fn maxAttempts st = (Throw e, st')).
Proof.
  unfold retryWithBackoff. repeat split.
  - intros ->. reflexivity.
  - intros a st' Hpos H. destruct maxAttempts; [lia|]. apply retry_from_success, H.
  - intros count e st' a st'' Hfail Hlt Hok.
    replace maxAttempts with (S (count + (maxAttempts - S count))) by lia.
    eapply retry_from_recovers; eauto.
  - intros e st'. apply retry_from_exhausted.
Qed.

Lemma flaky_call_fails_twice :
  fails_in_a_row flaky_call 2 blank_state LlmExn (tick_state (tick_state blank_state)).
Proof. eapply fails_again; [reflexivity|]. apply fails_once. reflexivity. Qed.

Lemma retryWithBackoff_attempts_witness :
  retryWithBackoff flaky_call 3 blank_state
  = (Ok 2, tick_state (tick_state (tick_state blank_state)))
  /\ retryWithBackoff flaky_call 2 blank_state
     = (Throw LlmExn, tick_state (tick_state blank_state)).
Proof.
  split.
  - destruct (retryWithBackoff_attempts flaky_call 3 blank_state) as (_ & _ & H & _).
    apply (H 2 LlmExn (tick_state (tick_state blank_state)));
      [apply flaky_call_fails_twice|lia|reflexivity].
  - destruct (retryWithBackoff_attempts flaky_call 2 blank_state) as (_ & _ & _ & H).
    apply H, flaky_call_fails_twice.
Defined.

(* ===================================================================== *)
(** * utils/helpers.ts: calculateSimilarity and areSimilarEntities        *)
(* ===================================================================== *)

Section Matrix.

Variables s1 s2 : string.

Local Abbreviation n1 := (String.length s1).
Local Abbreviation n2 := (String.length s2).
Local Abbreviation dist := (edit_distance s1 s2).

Lemma edit_distance_step i j :
  dist (S i) (S j)
  = if decide (char_at s1 i = char_at s2 j) then dist i j
    else Nat.min (Nat.min (dist i j + 1) (dist (S i) j + 1)) (dist i (S j) + 1).
Proof. reflexivity. Qed.

Lemma edit_distance_left i : dist i 0 = i.
Proof. destruct i; reflexivity. Qed.

Lemma distance_row_length i j : length (distance_row s1 s2 i j) = j.
Proof. unfold distance_row. rewrite length_fmap, length_seq. reflexivity. Qed.

Lemma distance_row_lookup i j k :
  k < j -> distance_row s1 s2 i j !! k = Some (dist i k).
Proof.
  intros H. unfold distance_row. rewrite list_lookup_fmap, lookup_seq_lt by exact H.
  reflexivity.
Qed.

Lemma distance_row_snoc i j :
  distance_row s1 s2 i (S j) = distance_row s1 s2 i j ++ [dist i j].
Proof. unfold distance_row. rewrite seq_S, fmap_app. reflexivity. Qed.

Lemma matrix_get_above i j m r k :
  filled_to s1 s2 i j m -> r < i -> k <= n2 -> matrix_get m r k = dist r k.
Proof.
  intros F Hr Hk. unfold matrix_get. rewrite (filled_above _ _ _ _ _ F r Hr). simpl.
  rewrite distance_row_lookup by lia. reflexivity.
Qed.

Lemma matrix_get_here i j m k :
  filled_to s1 s2 i j m -> k < j -> matrix_get m i k = dist i k.
Proof.
  intros F Hk. unfold matrix_get. rewrite (filled_here _ _ _ _ _ F). simpl.
  rewrite distance_row_lookup by lia. reflexivity.
Qed.

(** Writing the next cell of the row under construction. *)
Lemma matrix_set_next i j m :
  filled_to s1 s2 i j m -> i <= n1 ->
  filled_to s1 s2 i (S j) (matrix_set m i j (dist i j)).
Proof.
  intros F Hi. unfold matrix_set. rewrite (filled_here _ _ _ _ _ F).
  unfold array_set. rewrite distance_row_length, Nat.ltb_irrefl, Nat.sub_diag. simpl.
  rewrite <- distance_row_snoc.
  pose proof (filled_rows _ _ _ _ _ F) as Hlen.
  split.
  - rewrite length_insert. exact Hlen.
  - intros r Hr. rewrite list_lookup_insert_ne by lia. apply (filled_above _ _ _ _ _ F), Hr.
  - apply list_lookup_insert_eq. lia.
  - intros r Hr Hr'. rewrite list_lookup_insert_ne by lia.
    apply (filled_below _ _ _ _ _ F); assumption.
Qed.

Lemma levenshtein_cell_next i j m :
  filled_to s1 s2 (S i) (S j) m -> S i <= n1 -> S j <= n2 ->
  filled_to s1 s2 (S i) (S (S j)) (levenshtein_cell s1 s2 m (S i) (S j)).
Proof.
  intros F Hi Hj. unfold levenshtein_cell. simpl. rewrite !Nat.sub_0_r.
  rewrite (matrix_get_above _ _ _ i j F), (matrix_get_above _ _ _ i (S j) F),
    (matrix_get_here _ _ _ j F) by lia.
  pose proof (matrix_set_next _ _ _ F Hi) as Hnext.
  rewrite edit_distance_step in Hnext.
  destruct (decide (char_at s1 i = char_at s2 j)); exact Hnext.
Qed.

Lemma fill_row i m :
  S i <= n1 ->
  forall count j,
    filled_to s1 s2 (S i) (S j) m -> j + count <= n2 ->
    filled_to s1 s2 (S i) (S (j + count))
      (foldl (fun m' j' => levenshtein_cell s1 s2 m' (S i) j') m (seq (S j) count)).
Proof.
  intros Hi count. revert m. induction count as [|count IH]; intros m j F Hj.
  - rewrite Nat.add_0_r. exact F.
  - simpl. replace (j + S count) with (S j + count) by lia.
    apply IH; [|lia]. apply levenshtein_cell_next; [exact F|exact Hi|lia].
Qed.

(** A complete row is the start of the next one. *)
Lemma next_row i m :
  filled_to s1 s2 i (S n2) m -> S i <= n1 -> filled_to s1 s2 (S i) 1 m.
Proof.
  intros F Hi. split.
  - apply (filled_rows _ _ _ _ _ F).
  - intros r Hr. destruct (decide (r = i)) as [->|Hne].
    + apply (filled_here _ _ _ _ _ F).
    + apply (filled_above _ _ _ _ _ F). lia.
  - rewrite (filled_below _ _ _ _ _ F (S i)) by lia. reflexivity.
  - intros r Hr Hr'. apply (filled_below _ _ _ _ _ F); lia.
Qed.

Lemma fill_rows m :
  forall count i,
    filled_to s1 s2 i (S n2) m -> i + count <= n1 ->
    filled_to s1 s2 (i + count) (S n2)
      (foldl (fun m' i' =>
                foldl (fun m'' j => levenshtein_cell s1 s2 m'' i' j) m' (seq 1 n2))
             m (seq (S i) count)).
Proof.
  intros count. revert m. induction count as [|count IH]; intros m i F Hi.
  - rewrite Nat.add_0_r. exact F.
  - simpl. replace (i + S count) with (S i + count) by lia.
    apply IH; [|lia].
    apply (fill_row i m ltac:(lia) n2 0); [|lia].
    apply next_row; [exact F|lia].
Qed.

Lemma first_cells : filled_to s1 s2 0 1 ((fun i => [i]) <$> seq 0 (S n1)).
Proof.
  split.
  - rewrite length_fmap, length_seq. reflexivity.
  - intros r Hr. lia.
  - reflexivity.
  - intros r Hr Hr'. rewrite list_lookup_fmap, lookup_seq_lt by lia. reflexivity.
Qed.

Lemma fill_first_row m :
  forall count j,
    filled_to s1 s2 0 (S j) m ->
    filled_to s1 s2 0 (S (j + count))
      (foldl (fun m' j' => matrix_set m' 0 j' j') m (seq (S j) count)).
Proof.
  intros count. revert m. induction count as [|count IH]; intros m j F.
  - rewrite Nat.add_0_r. exact F.
  - simpl. replace (j + S count) with (S j + count) by lia.
    apply IH. apply (matrix_set_next 0 (S j) m F). lia.
Qed.

Lemma first_row :
  filled_to s1 s2 0 (S n2)
    (foldl (fun m j => matrix_set m 0 j j) ((fun i => [i]) <$> seq 0 (S n1)) (seq 0 (S n2))).
Proof.
  change (seq 0 (S n2)) with (0 :: seq 1 n2).
  cbn [foldl].
  replace (matrix_set ((fun i => [i]) <$> seq 0 (S n1)) 0 0 0)
    with ((fun i => [i]) <$> seq 0 (S n1)) by reflexivity.
  apply (fill_first_row _ n2 0), first_cells.
Qed.

(** The nested loops leave the value of the recurrence in the last cell. *)
Lemma levenshtein_matrix_last :
  matrix_get (levenshtein_matrix s1 s2) n1 n2 = dist n1 n2.
Proof.
  unfold levenshtein_matrix.
  pose proof (fill_rows _ n1 0 first_row ltac:(lia)) as F. simpl in F.
  apply (matrix_get_here _ _ _ n2 F). lia.
Qed.

End Matrix.

(** ** What the recurrence yields *)

Lemma edit_distance_unfold s1 s2 i j :
  edit_distance s1 s2 (S i) (S j)
  = if decide (char_at s1 i = char_at s2 j) then edit_distance s1 s2 i j
    else Nat.min (Nat.min (edit_distance s1 s2 i j + 1) (edit_distance s1 s2 (S i) j + 1))
                 (edit_distance s1 s2 i (S j) + 1).
Proof. reflexivity. Qed.

Lemma edit_distance_top s1 s2 j : edit_distance s1 s2 0 j = j.
Proof. reflexivity. Qed.

Lemma edit_distance_side s1 s2 i : edit_distance s1 s2 i 0 = i.
Proof. destruct i; reflexivity. Qed.

Lemma edit_distance_same s i : edit_distance s s i i = 0.
Proof.
  induction i as [|i IH]; [reflexivity|].
  rewrite edit_distance_unfold. destruct (decide (char_at s i = char_at s i)); congruence.
Qed.

Lemma edit_distance_symmetric s1 s2 i :
  forall j, edit_distance s1 s2 i j = edit_distance s2 s1 j i.
Proof.
  induction i as [|i IHi]; intros j.
  - rewrite edit_distance_top, edit_distance_side. reflexivity.
  - induction j as [|j IHj].
    + rewrite edit_distance_top, edit_distance_side. reflexivity.
    + rewrite !edit_distance_unfold, IHj, !IHi.
      destruct (decide (char_at s1 i = char_at s2 j)), (decide (char_at s2 j = char_at s1 i));
        try congruence.
      lia.
Qed.

Lemma edit_distance_at_most s1 s2 i :
  forall j, edit_distance s1 s2 i j <= Nat.max i j.
Proof.
  induction i as [|i IHi]; intros j.
  - rewrite edit_distance_top. lia.
  - induction j as [|j IHj].
    + rewrite edit_distance_side. lia.
    + rewrite edit_distance_unfold. specialize (IHi j).
      destruct (decide (char_at s1 i = char_at s2 j)); lia.
Qed.

Lemma edit_distance_at_least s1 s2 i :
  forall j, Nat.max i j - Nat.min i j <= edit_distance s1 s2 i j.
Proof.
  induction i as [|i IHi]; intros j.
  - rewrite edit_distance_top. lia.
  - induction j as [|j IHj].
    + rewrite edit_distance_side. lia.
    + rewrite edit_distance_unfold. pose proof (IHi j). pose proof (IHi (S j)).
      destruct (decide (char_at s1 i = char_at s2 j)); lia.
Qed.

Lemma edit_distance_zero s1 s2 i :
  forall j, edit_distance s1 s2 i j = 0 ->
            i = j /\ forall k, k < i -> char_at s1 k = char_at s2 k.
Proof.
  induction i as [|i IHi]; intros j.
  - rewrite edit_distance_top. intros ->. split; [reflexivity|lia].
  - destruct j as [|j].
    + rewrite edit_distance_side. discriminate.
    + rewrite edit_distance_unfold.
      destruct (decide (char_at s1 i = char_at s2 j)) as [E|_]; [|lia].
      intros H. destruct (IHi _ H) as [-> Hk]. split; [reflexivity|].
      intros k Hlt. destruct (decide (k = j)) as [->|]; [exact E|apply Hk; lia].
Qed.

Lemma get_all_equal (s1 : string) :
  forall s2, String.length s1 = String.length s2 ->
             (forall k, k < String.length s1 -> char_at s1 k = char_at s2 k) ->
             s1 = s2.
Proof.
  induction s1 as [|c s1 IH]; intros [|d s2] Hlen Hget; try discriminate; [reflexivity|].
  simpl in Hlen. f_equal.
  - specialize (Hget 0 ltac:(simpl; lia)). simpl in Hget. congruence.
  - apply IH; [lia|]. intros k Hk. apply (Hget (S k)). simpl. lia.
Qed.

Lemma edit_distance_zero_iff s1 s2 :
  edit_distance s1 s2 (String.length s1) (String.length s2) = 0 <-> s1 = s2.
Proof.
  split.
  - intros H. destruct (edit_distance_zero _ _ _ _ H) as [Hlen Hk].
    apply get_all_equal; assumption.
  - intros <-. apply edit_distance_same.
Qed.

Lemma toLowerCase_length s : String.length (toLowerCase s) = String.length s.
Proof. induction s as [|c s IH]; simpl; congruence. Qed.

Lemma toLowerCase_empty s : toLowerCase s = "" <-> s = "".
Proof. destruct s; simpl; split; congruence. Qed.

(** The similarity in closed form. *)
Lemma calculateSimilarity_value str1 str2 :
  calculateSimilarity str1 str2
  = js_one_minus
      (js_div (edit_distance (toLowerCase str1) (toLowerCase str2)
                             (String.length str1) (String.length str2))
              (Nat.max (String.length str1) (String.length str2))).
Proof.
  unfold calculateSimilarity. cbv zeta.
  rewrite levenshtein_matrix_last, !toLowerCase_length. reflexivity.
Qed.

Lemma similarity_finite (d m : nat) :
  0 < m -> js_one_minus (js_div d m) = Fin (1 - (Z.of_nat d # Pos.of_nat m))%Q.
Proof. destruct m; [lia|]. reflexivity. Qed.

Lemma pos_of_nat_Z (m : nat) : 0 < m -> Z.pos (Pos.of_nat m) = Z.of_nat m.
Proof. lia. Qed.

(** X8. Unless both strings are empty, [calculateSimilarity] is a finite
    number between 0 and 1, and it is 1 exactly when the two strings are
    equal up to letter case.  It does not depend on the order of its
    arguments. *)
Theorem calculateSimilarity_range (str1 str2 : string) :
  calculateSimilarity str1 str2 = calculateSimilarity str2 str1
  /\ (str1 = "" /\ str2 = ""
      \/ exists q, calculateSimilarity str1 str2 = Fin q
                   /\ (0 <= q)%Q /\ (q <= 1)%Q
                   /\ (q == 1 <-> toLowerCase str1 = toLowerCase str2)%Q).
Proof.
  split.
  - rewrite !calculateSimilarity_value, edit_distance_symmetric, Nat.max_comm. reflexivity.
  - destruct (decide (Nat.max (String.length str1) (String.length str2) = 0)) as [Hz|Hnz].
    { left. destruct str1, str2; simpl in Hz; try lia. auto. }
    right. rewrite calculateSimilarity_value.
    set (d := edit_distance _ _ _ _).
    set (m := Nat.max _ _) in *.
    assert (Hm : 0 < m) by lia.
    assert (Hd : d <= m) by apply edit_distance_at_most.
    rewrite (similarity_finite d m Hm).
    eexists. split; [reflexivity|].
    pose proof (pos_of_nat_Z m Hm) as Hp.
    unfold Qle, Qeq, Qminus, Qplus, Qopp. simpl. rewrite ?Pos.mul_1_l, ?Hp.
    split; [clearbody d m; nia|]. split; [clearbody d m; nia|].
    rewrite <- (edit_distance_zero_iff (toLowerCase str1) (toLowerCase str2)),
      !toLowerCase_length.
    fold d. clearbody d m. nia.
Qed.

(** X9. A name is similar to itself, and to any name that differs from it
    in letter case only, for every threshold up to 1, unless it is empty;
    and under the default threshold of 0.85 two names are similar only if
    the lengths of their lower-cased forms, which are what is compared,
    differ by at most 15 percent of the longer one. *)
Theorem areSimilarEntities_reflexive (name1 name2 : string) :
  (forall t, name1 <> "" -> toLowerCase name1 = toLowerCase name2 -> (t <= 1)%Q ->
             areSimilarEntities name1 name2 (Fin t) = true)
  /\ (areSimilarEntities name1 name2 default_threshold = true ->
      20 * (Nat.max (String.length (toLowerCase name1)) (String.length (toLowerCase name2))
            - Nat.min (String.length (toLowerCase name1))
                      (String.length (toLowerCase name2)))
      <= 3 * Nat.max (String.length (toLowerCase name1))
                     (String.length (toLowerCase name2))).
Proof.
  rewrite !toLowerCase_length.
  unfold areSimilarEntities. rewrite calculateSimilarity_value.
  pose proof (edit_distance_at_least (toLowerCase name1) (toLowerCase name2)
                (String.length name1) (String.length name2)) as Hleast.
  set (d := edit_distance _ _ _ _) in *.
  set (m := Nat.max _ _) in *.
  split.
  - intros t Hne Heq Ht.
    assert (Hm : 0 < m) by (destruct name1; [congruence|]; subst m; simpl; lia).
    assert (Hd : d = 0).
    { subst d. rewrite <- (toLowerCase_length name1), <- (toLowerCase_length name2).
      apply edit_distance_zero_iff, Heq. }
    rewrite (similarity_finite d m Hm), Hd. simpl.
    apply Qle_bool_iff. pose proof (pos_of_nat_Z m Hm) as Hp.
    revert Ht. unfold Qle, Qminus, Qplus, Qopp. simpl. rewrite ?Pos.mul_1_l, ?Hp.
    clearbody d m. nia.
  - destruct (decide (m = 0)) as [Hz|Hnz].
    { rewrite Hz. destruct d; simpl; discriminate. }
    assert (Hm : 0 < m) by lia.
    rewrite (similarity_finite d m Hm). unfold default_threshold. simpl.
    intros H. apply Qle_bool_iff in H. pose proof (pos_of_nat_Z m Hm) as Hp.
    revert H. unfold Qle, Qminus, Qplus, Qopp. simpl. rewrite ?Pos.mul_1_l, ?Hp.
    revert Hleast. clearbody d m. generalize (String.length name1), (String.length name2).
    intros n1 n2. nia.
Qed.

Lemma areSimilarEntities_reflexive_witness :
  areSimilarEntities "NeRF" "nerf" default_threshold = true
  /\ areSimilarEntities "Gaussian splat" "Gaussian Splats" default_threshold = true
  /\ 20 * (15 - 14) <= 3 * 15.
Proof.
  split; [|split].
  - destruct (areSimilarEntities_reflexive "NeRF" "nerf") as [H _].
    apply (H (17 # 20)%Q); [discriminate|reflexivity|].
    unfold Qle. simpl. lia.
  - reflexivity.
  - destruct (areSimilarEntities_reflexive "Gaussian splat" "Gaussian Splats") as [_ H].
    apply H. reflexivity.
Defined.

Example short_names_need_equality :
  areSimilarEntities "NeRF" "NeRV" default_threshold = false
  /\ areSimilarEntities "Gaussian splat" "Gaussian Splats" default_threshold = true.
Proof. split; reflexivity. Qed.

(* ===================================================================== *)
(** * utils/helpers.ts: names that normalize to the empty key             *)
(* ===================================================================== *)

Lemma space_not_key c : is_space c = true -> is_key_char c = false.
Proof. by_char c. Qed.

Lemma no_key_drop_leading (p : ascii -> bool) (s : string) :
  (forall c, p c = true -> is_key_char c = false) ->
  no_key_char (drop_leading p s) = no_key_char s.
Proof.
  intros Hp. induction s as [|c r IH]; simpl; [reflexivity|].
  destruct (p c) eqn:Hc; [|reflexivity].
  rewrite IH. unfold no_key_char. simpl. rewrite (Hp _ Hc). reflexivity.
Qed.

Lemma no_key_drop_trailing (p : ascii -> bool) (s : string) :
  (forall c, p c = true -> is_key_char c = false) ->
  no_key_char (drop_trailing p s) = no_key_char s.
Proof.
  intros Hp. induction s as [|c r IH]; simpl; [reflexivity|].
  unfold no_key_char in *. simpl.
  destruct (p c) eqn:Hc; simpl.
  - rewrite (Hp _ Hc). simpl.
    destruct (drop_trailing p r) eqn:Hr; simpl in *; [rewrite <- IH; reflexivity|].
    rewrite (Hp _ Hc). simpl. exact IH.
  - rewrite IH. reflexivity.
Qed.

Lemma no_key_replace_runs (s : string) :
  forall b, no_key_char (replace_runs b s) = no_key_char s.
Proof.
  unfold no_key_char. induction s as [|c r IH]; intros b; simpl; [reflexivity|].
  destruct (is_key_char c) eqn:Hc; simpl.
  - rewrite Hc. reflexivity.
  - destruct b; simpl; rewrite IH; reflexivity.
Qed.

Lemma no_key_normalized (s : string) :
  no_key_char (normalizeEntityName s) = no_key_char (toLowerCase s).
Proof.
  unfold normalizeEntityName, strip_hyphens, trim.
  rewrite (no_key_drop_trailing _ _ hyphen_not_key), (no_key_drop_leading _ _ hyphen_not_key),
    no_key_replace_runs,
    (no_key_drop_trailing _ _ space_not_key), (no_key_drop_leading _ _ space_not_key).
  reflexivity.
Qed.

(** X10. [normalizeEntityName] yields the empty key exactly for the names
    whose lower-cased form contains no character of [a-z0-9], whatever
    else they contain; all such names share one key. *)
Theorem normalizeEntityName_empty_key (name : string) :
  is_empty (normalizeEntityName name) = no_key_char (toLowerCase name).
Proof.
  rewrite <- no_key_normalized.
  destruct (strip_hyphens_shape (replace_runs false (trim (toLowerCase name))) false
              (replace_runs_shaped _ _)) as (Hk & Hs & _).
  fold (normalizeEntityName name) in Hk, Hs.
  destruct (normalizeEntityName name) as [|c r]; [reflexivity|].
  simpl in *. unfold no_key_char. simpl.
  destruct (is_key_char c); [reflexivity|].
  rewrite Hs in Hk. discriminate.
Qed.

Example symbols_share_the_empty_key :
  normalizeEntityName "+++" = "" /\ normalizeEntityName " (?) " = ""
  /\ normalizeEntityName "C++" = "c".
Proof. repeat split. Qed.

(* ===================================================================== *)
(** * agents/EntityExtractorAgent.ts: the extraction as a whole           *)
(* ===================================================================== *)

(** Lookups end normally whatever the other workers do. *)
Lemma db_read_total {A : Type} w (q : Store -> A) st :
  exists a st', db_read w q st = (Ok a, st').
Proof. unfold db_read, db_call. eexists _, _. reflexivity. Qed.

Lemma disambiguate_concepts_total w l :
  forall st, exists r st', disambiguate_concepts w l st = (Ok r, st').
Proof.
  induction l as [|c l IH]; intros st; simpl; [by eexists _, _|].
  unfold bind, getConceptByName.
  destruct (db_read_total w (fun s => single (select_eq concept_normalized_name
              (normalizeEntityName (ec_name c)) (concepts s))) st) as (a & st1 & ->).
  destruct (IH st1) as (r & st2 & ->). by eexists _, _.
Qed.

Lemma disambiguate_methods_total w l :
  forall st, exists r st', disambiguate_methods w l st = (Ok r, st').
Proof.
  induction l as [|c l IH]; intros st; simpl; [by eexists _, _|].
  unfold bind, getMethodByName.
  destruct (db_read_total w (fun s => single (select_eq method_normalized_name
              (normalizeEntityName (em_name c)) (methods s))) st) as (a & st1 & ->).
  destruct (IH st1) as (r & st2 & ->). by eexists _, _.
Qed.

Lemma disambiguate_datasets_total w l :
  forall st, exists r st', disambiguate_datasets w l st = (Ok r, st').
Proof.
  induction l as [|c l IH]; intros st; simpl; [by eexists _, _|].
  unfold bind, getDatasetByName.
  destruct (db_read_total w (fun s => single (select_eq dataset_name
              (ed_name c) (datasets s))) st) as (a & st1 & ->).
  destruct (IH st1) as (r & st2 & ->). by eexists _, _.
Qed.

Lemma disambiguateEntities_total w e st :
  exists r st', disambiguateEntities w e st = (Ok r, st').
Proof.
  unfold disambiguateEntities, bind at 1, agent_log, write_log, try_catch.
  set (st0 := {| st_store := _; st_tick := _; st_log := _ |}).
  unfold bind at 1.
  destruct (disambiguate_concepts_total w (ee_concepts e) st0) as (r1 & st1 & ->).
  unfold bind at 1.
  destruct (disambiguate_methods_total w (ee_methods e) st1) as (r2 & st2 & ->).
  unfold bind at 1.
  destruct (disambiguate_datasets_total w (ee_datasets e) st2) as (r3 & st3 & ->).
  by eexists _, _.
Qed.

Lemma extractPass1_total w input st :
  exists r st', extractPass1 w input st = (Ok r, st').
Proof.
  unfold extractPass1, bind, agent_log, write_log. simpl.
  destruct (llm_extract w (st_tick st) input); by eexists _, _.
Qed.

Lemma extract_total w input st :
  exists validated st', extract w input st = (Ok validated, st').
Proof.
  unfold extract, bind at 1, agent_log at 1, write_log at 1.
  set (st0 := {| st_store := _; st_tick := _; st_log := _ |}).
  destruct (extractPass1_total w input st0) as (e1 & st1 & Hrun1).
  destruct (disambiguateEntities_total w e1 st1) as (e2 & st2 & Hrun2).
  destruct (validateAndScore_reads e2 st2) as (e3 & st3 & Hrun3 & _).
  destruct (storeEntities_total w (in_paperId input) e3 st3) as [st4 Hrun4].
  exists e3. eexists.
  unfold try_catch, bind. rewrite Hrun1, Hrun2, Hrun3, Hrun4. reflexivity.
Qed.

(** X11. On an input that has its required fields, and with answers of the
    language model of the declared shape, the extraction never throws: in
    every world, whatever the language model and the database answer and
    whatever other workers write, it returns a collection of entities.
    When the language model fails, that collection is empty, the failure
    is logged, and the run makes no call to the database, so the store is
    exactly as it was. *)
Theorem extract_never_throws (w : World) (input : ExtractInput) (st : State) :
  (exists validated st', extract w input st = (Ok validated, st'))
  /\ (llm_extract w (st_tick st) input = None ->
      exists st',
        extract w input st
        = (Ok {| ee_concepts := []; ee_methods := []; ee_datasets := []; ee_metrics := [] |},
           st')
        /\ st_store st' = st_store st
        /\ st_tick st' = S (st_tick st)
        /\ {| log_level := error;
              log_message := "[EntityExtractorAgent] LLM extraction failed" |} ∈ st_log st').
Proof.
  split; [apply extract_total|].
  intros Hllm. eexists.
  unfold extract, extractPass1, disambiguateEntities, validateAndScore, storeEntities.
  unfold try_catch, bind, ret, agent_log, agent_logError, write_log. simpl.
  rewrite Hllm. simpl. split; [reflexivity|]. split; [reflexivity|]. split; [reflexivity|].
  cbn [st_log]. rewrite !elem_of_app, !list_elem_of_singleton.
  do 6 left. right. reflexivity.
Qed.

Lemma extract_never_throws_witness :
  exists st',
    extract quiet_world seed_input two_papers
    = (Ok {| ee_concepts := []; ee_methods := []; ee_datasets := []; ee_metrics := [] |}, st')
    /\ st_store st' = st_store two_papers.
Proof.
  destruct (extract_never_throws quiet_world seed_input two_papers) as [_ H].
  destruct (H eq_refl) as (st' & Hrun & Hstore & _).
  exists st'. split; assumption.
Defined.

(* ===================================================================== *)
(** * database/queries.ts: what is inserted is found                      *)
(* ===================================================================== *)

Lemma select_eq_app {A : Type} (col : A -> string) (v : string) (l1 l2 : list A) :
  select_eq col v (l1 ++ l2) = select_eq col v l1 ++ select_eq col v l2.
Proof. unfold select_eq. apply filter_app. Qed.

Lemma select_eq_absent {A : Type} (col : A -> string) (v : string) (l : list A) :
  v ∉ col <$> l -> select_eq col v l = [].
Proof.
  intros H. unfold select_eq. induction l as [|x l IH]; [reflexivity|].
  rewrite filter_cons. destruct (decide (col x = v)) as [E|_].
  - exfalso. apply H. rewrite fmap_cons, E. left.
  - apply IH. intros Hin. apply H. rewrite fmap_cons. by right.
Qed.

Lemma select_eq_one {A : Type} (col : A -> string) (v : string) (x : A) :
  col x = v -> select_eq col v [x] = [x].
Proof.
  intros E. unfold select_eq. rewrite filter_cons. destruct (decide (col x = v)); [|done].
  reflexivity.
Qed.

Lemma select_opt_eq_app {A : Type} (col : A -> option string) (v : string) (l1 l2 : list A) :
  select_opt_eq col v (l1 ++ l2) = select_opt_eq col v l1 ++ select_opt_eq col v l2.
Proof. unfold select_opt_eq. apply filter_app. Qed.

Lemma select_opt_eq_absent {A : Type} (col : A -> option string) (v : string) (l : list A) :
  Some v ∉ col <$> l -> select_opt_eq col v l = [].
Proof.
  intros H. unfold select_opt_eq. induction l as [|x l IH]; [reflexivity|].
  rewrite filter_cons. destruct (decide (col x = Some v)) as [E|_].
  - exfalso. apply H. rewrite fmap_cons, E. left.
  - apply IH. intros Hin. apply H. rewrite fmap_cons. by right.
Qed.

(** X12. In a world without other writers, a concept, method or dataset
    that was inserted is what the lookup by its key returns next, and a
    paper inserted with an arXiv identifier is what the lookup by that
    identifier returns: the insert was accepted only because no row had
    the key, so exactly one row has it afterwards. *)
Theorem inserted_is_found (w : World) (st : State) :
  quiet w ->
  (forall name key description category paper confidence row st',
     insertConcept w name key description category paper confidence st = (Ok row, st') ->
     getConceptByName w key st' = (Ok (Some row), tick_state st'))
  /\ (forall name key description complexity paper row st',
        insertMethod w name key description complexity paper st = (Ok row, st') ->
        getMethodByName w key st' = (Ok (Some row), tick_state st'))
  /\ (forall name description url paper row st',
        insertDataset w name description url paper st = (Ok row, st') ->
        getDatasetByName w name st' = (Ok (Some row), tick_state st'))
  /\ (forall title arxivId ssId abstract row st',
        insertPaper w title (Some arxivId) ssId abstract st = (Ok row, st') ->
        getPaperByArxivId w arxivId st' = (Ok (Some row), tick_state st')).
Proof.
  intros Hq. repeat split.
  - intros name key description category paper confidence row st'.
    unfold insertConcept, getConceptByName, db_read, db_call, bind, data_or_throw.
    rewrite Hq. unfold sql_insert_concept.
    repeat (match goal with |- context [if ?b then _ else _] => destruct b eqn:? end;
            simpl; try discriminate).
    intros [= <- <-]. simpl. rewrite !Hq. simpl. rewrite select_eq_app, select_eq_absent.
    + rewrite (select_eq_one concept_normalized_name) by reflexivity. reflexivity.
    + by apply (bool_decide_eq_false_1 _).
  - intros name key description complexity paper row st'.
    unfold insertMethod, getMethodByName, db_read, db_call, bind, data_or_throw.
    rewrite Hq. unfold sql_insert_method.
    repeat (match goal with |- context [if ?b then _ else _] => destruct b eqn:? end;
            simpl; try discriminate).
    intros [= <- <-]. simpl. rewrite !Hq. simpl. rewrite select_eq_app, select_eq_absent.
    + rewrite (select_eq_one method_normalized_name) by reflexivity. reflexivity.
    + by apply (bool_decide_eq_false_1 _).
  - intros name description url paper row st'.
    unfold insertDataset, getDatasetByName, db_read, db_call, bind, data_or_throw.
    rewrite Hq. unfold sql_insert_dataset.
    repeat (match goal with |- context [if ?b then _ else _] => destruct b eqn:? end;
            simpl; try discriminate).
    intros [= <- <-]. simpl. rewrite !Hq. simpl. rewrite select_eq_app, select_eq_absent.
    + rewrite (select_eq_one dataset_name) by reflexivity. reflexivity.
    + by apply (bool_decide_eq_false_1 _).
  - intros title arxivId ssId abstract row st'.
    unfold insertPaper, getPaperByArxivId, db_read, db_call, bind, data_or_throw.
    rewrite Hq. unfold sql_insert_paper.
    repeat (match goal with |- context [if ?b then _ else _] => destruct b eqn:? end;
            simpl; try discriminate).
    intros [= <- <-]. simpl. rewrite !Hq. simpl. rewrite select_opt_eq_app, select_opt_eq_absent.
    + unfold select_opt_eq. rewrite filter_cons. simpl.
      destruct (decide (Some arxivId = Some arxivId)); [reflexivity|done].
    + match goal with H : taken _ _ _ = false |- _ => simpl in H end.
      by apply (bool_decide_eq_false_1 _).
Qed.

Lemma inserted_is_found_witness :
  getConceptByName quiet_world "nerf"
    (snd (insertConcept quiet_world "NeRF" "nerf" "Neural radiance fields"
            (Some "representation") (Some "uuid-0") (9 # 10)%Q two_papers))
  = (Ok (Some {| concept_id := "uuid-2"; concept_name := "NeRF";
                 concept_normalized_name := "nerf";
                 concept_description := "Neural radiance fields";
                 concept_category := Some "representation";
                 concept_first_introduced_by := Some "uuid-0";
                 concept_confidence := (9 # 10)%Q |}),
     tick_state (snd (insertConcept quiet_world "NeRF" "nerf" "Neural radiance fields"
                        (Some "representation") (Some "uuid-0") (9 # 10)%Q two_papers))).
Proof.
  destruct (inserted_is_found quiet_world two_papers quiet_world_quiet) as [H _].
  apply (H "NeRF" "nerf" "Neural radiance fields" (Some "representation") (Some "uuid-0")
           (9 # 10)%Q).
  reflexivity.
Defined.

(* ===================================================================== *)
(** * agents/PaperReaderAgent.ts: the limit of the traversal              *)
(* ===================================================================== *)

Lemma yields_ret {A : Type} (a : A) (R : A -> Prop) : R a -> yields (ret a) R.
Proof. intros H st b [= <-]. exact H. Qed.

Lemma yields_out_of_fuel {A : Type} (R : A -> Prop) : yields out_of_fuel R.
Proof. intros st b. discriminate. Qed.

Lemma yields_throw {A : Type} (e : Exn) (R : A -> Prop) : yields (throw e) R.
Proof. intros st b. discriminate. Qed.

Lemma yields_bind {A B : Type} (m : M A) (k : A -> M B) (R : B -> Prop) :
  (forall a, yields (k a) R) -> yields (bind m k) R.
Proof.
  intros Hk st b. unfold bind. destruct (m st) as [[a|e|] st1]; simpl; try discriminate.
  apply Hk.
Qed.

Lemma yields_try {A : Type} (m : M A) (h : Exn -> M A) (R : A -> Prop) :
  yields m R -> (forall e, yields (h e) R) -> yields (try_catch m h) R.
Proof.
  intros Hm Hh st b. unfold try_catch. specialize (Hm st).
  destruct (m st) as [[a|e|] st1]; simpl in *; [apply Hm|apply Hh|discriminate].
Qed.

(** The list of papers grows by at most one per turn, and only while it is
    shorter than the limit. *)
Lemma fetch_loop_bounded w fuel limit :
  forall found seen queue,
    yields (fetch_loop w fuel limit found seen queue)
           (fun papers => length papers <= Nat.max limit (length found)).
Proof.
  induction fuel as [|fuel IH]; intros found seen queue; simpl.
  - apply yields_out_of_fuel.
  - destruct queue as [|current queue]; [apply yields_ret; lia|].
    destruct (length found <? limit) eqn:Hlim; simpl; [|apply yields_ret; lia].
    apply Nat.ltb_lt in Hlim.
    destruct (bool_decide (current ∈ seen)); [apply IH|].
    apply yields_bind. intros [data|].
    + apply yields_bind. intros stored.
      set (found' := match stored with Some p => found ++ [p] | None => found end).
      assert (Hlen : length found' <= limit).
      { subst found'. destruct stored; rewrite ?length_app; simpl; lia. }
      assert (Hgoal : forall seen' queue', yields (fetch_loop w fuel limit found' seen' queue')
                        (fun papers => length papers <= Nat.max limit (length found))).
      { intros seen' queue' st papers Hrun. pose proof (IH found' seen' queue' st papers Hrun).
        simpl in *. lia. }
      destruct (length found' <? limit); [|apply Hgoal].
      apply yields_bind. intros references. apply yields_bind. intros cited_by. apply Hgoal.
    + apply yields_bind. intros _. apply IH.
Qed.

Lemma fetchRelatedPapers_never_throws w fuel seedPaper limit :
  only_not_found w -> never_throws (fetchRelatedPapers w fuel seedPaper limit).
Proof.
  intros Hw. unfold fetchRelatedPapers, agent_log.
  apply never_throws_bind; [apply never_throws_log|]. intros _.
  apply never_throws_guarded.
  apply never_throws_bind; [by apply fetch_loop_never_throws|]. intros found.
  apply never_throws_bind; [apply never_throws_log|]. intros _. apply never_throws_ret.
Qed.

(** X13. [fetchRelatedPapers] never returns more than [limit] papers; with
    a limit of zero it returns the empty list without a single request to
    the citation service or to the database.  On a finite citation graph
    whose paper look-ups fail with 404 only, it does return a list. *)
Theorem fetchRelatedPapers_respects_limit
        (w : World) (fuel : nat) (seedPaper : string) (limit : nat) (st : State) :
  (forall papers, fst (fetchRelatedPapers w fuel seedPaper limit st) = Ok papers ->
                  length papers <= limit)
  /\ (0 < fuel ->
      exists st', fetchRelatedPapers w fuel seedPaper 0 st = (Ok [], st')
                  /\ st_tick st' = st_tick st /\ st_store st' = st_store st)
  /\ (forall universe,
        only_not_found w -> finite_graph w universe -> seedPaper ∈ universe ->
        5 * size universe + 1 < fuel ->
        exists papers, fst (fetchRelatedPapers w fuel seedPaper limit st) = Ok papers
                       /\ length papers <= limit).
Proof.
  assert (Hbound : forall papers,
             fst (fetchRelatedPapers w fuel seedPaper limit st) = Ok papers ->
             length papers <= limit).
  { intros papers. revert st papers.
    change (yields (fetchRelatedPapers w fuel seedPaper limit)
                   (fun papers => length papers <= limit)).
    unfold fetchRelatedPapers. apply yields_bind. intros _.
    apply yields_try; [|intros e; apply yields_bind; intros _; apply yields_throw].
    intros st papers. unfold bind at 1.
    pose proof (fetch_loop_bounded w fuel limit [] ∅ [seedPaper] st) as Hloop.
    destruct (fetch_loop w fuel limit [] ∅ [seedPaper] st) as [[found|e|] st1]; simpl;
      try discriminate.
    intros [= <-]. specialize (Hloop found eq_refl). simpl in Hloop. lia. }
  split; [exact Hbound|]. split.
  - intros Hfuel. destruct fuel as [|fuel']; [lia|]. eexists. split; [reflexivity|].
    split; reflexivity.
  - intros universe Hw Hfin Hseed Hfuel.
    pose proof (fetchRelatedPapers_ends w universe fuel seedPaper limit Hfin Hseed Hfuel st)
      as Hends.
    pose proof (fetchRelatedPapers_never_throws w fuel seedPaper limit Hw st) as Hthrow.
    destruct (fst (fetchRelatedPapers w fuel seedPaper limit st)) as [papers|e|] eqn:Hrun.
    + exists papers. split; [reflexivity|]. apply Hbound. reflexivity.
    + destruct (Hthrow e). reflexivity.
    + done.
Qed.

Lemma scenario_world_only_not_found : only_not_found scenario_world.
Proof.
  intros t id. simpl. repeat case_match; try done. congruence.
Qed.

Lemma fetchRelatedPapers_respects_limit_witness :
  exists papers,
    fst (fetchRelatedPapers scenario_world 50 "seed" 3 blank_state) = Ok papers
    /\ length papers <= 3.
Proof.
  destruct (fetchRelatedPapers_respects_limit scenario_world 50 "seed" 3 blank_state)
    as (_ & _ & H).
  apply (H scenario_ids).
  - apply scenario_world_only_not_found.
  - apply scenario_world_finite.
  - vm_compute. reflexivity.
  - vm_compute. lia.
Defined.

(* ===================================================================== *)
(** * ingestion/semantic-scholar.ts: batchGetPapers                       *)
(* ===================================================================== *)

Lemma batch_get_one_total w paperId st :
  exists st',
    batch_get_one w paperId st
    = (Ok (option_list (answered (http_paper w (st_tick st) paperId))), st')
    /\ st_store st' = st_store st /\ st_tick st' = S (st_tick st).
Proof.
  unfold batch_get_one, try_catch, bind, getPaper.
  destruct (http_paper w (st_tick st) paperId) as [p|status|]; simpl.
  - by eexists.
  - destruct (status =? 404); simpl; by eexists.
  - by eexists.
Qed.

Lemma batchGetPapers_total w paperIds :
  forall st,
    exists papers st',
      batchGetPapers w paperIds st = (Ok papers, st')
      /\ st_store st' = st_store st
      /\ length papers <= length paperIds
      /\ (static_papers w ->
          papers = omap (fun id => answered (http_paper w 0 id)) paperIds).
Proof.
  induction paperIds as [|id ids IH]; intros st; simpl.
  - exists [], st. repeat split; auto.
  - destruct (batch_get_one_total w id st) as (st1 & Hone & Hs1 & _).
    destruct (IH st1) as (more & st2 & Hrest & Hs2 & Hlen & Hstatic).
    unfold bind. rewrite Hone, Hrest. eexists _, _. split; [reflexivity|].
    split; [congruence|]. split.
    + rewrite length_app. destruct (answered _); simpl; lia.
    + intros Hw. rewrite (Hstatic Hw), (Hw (st_tick st) 0 id).
      destruct (answered (http_paper w 0 id)); reflexivity.
Qed.

(** X14. [batchGetPapers] never throws and never touches the database: a
    paper whose look-up fails, in whatever way, is left out and the look-ups
    that follow are still made.  When the service answers the same at all
    times the result is exactly the papers it knows, in the order asked. *)
Theorem batchGetPapers_isolates_failures (w : World) (paperIds : list string) (st : State) :
  exists papers st',
    batchGetPapers w paperIds st = (Ok papers, st')
    /\ st_store st' = st_store st
    /\ length papers <= length paperIds
    /\ (static_papers w ->
        papers = omap (fun id => answered (http_paper w 0 id)) paperIds).
Proof. apply batchGetPapers_total. Qed.

Lemma patchy_world_static r : static_papers (patchy_world r).
Proof. intros t t' id. reflexivity. Qed.

Lemma batchGetPapers_isolates_failures_witness :
  fst (batchGetPapers (patchy_world NetworkError) ["seed"; "r1"; "r2"; "r3"] blank_state)
  = Ok [cited "seed" 50; cited "r2" 9].
Proof.
  destruct (batchGetPapers_isolates_failures (patchy_world NetworkError)
              ["seed"; "r1"; "r2"; "r3"] blank_state)
    as (papers & st' & Hrun & _ & _ & Hstatic).
  rewrite Hrun. simpl. f_equal. apply Hstatic, patchy_world_static.
Defined.

(* ===================================================================== *)
(** * The pipeline writes through the inserts only                        *)
(* ===================================================================== *)

Section AnyInvariant.

Variable Inv : Store -> Prop.
Variable w : World.
Hypothesis Hinserts : inserts_respect Inv.
Hypothesis Hworkers : workers_respect Inv w.

Lemma invariant_insert {A : Type} (q : Store -> DbResult A * Store) :
  (forall s, Inv s -> Inv (snd (q s))) ->
  keeps Inv (r <- db_call w q ;; data_or_throw r) anything.
Proof using Hworkers.
  intros Hq. eapply keeps_bind.
  - apply (keeps_db_call _ w Hworkers q anything). intros s Hs. split; [auto|done].
  - intros [d|e] _; [by apply keeps_ret|apply keeps_throw].
Qed.

Lemma invariant_read {A : Type} (q : Store -> A) : keeps Inv (db_read w q) anything.
Proof using Hworkers. by apply keeps_db_read. Qed.

Lemma invariant_storePaper d : keeps Inv (storePaper w d) anything.
Proof using Hinserts Hworkers.
  unfold storePaper, getPaperByArxivId, getPaperBySemanticScholarId, insertPaper, agent_log,
    agent_logError.
  apply keeps_try; [|intros e; repeat keeps_step].
  eapply keeps_bind with (R := anything).
  { destruct (externalIds_ArXiv d) as [a|]; [|by apply keeps_ret].
    destruct (truthy a); [apply invariant_read|by apply keeps_ret]. }
  intros [p|] _; [repeat keeps_step|].
  eapply keeps_bind with (R := anything).
  { destruct (truthy (paperId d)); [apply invariant_read|by apply keeps_ret]. }
  intros [p|] _; [repeat keeps_step|].
  eapply keeps_bind with (R := anything); [apply keeps_value_or_throw|]. intros _ _.
  eapply keeps_bind; [apply invariant_insert; intros s; apply (respects_paper _ Hinserts)|].
  intros p _. repeat keeps_step.
Qed.

Lemma invariant_getPaper id : keeps Inv (getPaper w id) anything.
Proof.
  apply keeps_pure. intros st. unfold getPaper.
  destruct (http_paper w (st_tick st) id) as [b|n|]; simpl; [done| |done].
  destruct (n =? 404); done.
Qed.

Lemma invariant_getReferences id n : keeps Inv (getReferences w id n) anything.
Proof.
  apply keeps_pure. intros st. unfold getReferences.
  by destruct (http_references w (st_tick st) id n).
Qed.

Lemma invariant_getCitations id n : keeps Inv (getCitations w id n) anything.
Proof.
  apply keeps_pure. intros st. unfold getCitations.
  by destruct (http_citations w (st_tick st) id n).
Qed.

Lemma invariant_fetch_loop fuel limit :
  forall found seen queue, keeps Inv (fetch_loop w fuel limit found seen queue) anything.
Proof using Hinserts Hworkers.
  induction fuel as [|fuel IH]; intros found seen queue; simpl.
  - apply keeps_out_of_fuel.
  - destruct queue as [|current queue]; [by apply keeps_ret|].
    destruct (negb (length found <? limit)); [by apply keeps_ret|].
    destruct (bool_decide (current ∈ seen)); [apply IH|].
    eapply keeps_bind; [apply invariant_getPaper|]. intros [data|] _.
    + eapply keeps_bind; [apply invariant_storePaper|]. intros stored _.
      destruct (length _ <? limit); [|apply IH].
      eapply keeps_bind; [apply invariant_getReferences|]. intros refs _.
      eapply keeps_bind; [apply invariant_getCitations|]. intros cits _.
      apply IH.
    + eapply keeps_bind; [apply keeps_log|]. intros _ _. apply IH.
Qed.

Lemma invariant_fetchRelatedPapers fuel seed limit :
  keeps Inv (fetchRelatedPapers w fuel seed limit) anything.
Proof using Hinserts Hworkers.
  unfold fetchRelatedPapers, agent_log, agent_logError.
  keeps_step; [apply keeps_log|].
  apply keeps_try.
  - eapply keeps_bind; [apply invariant_fetch_loop|]. intros; repeat keeps_step.
  - intros e. repeat keeps_step.
Qed.

Lemma invariant_store_concept paper c : keeps Inv (store_concept w paper c) anything.
Proof using Hinserts Hworkers.
  unfold store_concept, getConceptByName, insertConcept, linkPaperToConcept, agent_log,
    agent_logError.
  apply keeps_try; [|intros e; apply keeps_log].
  eapply keeps_bind; [apply invariant_read|]. intros existing _.
  eapply keeps_bind with (R := anything).
  { destruct existing; [repeat keeps_step|].
    eapply keeps_bind;
      [apply invariant_insert; intros s; apply (respects_concept _ Hinserts)|].
    intros; repeat keeps_step. }
  intros id _.
  eapply keeps_bind;
    [apply invariant_insert; intros s; apply (respects_paper_concept _ Hinserts)|].
  intros; by apply keeps_ret.
Qed.

Lemma invariant_store_method paper m : keeps Inv (store_method w paper m) anything.
Proof using Hinserts Hworkers.
  unfold store_method, getMethodByName, insertMethod, linkPaperToMethod, agent_log,
    agent_logError.
  apply keeps_try; [|intros e; apply keeps_log].
  eapply keeps_bind; [apply invariant_read|]. intros existing _.
  eapply keeps_bind with (R := anything).
  { destruct existing; [repeat keeps_step|].
    eapply keeps_bind;
      [apply invariant_insert; intros s; apply (respects_method _ Hinserts)|].
    intros; repeat keeps_step. }
  intros id _.
  eapply keeps_bind;
    [apply invariant_insert; intros s; apply (respects_paper_method _ Hinserts)|].
  intros; by apply keeps_ret.
Qed.

Lemma invariant_store_dataset paper d : keeps Inv (store_dataset w paper d) anything.
Proof using Hinserts Hworkers.
  unfold store_dataset, getDatasetByName, insertDataset, linkPaperToDataset, agent_log,
    agent_logError.
  apply keeps_try; [|intros e; apply keeps_log].
  eapply keeps_bind; [apply invariant_read|]. intros existing _.
  eapply keeps_bind with (R := anything).
  { destruct existing; [repeat keeps_step|].
    eapply keeps_bind;
      [apply invariant_insert; intros s; apply (respects_dataset _ Hinserts)|].
    intros; repeat keeps_step. }
  intros id _.
  eapply keeps_bind;
    [apply invariant_insert; intros s; apply (respects_paper_dataset _ Hinserts)|].
  intros; by apply keeps_ret.
Qed.

Lemma invariant_storeEntities paper entities :
  keeps Inv (storeEntities w paper entities) anything.
Proof using Hinserts Hworkers.
  unfold storeEntities, agent_log, agent_logError.
  keeps_step; [apply keeps_log|].
  apply keeps_try; [|intros e; repeat keeps_step].
  eapply keeps_bind; [apply keeps_for_each, invariant_store_concept|]. intros _ _.
  eapply keeps_bind; [apply keeps_for_each, invariant_store_method|]. intros _ _.
  eapply keeps_bind; [apply keeps_for_each, invariant_store_dataset|]. intros _ _.
  apply keeps_log.
Qed.

Lemma invariant_disambiguate_concepts l : keeps Inv (disambiguate_concepts w l) anything.
Proof using Hworkers.
  induction l as [|c l IH]; simpl; [by apply keeps_ret|].
  unfold getConceptByName.
  eapply keeps_bind; [apply invariant_read|]. intros e _.
  eapply keeps_bind; [apply IH|]. intros; by apply keeps_ret.
Qed.

Lemma invariant_disambiguate_methods l : keeps Inv (disambiguate_methods w l) anything.
Proof using Hworkers.
  induction l as [|c l IH]; simpl; [by apply keeps_ret|].
  unfold getMethodByName.
  eapply keeps_bind; [apply invariant_read|]. intros e _.
  eapply keeps_bind; [apply IH|]. intros; by apply keeps_ret.
Qed.

Lemma invariant_disambiguate_datasets l : keeps Inv (disambiguate_datasets w l) anything.
Proof using Hworkers.
  induction l as [|c l IH]; simpl; [by apply keeps_ret|].
  unfold getDatasetByName.
  eapply keeps_bind; [apply invariant_read|]. intros e _.
  eapply keeps_bind; [apply IH|]. intros; by apply keeps_ret.
Qed.

Lemma invariant_extract input : keeps Inv (extract w input) anything.
Proof using Hinserts Hworkers.
  unfold extract, agent_log, agent_logError.
  keeps_step; [apply keeps_log|].
  apply keeps_try; [|intros e; repeat keeps_step].
  eapply keeps_bind with (R := anything).
  { unfold extractPass1, agent_log, agent_logError.
    keeps_step; [apply keeps_log|]. apply keeps_pure. intros st.
    by destruct (llm_extract w (st_tick st) input). }
  intros e1 _. eapply keeps_bind with (R := anything).
  { unfold disambiguateEntities, agent_log, agent_logError.
    keeps_step; [apply keeps_log|].
    apply keeps_try; [|intros e; repeat keeps_step].
    eapply keeps_bind; [apply invariant_disambiguate_concepts|]. intros ? _.
    eapply keeps_bind; [apply invariant_disambiguate_methods|]. intros ? _.
    eapply keeps_bind; [apply invariant_disambiguate_datasets|]. intros ? _.
    by apply keeps_ret. }
  intros e2 _. eapply keeps_bind with (R := anything).
  { apply keeps_pure. intros st. reflexivity. }
  intros e3 _.
  eapply keeps_bind; [apply invariant_storeEntities|]. intros _ _.
  repeat keeps_step.
Qed.

Lemma invariant_classify_pair concept old : keeps Inv (classify_pair w concept old) anything.
Proof using Hinserts Hworkers.
  unfold classify_pair, createConceptImprovement, agent_log, agent_logError.
  apply keeps_try; [|intros e; repeat keeps_step].
  eapply keeps_bind with (R := anything).
  { apply keeps_pure. intros st. unfold classify.
    by destruct (llm_classify w (st_tick st) _). }
  intros result _.
  destruct (has_relationship result && _); [|by apply keeps_ret].
  eapply keeps_bind with (R := anything).
  - apply invariant_insert. intros s. apply (respects_improvement _ Hinserts).
  - intros; repeat keeps_step.
Qed.

Lemma invariant_classify_all concept related :
  keeps Inv (classify_all w concept related) anything.
Proof using Hinserts Hworkers.
  induction related as [|old related IH]; simpl; [by apply keeps_ret|].
  eapply keeps_bind; [apply invariant_classify_pair|]. intros ? _.
  eapply keeps_bind; [apply IH|]. intros; by apply keeps_ret.
Qed.

Lemma invariant_map_concepts rows : keeps Inv (map_concepts w rows) anything.
Proof using Hinserts Hworkers.
  induction rows as [|[link [concept|]] rows IH]; simpl; [by apply keeps_ret| |].
  - eapply keeps_bind with (R := anything).
    + unfold map_concept, agent_logError, related_concepts. simpl.
      apply keeps_try; [|intros e; repeat keeps_step].
      eapply keeps_bind; [apply invariant_read|].
      intros related _. apply invariant_classify_all.
    + intros ? _. eapply keeps_bind; [apply IH|]. intros; by apply keeps_ret.
  - eapply keeps_bind with (R := anything); [by apply keeps_ret|].
    intros ? _. eapply keeps_bind; [apply IH|]. intros; by apply keeps_ret.
Qed.

Lemma invariant_mapImprovements paper entities :
  keeps Inv (mapImprovements w paper entities) anything.
Proof using Hinserts Hworkers.
  unfold mapImprovements, getConceptsByPaper, agent_log, agent_logError.
  keeps_step; [apply keeps_log|].
  apply keeps_try; [|intros e; repeat keeps_step].
  eapply keeps_bind; [apply invariant_read|]. intros rows _.
  destruct rows as [|row rows]; [repeat keeps_step|apply invariant_map_concepts].
Qed.

Lemma invariant_run_op op st : Inv (st_store st) -> Inv (st_store (run_op w op st)).
Proof using Hinserts Hworkers.
  intros Hs. destruct op; simpl.
  - by apply invariant_fetchRelatedPapers.
  - by apply invariant_extract.
  - by apply invariant_mapImprovements.
Qed.

End AnyInvariant.

(* ===================================================================== *)
(** * What the constraints of the schema maintain                         *)
(* ===================================================================== *)

Lemma inserts_respect_and (P Q : Store -> Prop) :
  inserts_respect P -> inserts_respect Q -> inserts_respect (fun s => P s /\ Q s).
Proof.
  intros [] []. split; intros; split; naive_solver.
Qed.

Lemma NoDup_snoc {A : Type} (l : list A) (x : A) : NoDup l -> x ∉ l -> NoDup (l ++ [x]).
Proof.
  intros Hl Hx. apply NoDup_app. split; [done|]. split; [|apply NoDup_singleton].
  intros y Hy Hy'. apply list_elem_of_singleton in Hy' as ->. done.
Qed.

Ltac open_insert :=
  intros; simpl;
  repeat (match goal with |- context [if ?b then _ else _] => destruct b eqn:? end;
          simpl; try done).

Lemma unique_keys_inserts : inserts_respect unique_keys.
Proof.
  split; unfold unique_keys.
  - unfold sql_insert_paper. open_insert.
  - unfold sql_insert_concept. open_insert.
    destruct H as (Hc & Hm & Hd). split; [|done].
    rewrite fmap_app. apply NoDup_snoc; [done|]. simpl.
    by apply (bool_decide_eq_false_1 _).
  - unfold sql_insert_method. open_insert.
    destruct H as (Hc & Hm & Hd). split; [done|]. split; [|done].
    rewrite fmap_app. apply NoDup_snoc; [done|]. simpl.
    by apply (bool_decide_eq_false_1 _).
  - unfold sql_insert_dataset. open_insert.
    destruct H as (Hc & Hm & Hd). split; [done|]. split; [done|].
    rewrite fmap_app. apply NoDup_snoc; [done|]. simpl.
    by apply (bool_decide_eq_false_1 _).
  - unfold sql_insert_paper_concept. open_insert.
  - unfold sql_insert_paper_method. open_insert.
  - unfold sql_insert_paper_dataset. open_insert.
  - unfold sql_insert_improvement. open_insert.
Qed.

Lemma grows_refl s : grows s s.
Proof. repeat split; reflexivity. Qed.

Lemma grows_trans s0 s1 s2 : grows s0 s1 -> grows s1 s2 -> grows s0 s2.
Proof.
  unfold grows. intros (?&?&?&?&?&?&?&?) (?&?&?&?&?&?&?&?).
  repeat split; etrans; eauto.
Qed.

Lemma grows_inserts s0 : inserts_respect (grows s0).
Proof.
  split; intros; (eapply grows_trans; [eassumption|]); unfold grows.
  - unfold sql_insert_paper. open_insert. repeat split; try reflexivity.
    apply prefix_app_r. reflexivity.
  - unfold sql_insert_concept. open_insert. repeat split; try reflexivity.
    apply prefix_app_r. reflexivity.
  - unfold sql_insert_method. open_insert. repeat split; try reflexivity.
    apply prefix_app_r. reflexivity.
  - unfold sql_insert_dataset. open_insert. repeat split; try reflexivity.
    apply prefix_app_r. reflexivity.
  - unfold sql_insert_paper_concept. open_insert. repeat split; try reflexivity.
    apply prefix_app_r. reflexivity.
  - unfold sql_insert_paper_method. open_insert. repeat split; try reflexivity.
    apply prefix_app_r. reflexivity.
  - unfold sql_insert_paper_dataset. open_insert. repeat split; try reflexivity.
    apply prefix_app_r. reflexivity.
  - unfold sql_insert_improvement. open_insert. repeat split; try reflexivity.
    apply prefix_app_r. reflexivity.
Qed.

Lemma quiet_respects (Inv : Store -> Prop) w : quiet w -> workers_respect Inv w.
Proof. intros Hq t s Hs. by rewrite Hq. Qed.

Lemma has_concept_more s s' id :
  concepts s `prefix_of` concepts s' -> has_concept s id = true -> has_concept s' id = true.
Proof.
  intros [k Hk]. unfold has_concept. rewrite !bool_decide_eq_true, Hk, fmap_app.
  set_solver.
Qed.

Lemma schema_ok_inserts : inserts_respect schema_ok.
Proof.
  split; intros until s; intros (Hu & Hl & Hpic & Himp).
  - split; [by apply (respects_paper _ unique_keys_inserts)|].
    unfold sql_insert_paper. open_insert.
  - split; [by apply (respects_concept _ unique_keys_inserts)|].
    unfold sql_insert_concept. open_insert. split; [done|].
    split; intros r Hr.
    + destruct (Hpic r Hr) as [? Hc]. split; [done|].
      eapply has_concept_more; [|exact Hc]. simpl. by apply prefix_app_r.
    + destruct (Himp r Hr) as (? & Hn & Ho). split; [done|].
      split; (eapply has_concept_more; [|eassumption]); simpl; by apply prefix_app_r.
  - split; [by apply (respects_method _ unique_keys_inserts)|].
    unfold sql_insert_method. open_insert.
  - split; [by apply (respects_dataset _ unique_keys_inserts)|].
    unfold sql_insert_dataset. open_insert.
  - split; [by apply (respects_paper_concept _ unique_keys_inserts)|].
    unfold sql_insert_paper_concept. open_insert. split.
    + unfold concept_links. simpl. rewrite fmap_app. apply NoDup_snoc; [done|]. simpl.
      by apply (bool_decide_eq_false_1 _).
    + split; [|done]. intros r Hr. simpl in Hr.
      apply elem_of_app in Hr as [Hr|Hr]; [by apply Hpic|].
      apply list_elem_of_singleton in Hr as ->. simpl.
      split; by apply negb_false_iff.
  - split; [by apply (respects_paper_method _ unique_keys_inserts)|].
    unfold sql_insert_paper_method. open_insert.
  - split; [by apply (respects_paper_dataset _ unique_keys_inserts)|].
    unfold sql_insert_paper_dataset. open_insert.
  - split; [by apply (respects_improvement _ unique_keys_inserts)|].
    unfold sql_insert_improvement. open_insert. split; [done|]. split; [done|].
    intros r Hr. simpl in Hr.
    apply elem_of_app in Hr as [Hr|Hr]; [by apply Himp|].
    apply list_elem_of_singleton in Hr as ->. simpl.
    repeat split; by apply negb_false_iff.
Qed.

Lemma schema_ok_empty : schema_ok empty_store.
Proof.
  unfold schema_ok, unique_keys, concept_links. simpl.
  split; [repeat split; apply NoDup_nil_2|]. split; [apply NoDup_nil_2|].
  split; intros r Hr; by apply elem_of_nil in Hr.
Qed.

Lemma reachable_invariant (Inv : Store -> Prop) (w : World) (st : State) :
  inserts_respect Inv -> workers_respect Inv w -> Inv empty_store ->
  reachable w st -> Inv (st_store st).
Proof.
  intros Hins Hw H0 Hreach. induction Hreach as [|st op _ IH]; [exact H0|].
  by apply invariant_run_op.
Qed.

(** X15. The pipeline writes to the database through the inserts of
    database/queries.ts only: a property of the store that every [INSERT]
    of the schema preserves, and that the other workers preserve, holds
    after each of the three operations and so in every state reached from
    the empty database.  In particular every reachable store obeys the
    uniqueness, range and reference constraints that the validator
    re-checks. *)
Theorem pipeline_preserves_invariants (Inv : Store -> Prop) (w : World) (st : State) :
  inserts_respect Inv -> workers_respect Inv w ->
  (forall op, Inv (st_store st) -> Inv (st_store (run_op w op st)))
  /\ (Inv empty_store -> reachable w st -> Inv (st_store st))
  /\ (workers_respect schema_ok w -> reachable w st -> schema_ok (st_store st)).
Proof.
  intros Hins Hw. split; [|split].
  - intros op. by apply invariant_run_op.
  - intros H0 Hreach. by apply (reachable_invariant Inv w).
  - intros Hw' Hreach.
    apply (reachable_invariant schema_ok w); auto using schema_ok_inserts, schema_ok_empty.
Qed.

Lemma pipeline_preserves_invariants_witness :
  schema_ok (st_store mapped_state).
Proof.
  destruct (pipeline_preserves_invariants unique_keys eager_world mapped_state) as (_ & _ & H).
  - apply unique_keys_inserts.
  - apply quiet_respects. intros t s. reflexivity.
  - apply H.
    + apply quiet_respects. intros t s. reflexivity.
    + unfold mapped_state, extracted_state. repeat apply reachable_step.
      apply reachable_start.
Defined.

(** X16. Where no other worker writes, no operation of the pipeline
    deletes or changes a row: after it each table still starts with the
    rows it had before, in the same order. *)
Theorem pipeline_only_appends (w : World) (op : PipelineOp) (st : State) :
  quiet w -> grows (st_store st) (st_store (run_op w op st)).
Proof.
  intros Hq.
  apply (invariant_run_op (grows (st_store st)) w (grows_inserts _) (quiet_respects _ w Hq)).
  apply grows_refl.
Qed.

Lemma pipeline_only_appends_witness :
  grows (st_store extracted_state) (st_store mapped_state).
Proof.
  apply (pipeline_only_appends eager_world
           (op_mapImprovements "uuid-0"
              {| ee_concepts := [nerf; splatting]; ee_methods := []; ee_datasets := [];
                 ee_metrics := [] |})
           extracted_state).
  intros t s. reflexivity.
Defined.

(* ===================================================================== *)
(** * agents/EntityExtractorAgent.ts: what the persistence step achieves  *)
(* ===================================================================== *)

(** Under a [UNIQUE] constraint a key selects no row or one. *)
Lemma select_eq_unique {A : Type} (col : A -> string) (v : string) (rows : list A) :
  NoDup (col <$> rows) ->
  select_eq col v rows = [] /\ v ∉ col <$> rows
  \/ exists r, select_eq col v rows = [r] /\ r ∈ rows /\ col r = v.
Proof.
  induction rows as [|x rows IH]; intros Hnd.
  - left. split; [reflexivity|]. apply not_elem_of_nil.
  - rewrite fmap_cons in Hnd. apply NoDup_cons in Hnd as [Hx Hnd].
    unfold select_eq in *. rewrite filter_cons.
    destruct (decide (col x = v)) as [E|Hne].
    + right. exists x. subst v.
      destruct (IH Hnd) as [[-> _]|(r & _ & Hr & Hc)].
      * split; [reflexivity|]. split; [left|reflexivity].
      * exfalso. apply Hx. rewrite <- Hc. apply list_elem_of_fmap. eauto.
    + destruct (IH Hnd) as [[-> Hv]|(r & -> & Hr & Hc)].
      * left. split; [reflexivity|]. rewrite fmap_cons, not_elem_of_cons. auto.
      * right. exists r. split; [reflexivity|]. split; [by right|done].
Qed.

Lemma single_none_absent {A : Type} (col : A -> string) (v : string) (rows : list A) :
  NoDup (col <$> rows) -> single (select_eq col v rows) = None -> v ∉ col <$> rows.
Proof.
  intros Hnd Hs. destruct (select_eq_unique col v rows Hnd) as [[_ H]|(r & Hr & _)]; [done|].
  rewrite Hr in Hs. discriminate.
Qed.

Lemma single_some_member {A : Type} (col : A -> string) (v : string) (rows : list A) (r : A) :
  single (select_eq col v rows) = Some r -> r ∈ rows /\ col r = v.
Proof.
  intros Hs. destruct (select_eq col v rows) as [|x [|y l]] eqn:E; try discriminate.
  injection Hs as ->.
  assert (Hin : r ∈ select_eq col v rows) by (rewrite E; left).
  unfold select_eq in Hin. by apply list_elem_of_filter in Hin as [? ?].
Qed.

(** A row found by its key is still the row found after the table grew. *)
Lemma single_stable {A : Type} (col : A -> string) (v : string) (rows rows' : list A) (r : A) :
  rows `prefix_of` rows' -> NoDup (col <$> rows') ->
  single (select_eq col v rows) = Some r -> single (select_eq col v rows') = Some r.
Proof.
  intros [k ->] Hnd Hs.
  destruct (single_some_member _ _ _ _ Hs) as [Hr Hc].
  destruct (select_eq_unique col v (rows ++ k) Hnd) as [[_ H]|(r' & Hr' & _ & _)].
  - exfalso. apply H. rewrite <- Hc. apply list_elem_of_fmap. exists r.
    split; [done|]. apply elem_of_app. by left.
  - rewrite Hr'. rewrite select_eq_app in Hr'.
    destruct (select_eq col v rows) as [|x [|y l]]; try discriminate.
    injection Hs as ->. simpl in Hr'. injection Hr' as -> _. reflexivity.
Qed.

Lemma has_paper_more s s' id :
  papers s `prefix_of` papers s' -> has_paper s id = true -> has_paper s' id = true.
Proof.
  intros [k Hk]. unfold has_paper. rewrite !bool_decide_eq_true, Hk, fmap_app.
  set_solver.
Qed.

Lemma concept_persisted_stable paper c s s' :
  grows s s' -> unique_keys s' ->
  concept_persisted paper s c = true -> concept_persisted paper s' c = true.
Proof.
  intros Hg Hk. destruct Hg as (_ & Hc & _ & _ & Hl & _). destruct Hk as (Hu & _ & _).
  destruct Hl as [k Hl].
  unfold concept_persisted.
  destruct (single (select_eq _ _ (concepts s))) as [row|] eqn:Hs; [|discriminate].
  rewrite (single_stable _ _ _ _ _ Hc Hu Hs), !bool_decide_eq_true.
  unfold concept_links. rewrite Hl, fmap_app. intros Hin. apply elem_of_app. by left.
Qed.

Lemma method_persisted_stable paper m s s' :
  grows s s' -> unique_keys s' ->
  method_persisted paper s m = true -> method_persisted paper s' m = true.
Proof.
  intros Hg Hk. destruct Hg as (_ & _ & Hm & _ & _ & Hl & _). destruct Hk as (_ & Hu & _).
  destruct Hl as [k Hl].
  unfold method_persisted.
  destruct (single (select_eq _ _ (methods s))) as [row|] eqn:Hs; [|discriminate].
  rewrite (single_stable _ _ _ _ _ Hm Hu Hs), !bool_decide_eq_true.
  unfold method_links. rewrite Hl, fmap_app. intros Hin. apply elem_of_app. by left.
Qed.

Lemma dataset_persisted_stable paper d s s' :
  grows s s' -> unique_keys s' ->
  dataset_persisted paper s d = true -> dataset_persisted paper s' d = true.
Proof.
  intros Hg Hk. destruct Hg as (_ & _ & _ & Hd & _ & _ & Hl & _). destruct Hk as (_ & _ & Hu).
  destruct Hl as [k Hl].
  unfold dataset_persisted.
  destruct (single (select_eq _ _ (datasets s))) as [row|] eqn:Hs; [|discriminate].
  rewrite (single_stable _ _ _ _ _ Hd Hu Hs), !bool_decide_eq_true.
  unfold dataset_links. rewrite Hl, fmap_app. intros Hin. apply elem_of_app. by left.
Qed.

Lemma single_after_insert {A : Type} (col : A -> string) (v : string) (rows : list A) (r : A) :
  v ∉ col <$> rows -> col r = v -> single (select_eq col v (rows ++ [r])) = Some r.
Proof.
  intros Hv Hc. rewrite select_eq_app, (select_eq_absent _ _ _ Hv), (select_eq_one _ _ _ Hc).
  reflexivity.
Qed.

(** A category of the allowed list fits its column. *)
Lemma listed_category_fits (category : option string) :
  check_in concept_categories category = true -> too_long 50 category = false.
Proof.
  destruct category as [x|]; [|done]. simpl. intros H.
  apply bool_decide_eq_true in H. unfold concept_categories in H.
  repeat (apply elem_of_cons in H as [->|H]; [reflexivity|]).
  by apply elem_of_nil in H.
Qed.

(** One item of the first loop. *)
Lemma store_concept_persists w paper c st :
  quiet w -> unique_keys (st_store st) -> has_paper (st_store st) paper = true ->
  valid_concept c = true ->
  exists st', store_concept w paper c st = (Ok tt, st')
              /\ concept_persisted paper (st_store st') c = true.
Proof.
  intros Hq (Hu & _ & _) Hp Hv. apply andb_prop in Hv as [Hcat Hconf].
  unfold store_concept, getConceptByName, insertConcept, linkPaperToConcept.
  unfold concept_persisted, concept_key.
  set (key := or_else (ec_normalized_name c) (normalizeEntityName (ec_name c))).
  run_monad. rewrite !Hq.
  destruct (single (select_eq concept_normalized_name key (concepts (st_store st))))
    as [e|] eqn:Hs; simpl; rewrite ?Hq.
  - destruct (single_some_member _ _ _ _ Hs) as [He _].
    unfold sql_insert_paper_concept. rewrite Hconf. simpl.
    destruct (bool_decide _) eqn:Hlink; simpl.
    + eexists. split; [reflexivity|]. simpl. rewrite Hs. exact Hlink.
    + rewrite Hp. simpl.
      assert (Hhas : has_concept (st_store st) (concept_id e) = true).
      { apply bool_decide_eq_true. apply list_elem_of_fmap. eauto. }
      rewrite Hhas. simpl. eexists. split; [reflexivity|]. simpl. rewrite Hs.
      apply bool_decide_eq_true. unfold concept_links. simpl. rewrite fmap_app. set_solver.
  - pose proof (single_none_absent _ _ _ Hu Hs) as Habsent.
    unfold sql_insert_concept. rewrite (listed_category_fits _ Hcat), Hcat, Hconf. simpl.
    rewrite (bool_decide_eq_false_2 _ Habsent). simpl. rewrite Hp. simpl. rewrite !Hq.
    unfold sql_insert_paper_concept. rewrite Hconf. simpl.
    destruct (bool_decide _) eqn:Hlink; simpl.
    + eexists. split; [reflexivity|]. simpl.
      erewrite single_after_insert; [|exact Habsent|reflexivity]. exact Hlink.
    + unfold has_paper in *. simpl. rewrite Hp. simpl.
      unfold has_concept. simpl. rewrite fmap_app. simpl.
      rewrite bool_decide_eq_true_2 by set_solver. simpl.
      eexists. split; [reflexivity|]. simpl.
      erewrite single_after_insert; [|exact Habsent|reflexivity].
      apply bool_decide_eq_true. unfold concept_links. simpl. rewrite fmap_app. set_solver.
Qed.

Lemma store_method_persists w paper m st :
  quiet w -> unique_keys (st_store st) -> has_paper (st_store st) paper = true ->
  exists st', store_method w paper m st = (Ok tt, st')
              /\ method_persisted paper (st_store st') m = true.
Proof.
  intros Hq (_ & Hu & _) Hp.
  unfold store_method, getMethodByName, insertMethod, linkPaperToMethod.
  unfold method_persisted, method_key.
  set (key := or_else (em_normalized_name m) (normalizeEntityName (em_name m))).
  run_monad. rewrite !Hq.
  destruct (single (select_eq method_normalized_name key (methods (st_store st))))
    as [e|] eqn:Hs; simpl; rewrite ?Hq.
  - destruct (single_some_member _ _ _ _ Hs) as [He _].
    unfold sql_insert_paper_method.
    destruct (bool_decide _) eqn:Hlink; simpl.
    + eexists. split; [reflexivity|]. simpl. rewrite Hs. exact Hlink.
    + rewrite Hp. simpl.
      assert (Hhas : has_method (st_store st) (method_id e) = true).
      { apply bool_decide_eq_true. apply list_elem_of_fmap. eauto. }
      rewrite Hhas. simpl. eexists. split; [reflexivity|]. simpl. rewrite Hs.
      apply bool_decide_eq_true. unfold method_links. simpl. rewrite fmap_app. set_solver.
  - pose proof (single_none_absent _ _ _ Hu Hs) as Habsent.
    unfold sql_insert_method.
    rewrite (bool_decide_eq_false_2 _ Habsent). simpl. rewrite Hp. simpl. rewrite !Hq.
    unfold sql_insert_paper_method.
    destruct (bool_decide _) eqn:Hlink; simpl.
    + eexists. split; [reflexivity|]. simpl.
      erewrite single_after_insert; [|exact Habsent|reflexivity]. exact Hlink.
    + unfold has_paper in *. simpl. rewrite Hp. simpl.
      unfold has_method. simpl. rewrite fmap_app. simpl.
      rewrite bool_decide_eq_true_2 by set_solver. simpl.
      eexists. split; [reflexivity|]. simpl.
      erewrite single_after_insert; [|exact Habsent|reflexivity].
      apply bool_decide_eq_true. unfold method_links. simpl. rewrite fmap_app. set_solver.
Qed.

Lemma store_dataset_persists w paper d st :
  quiet w -> unique_keys (st_store st) -> has_paper (st_store st) paper = true ->
  exists st', store_dataset w paper d st = (Ok tt, st')
              /\ dataset_persisted paper (st_store st') d = true.
Proof.
  intros Hq (_ & _ & Hu) Hp.
  unfold store_dataset, getDatasetByName, insertDataset, linkPaperToDataset.
  unfold dataset_persisted.
  run_monad. rewrite !Hq.
  destruct (single (select_eq dataset_name (ed_name d) (datasets (st_store st))))
    as [e|] eqn:Hs; simpl; rewrite ?Hq.
  - destruct (single_some_member _ _ _ _ Hs) as [He _].
    unfold sql_insert_paper_dataset.
    destruct (bool_decide _) eqn:Hlink; simpl.
    + eexists. split; [reflexivity|]. simpl. rewrite Hs. exact Hlink.
    + rewrite Hp. simpl.
      assert (Hhas : has_dataset (st_store st) (dataset_id e) = true).
      { apply bool_decide_eq_true. apply list_elem_of_fmap. eauto. }
      rewrite Hhas. simpl. eexists. split; [reflexivity|]. simpl. rewrite Hs.
      apply bool_decide_eq_true. unfold dataset_links. simpl. rewrite fmap_app. set_solver.
  - pose proof (single_none_absent _ _ _ Hu Hs) as Habsent.
    unfold sql_insert_dataset.
    rewrite (bool_decide_eq_false_2 _ Habsent). simpl. rewrite Hp. simpl. rewrite !Hq.
    unfold sql_insert_paper_dataset.
    destruct (bool_decide _) eqn:Hlink; simpl.
    + eexists. split; [reflexivity|]. simpl.
      erewrite single_after_insert; [|exact Habsent|reflexivity]. exact Hlink.
    + unfold has_paper in *. simpl. rewrite Hp. simpl.
      unfold has_dataset. simpl. rewrite fmap_app. simpl.
      rewrite bool_decide_eq_true_2 by set_solver. simpl.
      eexists. split; [reflexivity|]. simpl.
      erewrite single_after_insert; [|exact Habsent|reflexivity].
      apply bool_decide_eq_true. unfold dataset_links. simpl. rewrite fmap_app. set_solver.
Qed.

Lemma growing_unique_inserts s0 :
  inserts_respect (fun s => grows s0 s /\ unique_keys s).
Proof. apply inserts_respect_and; [apply grows_inserts|apply unique_keys_inserts]. Qed.

(** A loop whose every turn persists its item persists them all: what an
    earlier turn stored is still found after the later ones. *)
Lemma for_each_persists {A : Type} (paper : string) (body : A -> M unit) (ok : A -> Prop)
      (persisted : Store -> A -> bool) :
  (forall x st, unique_keys (st_store st) -> has_paper (st_store st) paper = true -> ok x ->
     exists st', body x st = (Ok tt, st') /\ persisted (st_store st') x = true) ->
  (forall s0 x, keeps (fun s => grows s0 s /\ unique_keys s) (body x) anything) ->
  (forall x s s', grows s s' -> unique_keys s' ->
                  persisted s x = true -> persisted s' x = true) ->
  forall l st,
    unique_keys (st_store st) -> has_paper (st_store st) paper = true -> Forall ok l ->
    exists st', for_each l body st = (Ok tt, st')
                /\ grows (st_store st) (st_store st') /\ unique_keys (st_store st')
                /\ Forall (fun x => persisted (st_store st') x = true) l.
Proof.
  intros Hbody Hkeeps Hstable. induction l as [|x l IH]; intros st Hu Hp Hall.
  - exists st. split; [reflexivity|]. split; [apply grows_refl|]. split; [done|constructor].
  - apply Forall_cons in Hall as [Hx Hall].
    destruct (Hbody x st Hu Hp Hx) as (st1 & Hrun & Hpx).
    destruct (Hkeeps (st_store st) x st (conj (grows_refl _) Hu)) as [[Hg1 Hu1] _].
    rewrite Hrun in Hg1, Hu1. simpl in Hg1, Hu1.
    assert (Hp1 : has_paper (st_store st1) paper = true).
    { eapply has_paper_more; [|exact Hp]. apply Hg1. }
    destruct (IH st1 Hu1 Hp1 Hall) as (st2 & Hrest & Hg2 & Hu2 & Hpl).
    exists st2. simpl. unfold bind. rewrite Hrun, Hrest. split; [reflexivity|].
    split; [eapply grows_trans; eassumption|]. split; [done|].
    constructor; [|done]. eapply Hstable; eassumption.
Qed.

Lemma Forall_forallb {A : Type} (p : A -> bool) (l : list A) :
  Forall (fun x => p x = true) l -> forallb p l = true.
Proof. induction 1 as [|x l Hx _ IH]; simpl; [reflexivity|]. by rewrite Hx, IH. Qed.

Lemma Forall_persisted_stable {A : Type} (persisted : Store -> A -> bool) (l : list A) s s' :
  (forall x, persisted s x = true -> persisted s' x = true) ->
  Forall (fun x => persisted s x = true) l -> Forall (fun x => persisted s' x = true) l.
Proof. intros H Hl. eapply Forall_impl; [exact Hl|exact H]. Qed.

Lemma storeEntities_persists_all w paper entities st :
  quiet w -> unique_keys (st_store st) -> has_paper (st_store st) paper = true ->
  Forall (fun c => valid_concept c = true) (ee_concepts entities) ->
  exists st',
    storeEntities w paper entities st = (Ok tt, st')
    /\ fully_persisted paper entities (st_store st') = true
    /\ unique_keys (st_store st')
    /\ grows (st_store st) (st_store st').
Proof.
  intros Hq Hu Hp Hv.
  unfold storeEntities, try_catch, bind at 1, agent_log at 1, write_log at 1.
  set (st0 := {| st_store := st_store st; st_tick := st_tick st; st_log := _ |}).
  assert (Hw : forall s0, workers_respect (fun s => grows s0 s /\ unique_keys s) w)
    by (intros s0; by apply quiet_respects).
  destruct (for_each_persists paper (store_concept w paper)
              (fun c => valid_concept c = true) (concept_persisted paper)
              (fun x s Hu' Hp' Hx => store_concept_persists w paper x s Hq Hu' Hp' Hx)
              (fun s0 x => invariant_store_concept _ w (growing_unique_inserts s0) (Hw s0)
                             paper x)
              (concept_persisted_stable paper)
              (ee_concepts entities) st0 Hu Hp Hv)
    as (st1 & Hrun1 & Hg1 & Hu1 & Hc).
  assert (Hp1 : has_paper (st_store st1) paper = true).
  { eapply has_paper_more; [|exact Hp]. apply Hg1. }
  destruct (for_each_persists paper (store_method w paper)
              (fun _ => True) (method_persisted paper)
              (fun x s Hu' Hp' _ => store_method_persists w paper x s Hq Hu' Hp')
              (fun s0 x => invariant_store_method _ w (growing_unique_inserts s0) (Hw s0)
                             paper x)
              (method_persisted_stable paper)
              (ee_methods entities) st1 Hu1 Hp1)
    as (st2 & Hrun2 & Hg2 & Hu2 & Hm); [by apply Forall_true|].
  assert (Hp2 : has_paper (st_store st2) paper = true).
  { eapply has_paper_more; [|exact Hp1]. apply Hg2. }
  destruct (for_each_persists paper (store_dataset w paper)
              (fun _ => True) (dataset_persisted paper)
              (fun x s Hu' Hp' _ => store_dataset_persists w paper x s Hq Hu' Hp')
              (fun s0 x => invariant_store_dataset _ w (growing_unique_inserts s0) (Hw s0)
                             paper x)
              (dataset_persisted_stable paper)
              (ee_datasets entities) st2 Hu2 Hp2)
    as (st3 & Hrun3 & Hg3 & Hu3 & Hd); [by apply Forall_true|].
  eexists. unfold bind. rewrite Hrun1, Hrun2, Hrun3. simpl.
  split; [reflexivity|]. simpl. split; [|split; [done|]].
  - unfold fully_persisted.
    rewrite (Forall_forallb (concept_persisted paper (st_store st3))),
      (Forall_forallb (method_persisted paper (st_store st3))),
      (Forall_forallb (dataset_persisted paper (st_store st3))); [reflexivity|done| |].
    + eapply Forall_persisted_stable; [|exact Hm].
      intros x. by apply method_persisted_stable.
    + eapply Forall_persisted_stable; [|exact Hc].
      intros x. apply concept_persisted_stable; [|done]. eapply grows_trans; eassumption.
  - eapply grows_trans; [exact Hg1|]. eapply grows_trans; eassumption.
Qed.

(** X17. In a world without other writers, on a store whose keys are
    unique and that holds the paper, the persistence step stores every
    concept that satisfies the check constraints, every method and every
    dataset: afterwards each is in its table under its key and linked to
    the paper, also those that share a key with an earlier item of the same
    run.  The step only adds rows and keeps the keys unique. *)
Theorem storeEntities_persists (w : World) (paper : string) (entities : ExtractedEntities)
        (st : State) :
  quiet w -> unique_keys (st_store st) -> has_paper (st_store st) paper = true ->
  Forall (fun c => valid_concept c = true) (ee_concepts entities) ->
  exists st',
    storeEntities w paper entities st = (Ok tt, st')
    /\ fully_persisted paper entities (st_store st') = true
    /\ unique_keys (st_store st')
    /\ grows (st_store st) (st_store st').
Proof. apply storeEntities_persists_all. Qed.

Lemma two_papers_unique : unique_keys (st_store two_papers).
Proof. repeat split; apply NoDup_nil_2. Qed.

Lemma storeEntities_persists_witness :
  fully_persisted "uuid-0" sample_entities (st_store stored_once) = true.
Proof.
  destruct (storeEntities_persists quiet_world "uuid-0" sample_entities two_papers)
    as (st' & Hrun & Hp & _).
  - apply quiet_world_quiet.
  - apply two_papers_unique.
  - reflexivity.
  - repeat constructor.
  - unfold stored_once. rewrite Hrun. exact Hp.
Defined.

(* ===================================================================== *)
(** * agents/ValidatorAgent.ts: a reader of the database                  *)
(* ===================================================================== *)

(** ** Steps that only look *)

Lemma observes_ret {A : Type} (P : Store -> Prop) (a : A) (R : Store -> A -> Prop) :
  (forall s, P s -> R s a) -> observes P (ret a) R.
Proof. intros H st HP. exists a, st. auto. Qed.

Lemma observes_bind {A B : Type} (P : Store -> Prop) (m : M A) (k : A -> M B)
      (R1 : Store -> A -> Prop) (R2 : Store -> B -> Prop) :
  observes P m R1 -> (forall a, observes (fun s => P s /\ R1 s a) (k a) R2) ->
  observes P (bind m k) R2.
Proof.
  intros Hm Hk st HP. destruct (Hm st HP) as (a & st1 & Hrun & Hs & HR).
  destruct (Hk a st1) as (b & st2 & Hrun2 & Hs2 & HR2); [rewrite Hs; auto|].
  exists b, st2. unfold bind. rewrite Hrun, Hrun2. rewrite Hs in *. auto.
Qed.

Lemma observes_try {A : Type} (P : Store -> Prop) (m : M A) (h : Exn -> M A)
      (R : Store -> A -> Prop) :
  observes P m R -> observes P (try_catch m h) R.
Proof.
  intros Hm st HP. destruct (Hm st HP) as (a & st1 & Hrun & Hs & HR).
  exists a, st1. unfold try_catch. rewrite Hrun. auto.
Qed.

Lemma observes_weaken {A : Type} (P P' : Store -> Prop) (m : M A)
      (R R' : Store -> A -> Prop) :
  observes P m R -> (forall s, P' s -> P s) -> (forall s a, P' s -> R s a -> R' s a) ->
  observes P' m R'.
Proof.
  intros Hm HP HR st HP'. destruct (Hm st (HP _ HP')) as (a & st1 & Hrun & Hs & Ha).
  exists a, st1. auto.
Qed.

Lemma observes_log (P : Store -> Prop) msg : observes P (agent_log msg) (fun _ _ => True).
Proof. intros st HP. eexists _, _. split; [reflexivity|]. auto. Qed.

Lemma observes_db_read {A : Type} (P : Store -> Prop) w (q : Store -> A) :
  quiet w -> observes P (db_read w q) (fun s a => a = q s).
Proof.
  intros Hq st HP. eexists _, _. unfold db_read, db_call. split; [reflexivity|].
  simpl. rewrite Hq. auto.
Qed.

(** A log line followed by a value. *)
Lemma observes_log_then {A : Type} (P : Store -> Prop) msg (a : A) (R : Store -> A -> Prop) :
  (forall s, P s -> R s a) -> observes P (agent_log msg ;;; ret a) R.
Proof. intros H st HP. eexists _, _. split; [reflexivity|]. auto. Qed.

(** ** Groups under unique keys *)

Lemma group_push_fresh {V : Type} (groups : list (string * list V)) (k : string) (v : V) :
  k ∉ groups.*1 -> group_push groups k v = groups ++ [(k, [v])].
Proof.
  induction groups as [|[k' vs] groups IH]; intros Hk; simpl; [reflexivity|].
  rewrite fmap_cons, not_elem_of_cons in Hk. destruct Hk as [Hne Hk]. simpl in Hne.
  destruct (decide (k' = k)); [congruence|]. rewrite IH by done. reflexivity.
Qed.

Lemma group_rows_from {V : Type} (key : V -> string) (rows : list V) :
  forall groups,
    NoDup (groups.*1 ++ (key <$> rows)) ->
    foldl (fun groups row => group_push groups (key row) row) groups rows
    = groups ++ ((fun r => (key r, [r])) <$> rows).
Proof.
  induction rows as [|x rows IH]; intros groups Hnd; simpl.
  - by rewrite app_nil_r.
  - rewrite group_push_fresh.
    + rewrite IH; [by rewrite <- app_assoc|].
      rewrite fmap_app. simpl. rewrite <- app_assoc. exact Hnd.
    + apply NoDup_app in Hnd as (_ & Hdisj & _). intros Hin.
      apply (Hdisj _ Hin). rewrite fmap_cons. left.
Qed.

Lemma group_rows_unique {V : Type} (key : V -> string) (rows : list V) :
  NoDup (key <$> rows) -> group_rows key rows = (fun r => (key r, [r])) <$> rows.
Proof. intros Hnd. unfold group_rows. by rewrite group_rows_from. Qed.

Lemma report_groups_single {V : Type} (P : Store -> Prop) what
      (entry : string -> nat -> list V -> Duplicate) (key : V -> string) (rows : list V) :
  observes P (report_groups what entry ((fun r => (key r, [r])) <$> rows))
           (fun _ found => found = []).
Proof.
  induction rows as [|x rows IH]; simpl.
  - by apply observes_ret.
  - eapply observes_bind; [apply (observes_ret _ _ (fun _ found => found = [])); auto|].
    intros found. eapply observes_bind.
    + eapply observes_weaken; [apply IH|tauto|]. intros s a _ H. exact H.
    + intros more. apply observes_ret. intros s [[_ ->] ->]. reflexivity.
Qed.

(** ** Similar names *)

Lemma similar_to_reports (s : Store) (entity1 : Concept) (later : list Concept) :
  entity1 ∈ concepts s -> (forall c, c ∈ later -> c ∈ concepts s) ->
  observes (fun s' => s' = s) (similar_to entity1 later)
           (fun _ found => Forall (reports_similar s) found).
Proof.
  intros H1. induction later as [|entity2 rest IH]; intros Hin; simpl.
  - apply observes_ret. constructor.
  - eapply observes_bind with (R1 := fun _ found => Forall (reports_similar s) found).
    + destruct (decide _) as [|Hne]; [apply observes_ret; constructor|].
      destruct (areSimilarEntities _ _ _) eqn:Hsim; [|apply observes_ret; constructor].
      apply observes_log_then. intros _ _. constructor; [|constructor].
      exists entity1, entity2. repeat split; auto. apply Hin. left.
    + intros found. eapply observes_bind.
      * eapply observes_weaken; [apply IH|..].
        { intros c Hc. apply Hin. by right. }
        { intros s' H. apply H. }
        { intros s' a _ H. exact H. }
      * intros more. apply observes_ret. intros s' [[_ Hf] Hm]. by apply Forall_app.
Qed.

Lemma similar_pairs_reports (s : Store) (entities : list Concept) :
  (forall c, c ∈ entities -> c ∈ concepts s) ->
  observes (fun s' => s' = s) (similar_pairs entities)
           (fun _ found => Forall (reports_similar s) found).
Proof.
  induction entities as [|entity1 later IH]; intros Hin; simpl.
  - apply observes_ret. constructor.
  - eapply observes_bind.
    + apply similar_to_reports; [apply Hin; left|]. intros c Hc. apply Hin. by right.
    + intros found. eapply observes_bind.
      * eapply observes_weaken; [apply IH|..].
        { intros c Hc. apply Hin. by right. }
        { intros s' H. apply H. }
        { intros s' a _ H. exact H. }
      * intros more. apply observes_ret. intros s' [[_ Hf] Hm]. by apply Forall_app.
Qed.

Lemma checkDuplicates_reports w (s : Store) (entities : Value) :
  quiet w -> unique_keys s ->
  observes (fun s' => s' = s) (checkDuplicates w entities)
           (fun _ found => Forall (reports_similar s) found).
Proof.
  intros Hq (Hc & Hm & _). unfold checkDuplicates.
  eapply observes_bind; [apply observes_log|]. intros [].
  apply observes_try.
  eapply observes_bind; [by apply observes_db_read|]. intros allConcepts.
  eapply observes_bind with (R1 := fun _ found => found = []).
  { intros st [[Hs _] ->]. rewrite group_rows_unique by (rewrite Hs; done).
    apply (report_groups_single (fun _ => True) "concepts" _ concept_normalized_name
             (concepts (st_store st)) st I). }
  intros conceptDuplicates.
  eapply observes_bind; [by apply observes_db_read|]. intros allMethods.
  eapply observes_bind with (R1 := fun _ found => found = []).
  { intros st [[[[Hs _] _] _] ->]. rewrite group_rows_unique by (rewrite Hs; done).
    apply (report_groups_single (fun _ => True) "methods" _ method_normalized_name
             (methods (st_store st)) st I). }
  intros methodDuplicates.
  unfold checkSimilarEntities. apply observes_try.
  intros st [[[[[Hs _] ->] ->] _] ->].
  destruct (similar_pairs_reports (st_store st) (concepts (st_store st)) ltac:(auto) st eq_refl)
    as (found & st' & Hrun & Hstore & Hall).
  exists found, st'. unfold bind. rewrite Hrun. simpl. rewrite <- Hs. auto.
Qed.

(** ** Primary keys *)

Lemma uuid_inj a b : uuid a = uuid b -> a = b.
Proof. unfold uuid. intros H. apply String.app_inj in H. by apply pretty_nat_inj in H. Qed.

Lemma paper_keys_inserts : inserts_respect paper_keys.
Proof.
  assert (Hmore : forall s ps n,
             paper_keys s -> ps = papers s -> uuid_counter s <= n ->
             NoDup (paper_id <$> ps)
             /\ forall id, id ∈ paper_id <$> ps -> exists k, k < n /\ id = uuid k).
  { intros s ps n [Hnd Hk] -> Hn. split; [done|]. intros id Hid.
    destruct (Hk id Hid) as (k & Hlt & ->). exists k. split; [lia|done]. }
  split; intros until s; intros HI; unfold paper_keys.
  - unfold sql_insert_paper. open_insert. destruct HI as [Hnd Hk]. split.
    + rewrite fmap_app. apply NoDup_snoc; [done|]. simpl. intros Hin.
      destruct (Hk _ Hin) as (k & Hlt & E). apply uuid_inj in E. lia.
    + intros id Hid. rewrite fmap_app in Hid. apply elem_of_app in Hid as [Hid|Hid].
      * destruct (Hk id Hid) as (k & Hlt & ->). exists k. split; [lia|done].
      * apply list_elem_of_singleton in Hid as ->. exists (uuid_counter s). split; [lia|done].
  - unfold sql_insert_concept. open_insert. apply (Hmore s); auto.
  - unfold sql_insert_method. open_insert. apply (Hmore s); auto.
  - unfold sql_insert_dataset. open_insert. apply (Hmore s); auto.
  - unfold sql_insert_paper_concept. open_insert. apply (Hmore s); auto.
  - unfold sql_insert_paper_method. open_insert. apply (Hmore s); auto.
  - unfold sql_insert_paper_dataset. open_insert. apply (Hmore s); auto.
  - unfold sql_insert_improvement. open_insert. apply (Hmore s); auto.
Qed.

Lemma paper_keys_empty : paper_keys empty_store.
Proof. split; [apply NoDup_nil_2|]. intros id Hid. by apply elem_of_nil in Hid. Qed.

(** ** Consistency *)

Lemma check_links_clean (P : Store -> Prop) show (links : list (PaperConcept * option Concept)) :
  (forall l c, (l, c) ∈ links -> check_confidence (pic_confidence l) = true /\ c <> None) ->
  observes P (check_links show links) (fun _ bad => bad = false).
Proof.
  induction links as [|[l c] links IH]; intros Hok; simpl.
  - by apply observes_ret.
  - destruct (Hok l c ltac:(left)) as [Hconf Hc].
    rewrite Hconf. simpl. destruct c as [c|]; [|done].
    eapply observes_bind; [apply (observes_ret _ _ (fun _ b => b = false)); auto|].
    intros b1. eapply observes_bind; [apply (observes_ret _ _ (fun _ b => b = false)); auto|].
    intros b2. eapply observes_bind.
    + eapply observes_weaken; [apply IH|..]; [|tauto|intros s a _ H; exact H].
      intros l' c' Hin. apply Hok. by right.
    + intros b3. apply observes_ret. intros s [[[_ ->] ->] ->]. reflexivity.
Qed.

Lemma check_improvements_clean (P : Store -> Prop) show
      (rows : list (ConceptImprovement * option Concept * option Concept)) :
  (forall r n o, (r, n, o) ∈ rows ->
                 check_confidence (imp_confidence r) = true /\ n <> None /\ o <> None) ->
  observes P (check_improvements show rows)
           (fun _ bad =>
              bad = existsb (fun x => bool_decide (imp_new_concept x.1.1 = imp_old_concept x.1.1))
                            rows).
Proof.
  induction rows as [|[[r n] o] rows IH]; intros Hok; simpl.
  - by apply observes_ret.
  - destruct (Hok r n o ltac:(left)) as (Hconf & Hn & Ho).
    rewrite Hconf. simpl. destruct n as [n|]; [|done]. destruct o as [o|]; [|done].
    eapply observes_bind; [apply (observes_ret _ _ (fun _ b => b = false)); auto|].
    intros b1. eapply observes_bind; [apply (observes_ret _ _ (fun _ b => b = false)); auto|].
    intros b2.
    eapply observes_bind
      with (R1 := fun _ b => b = bool_decide (imp_new_concept r = imp_old_concept r)).
    { destruct (decide (imp_new_concept r = imp_old_concept r)) as [E|E].
      - apply observes_log_then. intros. by rewrite bool_decide_eq_true_2.
      - apply observes_ret. intros. by rewrite bool_decide_eq_false_2. }
    intros b3. eapply observes_bind.
    + eapply observes_weaken; [apply IH|..]; [|tauto|intros s a _ H; exact H].
      intros r' n' o' Hin. apply Hok. by right.
    + intros b4. apply observes_ret. intros s [[[[_ ->] ->] ->] ->]. reflexivity.
Qed.

Lemma concept_of_known s id : has_concept s id = true -> concept_of s id <> None.
Proof.
  unfold has_concept, concept_of. rewrite bool_decide_eq_true. intros Hin.
  apply list_elem_of_fmap in Hin as (c & -> & Hc).
  assert (Hsel : c ∈ select_eq concept_id (concept_id c) (concepts s)).
  { unfold select_eq. by apply list_elem_of_filter. }
  destruct (select_eq _ _ _); [by apply elem_of_nil in Hsel|discriminate].
Qed.

Lemma existsb_fmap {A B : Type} (f : A -> B) (p : B -> bool) (l : list A) :
  existsb p (f <$> l) = existsb (fun x => p (f x)) l.
Proof.
  induction l as [|x l IH]; [reflexivity|]. rewrite fmap_cons. cbn [existsb]. by rewrite IH.
Qed.

Lemma checkConsistency_verdict w show (s : Store) (paperId : string) :
  quiet w -> schema_ok s -> NoDup (paper_id <$> papers s) ->
  observes (fun s' => s' = s) (checkConsistency w show paperId)
           (fun _ consistent =>
              consistent = has_paper s paperId && negb (self_improving s)).
Proof.
  intros Hq (_ & _ & Hpic & Himp) Hnd. unfold checkConsistency.
  eapply observes_bind; [apply observes_log|]. intros [].
  apply observes_try.
  eapply observes_bind; [by apply observes_db_read|]. intros paper.
  destruct paper as [paper|].
  - eapply observes_bind; [by apply observes_db_read|]. intros conceptLinks.
    eapply observes_bind with (R1 := fun _ bad => bad = false).
    { intros st [[[Hs _] Hpaper] ->].
      apply (check_links_clean (fun _ => True)); [|done].
      intros l c Hin. apply list_elem_of_fmap in Hin as (l' & [= <- ->] & Hl).
      unfold select_eq in Hl. apply list_elem_of_filter in Hl as [_ Hl].
      rewrite Hs in *. destruct (Hpic l Hl) as [? Hc]. split; [done|].
      by apply concept_of_known. }
    intros bad_links.
    eapply observes_bind; [by apply observes_db_read|]. intros improvements.
    eapply observes_bind
      with (R1 := fun s' bad => bad = self_improving s').
    { intros st [[[[[Hs _] Hpaper] _] _] ->].
      destruct (check_improvements_clean (fun _ => True) show
                  ((fun r => (r, concept_of (st_store st) (imp_new_concept r),
                              concept_of (st_store st) (imp_old_concept r)))
                     <$> concept_improves_concept (st_store st))) with (st := st)
        as (bad & st' & Hrun & Hstore & Hbad); [|done|].
      - intros r n o Hin. apply list_elem_of_fmap in Hin as (r' & [= <- -> ->] & Hr).
        rewrite Hs in *. destruct (Himp r Hr) as (? & Hn & Ho).
        split; [done|]. split; by apply concept_of_known.
      - exists bad, st'. split; [done|]. split; [done|].
        rewrite Hbad, existsb_fmap. reflexivity. }
    intros bad_improvements. apply observes_ret.
    intros s' [[[[[[-> _] Hpaper] _] ->] _] ->]. simpl.
    destruct (single_some_member _ _ _ _ (eq_sym Hpaper)) as [Hin <-].
    unfold has_paper. rewrite bool_decide_eq_true_2; [reflexivity|].
    apply list_elem_of_fmap. eauto.
  - apply observes_log_then. intros s' [[-> _] Hpaper].
    pose proof (single_none_absent _ _ _ Hnd (eq_sym Hpaper)) as Habsent.
    unfold has_paper. by rewrite bool_decide_eq_false_2.
Qed.

(** ** Conflicts *)

Lemma count_push_fresh (counts : list (string * nat)) (k : string) :
  k ∉ counts.*1 -> count_push counts k = counts ++ [(k, 1)].
Proof.
  induction counts as [|[k' n] counts IH]; intros Hk; simpl; [reflexivity|].
  rewrite fmap_cons, not_elem_of_cons in Hk. destruct Hk as [Hne Hk]. simpl in Hne.
  destruct (decide (k' = k)); [congruence|]. rewrite IH by done. reflexivity.
Qed.

Lemma count_links_from (links : list PaperConcept) :
  forall counts,
    NoDup (counts.*1 ++ (pic_concept_id <$> links)) ->
    foldl (fun counts link => count_push counts (pic_concept_id link)) counts links
    = counts ++ ((fun l => (pic_concept_id l, 1)) <$> links).
Proof.
  induction links as [|x links IH]; intros counts Hnd; simpl.
  - by rewrite app_nil_r.
  - rewrite count_push_fresh.
    + rewrite IH; [by rewrite <- app_assoc|].
      rewrite fmap_app. simpl. rewrite <- app_assoc. exact Hnd.
    + apply NoDup_app in Hnd as (_ & Hdisj & _). intros Hin.
      apply (Hdisj _ Hin). rewrite fmap_cons. left.
Qed.

Lemma report_counts_single (P : Store -> Prop) (links : list PaperConcept) :
  observes P (report_counts ((fun l => (pic_concept_id l, 1)) <$> links))
           (fun _ found => found = []).
Proof.
  induction links as [|x links IH]; simpl.
  - by apply observes_ret.
  - eapply observes_bind; [apply (observes_ret _ _ (fun _ found => found = [])); auto|].
    intros found. eapply observes_bind.
    + eapply observes_weaken; [apply IH|tauto|]. intros s a _ H. exact H.
    + intros more. apply observes_ret. intros s [[_ ->] ->]. reflexivity.
Qed.

(** The links of one paper lead to different concepts. *)
Lemma links_of_paper_unique (links : list PaperConcept) (paperId : string) :
  NoDup ((fun l => (pic_paper_id l, pic_concept_id l)) <$> links) ->
  NoDup (pic_concept_id <$> select_eq pic_paper_id paperId links).
Proof.
  induction links as [|x links IH]; intros Hnd.
  - apply NoDup_nil_2.
  - rewrite fmap_cons in Hnd. apply NoDup_cons in Hnd as [Hx Hnd].
    unfold select_eq in *. rewrite filter_cons.
    destruct (decide (pic_paper_id x = paperId)) as [E|_]; [|by apply IH].
    rewrite fmap_cons. apply NoDup_cons. split; [|by apply IH].
    intros Hin. apply Hx. apply list_elem_of_fmap in Hin as (y & Hy & Hin).
    apply list_elem_of_filter in Hin as [Hp Hin].
    apply list_elem_of_fmap. exists y. split; [|done]. congruence.
Qed.

Lemma checkCircularImprovements_observes w (s : Store) (conflicts : list Conflict) :
  quiet w ->
  observes (fun s' => s' = s) (checkCircularImprovements w conflicts)
           (fun _ result =>
              exists found, result = conflicts ++ found /\ only_circular found
                            /\ (found <> [] <-> has_cycle (improvement_edges s))).
Proof.
  intros Hq st <-.
  destruct (detect_cycles_correct (improvement_edges (st_store st)) conflicts)
    as (found & Hrun & Hall & Hiff).
  eexists _, _. unfold checkCircularImprovements, try_catch, bind, db_read, db_call. simpl.
  rewrite Hq. unfold improvement_edges in Hrun. rewrite Hrun. split; [reflexivity|].
  split; [reflexivity|]. eauto.
Qed.

Lemma resolveConflicts_verdict w accepted (s : Store) (paperId : string) :
  quiet w -> schema_ok s ->
  observes (fun s' => s' = s) (resolveConflicts w accepted paperId)
           (fun _ conflicts =>
              only_circular conflicts
              /\ (conflicts <> [] <-> has_cycle (improvement_edges s))).
Proof.
  intros Hq (_ & Hlinks & _). unfold resolveConflicts.
  eapply observes_bind; [apply observes_log|]. intros [].
  apply observes_try.
  eapply observes_bind; [by apply observes_db_read|]. intros conceptLinks.
  eapply observes_bind with (R1 := fun _ found => found = []).
  { intros st [[Hs _] ->]. destruct accepted; [|by eexists _, _].
    rewrite (count_links_from _ []).
    - apply (report_counts_single (fun _ => True) _ st I).
    - simpl. apply links_of_paper_unique. rewrite Hs. exact Hlinks. }
  intros duplicates.
  eapply observes_weaken; [by apply (checkCircularImprovements_observes w s)|..].
  - intros s' H. apply H.
  - intros s' conflicts [_ ->] (found & -> & Hall & Hiff). auto.
Qed.

(** ** The verdict *)

Lemma validateInput_accepts (paperId : string) (entities relationships : Value) st :
  entities <> VUndefined -> entities <> VNull ->
  relationships <> VUndefined -> relationships <> VNull ->
  validateInput (validator_input paperId entities relationships)
                ["paperId"; "entities"; "relationships"] st = (Ok tt, st).
Proof.
  intros He He' Hr Hr'. unfold validator_input. simpl.
  destruct entities; try done; destruct relationships; done.
Qed.

Lemma validate_verdict w accepted show (s : Store) (paperId : string)
      (entities relationships : Value) :
  quiet w -> schema_ok s -> NoDup (paper_id <$> papers s) ->
  entities <> VUndefined -> entities <> VNull ->
  relationships <> VUndefined -> relationships <> VNull ->
  observes (fun s' => s' = s)
           (validate w accepted show (validator_input paperId entities relationships))
           (fun _ results =>
              Forall (reports_similar s) (vr_duplicates results)
              /\ vr_consistency results = has_paper s paperId && negb (self_improving s)
              /\ only_circular (vr_conflicts results)
              /\ (vr_conflicts results <> [] <-> has_cycle (improvement_edges s))
              /\ vr_isValid results
                 = negb (5 <? length (vr_duplicates results)) && vr_consistency results).
Proof.
  intros Hq Hok Hnd He He' Hr Hr'. unfold validate.
  eapply observes_bind; [apply observes_log|]. intros [].
  eapply observes_bind with (R1 := fun _ _ => True).
  { intros st _. rewrite validateInput_accepts by done. by eexists _, _. }
  intros []. apply observes_try.
  eapply observes_bind.
  { eapply observes_weaken; [apply (checkDuplicates_reports w s); [done|apply Hok]|..].
    - intros s' H. apply H.
    - intros s' a _ H. exact H. }
  intros duplicates. eapply observes_bind.
  { eapply observes_weaken; [by apply (checkConsistency_verdict w show s paperId)|..].
    - intros s' H. apply H.
    - intros s' a _ H. exact H. }
  intros consistency. eapply observes_bind.
  { eapply observes_weaken; [by apply (resolveConflicts_verdict w accepted s paperId)|..].
    - intros s' H. apply H.
    - intros s' a _ H. exact H. }
  intros conflicts.
  destruct ((5 <? length duplicates) || negb consistency) eqn:Hbad.
  - apply observes_log_then. intros s' [[[_ Hd] Hc] [Ho Hi]]. simpl.
    repeat split; try done; try apply Hi.
    symmetry. apply negb_true_iff. rewrite negb_andb, negb_involutive. exact Hbad.
  - apply observes_log_then. intros s' [[[_ Hd] Hc] [Ho Hi]]. simpl.
    repeat split; try done; try apply Hi.
    symmetry. apply negb_false_iff. rewrite negb_andb, negb_involutive. exact Hbad.
Qed.

(** X18. On a store that obeys the constraints of the schema the
    validator, in a world without other writers and for an input whose
    fields are given, returns a verdict and leaves the store as it was.  It
    reports no exact duplicate and no duplicate link: every duplicate is a
    pair of concepts with different keys and similar names, every conflict
    a circular improvement, present exactly when the improvement edges have
    a cycle.  The store is found consistent exactly when it holds the paper
    and no edge joins a concept to itself, and valid exactly when it is
    consistent and at most five pairs are similar. *)
Theorem validate_on_schema (w : World) (count_select_accepted : bool)
        (show_number : Q -> string) (paperId : string) (entities relationships : Value)
        (st : State) :
  quiet w -> schema_ok (st_store st) -> NoDup (paper_id <$> papers (st_store st)) ->
  entities <> VUndefined -> entities <> VNull ->
  relationships <> VUndefined -> relationships <> VNull ->
  exists results st',
    validate w count_select_accepted show_number
             (validator_input paperId entities relationships) st
    = (Ok results, st')
    /\ st_store st' = st_store st
    /\ Forall (reports_similar (st_store st)) (vr_duplicates results)
    /\ vr_consistency results
       = has_paper (st_store st) paperId && negb (self_improving (st_store st))
    /\ only_circular (vr_conflicts results)
    /\ (vr_conflicts results <> [] <-> has_cycle (improvement_edges (st_store st)))
    /\ vr_isValid results
       = negb (5 <? length (vr_duplicates results)) && vr_consistency results.
Proof.
  intros Hq Hok Hnd He He' Hr Hr'.
  destruct (validate_verdict w count_select_accepted show_number (st_store st) paperId
              entities relationships Hq Hok Hnd He He' Hr Hr' st eq_refl)
    as (results & st' & Hrun & Hstore & Hres).
  exists results, st'. auto.
Qed.

Lemma mapped_state_reachable : reachable eager_world mapped_state.
Proof.
  unfold mapped_state, extracted_state. repeat apply reachable_step. apply reachable_start.
Qed.

Lemma eager_world_quiet : quiet eager_world.
Proof. intros t s. reflexivity. Qed.

Lemma validate_on_schema_witness :
  exists results st',
    validate eager_world false (fun _ => "")
             (validator_input "uuid-0" (VString "entities") (VString "relationships"))
             mapped_state
    = (Ok results, st')
    /\ st_store st' = st_store mapped_state
    /\ vr_consistency results = true
    /\ vr_conflicts results <> [].
Proof.
  assert (Hschema : schema_ok (st_store mapped_state)).
  { apply (reachable_invariant schema_ok eager_world);
      [apply schema_ok_inserts|by apply quiet_respects, eager_world_quiet
      |apply schema_ok_empty|apply mapped_state_reachable]. }
  assert (Hkeys : paper_keys (st_store mapped_state)).
  { apply (reachable_invariant paper_keys eager_world);
      [apply paper_keys_inserts|by apply quiet_respects, eager_world_quiet
      |apply paper_keys_empty|apply mapped_state_reachable]. }
  assert (Hdefined : forall s, VString s <> VUndefined) by (intros s; discriminate).
  assert (Hgiven : forall s, VString s <> VNull) by (intros s; discriminate).
  destruct (validate_on_schema eager_world false (fun _ => "") "uuid-0"
              (VString "entities") (VString "relationships") mapped_state
              eager_world_quiet Hschema (proj1 Hkeys)
              (Hdefined _) (Hgiven _) (Hdefined _) (Hgiven _))
    as (results & st' & Hrun & Hstore & _ & Hc & _ & Hcycle & _).
  exists results, st'. split; [exact Hrun|]. split; [exact Hstore|].
  split; [rewrite Hc; vm_compute; reflexivity|].
  apply Hcycle. exists "uuid-1".
  apply tc_l with "uuid-3"; [|apply tc_once]; unfold improves;
    change (improvement_edges (st_store mapped_state))
      with [("uuid-1", "uuid-3"); ("uuid-3", "uuid-1")];
    rewrite !elem_of_cons; auto.
Defined.

(** ** Whatever the store holds *)

Lemma looks_ret {A : Type} (a : A) : observes (fun _ => True) (ret a) (fun _ _ => True).
Proof. by apply observes_ret. Qed.

Lemma looks_bind {A B : Type} (m : M A) (k : A -> M B) :
  observes (fun _ => True) m (fun _ _ => True) ->
  (forall a, observes (fun _ => True) (k a) (fun _ _ => True)) ->
  observes (fun _ => True) (bind m k) (fun _ _ => True).
Proof.
  intros Hm Hk. eapply observes_bind; [exact Hm|]. intros a.
  eapply observes_weaken; [apply Hk|intros; exact I|intros; exact I].
Qed.

Lemma looks_log msg : observes (fun _ => True) (agent_log msg) (fun _ _ => True).
Proof. apply observes_log. Qed.

Lemma looks_read {A : Type} w (q : Store -> A) :
  quiet w -> observes (fun _ => True) (db_read w q) (fun _ _ => True).
Proof.
  intros Hq. eapply observes_weaken; [by apply observes_db_read|intros; exact I|intros; exact I].
Qed.

Ltac looks_step :=
  lazymatch goal with
  | |- observes _ (bind _ _) _ => apply looks_bind; [|intros ?]
  | |- observes _ (try_catch _ _) _ => apply observes_try
  | |- observes _ (ret _) _ => apply looks_ret
  | |- observes _ (agent_log _) _ => apply looks_log
  | |- observes _ (if ?b then _ else _) _ => destruct b
  end.

Lemma report_groups_looks {V : Type} what (entry : string -> nat -> list V -> Duplicate)
      (groups : list (string * list V)) :
  observes (fun _ => True) (report_groups what entry groups) (fun _ _ => True).
Proof. induction groups as [|[k vs] groups IH]; simpl; repeat looks_step; exact IH. Qed.

Lemma similar_to_looks entity1 later :
  observes (fun _ => True) (similar_to entity1 later) (fun _ _ => True).
Proof. induction later as [|e later IH]; simpl; repeat looks_step; exact IH. Qed.

Lemma similar_pairs_looks entities :
  observes (fun _ => True) (similar_pairs entities) (fun _ _ => True).
Proof.
  induction entities as [|e later IH]; simpl; repeat looks_step;
    [apply similar_to_looks|exact IH].
Qed.

Lemma check_links_looks show links :
  observes (fun _ => True) (check_links show links) (fun _ _ => True).
Proof.
  induction links as [|[l c] links IH]; simpl; repeat looks_step; exact IH.
Qed.

Lemma check_improvements_looks show rows :
  observes (fun _ => True) (check_improvements show rows) (fun _ _ => True).
Proof.
  induction rows as [|[[r n] o] rows IH]; simpl; repeat looks_step; exact IH.
Qed.

Lemma report_counts_looks counts :
  observes (fun _ => True) (report_counts counts) (fun _ _ => True).
Proof. induction counts as [|[k n] counts IH]; simpl; repeat looks_step; exact IH. Qed.

Lemma checkCircularImprovements_looks w conflicts :
  quiet w ->
  observes (fun _ => True) (checkCircularImprovements w conflicts) (fun _ _ => True).
Proof.
  intros Hq st _.
  destruct (checkCircularImprovements_observes w (st_store st) conflicts Hq st eq_refl)
    as (a & st' & Hrun & Hs & _).
  exists a, st'. auto.
Qed.

Lemma validate_body_looks w accepted show input :
  quiet w ->
  observes (fun _ => True)
    (try_catch
       (duplicates <- checkDuplicates w (field_of input "entities") ;;
        consistency <- checkConsistency w show (text_of (field_of input "paperId")) ;;
        conflicts <- resolveConflicts w accepted (text_of (field_of input "paperId")) ;;
        if (5 <? length duplicates) || negb consistency
        then agent_log "Validation found critical issues" ;;;
             ret {| vr_duplicates := duplicates; vr_consistency := consistency;
                    vr_conflicts := conflicts; vr_isValid := false |}
        else agent_log "Validation passed" ;;;
             ret {| vr_duplicates := duplicates; vr_consistency := consistency;
                    vr_conflicts := conflicts; vr_isValid := true |})
       (fun e => agent_logError validator_name "Validation failed" ;;; throw e))
    (fun _ _ => True).
Proof.
  intros Hq.
  unfold checkDuplicates, checkSimilarEntities, checkConsistency, resolveConflicts.
  repeat first
    [ looks_step
    | apply looks_read; exact Hq
    | apply report_groups_looks
    | apply similar_pairs_looks
    | apply check_links_looks
    | apply check_improvements_looks
    | apply report_counts_looks
    | apply checkCircularImprovements_looks; exact Hq
    | match goal with |- observes _ (match ?x with _ => _ end) _ => destruct x end ].
Qed.

Lemma validateInput_outcome input required st :
  validateInput input required st = (Ok tt, st)
  \/ exists message, validateInput input required st = (Throw (JsError message), st).
Proof.
  induction required as [|field rest IH]; simpl; [by left|].
  destruct input as [| |s|fields]; try (right; by eexists).
  destruct (get_field fields field) as [[| | |]|]; try (right; by eexists); exact IH.
Qed.

Lemma validateInput_pure input required st :
  validateInput input required st = (fst (validateInput input required blank_state), st).
Proof.
  induction required as [|field rest IH]; simpl; [reflexivity|].
  destruct input as [| |s|fields]; try reflexivity.
  destruct (get_field fields field) as [[| | |]|]; try reflexivity; exact IH.
Qed.

(** X19. The validator never writes: in a world without other writers the
    store is the same after a validation as before, whatever the store
    holds and whatever the input; it reports and repairs nothing.  It ends
    with a verdict unless the input lacks a required field, and then with
    the error of [validateInput]. *)
Theorem validate_never_writes (w : World) (count_select_accepted : bool)
        (show_number : Q -> string) (input : Value) (st : State) :
  quiet w ->
  st_store (snd (validate w count_select_accepted show_number input st)) = st_store st
  /\ ((exists results,
         fst (validate w count_select_accepted show_number input st) = Ok results)
      \/ (exists message,
            fst (validate w count_select_accepted show_number input st)
            = Throw (JsError message)
            /\ fst (validateInput input ["paperId"; "entities"; "relationships"] st)
               = Throw (JsError message))).
Proof.
  intros Hq.
  destruct (validate w count_select_accepted show_number input st) as [outcome st1] eqn:Hv.
  unfold validate in Hv. unfold bind at 1, agent_log at 1, write_log at 1 in Hv.
  set (st0 := {| st_store := st_store st; st_tick := st_tick st; st_log := _ |}) in Hv.
  unfold bind at 1 in Hv.
  rewrite (validateInput_pure input _ st0) in Hv. rewrite (validateInput_pure input _ st).
  destruct (validateInput_outcome input ["paperId"; "entities"; "relationships"] blank_state)
    as [Hok|[message Hbad]].
  - rewrite Hok in Hv. cbn [fst] in Hv.
    destruct (validate_body_looks w count_select_accepted show_number input Hq st0 I)
      as (results & st' & Hrun & Hstore & _).
    rewrite Hrun in Hv. injection Hv as <- <-. simpl.
    split; [exact Hstore|]. left. by exists results.
  - rewrite Hbad in Hv. cbn [fst] in Hv. injection Hv as <- <-. rewrite Hbad. simpl.
    split; [reflexivity|]. right. by exists message.
Qed.

Lemma validate_never_writes_witness :
  st_store (snd (validate eager_world true (fun _ => "")
                   (VObject [("paperId", VString "uuid-0")]) mapped_state))
  = st_store mapped_state.
Proof.
  apply (validate_never_writes eager_world true (fun _ => "")
           (VObject [("paperId", VString "uuid-0")]) mapped_state).
  apply eager_world_quiet.
Defined.

(** ** The fields an agent requires *)

Lemma validateInput_given fields field rest st :
  is_given (field_of (VObject fields) field) = true ->
  validateInput (VObject fields) (field :: rest) st
  = validateInput (VObject fields) rest st.
Proof.
  simpl. by destruct (get_field fields field) as [[| | |]|].
Qed.

Lemma validateInput_missing fields field rest st :
  is_given (field_of (VObject fields) field) = false ->
  validateInput (VObject fields) (field :: rest) st
  = (Throw (JsError ("Missing required field: " +:+ field)), st).
Proof.
  simpl. by destruct (get_field fields field) as [[| | |]|].
Qed.

(** X20. [validateInput] accepts an object exactly when every required
    field is there and neither undefined nor null.  Otherwise it throws the
    error that names the first required field that is not, in the order of
    the list, and the fields after it are not looked at.  Either way
    nothing else happens. *)
Theorem validateInput_first_missing (fields : list (string * Value))
        (required : list string) (st : State) :
  (validateInput (VObject fields) required st = (Ok tt, st)
   <-> Forall (fun field => is_given (field_of (VObject fields) field) = true) required)
  /\ (forall before field after,
        required = before ++ field :: after ->
        Forall (fun f => is_given (field_of (VObject fields) f) = true) before ->
        is_given (field_of (VObject fields) field) = false ->
        validateInput (VObject fields) required st
        = (Throw (JsError ("Missing required field: " +:+ field)), st)).
Proof.
  split.
  - induction required as [|field rest IH].
    + split; [constructor|reflexivity].
    + destruct (is_given (field_of (VObject fields) field)) eqn:Hgiven.
      * rewrite validateInput_given by exact Hgiven. rewrite IH. split.
        -- intros H. by constructor.
        -- intros H. by inversion H.
      * rewrite validateInput_missing by exact Hgiven. split; [discriminate|].
        intros H. inversion H; subst. congruence.
  - intros before field after -> Hbefore Hmissing.
    induction Hbefore as [|f before Hf _ IH]; simpl app.
    + by apply validateInput_missing.
    + rewrite validateInput_given by exact Hf. exact IH.
Qed.

Example validateInput_names_first_missing :
  fst (validateInput (VObject [("paperId", VString "p"); ("entities", VUndefined)])
         ["paperId"; "entities"; "relationships"] blank_state)
  = Throw (JsError "Missing required field: entities").
Proof. reflexivity. Qed.

(** A paper read from the database without an abstract: the field is there
    and holds [null]. *)
Example validateInput_rejects_null :
  fst (validateInput (VObject [("paperId", VString "p"); ("title", VString "t");
                               ("abstract", VNull)])
         ["paperId"; "title"; "abstract"] blank_state)
  = Throw (JsError "Missing required field: abstract").
Proof. reflexivity. Qed.
